(** * GA-JGHO metaheuristic engine: a shallow embedding and its properties

    The TypeScript engine (distance utilities, the six GA-JGHO operators,
    the GAJGHO driver and the three comparator classes StandardGA, ABCTSP
    and PACO3Opt) is transcribed function by function.

    Modelling conventions.
    - A JavaScript [number] is a rational ([Q]); arithmetic is exact.
      [Math.sqrt] is a parameter of the development: no property below
      depends on what it computes.
    - An array is a [list]; [a[i]] is the lookup [a !! i], which is [None]
      where JavaScript yields [undefined]; [a[i] = v] on an index in range
      is [<[i:=v]> a].  A [Set]/[Map] keyed by [genes.join(',')] is a
      [gset]/[gmap] keyed by the gene list itself ([join] is injective on
      arrays of non-negative integers).
    - [Math.random()] reads the next element of an explicit stream of
      rationals of the interval [0,1), threaded through every randomised
      operation by a state monad.
    - A computation has no result ([None]) when the source raises a
      [TypeError], when it would go on with an [undefined] city, or when a
      [while] loop has not finished within the given fuel. *)

From Stdlib Require Import QArith Qround Lqa ZArith Lia.
From stdpp Require Import base option list sorting strings gmap sets.

Set Warnings "-clear-no-such-hyp".

(** ** Numbers *)

Definition Qltb (a b : Q) : bool := negb (Qle_bool b a).

(** A natural number as a [number]. *)
Definition Qnat (n : nat) : Q := inject_Z (Z.of_nat n).

(** [Math.floor(x)] for a non-negative [x], as an array index. *)
Definition floor_nat (x : Q) : nat := Z.to_nat (Qfloor x).

(** ** The random source *)

(** A rational of the interval [0,1): one result of [Math.random()]. *)
Record Unit01 := mkUnit01 {
  u01 : Q;
  u01_ok : Is_true (Qle_bool 0 u01 && Qltb u01 1)
}.

Definition Rng := nat → Unit01.

(** Computations that draw random numbers and may have no result. *)
Definition M (A : Type) : Type := Rng → option (A * Rng).

Definition ret {A} (a : A) : M A := λ g, Some (a, g).
Definition bind {A B} (c : M A) (k : A → M B) : M B :=
  λ g, match c g with Some (a, g') => k a g' | None => None end.
Definition fail {A} : M A := λ _, None.
Definition lift {A} (o : option A) : M A :=
  match o with Some a => ret a | None => fail end.

Notation "'let*' x := c 'in' k" := (bind c (λ x, k))
  (at level 10, x name, c at level 100, k at level 200, only parsing).
Notation "'let*' ' p := c 'in' k" := (bind c (λ x, let 'p := x in k))
  (at level 10, p pattern, c at level 100, k at level 200, only parsing).

(** [Math.random()] *)
Definition Math_random : M Q := λ g, Some (u01 (g 0), λ k, g (S k)).

(** [Math.floor(Math.random() * n)] *)
Definition randomIndex (n : nat) : M nat :=
  let* u := Math_random in ret (floor_nat (u * Qnat n)).

(** Monadic map and left fold, in array order. *)
Fixpoint mapRand {A B} (f : A → M B) (l : list A) : M (list B) :=
  match l with
  | [] => ret []
  | a :: l' => let* b := f a in let* bs := mapRand f l' in ret (b :: bs)
  end.

Fixpoint foldRand {A B} (f : B → A → M B) (b : B) (l : list A) : M B :=
  match l with
  | [] => ret b
  | a :: l' => let* b' := f b a in foldRand f b' l'
  end.

(** ** Data model (types/algorithm.ts) *)

Record City := mkCity { id : nat; x : Q; y : Q }.

Record Chromosome := mkChromosome {
  genes : list nat;
  fitness : Q;
  distance : Q
}.

Record AlgorithmParams := mkParams {
  populationSize : nat;
  maxGenerations : nat;
  eliteCount : nat;
  PfitMax : Q;
  PfitMin : Q;
  PsMax : Q;
  PsMin : Q;
  beta : Q;
  PJG : Q;
  q : nat
}.

(** [best] and [worst] are [undefined], and [average] and [diversity] are
    [NaN] (here [None]), in the snapshot of an empty population. *)
Record Population := mkPopulation {
  chromosomes : list Chromosome;
  pop_generation : nat;
  best : option Chromosome;
  worst : option Chromosome;
  average : option Q;
  diversity : option Q
}.

Record GenerationStats := mkStats {
  stat_generation : nat;
  bestDistance : Q;
  averageDistance : option Q;
  worstDistance : Q;
  stat_diversity : option Q;
  elapsedTime : Q
}.

(** A tour over [n] cities: a permutation of [0..n-1]. *)
Definition is_tour (n : nat) (g : list nat) : Prop := g ≡ₚ seq 0 n.

(** ** Distance utilities (utils/distance.ts) *)

Abbreviation Matrix := (list (list Q)).

(** [m[a][b]] for indices in range. *)
Definition entry (m : Matrix) (a b : nat) : Q :=
  default 0%Q (m !! a ≫= (.!! b)).

(** [m[i][j] = v] *)
Definition set_entry (m : Matrix) (i j : nat) (v : Q) : Matrix :=
  alter (<[j:=v]>) i m.

Definition square (n : nat) (m : Matrix) : Prop :=
  length m = n ∧ Forall (λ r, length r = n) m.

(** The cyclic length of a tour under a matrix.  The source repeats this
    loop in [calculateTotalDistanceWithMatrix], [calculateDistanceWithMatrix],
    the three [calculateFitness...] helpers and at the end of
    [twoOptOperator]. *)
Definition calculateTotalDistanceWithMatrix (gs : list nat) (m : Matrix) : Q :=
  foldl (λ total i,
           match gs !! i, gs !! ((i + 1) `mod` length gs) with
           | Some c, Some c' => (total + entry m c c')%Q
           | _, _ => total
           end) 0%Q (seq 0 (length gs)).

Definition createChromosomeWithMatrix (gs : list nat) (m : Matrix) : Chromosome :=
  let d := calculateTotalDistanceWithMatrix gs m in
  {| genes := gs; fitness := d; distance := d |}.

Section Engine.

(** [Math.sqrt] *)
Variable sqrt : Q → Q.

Definition calculateDistance (city1 city2 : City) : Q :=
  let dx := (x city1 - x city2)%Q in
  let dy := (y city1 - y city2)%Q in
  sqrt (dx * dx + dy * dy)%Q.

(** [cities[genes[i]]] is [undefined] for a gene out of range, and reading
    its [x] raises a TypeError. *)
Definition calculateTotalDistance (gs : list nat) (cities : list City) : option Q :=
  foldl (λ total i,
           t ← total;
           c ← gs !! i;
           c' ← gs !! ((i + 1) `mod` length gs);
           city ← cities !! c;
           city' ← cities !! c';
           Some (t + calculateDistance city city')%Q)
        (Some 0%Q) (seq 0 (length gs)).

Definition buildDistanceMatrix (cities : list City) : Matrix :=
  let n := length cities in
  let matrix := replicate n (replicate n 0%Q) in
  foldl (λ matrix i,
    foldl (λ matrix j,
      match cities !! i, cities !! j with
      | Some ci, Some cj =>
          let dist := calculateDistance ci cj in
          set_entry (set_entry matrix i j dist) j i dist
      | _, _ => matrix
      end) matrix (seq (i + 1) (n - (i + 1))))
    matrix (seq 0 n).

Definition createChromosome (gs : list nat) (cities : list City) : option Chromosome :=
  d ← calculateTotalDistance gs cities;
  Some {| genes := gs; fitness := d; distance := d |}.

End Engine.

(** ** Array helpers *)

(** [[a[i], a[j]] = [a[j], a[i]]] for indices in range; out of range the
    source would store [undefined]. *)
Definition swap_at (a : list nat) (i j : nat) : option (list nat) :=
  vi ← a !! i; vj ← a !! j; Some (<[j:=vi]> (<[i:=vj]> a)).

(** [a.indexOf(c)], which is [-1] when [c] does not occur. *)
Definition indexOf (a : list nat) (c : nat) : Z :=
  match list_find (λ v, v = c) a with
  | Some (i, _) => Z.of_nat i
  | None => (-1)%Z
  end.

(** [a[i]] for a possibly negative index. *)
Definition at_Z {A} (a : list A) (i : Z) : option A :=
  if (i <? 0)%Z then None else a !! Z.to_nat i.

(** [a.slice(0, e)]: a negative [e] counts from the end. *)
Definition slice_to {A} (a : list A) (e : Z) : list A :=
  if (e <? 0)%Z then take (Z.to_nat (Z.of_nat (length a) + e)) a
  else take (Z.to_nat e) a.

(** [a.sort((p, q) => p.distance - q.distance)]: the sort is stable, so its
    result is that of insertion sort. *)
Fixpoint insert_by_distance (c : Chromosome) (l : list Chromosome) : list Chromosome :=
  match l with
  | [] => [c]
  | c' :: l' =>
      if Qle_bool (distance c) (distance c') then c :: l
      else c' :: insert_by_distance c l'
  end.

Definition sortByDistance (l : list Chromosome) : list Chromosome :=
  foldr insert_by_distance [] l.

(** ** Population initialisation (algorithms/initialization.ts) *)

Definition generateRandomChromosome (cityCount : nat) : M (list nat) :=
  foldRand (λ gs i, let* j := randomIndex (i + 1) in lift (swap_at gs i j))
        (seq 0 cityCount) (reverse (seq 1 (cityCount - 1))).

Definition initializePopulation (sqrt : Q → Q) (cities : list City)
    (populationSize : nat) : M (list Chromosome) :=
  mapRand (λ _ : nat,
          let* gs := generateRandomChromosome (length cities) in
          lift (createChromosome sqrt gs cities))
       (seq 0 populationSize).

(** ** Selection (algorithms/selection.ts) *)

Definition calculatePfit (currentGen maxGen : nat) (PfitMax PfitMin : Q) : Q :=
  (PfitMax - (PfitMax - PfitMin) * (Qnat currentGen / Qnat maxGen))%Q.

(** The [fitnessMap] of both fitness functions: rank by rank over the sorted
    population, a later rank overwriting an equal key. *)
Definition fitnessMapOf (f : nat → Q) (sorted : list Chromosome) : gmap (list nat) Q :=
  foldl (λ (m : gmap (list nat) Q) '(rank, chr), <[genes chr := f rank]> m)
        ∅ (imap pair sorted).

Definition calculateLinearFitness (population : list Chromosome) : list Q :=
  let NP := length population in
  let sorted := sortByDistance population in
  let fitnessMap := fitnessMapOf (λ rank, ((Qnat NP - Qnat rank) / Qnat NP)%Q) sorted in
  (λ chr, default 0%Q (fitnessMap !! genes chr)) <$> population.

Definition calculateNonLinearFitness (population : list Chromosome) (beta : Q) : list Q :=
  let sorted := sortByDistance population in
  let fitnessMap :=
    fitnessMapOf (λ rank, (beta * Qpower (1 - beta) (Z.of_nat rank))%Q) sorted in
  (λ chr, default 0%Q (fitnessMap !! genes chr)) <$> population.

(** The wheel: the first member whose cumulative fitness reaches the spin. *)
Fixpoint spinWheel (population : list Chromosome) (fitnessValues : list Q)
    (cumulative spin : Q) : option Chromosome :=
  match population, fitnessValues with
  | c :: population', f :: fitnessValues' =>
      let cumulative' := (cumulative + f)%Q in
      if Qle_bool spin cumulative' then Some c
      else spinWheel population' fitnessValues' cumulative' spin
  | _, _ => None
  end.

(** The result is [undefined] ([None]) only for an empty population. *)
Definition rouletteWheelSelect (population : list Chromosome)
    (fitnessValues : list Q) : M (option Chromosome) :=
  let totalFitness := foldl Qplus 0%Q fitnessValues in
  if Qeq_bool totalFitness 0 then
    let* i := randomIndex (length population) in ret (population !! i)
  else
    let* u := Math_random in
    let spin := (u * totalFitness)%Q in
    ret (match spinWheel population fitnessValues 0 spin with
         | Some c => Some c
         | None => last population
         end).

Definition rouletteSelection (population : list Chromosome) (Pfit beta : Q)
    : M (option Chromosome) :=
  let* r := Math_random in
  let fitnessValues :=
    if Qle_bool r Pfit then calculateLinearFitness population
    else calculateNonLinearFitness population beta in
  rouletteWheelSelect population fitnessValues.

(** An [undefined] parent makes the crossover that follows raise a
    TypeError on [parent1.genes]; the model stops here. *)
Definition selectParents (population : list Chromosome) (count : nat)
    (Pfit beta : Q) : M (list Chromosome) :=
  mapRand (λ _ : nat, let* p := rouletteSelection population Pfit beta in lift p)
       (seq 0 count).

(** ** Crossover (algorithms/crossover.ts) *)

Inductive Direction := clockwise | counterclockwise.

Definition findNeighbors (cityId : nat) (chromosome : Chromosome)
    (direction : Direction) : option (list nat) :=
  let gs := genes chromosome in
  let n := Z.of_nat (length gs) in
  let pos := indexOf gs cityId in
  match direction with
  | clockwise => c ← at_Z gs (Z.rem (pos + 1) n); Some [c]
  | counterclockwise => c ← at_Z gs (Z.rem (pos - 1 + n) n); Some [c]
  end.

Definition findNearestCity (fromCityId : nat) (candidateCityIds : list nat)
    (distanceMatrix : Matrix) : option nat :=
  nearest0 ← head candidateCityIds;
  Some (fst (foldl (λ '(nearestCityId, minDistance) cityId,
                      let dist := entry distanceMatrix fromCityId cityId in
                      if Qltb dist minDistance then (cityId, dist)
                      else (nearestCityId, minDistance))
                   (nearest0, entry distanceMatrix fromCityId nearest0)
                   candidateCityIds)).

(** The [while (offspring.length < n)] loop: each pass pushes one city, so
    [n] passes are enough. *)
Fixpoint bhxLoop (k : nat) (parent1 parent2 : Chromosome) (distanceMatrix : Matrix)
    (direction : Direction) (n : nat) (offspring : list nat) (visited : gset nat)
    (currentCity : nat) : option (list nat) :=
  match k with
  | 0 => if bool_decide (length offspring < n) then None else Some offspring
  | S k' =>
      if bool_decide (length offspring < n) then
        neighbors1 ← findNeighbors currentCity parent1 direction;
        neighbors2 ← findNeighbors currentCity parent2 direction;
        let allNeighbors := neighbors1 ++ neighbors2 in
        let unvisitedNeighbors :=
          filter (λ city, city ∉ visited) allNeighbors in
        match unvisitedNeighbors with
        | [] =>
            let remainingCities := filter (λ city, city ∉ visited) (seq 0 n) in
            match remainingCities with
            | [] => Some offspring
            | _ =>
                nextCity ← findNearestCity currentCity remainingCities distanceMatrix;
                bhxLoop k' parent1 parent2 distanceMatrix direction n
                        (offspring ++ [nextCity]) ({[nextCity]} ∪ visited) nextCity
            end
        | _ =>
            nextCity ← findNearestCity currentCity unvisitedNeighbors distanceMatrix;
            bhxLoop k' parent1 parent2 distanceMatrix direction n
                    (offspring ++ [nextCity]) ({[nextCity]} ∪ visited) nextCity
        end
      else Some offspring
  end.

(** For empty parents the start city is [undefined] and the final length
    computation raises a TypeError on [distanceMatrix[undefined]]. *)
Definition bidirectionalHeuristicCrossover (parent1 parent2 : Chromosome)
    (distanceMatrix : Matrix) : M Chromosome :=
  let n := length (genes parent1) in
  let* u := Math_random in
  let direction := if Qltb u (1 # 2) then clockwise else counterclockwise in
  let* i := randomIndex n in
  let* currentCity := lift (genes parent1 !! i) in
  let* offspring :=
    lift (bhxLoop n parent1 parent2 distanceMatrix direction n
                  [currentCity] {[currentCity]} currentCity) in
  ret (createChromosomeWithMatrix offspring distanceMatrix).

(** The body of the loop of [performCrossover], for the loop variable [i]. *)
Definition crossoverStep (parents : list Chromosome) (distanceMatrix : Matrix)
    (targetCount : nat) (offspring : list Chromosome) (i : nat) : M (list Chromosome) :=
  let* parent1 := lift (parents !! (i `mod` length parents)) in
  let* parent2 := lift (parents !! ((i + 1) `mod` length parents)) in
  let* o1 := bidirectionalHeuristicCrossover parent1 parent2 distanceMatrix in
  let offspring := offspring ++ [o1] in
  if bool_decide (length offspring < targetCount) then
    let* o2 := bidirectionalHeuristicCrossover parent2 parent1 distanceMatrix in
    ret (offspring ++ [o2])
  else ret offspring.

(** [offspringCount || parents.length]; the loop variable takes the values
    [0, 2, 4, ...] below [targetCount]. *)
Definition performCrossover (parents : list Chromosome) (distanceMatrix : Matrix)
    (offspringCount : nat) : M (list Chromosome) :=
  let targetCount := if decide (offspringCount = 0) then length parents else offspringCount in
  let* offspring :=
    foldRand (crossoverStep parents distanceMatrix targetCount)
             [] ((λ k, 2 * k) <$> seq 0 ((targetCount + 1) / 2)) in
  ret (take targetCount offspring).

(** ** Mutation (algorithms/mutation.ts) *)

Definition calculatePs (currentGen maxGen : nat) (PsMax PsMin : Q) : Q :=
  (PsMax - (PsMax - PsMin) * (Qnat currentGen / Qnat maxGen))%Q.

(** [while (pos2 === pos1) pos2 = Math.floor(Math.random() * n)] *)
Fixpoint redrawWhileEqual (fuel n pos1 pos2 : nat) : M nat :=
  match fuel with
  | 0 => if decide (pos2 = pos1) then fail else ret pos2
  | S fuel' =>
      if decide (pos2 = pos1) then
        let* pos2' := randomIndex n in redrawWhileEqual fuel' n pos1 pos2'
      else ret pos2
  end.

Definition swapMutation (fuel : nat) (chromosome : Chromosome) : M Chromosome :=
  let gs := genes chromosome in
  let n := length gs in
  let* pos1 := randomIndex n in
  let* pos2 := randomIndex n in
  let* pos2 := redrawWhileEqual fuel n pos1 pos2 in
  let* gs := lift (swap_at gs pos1 pos2) in
  ret {| genes := gs; fitness := 0; distance := 0 |}.

(** [while (pos1 < pos2) { swap; pos1++; pos2-- }]: at most [k] passes. *)
Fixpoint reverseBetween (k : nat) (gs : list nat) (pos1 pos2 : nat) : option (list nat) :=
  match k with
  | 0 => Some gs
  | S k' =>
      if decide (pos1 < pos2) then
        gs' ← swap_at gs pos1 pos2; reverseBetween k' gs' (pos1 + 1) (pos2 - 1)
      else Some gs
  end.

Definition inverseMutation (chromosome : Chromosome) : M Chromosome :=
  let gs := genes chromosome in
  let n := length gs in
  let* pos1 := randomIndex n in
  let* pos2 := randomIndex n in
  let '(pos1, pos2) := if decide (pos2 < pos1) then (pos2, pos1) else (pos1, pos2) in
  let* gs := lift (reverseBetween n gs pos1 pos2) in
  ret {| genes := gs; fitness := 0; distance := 0 |}.

(** The scan of [heuristicMutation]: [nearestCity] starts as [-1] and
    [minDistance] as [Infinity], both [None] here. *)
Definition nearestNonAdjacent (gs : list nat) (distanceMatrix : Matrix)
    (pos1 city1 : nat) : option nat :=
  let n := length gs in
  let prevPos := (pos1 + n - 1) `mod` n in
  let nextPos := (pos1 + 1) `mod` n in
  fst (foldl (λ '(nearestCity, minDistance) '(i, city2),
                if decide (city2 = city1) then (nearestCity, minDistance)
                else if decide (i = prevPos ∨ i = nextPos) then (nearestCity, minDistance)
                else
                  let dist := entry distanceMatrix city1 city2 in
                  match minDistance with
                  | Some m =>
                      if Qltb dist m then (Some city2, Some dist)
                      else (nearestCity, minDistance)
                  | None => (Some city2, Some dist)
                  end)
             (None, None) (imap pair gs)).

(** [a.splice(pos, 1)] and [a.splice(pos, 0, v)] *)
Definition removeAt (a : list nat) (pos : nat) : list nat := take pos a ++ drop (S pos) a.
Definition insertAt (a : list nat) (pos v : nat) : list nat := take pos a ++ v :: drop pos a.

Definition heuristicMutation (chromosome : Chromosome) (distanceMatrix : Matrix)
    : M Chromosome :=
  let gs := genes chromosome in
  let n := length gs in
  let* pos1 := randomIndex n in
  match gs !! pos1 with
  | None => ret {| genes := gs; fitness := 0; distance := 0 |}
  | Some city1 =>
      match nearestNonAdjacent gs distanceMatrix pos1 city1 with
      | None => ret {| genes := gs; fitness := 0; distance := 0 |}
      | Some nearestCity =>
          let pos2 := indexOf gs nearestCity in
          let gs := removeAt gs (Z.to_nat pos2) in
          let insertPos := (indexOf gs city1 + 1)%Z in
          let gs := insertAt gs (Z.to_nat insertPos) nearestCity in
          ret {| genes := gs; fitness := 0; distance := 0 |}
      end
  end.

Definition combinationMutation (fuel : nat) (chromosome : Chromosome) (Ps beta : Q)
    (distanceMatrix : Matrix) : M Chromosome :=
  let* mu := Math_random in
  if Qle_bool mu Ps then swapMutation fuel chromosome
  else if Qle_bool mu (Ps + beta) then inverseMutation chromosome
  else heuristicMutation chromosome distanceMatrix.

(** The shape shared by [calculateFitnessForChromosomes],
    [calculateFitnessAfterJumping] and [calculateFitnessAfterUnique]. *)
Definition recomputeZeroFitness (chromosomes : list Chromosome)
    (distanceMatrix : Matrix) : list Chromosome :=
  (λ chr,
     if Qeq_bool (fitness chr) 0 then
       let d := calculateTotalDistanceWithMatrix (genes chr) distanceMatrix in
       {| genes := genes chr; fitness := d; distance := d |}
     else chr) <$> chromosomes.

Definition calculateFitnessForChromosomes := recomputeZeroFitness.

Definition performMutation (fuel : nat) (chromosomes : list Chromosome) (Ps beta : Q)
    (distanceMatrix : Matrix) : M (list Chromosome) :=
  let* mutated :=
    mapRand (λ chr, combinationMutation fuel chr Ps beta distanceMatrix) chromosomes in
  ret (calculateFitnessForChromosomes mutated distanceMatrix).

(** ** Jumping gene (algorithms/jumpingGene.ts) *)

Definition jumpingGeneOperator (chromosome : Chromosome) (PJG : Q) (q : nat)
    : M Chromosome :=
  let* u := Math_random in
  if Qltb PJG u then ret chromosome
  else
    let n := length (genes chromosome) in
    let gs := genes chromosome in
    let* mask := mapRand (λ _ : nat, let* v := Math_random in
                                  ret (if Qltb v (1 # 2) then 1 else 0)) (seq 0 n) in
    let marked := zip gs mask in
    let extractedGenes := fst <$> filter (λ gm, snd gm = 1) marked in
    let remainingGenes := fst <$> filter (λ gm, snd gm ≠ 1) marked in
    let segmentLength := q `min` length extractedGenes in
    let segment := take segmentLength extractedGenes in
    let leftoverExtracted := drop segmentLength extractedGenes in
    let finalRemaining :=
      filter (λ gene, gene ∉ segment) remainingGenes ++ leftoverExtracted in
    let* insertPos := randomIndex (length finalRemaining + 1) in
    let newGenes :=
      take insertPos finalRemaining ++ segment ++ drop insertPos finalRemaining in
    ret {| genes := newGenes; fitness := 0; distance := 0 |}.

Definition applyJumpingGeneToPopulation (population : list Chromosome) (PJG : Q)
    (q : nat) : M (list Chromosome) :=
  mapRand (λ chr, jumpingGeneOperator chr PJG q) population.

Definition calculateFitnessAfterJumping := recomputeZeroFitness.

(** ** Unique operator (algorithms/unique.ts) *)

(** The body of the loop over the population: [seen] is the map of keys,
    [result] the array built so far. *)
Definition uniqueStep (cityCount : nat)
    (st : gmap (list nat) bool * list Chromosome) (chromosome : Chromosome)
    : M (gmap (list nat) bool * list Chromosome) :=
  let '(seen, result) := st in
  let key := genes chromosome in
  if decide (is_Some (seen !! key)) then
    let* randomGenes := generateRandomChromosome cityCount in
    ret (seen, result ++ [{| genes := randomGenes; fitness := 0; distance := 0 |}])
  else
    ret (<[key := true]> seen, result ++ [chromosome]).

Definition uniqueOperator (population : list Chromosome) (cityCount : nat)
    : M (list Chromosome) :=
  let* st := foldRand (uniqueStep cityCount) (∅, []) population in
  ret (snd st).

Definition calculateFitnessAfterUnique := recomputeZeroFitness.

(** [uniqueKeys.size / population.length], which is [NaN] for an empty
    population. *)
Definition calculateDiversity (population : list Chromosome) : option Q :=
  let uniqueKeys : gset (list nat) := list_to_set (genes <$> population) in
  if decide (length population = 0) then None
  else Some (Qnat (size uniqueKeys) / Qnat (length population))%Q.

(** ** 2-opt local search (algorithms/twoOpt.ts) *)

(** [[...genes.slice(0, i + 1), ...genes.slice(i + 1, j + 1).reverse(),
    ...genes.slice(j + 1)]] *)
Definition reverseSegment (gs : list nat) (i j : nat) : list nat :=
  take (i + 1) gs ++ reverse (take (j - i) (drop (i + 1) gs)) ++ drop (j + 1) gs.

(** [genes[k]] inside the scan, where every index is in range. *)
Definition gene (gs : list nat) (k : nat) : nat := default 0 (gs !! k).

Definition currentDist (distanceMatrix : Matrix) (n : nat) (gs : list nat) (i j : nat) : Q :=
  (entry distanceMatrix (gene gs i) (gene gs (i + 1)) +
   entry distanceMatrix (gene gs j) (gene gs ((j + 1) `mod` n)))%Q.

Definition newDist (distanceMatrix : Matrix) (n : nat) (gs : list nat) (i j : nat) : Q :=
  (entry distanceMatrix (gene gs i) (gene gs j) +
   entry distanceMatrix (gene gs (i + 1)) (gene gs ((j + 1) `mod` n)))%Q.

(** One step of the inner loop, on the pair [(i, j)]. *)
Definition twoOptStep (distanceMatrix : Matrix) (n : nat)
    (st : list nat * bool) (ij : nat * nat) : list nat * bool :=
  let '(gs, improved) := st in
  let '(i, j) := ij in
  if Qltb (newDist distanceMatrix n gs i j) (currentDist distanceMatrix n gs i j)
  then (reverseSegment gs i j, true)
  else (gs, improved).

(** The pairs [(i, j)] in the order of the two [for] loops. *)
Definition twoOptPairs (n : nat) : list (nat * nat) :=
  i ← seq 0 (n - 1); (λ j, (i, j)) <$> seq (i + 1) (n - (i + 1)).

(** One pass of the [while] body. *)
Definition twoOptPass (distanceMatrix : Matrix) (n : nat) (gs : list nat)
    : list nat * bool :=
  foldl (twoOptStep distanceMatrix n) (gs, false) (twoOptPairs n).

Fixpoint twoOptLoop (fuel : nat) (distanceMatrix : Matrix) (n : nat) (gs : list nat)
    : option (list nat) :=
  match fuel with
  | 0 => None
  | S fuel' =>
      let '(gs', improved) := twoOptPass distanceMatrix n gs in
      if improved then twoOptLoop fuel' distanceMatrix n gs' else Some gs'
  end.

Definition twoOptOperator (fuel : nat) (chromosome : Chromosome)
    (distanceMatrix : Matrix) : option Chromosome :=
  let n := length (genes chromosome) in
  gs ← twoOptLoop fuel distanceMatrix n (genes chromosome);
  let d := calculateTotalDistanceWithMatrix gs distanceMatrix in
  Some {| genes := gs; fitness := d; distance := d |}.

Definition applyTwoOptToPopulation (fuel : nat) (population : list Chromosome)
    (distanceMatrix : Matrix) (applyToAll : bool) (topN : nat)
    : option (list Chromosome) :=
  if applyToAll then
    mapM (λ chr, twoOptOperator fuel chr distanceMatrix) population
  else
    let sorted := sortByDistance population in
    mapM (λ '(i, chr),
            if decide (i < topN) then twoOptOperator fuel chr distanceMatrix
            else Some chr)
         (imap pair sorted).

(** ** Population snapshots, shared by the four classes *)

(** [sorted.reduce((sum, c) => sum + c.distance, 0) / sorted.length], which
    is [0 / 0 = NaN] for an empty population. *)
Definition averageDistanceOf (sorted : list Chromosome) : option Q :=
  let sum := foldl (λ sum chr, (sum + distance chr)%Q) 0%Q sorted in
  if decide (length sorted = 0) then None
  else Some (sum / Qnat (length sorted))%Q.

(** The snapshot of a sorted population: [sorted[0]] and
    [sorted[sorted.length - 1]] are [undefined] when it is empty. *)
Definition snapshotOf (sorted chromosomes : list Chromosome) (generation : nat)
    : Population :=
  {| chromosomes := chromosomes;
     pop_generation := generation;
     best := sorted !! 0;
     worst := at_Z sorted (Z.of_nat (length sorted) - 1);
     average := averageDistanceOf sorted;
     diversity := calculateDiversity chromosomes |}.

(** The statistics record of a snapshot; reading [best.distance] of an
    [undefined] best raises a TypeError. *)
Definition statsOf (population : Population) (elapsed : Q) : option GenerationStats :=
  b ← best population;
  w ← worst population;
  Some {| stat_generation := pop_generation population;
          bestDistance := distance b;
          averageDistance := average population;
          worstDistance := distance w;
          stat_diversity := diversity population;
          elapsedTime := elapsed |}.

(** ** The GA-JGHO driver (algorithms/GAJGHO.ts) *)

Module GAJGHO.

Record t := mk {
  cities : list City;
  params : AlgorithmParams;
  distanceMatrix : Matrix;
  currentPopulation : list Chromosome;
  generation : nat;
  startTime : Z
}.

(** [now] is the reading of [Date.now()]. *)
Definition new (sqrt : Q → Q) (now : Z) (cities : list City) (params : AlgorithmParams) : t :=
  {| cities := cities; params := params;
     distanceMatrix := buildDistanceMatrix sqrt cities;
     currentPopulation := []; generation := 0; startTime := now |}.

Definition initialize (sqrt : Q → Q) (now : Z) (this : t) : M t :=
  let* population :=
    initializePopulation sqrt (cities this) (populationSize (params this)) in
  ret {| cities := cities this; params := params this;
         distanceMatrix := distanceMatrix this;
         currentPopulation := population; generation := 0; startTime := now |}.

Definition getPopulation (this : t) : Population :=
  let sorted := sortByDistance (currentPopulation this) in
  snapshotOf sorted (currentPopulation this) (generation this).

Definition getStats (now : Z) (this : t) : option GenerationStats :=
  statsOf (getPopulation this) (inject_Z (now - startTime this)).

Definition runGeneration (fuel : nat) (this : t) : M (t * Population) :=
  let p := params this in
  let Pfit := calculatePfit (generation this) (maxGenerations p) (PfitMax p) (PfitMin p) in
  let Ps := calculatePs (generation this) (maxGenerations p) (PsMax p) (PsMin p) in
  let* parents := selectParents (currentPopulation this) (populationSize p) Pfit (beta p) in
  let* offspring := performCrossover parents (distanceMatrix this) (populationSize p) in
  let* offspring := uniqueOperator offspring (length (cities this)) in
  let offspring := calculateFitnessAfterUnique offspring (distanceMatrix this) in
  let* offspring := performMutation fuel offspring Ps (beta p) (distanceMatrix this) in
  let* offspring := applyJumpingGeneToPopulation offspring (PJG p) (q p) in
  let offspring := calculateFitnessAfterJumping offspring (distanceMatrix this) in
  let* offspring :=
    lift (applyTwoOptToPopulation fuel offspring (distanceMatrix this) false
            (floor_nat (Qnat (populationSize p) * (2 # 10)))) in
  let sortedPrevious := sortByDistance (currentPopulation this) in
  let elites := take (eliteCount p) sortedPrevious in
  let sortedOffspring := sortByDistance offspring in
  let merged :=
    slice_to sortedOffspring (Z.of_nat (populationSize p) - Z.of_nat (eliteCount p))
    ++ elites in
  let this' :=
    {| cities := cities this; params := p; distanceMatrix := distanceMatrix this;
       currentPopulation := sortByDistance merged;
       generation := S (generation this); startTime := startTime this |} in
  ret (this', getPopulation this').

Definition reset (now : Z) (this : t) : t :=
  {| cities := cities this; params := params this;
     distanceMatrix := distanceMatrix this;
     currentPopulation := []; generation := 0; startTime := now |}.

End GAJGHO.

(** ** Helpers shared by the comparator classes *)

(** [createRandomChromosome] / [createRandomSolution]: the Fisher-Yates
    shuffle, measured with the distance matrix. *)
Definition createRandomTour (cityCount : nat) (distanceMatrix : Matrix) : M Chromosome :=
  let* gs := generateRandomChromosome cityCount in
  ret (createChromosomeWithMatrix gs distanceMatrix).

(** [Math.max(...population.map(c => c.distance))] of a non-empty population. *)
Definition maxDistanceOf (population : list Chromosome) : Q :=
  match population with
  | [] => 0%Q
  | c :: _ =>
      foldl (λ m chr, if Qltb m (distance chr) then distance chr else m)
            (distance c) population
  end.

(** [updateStats(elapsedTime)]: sorts the population in place and pushes a
    record; [best.distance] raises a TypeError on an empty population. *)
Definition pushStats (sorted : list Chromosome) (generation : nat) (elapsed : Q)
    (stats : list GenerationStats) : option (list GenerationStats) :=
  s ← statsOf (snapshotOf sorted sorted generation) elapsed;
  Some (stats ++ [s]).

(** ** The plain genetic algorithm (algorithms/StandardGA.ts) *)

Module StandardGA.

Record t := mk {
  cities : list City;
  params : AlgorithmParams;
  distanceMatrix : Matrix;
  population : list Chromosome;
  currentGeneration : nat;
  stats : list GenerationStats
}.

Definition new (sqrt : Q → Q) (cities : list City) (params : AlgorithmParams) : t :=
  {| cities := cities; params := params;
     distanceMatrix := buildDistanceMatrix sqrt cities;
     population := []; currentGeneration := 0; stats := [] |}.

Definition updateStats (elapsedTime : Q) (this : t) : option t :=
  let sorted := sortByDistance (population this) in
  stats' ← pushStats sorted (currentGeneration this) elapsedTime (stats this);
  Some {| cities := cities this; params := params this;
          distanceMatrix := distanceMatrix this; population := sorted;
          currentGeneration := currentGeneration this; stats := stats' |}.

Definition createRandomChromosome (this : t) : M Chromosome :=
  createRandomTour (length (cities this)) (distanceMatrix this).

Definition initialize (this : t) : M t :=
  let* population :=
    mapRand (λ _ : nat, createRandomChromosome this)
            (seq 0 (populationSize (params this))) in
  lift (updateStats 0
          {| cities := cities this; params := params this;
             distanceMatrix := distanceMatrix this; population := population;
             currentGeneration := currentGeneration this; stats := stats this |}).

Definition selection (this : t) : M (list Chromosome) :=
  let maxDistance := maxDistanceOf (population this) in
  let fitnesses := (λ c, (maxDistance - distance c + 1)%Q) <$> population this in
  let totalFitness := foldl Qplus 0%Q fitnesses in
  foldRand (λ selected (_ : nat),
              let* u := Math_random in
              let rand := (u * totalFitness)%Q in
              match spinWheel (population this) fitnesses 0 rand with
              | Some c => ret (selected ++ [c])
              | None => ret selected
              end)
           [] (seq 0 (populationSize (params this))).

(** [while (child.includes(-1))]: the child holds [-1] in its free slots. *)
Fixpoint fillFromParent2 (fuel : nat) (n : nat) (parent2 : list nat) (child : list Z)
    (childIdx parentIdx : nat) : option (list Z) :=
  if decide ((-1)%Z ∈ child) then
    match fuel with
    | 0 => None
    | S fuel' =>
        g ← parent2 !! parentIdx;
        if decide (Z.of_nat g ∈ child) then
          fillFromParent2 fuel' n parent2 child childIdx ((parentIdx + 1) `mod` n)
        else
          fillFromParent2 fuel' n parent2 (<[childIdx := Z.of_nat g]> child)
                          ((childIdx + 1) `mod` n) ((parentIdx + 1) `mod` n)
    end
  else Some child.

Definition crossover (fuel : nat) (this : t) (parent1 parent2 : Chromosome) : M Chromosome :=
  let n := length (genes parent1) in
  let* point1 := randomIndex n in
  let* point2 := randomIndex n in
  let start := point1 `min` point2 in
  let end_ := point1 `max` point2 in
  let* child :=
    lift (foldl (λ child i,
                   ch ← child; g ← genes parent1 !! i;
                   Some (<[i := Z.of_nat g]> ch))
                (Some (replicate n (-1)%Z)) (seq start (end_ + 1 - start))) in
  let* child :=
    lift (fillFromParent2 fuel n (genes parent2) child
                          ((end_ + 1) `mod` n) ((end_ + 1) `mod` n)) in
  ret (createChromosomeWithMatrix (Z.to_nat <$> child) (distanceMatrix this)).

Definition mutation (this : t) (chromosome : Chromosome) : M Chromosome :=
  let gs := genes chromosome in
  let mutationRate := (2 # 10)%Q in
  let* u := Math_random in
  let* gs :=
    if Qltb u mutationRate then
      let* i := randomIndex (length gs) in
      let* j := randomIndex (length gs) in
      lift (swap_at gs i j)
    else ret gs in
  ret (createChromosomeWithMatrix gs (distanceMatrix this)).

Definition getPopulation (this : t) : t * Population :=
  let sorted := sortByDistance (population this) in
  ({| cities := cities this; params := params this;
      distanceMatrix := distanceMatrix this; population := sorted;
      currentGeneration := currentGeneration this; stats := stats this |},
   snapshotOf sorted sorted (currentGeneration this)).

(** [elapsed] is [endTime - startTime] of the two [performance.now()]
    readings. *)
Definition runGeneration (fuel : nat) (elapsed : Q) (this : t) : M (t * Population) :=
  let p := params this in
  let sorted := sortByDistance (population this) in
  let newPopulation := take (eliteCount p) sorted in
  let this := {| cities := cities this; params := p;
                 distanceMatrix := distanceMatrix this; population := sorted;
                 currentGeneration := currentGeneration this; stats := stats this |} in
  let* selected := selection this in
  let* newPopulation :=
    foldRand (λ newPopulation (_ : nat),
                let* i1 := randomIndex (length selected) in
                let* parent1 := lift (selected !! i1) in
                let* i2 := randomIndex (length selected) in
                let* parent2 := lift (selected !! i2) in
                let* offspring := crossover fuel this parent1 parent2 in
                ret (newPopulation ++ [offspring]))
             newPopulation (seq 0 (populationSize p - length newPopulation)) in
  let* newPopulation :=
    foldRand (λ newPopulation i,
                let* c := lift (newPopulation !! i) in
                let* c' := mutation this c in
                ret (<[i := c']> newPopulation))
             newPopulation
             (seq (eliteCount p) (length newPopulation - eliteCount p)) in
  let this := {| cities := cities this; params := p;
                 distanceMatrix := distanceMatrix this; population := newPopulation;
                 currentGeneration := S (currentGeneration this);
                 stats := stats this |} in
  let* this := lift (updateStats elapsed this) in
  ret (getPopulation this).

End StandardGA.

(** ** The artificial bee colony (ABCTSP) *)

Module ABCTSP.

Record t := mk {
  cities : list City;
  params : AlgorithmParams;
  distanceMatrix : Matrix;
  foodSources : list Chromosome;
  trials : list nat;
  currentGeneration : nat;
  limit : nat;
  stats : list GenerationStats
}.

Definition with_sources (this : t) (foodSources : list Chromosome) (trials : list nat) : t :=
  {| cities := cities this; params := params this;
     distanceMatrix := distanceMatrix this;
     foodSources := foodSources; trials := trials;
     currentGeneration := currentGeneration this; limit := limit this;
     stats := stats this |}.

Definition new (sqrt : Q → Q) (cities : list City) (params : AlgorithmParams) : t :=
  {| cities := cities; params := params;
     distanceMatrix := buildDistanceMatrix sqrt cities;
     foodSources := []; trials := []; currentGeneration := 0;
     limit := populationSize params * length cities / 2;
     stats := [] |}.

Definition updateStats (elapsedTime : Q) (this : t) : option t :=
  let sorted := sortByDistance (foodSources this) in
  stats' ← pushStats sorted (currentGeneration this) elapsedTime (stats this);
  Some {| cities := cities this; params := params this;
          distanceMatrix := distanceMatrix this;
          foodSources := sorted; trials := trials this;
          currentGeneration := currentGeneration this; limit := limit this;
          stats := stats' |}.

Definition createRandomSolution (this : t) : M Chromosome :=
  createRandomTour (length (cities this)) (distanceMatrix this).

(** The empty food-source list is assigned before [updateStats] raises its
    TypeError on it; a caller that catches the error sees that state. *)
Definition initialize_sources (this : t) : M t :=
  let colonySize := populationSize (params this) / 2 in
  let* foodSources :=
    mapRand (λ _ : nat, createRandomSolution this) (seq 0 colonySize) in
  ret (with_sources this foodSources (replicate colonySize 0)).

Definition initialize (this : t) : M t :=
  let* this := initialize_sources this in
  lift (updateStats 0 this).

Definition generateNeighborSolution (this : t) (source : Chromosome) : M Chromosome :=
  let gs := genes source in
  let n := length gs in
  let* u := Math_random in
  let* gs :=
    if Qltb u (1 # 2) then
      let* i := randomIndex n in
      let* j := randomIndex n in
      lift (swap_at gs i j)
    else
      let* i := randomIndex n in
      let* j := randomIndex n in
      let start := i `min` j in
      let end_ := i `max` j in
      let segment := reverse (take (end_ + 1 - start) (drop start gs)) in
      ret (take start gs ++ segment ++ drop (start + (end_ - start + 1)) gs) in
  ret (createChromosomeWithMatrix gs (distanceMatrix this)).

(** The greedy replacement of source [i], shared by the employed and the
    onlooker phase. *)
Definition greedyStep (this : t) (i : nat) : M t :=
  let* source := lift (foodSources this !! i) in
  let* newSolution := generateNeighborSolution this source in
  if Qltb (distance newSolution) (distance source) then
    ret (with_sources this (<[i := newSolution]> (foodSources this))
                      (<[i := 0]> (trials this)))
  else
    ret (with_sources this (foodSources this) (alter S i (trials this))).

Definition employedBeePhase (this : t) : M t :=
  foldRand greedyStep this (seq 0 (length (foodSources this))).

Definition calculateFitnessProbabilities (this : t) : list Q :=
  let maxDistance := maxDistanceOf (foodSources this) in
  let fitnesses := (λ s, (maxDistance - distance s + 1)%Q) <$> foodSources this in
  let totalFitness := foldl Qplus 0%Q fitnesses in
  (λ f, (f / totalFitness)%Q) <$> fitnesses.

(** [while (t < this.foodSources.length)] *)
Fixpoint onlookerLoop (fuel : nat) (probabilities : list Q) (tcount i : nat) (this : t)
    : M t :=
  if decide (tcount < length (foodSources this)) then
    match fuel with
    | 0 => fail
    | S fuel' =>
        let* u := Math_random in
        let next := (i + 1) `mod` length (foodSources this) in
        if Qltb u (default 0%Q (probabilities !! i)) then
          let* this' := greedyStep this i in
          onlookerLoop fuel' probabilities (S tcount) next this'
        else onlookerLoop fuel' probabilities tcount next this
    end
  else ret this.

Definition onlookerBeePhase (fuel : nat) (this : t) : M t :=
  let probabilities := calculateFitnessProbabilities this in
  onlookerLoop fuel probabilities 0 0 this.

Definition scoutStep (this : t) (i : nat) : M t :=
  match trials this !! i with
  | Some trial =>
      if decide (limit this ≤ trial) then
        let* fresh := createRandomSolution this in
        ret (with_sources this (<[i := fresh]> (foodSources this))
                          (<[i := 0]> (trials this)))
      else ret this
  | None => ret this
  end.

Definition scoutBeePhase (this : t) : M t :=
  foldRand scoutStep this (seq 0 (length (foodSources this))).

Definition getPopulation (this : t) : t * Population :=
  let sorted := sortByDistance (foodSources this) in
  (with_sources this sorted (trials this),
   snapshotOf sorted sorted (currentGeneration this)).

Definition runGeneration (fuel : nat) (elapsed : Q) (this : t) : M (t * Population) :=
  let* this := employedBeePhase this in
  let* this := onlookerBeePhase fuel this in
  let* this := scoutBeePhase this in
  let this :=
    {| cities := cities this; params := params this;
       distanceMatrix := distanceMatrix this;
       foodSources := foodSources this; trials := trials this;
       currentGeneration := S (currentGeneration this); limit := limit this;
       stats := stats this |} in
  let* this := lift (updateStats elapsed this) in
  ret (getPopulation this).

End ABCTSP.

(** ** Ant colony construction with 3-opt (PACO3Opt) *)

Module PACO3Opt.

Record t := mk {
  cities : list City;
  params : AlgorithmParams;
  distanceMatrix : Matrix;
  pheromoneMatrix : Matrix;
  solutions : list Chromosome;
  currentGeneration : nat;
  stats : list GenerationStats
}.

(** The exponents [alpha = 1.0] and [beta = 2.0] of [Math.pow], the
    evaporation rate and the deposit constant. *)
Definition alpha : Z := 1.
Definition beta : Z := 2.
Definition rho : Q := 5 # 10.
Definition Qdeposit : Q := 100.

Definition with_solutions (this : t) (pheromoneMatrix : Matrix)
    (solutions : list Chromosome) : t :=
  {| cities := cities this; params := params this;
     distanceMatrix := distanceMatrix this;
     pheromoneMatrix := pheromoneMatrix; solutions := solutions;
     currentGeneration := currentGeneration this; stats := stats this |}.

Definition new (sqrt : Q → Q) (cities : list City) (params : AlgorithmParams) : t :=
  let n := length cities in
  let initialPheromone := (1 / Qnat n)%Q in
  {| cities := cities; params := params;
     distanceMatrix := buildDistanceMatrix sqrt cities;
     pheromoneMatrix := replicate n (replicate n initialPheromone);
     solutions := []; currentGeneration := 0; stats := [] |}.

Definition updateStats (elapsedTime : Q) (this : t) : option t :=
  let sorted := sortByDistance (solutions this) in
  stats' ← pushStats sorted (currentGeneration this) elapsedTime (stats this);
  Some {| cities := cities this; params := params this;
          distanceMatrix := distanceMatrix this;
          pheromoneMatrix := pheromoneMatrix this; solutions := sorted;
          currentGeneration := currentGeneration this; stats := stats' |}.

(** The roulette of [selectNextCity] over the normalised probabilities. *)
Fixpoint pickCity (unvisitedArray : list nat) (normalizedProbs : list Q)
    (cumProb rand : Q) : option nat :=
  match unvisitedArray, normalizedProbs with
  | city :: unvisitedArray', p :: normalizedProbs' =>
      let cumProb' := (cumProb + p)%Q in
      if Qle_bool rand cumProb' then Some city
      else pickCity unvisitedArray' normalizedProbs' cumProb' rand
  | _, _ => None
  end.

(** [unvisited] is a [Set] read in insertion order: a list. *)
Definition selectNextCity (this : t) (currentCity : nat) (unvisited : list nat)
    : M (option nat) :=
  let probabilities :=
    (λ city,
       let pheromone := Qpower (entry (pheromoneMatrix this) currentCity city) alpha in
       let heuristic :=
         Qpower (1 / (entry (distanceMatrix this) currentCity city + (1 # 1000))) beta in
       (pheromone * heuristic)%Q) <$> unvisited in
  let totalProb := foldl Qplus 0%Q probabilities in
  let normalizedProbs := (λ p, (p / totalProb)%Q) <$> probabilities in
  let* rand := Math_random in
  ret (match pickCity unvisited normalizedProbs 0 rand with
       | Some city => Some city
       | None => head unvisited
       end).

(** [while (unvisited.size > 0)]: each pass deletes one city. *)
Fixpoint constructLoop (k : nat) (this : t) (gs unvisited : list nat) (currentCity : nat)
    : M (list nat) :=
  match k with
  | 0 => if decide (unvisited = []) then ret gs else fail
  | S k' =>
      if decide (unvisited = []) then ret gs
      else
        let* next := selectNextCity this currentCity unvisited in
        let* nextCity := lift next in
        constructLoop k' this (gs ++ [nextCity])
                      (filter (λ c, c ≠ nextCity) unvisited) nextCity
  end.

(** Without cities the one-city tour [[0]] is measured against an empty
    matrix, a TypeError. *)
Definition constructSolutionACO (this : t) : M Chromosome :=
  let n := length (cities this) in
  let unvisited := seq 0 n in
  let* currentCity := randomIndex n in
  if decide (n = 0) then fail
  else
    let* gs := constructLoop n this [currentCity]
                             (filter (λ c, c ≠ currentCity) unvisited) currentCity in
    ret (createChromosomeWithMatrix gs (distanceMatrix this)).

(** [segment2.reverse()] and [segment3.reverse()] reverse in place, so the
    second and third array are built from the reversed segments and the
    fourth from segments reversed twice. *)
Definition generate3OptMoves (tour : list nat) (i j k : nat) : list (list nat) :=
  let segment1 := take (i + 1) tour in
  let segment2 := take (j - i) (drop (i + 1) tour) in
  let segment3 := take (k - j) (drop (j + 1) tour) in
  let segment4 := drop (k + 1) tour in
  [ segment1 ++ reverse segment2 ++ segment3 ++ segment4;
    segment1 ++ reverse segment2 ++ reverse segment3 ++ segment4;
    segment1 ++ reverse segment3 ++ reverse segment2 ++ segment4;
    segment1 ++ segment3 ++ segment2 ++ segment4 ].

(** The triples [(i, j, k)] in the order of the three loops. *)
Definition triples (n : nat) : list (nat * nat * nat) :=
  i ← seq 0 (n - 2);
  j ← seq (i + 1) (n - 1 - (i + 1));
  (λ k, (i, j, k)) <$> seq (j + 1) (n - (j + 1)).

(** One pass of the [while] body: the first strictly shorter move, if any. *)
Definition firstImprovement (this : t) (gs : list nat) : option (list nat) :=
  let currentDistance := calculateTotalDistanceWithMatrix gs (distanceMatrix this) in
  let candidates :=
    '(i, j, k) ← triples (length gs); generate3OptMoves gs i j k in
  snd <$> list_find (λ newTour,
                       Qltb (calculateTotalDistanceWithMatrix newTour (distanceMatrix this))
                            currentDistance = true) candidates.

Fixpoint improveLoop (iterations : nat) (this : t) (gs : list nat) : list nat :=
  match iterations with
  | 0 => gs
  | S iterations' =>
      match firstImprovement this gs with
      | Some gs' => improveLoop iterations' this gs'
      | None => gs
      end
  end.

Definition apply3Opt (this : t) (solution : Chromosome) : Chromosome :=
  let maxIterations := 10 in
  createChromosomeWithMatrix (improveLoop maxIterations this (genes solution))
                             (distanceMatrix this).

Definition add_entry (m : Matrix) (i j : nat) (v : Q) : Matrix :=
  set_entry m i j (entry m i j + v)%Q.

Definition updatePheromones (this : t) : t :=
  let evaporated :=
    (λ row : list Q, (λ v, v * (1 - rho))%Q <$> row) <$> pheromoneMatrix this in
  let sorted := sortByDistance (solutions this) in
  let eliteCount := 5 `min` length sorted in
  let pheromone :=
    foldl (λ m solution,
             let deposit := (Qdeposit / distance solution)%Q in
             let gs := genes solution in
             foldl (λ m i,
                      match gs !! i, gs !! ((i + 1) `mod` length gs) with
                      | Some from, Some to =>
                          add_entry (add_entry m from to deposit) to from deposit
                      | _, _ => m
                      end) m (seq 0 (length gs)))
          evaporated (take eliteCount sorted) in
  with_solutions this pheromone sorted.

Definition initialize (this : t) : M t :=
  let* constructed :=
    mapRand (λ _ : nat, constructSolutionACO this)
            (seq 0 (populationSize (params this))) in
  let this := with_solutions this (pheromoneMatrix this) (apply3Opt this <$> constructed) in
  let this := updatePheromones this in
  lift (updateStats 0 this).

Definition getPopulation (this : t) : t * Population :=
  let sorted := sortByDistance (solutions this) in
  (with_solutions this (pheromoneMatrix this) sorted,
   snapshotOf sorted sorted (currentGeneration this)).

Definition runGeneration (elapsed : Q) (this : t) : M (t * Population) :=
  let* newSolutions :=
    mapRand (λ _ : nat, constructSolutionACO this)
            (seq 0 (populationSize (params this))) in
  let improvedSolutions := apply3Opt this <$> newSolutions in
  let this := with_solutions this (pheromoneMatrix this) improvedSolutions in
  let this := updatePheromones this in
  let this :=
    {| cities := cities this; params := params this;
       distanceMatrix := distanceMatrix this;
       pheromoneMatrix := pheromoneMatrix this; solutions := solutions this;
       currentGeneration := S (currentGeneration this); stats := stats this |} in
  let* this := lift (updateStats elapsed this) in
  ret (getPopulation this).

End PACO3Opt.

(** ** The application store (store/algorithmStore.ts) *)

Module Store.

Record t := mk {
  cities : list City;
  nextCityId : nat;
  algorithm : option GAJGHO.t;
  isRunning : bool;
  isPaused : bool;
  currentGeneration : nat;
  currentPopulation : option Population;
  history : list GenerationStats;
  params : AlgorithmParams
}.

(** What [initializeAlgorithm] did: warned on the console and returned, or
    set the store. *)
Inductive outcome :=
  | Warned (message : string)
  | Initialized (store : t).

(** [getStats] raises a TypeError after an [initialize] that built no
    chromosome (population size 0). *)
Definition initializeAlgorithm (sqrt : Q → Q) (now : Z) (store : t) : M outcome :=
  if decide (length (cities store) < 3) then
    ret (Warned "Need at least 3 cities to run algorithm")
  else
    let algorithm := GAJGHO.new sqrt now (cities store) (params store) in
    let* algorithm := GAJGHO.initialize sqrt now algorithm in
    let population := GAJGHO.getPopulation algorithm in
    let* stats := lift (GAJGHO.getStats now algorithm) in
    ret (Initialized
           {| cities := cities store; nextCityId := nextCityId store;
              algorithm := Some algorithm;
              isRunning := false; isPaused := false;
              currentGeneration := 0;
              currentPopulation := Some population;
              history := [stats];
              params := params store |}).

End Store.

(** ** Vocabulary of the statements *)

(** [m[a][b]], [None] out of range. *)
Definition lookup2 (m : Matrix) (a b : nat) : option Q := m !! a ≫= (.!! b).

(** The distance stored for the pair of points [a] and [b]. *)
Definition distOf (sqrt : Q → Q) (cities : list City) (a b : nat) : Q :=
  match cities !! a, cities !! b with
  | Some ca, Some cb => calculateDistance sqrt ca cb
  | _, _ => 0%Q
  end.

(** The inner loop of [buildDistanceMatrix], for row [i]. *)
Definition innerLoop (sqrt : Q → Q) (cities : list City) (i : nat) (m : Matrix)
    (js : list nat) : Matrix :=
  foldl (λ matrix j,
    match cities !! i, cities !! j with
    | Some ci, Some cj =>
        let dist := calculateDistance sqrt ci cj in
        set_entry (set_entry matrix i j dist) j i dist
    | _, _ => matrix
    end) m js.

(** A replacement made by the unique operator: one output of
    [generateRandomChromosome], stored with fitness and distance 0. *)
Definition freshly_generated (cityCount : nat) (r : Chromosome) : Prop :=
  fitness r = 0%Q ∧ distance r = 0%Q ∧ is_tour cityCount (genes r) ∧
  ∃ h h', generateRandomChromosome cityCount h = Some (genes r, h').

(** What the unique operator leaves at each index of a population. *)
Definition unique_result (cityCount : nat) (population result : list Chromosome) : Prop :=
  length result = length population ∧
  ∀ i c, population !! i = Some c →
    ∃ r, result !! i = Some r ∧
         if decide (genes c ∈ genes <$> take i population)
         then freshly_generated cityCount r
         else r = c.

(** The chromosome a fitness recomputation puts in the place of [r]. *)
Definition recomputed (distanceMatrix : Matrix) (r : Chromosome) : Chromosome :=
  let d := calculateTotalDistanceWithMatrix (genes r) distanceMatrix in
  {| genes := genes r; fitness := d; distance := d |}.

(** The cumulative fitness of the first [k] members, summed as the wheel
    sums it. *)
Definition cumulativeFitness (fitnessValues : list Q) (k : nat) : Q :=
  foldl Qplus 0%Q (take k fitnessValues).

(** Every chromosome of the population is a tour over [n] cities. *)
Definition valid_population (n : nat) (population : list Chromosome) : Prop :=
  Forall (λ c, is_tour n (genes c)) population.

(** Ascending by distance. *)
Definition le_distance (a b : Chromosome) : Prop := (distance a <= distance b)%Q.

(** The loop invariant of the crossover: the offspring has no repeated
    city, holds cities below [n] only, and [visited] is its set of cities. *)
Definition bhx_inv (n : nat) (offspring : list nat) (visited : gset nat) : Prop :=
  NoDup offspring ∧ (∀ c, c ∈ visited ↔ c ∈ offspring) ∧ (∀ c, c ∈ offspring → c < n).

(** The population a generation leaves, from the offspring of its
    operators and the previous population. *)
Definition mergeElites (p : AlgorithmParams) (offspring previous : list Chromosome)
    : list Chromosome :=
  sortByDistance
    (slice_to (sortByDistance offspring)
              (Z.of_nat (populationSize p) - Z.of_nat (eliteCount p))
     ++ take (eliteCount p) (sortByDistance previous)).


(** The states of a bee colony: after [initialize] of a fresh instance, and
    after each further generation. *)
Inductive ABC_reachable (sqrt : Q → Q) (cities : list City) (params : AlgorithmParams)
    : ABCTSP.t → Prop :=
  | ABC_initialized g this g' :
      ABCTSP.initialize (ABCTSP.new sqrt cities params) g = Some (this, g') →
      ABC_reachable sqrt cities params this
  | ABC_generation fuel elapsed this g this' pop g' :
      ABC_reachable sqrt cities params this →
      ABCTSP.runGeneration fuel elapsed this g = Some (this', pop, g') →
      ABC_reachable sqrt cities params this'.

(** ** Concrete inputs for the examples *)

(** An integer square root, to run the engine. *)
Definition isqrt (v : Q) : Q := inject_Z (Z.sqrt (Qfloor v)).

Definition draw (n : Z) (d : positive)
    (ok : Is_true (Qle_bool 0 (n # d) && Qltb (n # d) 1)) : Unit01 :=
  mkUnit01 (n # d) ok.

(** A random source that cycles through 1/3, 7/10, 0, 9/10. *)
Definition rng0 : Rng :=
  λ k, match k `mod` 4 with
       | 0 => draw 1 3 I
       | 1 => draw 7 10 I
       | 2 => draw 0 1 I
       | _ => draw 9 10 I
       end.

Definition square4 : list City :=
  [mkCity 0 0 0; mkCity 1 0 10; mkCity 2 10 10; mkCity 3 10 0].

Definition two_points : list City := [mkCity 0 0 0; mkCity 1 3 4].

Definition params4 : AlgorithmParams :=
  mkParams 4 10 1 (76 # 100) (6 # 100) (54 # 100) (16 # 100) (29 # 100) (64 # 100) 2.

Definition params0 : AlgorithmParams :=
  mkParams 0 10 1 (76 # 100) (6 # 100) (54 # 100) (16 # 100) (29 # 100) (64 # 100) 2.

(** ** Vocabulary for the 2-opt search *)

(** The length of the open path through [l]. *)
Fixpoint pathLen (m : Matrix) (l : list nat) : Q :=
  match l with
  | a :: (b :: _) as t => entry m a b + pathLen m t
  | _ => 0
  end.

(** The edge from the end of [l1] to the start of [l2]. *)
Definition link (m : Matrix) (l1 l2 : list nat) : Q :=
  match last l1, head l2 with
  | Some a, Some b => entry m a b
  | _, _ => 0
  end.

(** The matrix is symmetric on the cities of [gs]. *)
Definition symmetric_on (m : Matrix) (gs : list nat) : Prop :=
  ∀ a b, a ∈ gs → b ∈ gs → entry m a b == entry m b a.

(** The rearrangements of [gs0] that are strictly shorter than [gs]. *)
Definition shorter_tours (m : Matrix) (gs0 gs : list nat) : list (list nat) :=
  filter (λ p, Is_true (Qltb (calculateTotalDistanceWithMatrix p m)
                             (calculateTotalDistanceWithMatrix gs m)))
         (permutations gs0).

(** No 2-opt move on [gs] replaces two edges by a strictly shorter pair. *)
Definition two_opt_optimal (m : Matrix) (gs : list nat) : Prop :=
  ∀ i j a b c d,
    i < j → j < length gs →
    gs !! i = Some a → gs !! (i + 1) = Some b →
    gs !! j = Some c → gs !! ((j + 1) `mod` length gs) = Some d →
    (entry m a b + entry m c d <= entry m a c + entry m b d)%Q.

(** Initialise a fresh instance, run one generation, and call
    [initialize] again. *)
Definition reinitialize_GAJGHO : M GAJGHO.t :=
  let* this := GAJGHO.initialize isqrt 0 (GAJGHO.new isqrt 0 square4 params4) in
  let* r := GAJGHO.runGeneration 100 this in
  GAJGHO.initialize isqrt 0 (fst r).

Definition reinitialize_StandardGA : M StandardGA.t :=
  let* this := StandardGA.initialize (StandardGA.new isqrt square4 params4) in
  let* r := StandardGA.runGeneration 100 1 this in
  StandardGA.initialize (fst r).

Definition reinitialize_ABCTSP : M ABCTSP.t :=
  let* this := ABCTSP.initialize (ABCTSP.new isqrt square4 params4) in
  let* r := ABCTSP.runGeneration 100 1 this in
  ABCTSP.initialize (fst r).

Definition reinitialize_PACO3Opt : M PACO3Opt.t :=
  let* this := PACO3Opt.initialize (PACO3Opt.new isqrt square4 params4) in
  let* r := PACO3Opt.runGeneration 1 this in
  PACO3Opt.initialize (fst r).

(** The value a computation returns under the random source [g]. *)
Definition result_of {A} (c : M A) (g : Rng) : option A := fst <$> c g.

(** The distance matrix of the four corners, two tours on it, and a store
    that holds two points only. *)
Definition matrix4 : Matrix := buildDistanceMatrix isqrt square4.

Definition tour0123 : Chromosome := createChromosomeWithMatrix [0; 1; 2; 3] matrix4.

Definition tour2031 : Chromosome := createChromosomeWithMatrix [2; 0; 3; 1] matrix4.

Definition store_two_points : Store.t :=
  {| Store.cities := two_points; Store.nextCityId := 2; Store.algorithm := None;
     Store.isRunning := false; Store.isPaused := false;
     Store.currentGeneration := 0; Store.currentPopulation := None;
     Store.history := []; Store.params := params4 |}.

(** A matrix that is not symmetric. *)
Definition asymmetric4 : Matrix :=
  [[0; 1; 1; 2]; [0; 0; 2; 0]; [1; 0; 0; 0]; [0; 2; 2; 0]]%Q.

(** ** Further vocabulary *)

From Stdlib Require Import Qpower.

(** The stored distance and fitness of a chromosome are the cyclic length
    of its genes under the matrix. *)
Definition measured (distanceMatrix : Matrix) (c : Chromosome) : Prop :=
  distance c = calculateTotalDistanceWithMatrix (genes c) distanceMatrix ∧
  fitness c = distance c.

(** ** The duplicate count of algorithms/unique.ts *)

Definition countDuplicates (population : list Chromosome) : nat :=
  snd (foldl (λ '(seen, duplicateCount) chromosome,
                let key := genes chromosome in
                if decide (key ∈ seen) then (seen, S duplicateCount)
                else ({[key]} ∪ seen, duplicateCount))
             ((∅ : gset (list nat)), 0) population).

(** ** The single pass of algorithms/twoOpt.ts *)



(** ** The rest of the GA-JGHO driver (algorithms/GAJGHO.ts) *)

(** The instances reached from a fresh [GAJGHO] by [initialize] and then
    [k] calls of [runGeneration]. *)
Inductive GAJGHO_after (sqrt : Q → Q) (cities : list City) (params : AlgorithmParams)
    : nat → GAJGHO.t → Prop :=
  | GAJGHO_after_initialize now now' g this g' :
      GAJGHO.initialize sqrt now' (GAJGHO.new sqrt now cities params) g = Some (this, g') →
      GAJGHO_after sqrt cities params 0 this
  | GAJGHO_after_generation k fuel this g this' pop g' :
      GAJGHO_after sqrt cities params k this →
      GAJGHO.runGeneration fuel this g = Some (this', pop, g') →
      GAJGHO_after sqrt cities params (S k) this'.

(** [shouldStop]: [population.diversity < 0.01], which is false for the
    [NaN] of an empty population; both later branches return [false]. *)
Definition GAJGHO_shouldStop (this : GAJGHO.t) : bool :=
  match diversity (GAJGHO.getPopulation this) with
  | Some d => Qltb d (1 # 100)
  | None => false
  end.

(** The [for] loop of [run], with [remaining] passes left and the loop
    variable at [gen]. The optional callback [onGenerationComplete] acts on
    a state [St] of the caller; [clock gen] is the reading of [Date.now()]
    in the [getStats] of that pass. *)
Fixpoint GAJGHO_runLoop {St : Type} (fuel : nat) (clock : nat → Z)
    (onGenerationComplete : option (Population → GenerationStats → St → St))
    (remaining gen : nat) (this : GAJGHO.t) (s : St) : M (GAJGHO.t * St) :=
  match remaining with
  | 0 => ret (this, s)
  | S remaining' =>
      let* r := GAJGHO.runGeneration fuel this in
      let this' := fst r in
      let population := snd r in
      let* s' :=
        match onGenerationComplete with
        | Some callback =>
            let* stats := lift (GAJGHO.getStats (clock gen) this') in
            ret (callback population stats s)
        | None => ret s
        end in
      if GAJGHO_shouldStop this' then ret (this', s')
      else GAJGHO_runLoop fuel clock onGenerationComplete remaining' (S gen) this' s'
  end.

Definition GAJGHO_run {St : Type} (fuel : nat) (sqrt : Q → Q) (now : Z) (clock : nat → Z)
    (onGenerationComplete : option (Population → GenerationStats → St → St))
    (this : GAJGHO.t) (s : St) : M (GAJGHO.t * Population * St) :=
  let* this := GAJGHO.initialize sqrt now this in
  let* r := GAJGHO_runLoop fuel clock onGenerationComplete
                           (maxGenerations (GAJGHO.params this)) 0 this s in
  ret (fst r, GAJGHO.getPopulation (fst r), snd r).

(** [getBestSolution]: [sorted[0]], [undefined] for an empty population. *)
Definition GAJGHO_getBestSolution (this : GAJGHO.t) : option Chromosome :=
  sortByDistance (GAJGHO.currentPopulation this) !! 0.

(** ** The states of the comparator classes *)

(** The ant colonies reached from a fresh [PACO3Opt] by [initialize] and
    then any number of calls of [runGeneration]. *)
Inductive PACO_reachable (sqrt : Q → Q) (cities : list City) (params : AlgorithmParams)
    : PACO3Opt.t → Prop :=
  | PACO_initialized g this g' :
      PACO3Opt.initialize (PACO3Opt.new sqrt cities params) g = Some (this, g') →
      PACO_reachable sqrt cities params this
  | PACO_generation elapsed this g this' pop g' :
      PACO_reachable sqrt cities params this →
      PACO3Opt.runGeneration elapsed this g = Some (this', pop, g') →
      PACO_reachable sqrt cities params this'.

(** [m] is symmetric on the indices below [n]. *)
Definition symmetric_below (n : nat) (m : Matrix) : Prop :=
  ∀ a b, a < n → b < n → entry m a b == entry m b a.

(** The outcome of one greedy replacement of a food source: the source and
    its trial counter before, and after.  Either the source is kept and the
    counter grows by one, or a strictly shorter rearrangement with a true
    stored distance takes its place and the counter restarts at 0. *)
Definition greedy_at (distanceMatrix : Matrix) (source : Chromosome) (trial : nat)
    (source' : Chromosome) (trial' : nat) : Prop :=
  (source' = source ∧ trial' = S trial) ∨
  (genes source' ≡ₚ genes source ∧ measured distanceMatrix source' ∧
   (distance source' < distance source)%Q ∧ trial' = 0).

(** Position [i] of the colony is untouched between two states. *)
Definition ABC_same (i : nat) (this this' : ABCTSP.t) : Prop :=
  ABCTSP.foodSources this' !! i = ABCTSP.foodSources this !! i ∧
  ABCTSP.trials this' !! i = ABCTSP.trials this !! i.

(** The fields that no phase of a generation writes. *)
Definition ABC_static (this this' : ABCTSP.t) : Prop :=
  ABCTSP.cities this' = ABCTSP.cities this ∧
  ABCTSP.params this' = ABCTSP.params this ∧
  ABCTSP.distanceMatrix this' = ABCTSP.distanceMatrix this ∧
  ABCTSP.limit this' = ABCTSP.limit this ∧
  ABCTSP.currentGeneration this' = ABCTSP.currentGeneration this ∧
  ABCTSP.stats this' = ABCTSP.stats this ∧
  length (ABCTSP.foodSources this') = length (ABCTSP.foodSources this) ∧
  length (ABCTSP.trials this') = length (ABCTSP.trials this).

(** What one greedy replacement does to position [k], and that it touches
    no other position. *)
Definition ABC_greedy_step (k : nat) (this this' : ABCTSP.t) : Prop :=
  ∀ source trial,
    ABCTSP.foodSources this !! k = Some source →
    ABCTSP.trials this !! k = Some trial →
    ∃ source' trial',
      ABCTSP.foodSources this' !! k = Some source' ∧
      ABCTSP.trials this' !! k = Some trial' ∧
      greedy_at (ABCTSP.distanceMatrix this) source trial source' trial'.

(** Position [i] holds a rearrangement of its former source that is not
    longer, by the stored distances. *)
Definition ABC_improved_at (i : nat) (this this' : ABCTSP.t) : Prop :=
  ∀ source,
    ABCTSP.foodSources this !! i = Some source →
    ∃ source',
      ABCTSP.foodSources this' !! i = Some source' ∧
      genes source' ≡ₚ genes source ∧
      (distance source' <= distance source)%Q ∧
      (source' = source ∨ measured (ABCTSP.distanceMatrix this) source').

(** What the scouts do to position [k]: a source whose trial counter has
    reached the limit is replaced by a fresh random tour, the others stay. *)
Definition ABC_scout_step (k : nat) (this this' : ABCTSP.t) : Prop :=
  ∀ source trial,
    ABCTSP.foodSources this !! k = Some source →
    ABCTSP.trials this !! k = Some trial →
    if decide (ABCTSP.limit this ≤ trial) then
      ∃ fresh,
        ABCTSP.foodSources this' !! k = Some fresh ∧
        ABCTSP.trials this' !! k = Some 0 ∧
        is_tour (length (ABCTSP.cities this)) (genes fresh) ∧
        measured (ABCTSP.distanceMatrix this) fresh
    else
      ABCTSP.foodSources this' !! k = Some source ∧
      ABCTSP.trials this' !! k = Some trial.

(** The invariant of the colony: every food source is a tour over the
    cities with its true distance, and there is one trial counter per
    source. *)
Definition ABC_colony_ok (this : ABCTSP.t) : Prop :=
  valid_population (length (ABCTSP.cities this)) (ABCTSP.foodSources this) ∧
  Forall (measured (ABCTSP.distanceMatrix this)) (ABCTSP.foodSources this) ∧
  length (ABCTSP.trials this) = length (ABCTSP.foodSources this).

(** ** Stepping the store (store/algorithmStore.ts) *)

(** [stepGeneration].  Without an algorithm it initialises one and returns.
    Otherwise, below [maxGenerations] of the store's own parameters, it runs
    one generation; [runGeneration] mutates the algorithm object that the
    store holds, so the store's [algorithm] is the instance after the
    generation.  [now] is the reading of [Date.now()]. *)
Definition Store_stepGeneration (fuel : nat) (sqrt : Q → Q) (now : Z) (store : Store.t)
    : M Store.t :=
  match Store.algorithm store with
  | None =>
      let* outcome := Store.initializeAlgorithm sqrt now store in
      ret (match outcome with
           | Store.Warned _ => store
           | Store.Initialized store' => store'
           end)
  | Some algorithm =>
      if decide (Store.currentGeneration store < maxGenerations (Store.params store)) then
        let* r := GAJGHO.runGeneration fuel algorithm in
        let algorithm := fst r in
        let population := snd r in
        let* stats := lift (GAJGHO.getStats now algorithm) in
        ret {| Store.cities := Store.cities store;
               Store.nextCityId := Store.nextCityId store;
               Store.algorithm := Some algorithm;
               Store.isRunning := Store.isRunning store;
               Store.isPaused := Store.isPaused store;
               Store.currentGeneration := stat_generation stats;
               Store.currentPopulation := Some population;
               Store.history := Store.history store ++ [stats];
               Store.params := Store.params store |}
      else ret store
  end.

(** The stores reached from [store0] by a successful [initializeAlgorithm]
    and then [k] calls of [stepGeneration]. *)
Inductive Store_after (sqrt : Q → Q) (store0 : Store.t) : nat → Store.t → Prop :=
  | Store_after_initialize now g store g' :
      Store.initializeAlgorithm sqrt now store0 g = Some (Store.Initialized store, g') →
      Store_after sqrt store0 0 store
  | Store_after_step k fuel now store g store' g' :
      Store_after sqrt store0 k store →
      Store_stepGeneration fuel sqrt now store g = Some (store', g') →
      Store_after sqrt store0 (S k) store'.

(** A store that holds the four corners of a square and no algorithm. *)
Definition store_square4 : Store.t :=
  {| Store.cities := square4; Store.nextCityId := 4; Store.algorithm := None;
     Store.isRunning := false; Store.isPaused := false;
     Store.currentGeneration := 0; Store.currentPopulation := None;
     Store.history := []; Store.params := params4 |}.
(** * Properties *)

(** ** Numbers and the random source *)

Lemma Qltb_lt a b : Qltb a b = true ↔ (a < b)%Q.
Proof.
  unfold Qltb. rewrite negb_true_iff. split.
  - intros H. apply Qnot_le_lt. intros Hle. apply Qle_bool_iff in Hle. congruence.
  - intros H. destruct (Qle_bool b a) eqn:E; [|done].
    apply Qle_bool_iff in E. lra.
Qed.

Lemma Qltb_ge a b : Qltb a b = false ↔ (b <= a)%Q.
Proof. unfold Qltb. rewrite negb_false_iff. apply Qle_bool_iff. Qed.

Lemma u01_range (u : Unit01) : (0 <= u01 u < 1)%Q.
Proof.
  destruct u as [v Hv]; simpl.
  apply Is_true_true, andb_true_iff in Hv as [H1 H2].
  apply Qle_bool_iff in H1. apply Qltb_lt in H2. done.
Qed.

Lemma bind_Some {A B} (c : M A) (k : A → M B) g b g'' :
  bind c k g = Some (b, g'') ↔ ∃ a g', c g = Some (a, g') ∧ k a g' = Some (b, g'').
Proof.
  unfold bind. destruct (c g) as [[a g']|]; split.
  - eauto.
  - intros (a' & h & Heq & Hk). inversion Heq; subst. done.
  - done.
  - intros (? & ? & ? & ?); done.
Qed.


Lemma ret_Some {A} (a b : A) g g' : ret a g = Some (b, g') ↔ a = b ∧ g = g'.
Proof. unfold ret. split; [intros Heq; inversion Heq; done | intros [-> ->]; done]. Qed.

Lemma lift_Some {A} (o : option A) a g g' : lift o g = Some (a, g') ↔ o = Some a ∧ g = g'.
Proof.
  destruct o; unfold lift, ret, fail; split;
    first [ intros Heq; inversion Heq; done | intros [Heq <-]; inversion Heq; done ].
Qed.

(** Breaks a successful monadic computation into its steps. *)
Ltac inv_M H :=
  cbv beta in H;
  lazymatch type of H with
  | bind _ _ _ = Some _ =>
      let a := fresh "a" in let g := fresh "g" in
      let H1 := fresh "Hc" in
      apply bind_Some in H; destruct H as (a & g & H1 & H); inv_M H1; inv_M H
  | ret _ _ = Some _ => apply ret_Some in H; destruct H as [? ?]
  | lift _ _ = Some _ => apply lift_Some in H; destruct H as [? ?]
  | fail _ = Some _ => discriminate H
  | _ => idtac
  end.

Lemma Math_random_range g v g' :
  Math_random g = Some (v, g') → (0 <= v < 1)%Q.
Proof. intros [= <- <-]. apply u01_range. Qed.

Lemma floor_nat_lt (v : Q) (n : nat) :
  (0 <= v < 1)%Q → 0 < n → floor_nat (v * Qnat n) < n.
Proof.
  intros [H0 H1] Hn. unfold floor_nat, Qnat.
  assert (Hlt : (v * inject_Z (Z.of_nat n) < inject_Z (Z.of_nat n))%Q).
  { assert (0 < inject_Z (Z.of_nat n))%Q.
    { rewrite <- (Zlt_Qlt 0). lia. }
    nra. }
  assert (Hge : (0 <= v * inject_Z (Z.of_nat n))%Q).
  { assert (0 <= inject_Z (Z.of_nat n))%Q.
    { rewrite <- (Zle_Qle 0). lia. }
    nra. }
  pose proof (Qfloor_le (v * inject_Z (Z.of_nat n))) as Hf.
  assert ((Qfloor (v * inject_Z (Z.of_nat n)) < Z.of_nat n)%Z).
  { rewrite Zlt_Qlt. lra. }
  assert ((0 <= Qfloor (v * inject_Z (Z.of_nat n)))%Z).
  { rewrite <- (Qfloor_Z 0). apply Qfloor_resp_le. done. }
  lia.
Qed.

Lemma floor_nat_zero (v : Q) : floor_nat (v * Qnat 0) = 0.
Proof.
  unfold floor_nat, Qnat.
  rewrite (Qfloor_comp (v * inject_Z (Z.of_nat 0)) 0); [done|].
  change (inject_Z (Z.of_nat 0)) with 0%Q. ring.
Qed.

Lemma randomIndex_lt n g i g' :
  randomIndex n g = Some (i, g') → 0 < n → i < n.
Proof.
  unfold randomIndex. intros H Hn. inv_M H. subst.
  apply floor_nat_lt; [eapply Math_random_range; done | done].
Qed.

Lemma randomIndex_zero g i g' : randomIndex 0 g = Some (i, g') → i = 0.
Proof.
  unfold randomIndex. intros H. inv_M H. subst. apply floor_nat_zero.
Qed.

Lemma randomIndex_total n g : is_Some (randomIndex n g).
Proof. unfold randomIndex, bind, Math_random, ret. eauto. Qed.

(** ** The distance matrix *)

Lemma entry_lookup2 m a b v : lookup2 m a b = Some v → entry m a b = v.
Proof. unfold entry, lookup2. intros ->. done. Qed.

Lemma square_lookup2 n m a b : square n m → a < n → b < n → is_Some (lookup2 m a b).
Proof.
  intros [Hlen Hrows] Ha Hb. unfold lookup2.
  destruct (lookup_lt_is_Some_2 m a) as [row Hrow]; [lia|].
  rewrite Hrow. simpl. apply lookup_lt_is_Some_2.
  rewrite Forall_forall in Hrows.
  rewrite (Hrows row); [done|]. eapply list_elem_of_lookup_2; done.
Qed.

Lemma square_set_entry n m i j v : square n m → square n (set_entry m i j v).
Proof.
  intros [Hlen Hrows]. split.
  - unfold set_entry. rewrite length_alter. done.
  - apply Forall_alter; [done|]. intros row _ Hrow. rewrite length_insert. done.
Qed.

Lemma lookup2_set_entry n m i j v a b :
  square n m → i < n → j < n →
  lookup2 (set_entry m i j v) a b =
    if decide (a = i ∧ b = j) then Some v else lookup2 m a b.
Proof.
  intros Hsq Hi Hj. unfold lookup2, set_entry.
  destruct (square_lookup2 n m i j Hsq Hi Hj) as [w Hw]. unfold lookup2 in Hw.
  destruct (m !! i) as [row|] eqn:Hrow; [|done]. simpl in Hw.
  destruct (decide (a = i)) as [->|Hne].
  - rewrite list_lookup_alter_eq, Hrow. simpl.
    destruct (decide (b = j)) as [->|Hnb].
    + rewrite decide_True by done.
      apply list_lookup_insert_eq. eapply lookup_lt_Some. done.
    + rewrite decide_False by naive_solver.
      apply list_lookup_insert_ne. done.
  - rewrite decide_False by naive_solver.
    rewrite list_lookup_alter_ne by done. done.
Qed.

Section DistanceMatrix.

Variable sqrt : Q → Q.

Lemma calculateDistance_sym c1 c2 :
  calculateDistance sqrt c1 c2 = calculateDistance sqrt c2 c1.
Proof.
  assert (Hsq : ∀ a b : Q, ((a - b) * (a - b))%Q = ((b - a) * (b - a))%Q).
  { intros [an ad] [bn bd].
    unfold Qminus, Qplus, Qopp, Qmult; simpl. f_equal; lia. }
  unfold calculateDistance. cbv zeta.
  rewrite (Hsq (x c1) (x c2)), (Hsq (y c1) (y c2)). done.
Qed.

Lemma innerLoop_spec cities i js : ∀ m,
  let n := length cities in
  square n m → i < n → Forall (λ j, j < n ∧ j ≠ i) js →
  square n (innerLoop sqrt cities i m js) ∧
  ∀ a b, lookup2 (innerLoop sqrt cities i m js) a b =
    if decide (a = i ∧ b ∈ js) then Some (distOf sqrt cities i b)
    else if decide (b = i ∧ a ∈ js) then Some (distOf sqrt cities i a)
    else lookup2 m a b.
Proof.
  induction js as [|j js IH]; intros m n Hsq Hi Hjs.
  - simpl. split; [done|]. intros a b.
    rewrite !decide_False; [done|..]; intros [_ H]; inversion H.
  - apply Forall_cons in Hjs as [[Hj Hji] Hjs]. simpl.
    destruct (lookup_lt_is_Some_2 cities i Hi) as [ci Hci].
    destruct (lookup_lt_is_Some_2 cities j Hj) as [cj Hcj].
    rewrite Hci, Hcj.
    set (d := calculateDistance sqrt ci cj).
    set (m1 := set_entry (set_entry m i j d) j i d).
    assert (Hsq1 : square n m1) by (do 2 apply square_set_entry; done).
    destruct (IH m1 Hsq1 Hi Hjs) as [Hsq2 Hlk]. split; [done|].
    intros a b. fold (innerLoop sqrt cities i m1 js). rewrite Hlk.
    assert (Hd : d = distOf sqrt cities i j) by (unfold distOf; rewrite Hci, Hcj; done).
    unfold m1.
    rewrite (lookup2_set_entry n) by (try apply square_set_entry; done).
    rewrite (lookup2_set_entry n) by done.
    clear - Hji Hd.
    repeat case_decide; try done;
      repeat match goal with
      | H : _ ∧ _ |- _ => destruct H
      | H : _ ∈ _ :: _ |- _ => apply elem_of_cons in H; destruct H
      | H : ¬ (_ ∧ _) |- _ => apply not_and_l in H; destruct H
      | H : ¬ (_ ∈ _ :: _) |- _ => apply not_elem_of_cons in H; destruct H
      end; subst; try done; try congruence.
Qed.

Lemma buildDistanceMatrix_rows cities (rows : list nat) : ∀ m,
  let n := length cities in
  square n m → Forall (λ i, i < n) rows →
  let m' := foldl (λ matrix i, innerLoop sqrt cities i matrix (seq (i + 1) (n - (i + 1)))) m rows in
  square n m' ∧
  ∀ a b, a < n → b < n → lookup2 m' a b =
    if decide (a < b ∧ a ∈ rows) then Some (distOf sqrt cities a b)
    else if decide (b < a ∧ b ∈ rows) then Some (distOf sqrt cities b a)
    else lookup2 m a b.
Proof.
  induction rows as [|i rows IH]; intros m n Hsq Hrows.
  - simpl. split; [done|]. intros a b _ _.
    rewrite !decide_False; [done|..]; intros [_ H]; inversion H.
  - apply Forall_cons in Hrows as [Hi Hrows]. simpl.
    destruct (innerLoop_spec cities i (seq (i + 1) (n - (i + 1))) m) as [Hsq1 Hlk1];
      [done|done| |].
    { apply Forall_forall. intros j Hj%elem_of_seq. lia. }
    fold n in Hsq1, Hlk1.
    destruct (IH _ Hsq1 Hrows) as [Hsq2 Hlk2]. split; [done|].
    intros a b Ha Hb. rewrite Hlk2 by done. rewrite Hlk1.
    clear - Ha Hb Hi. fold n.
    repeat case_decide; try done;
      repeat match goal with
      | H : _ ∧ _ |- _ => destruct H
      | H : _ ∈ seq _ _ |- _ => apply elem_of_seq in H
      | H : _ ∈ _ :: _ |- _ => apply elem_of_cons in H; destruct H
      | H : ¬ (_ ∧ _) |- _ => apply not_and_l in H; destruct H
      | H : ¬ (_ ∈ seq _ _) |- _ => rewrite elem_of_seq in H
      | H : ¬ (_ ∈ _ :: _) |- _ => apply not_elem_of_cons in H; destruct H
      end; subst; try done; try lia; try congruence.
Qed.

Lemma buildDistanceMatrix_lookup cities a b :
  let n := length cities in
  let m := buildDistanceMatrix sqrt cities in
  square n m ∧
  (a < n → b < n →
   lookup2 m a b = Some (if decide (a = b) then 0%Q else distOf sqrt cities a b)).
Proof.
  intros n m.
  destruct (buildDistanceMatrix_rows cities (seq 0 n) (replicate n (replicate n 0%Q)))
    as [Hsq Hlk].
  { split; [apply length_replicate|].
    apply Forall_replicate, length_replicate. }
  { apply Forall_forall. intros i Hi%elem_of_seq. lia. }
  split; [exact Hsq|]. intros Ha Hb.
  unfold m, buildDistanceMatrix. fold n.
  etrans; [apply (Hlk a b Ha Hb)|].
  repeat case_decide; try done.
  - subst. lia.
  - subst. lia.
  - f_equal. unfold distOf.
    destruct (cities !! a), (cities !! b); try done. apply calculateDistance_sym.
  - subst. unfold lookup2. rewrite lookup_replicate_2 by done. simpl.
    rewrite lookup_replicate_2 by done. done.
  - exfalso.
    assert (a ∈ seq 0 n) by (apply elem_of_seq; lia).
    assert (b ∈ seq 0 n) by (apply elem_of_seq; lia).
    destruct (decide (a < b)); [naive_solver|]. assert (b < a) by lia. naive_solver.
Qed.

(** C8. For every list of points, [buildDistanceMatrix] returns a square
    matrix of the size of the list which, at any two indices [i] and [j] of
    the list, holds the same value in [i][j] and in [j][i], holds 0 on the
    diagonal, and off the diagonal holds the Euclidean distance
    [sqrt (dx * dx + dy * dy)] between point [i] and point [j]. *)
Theorem buildDistanceMatrix_symmetric_zero_diagonal_euclidean
    (cities : list City) (i j : nat) (ci cj : City) :
  cities !! i = Some ci → cities !! j = Some cj →
  let m := buildDistanceMatrix sqrt cities in
  square (length cities) m ∧
  (∃ v, lookup2 m i j = Some v ∧ lookup2 m j i = Some v ∧
        (i ≠ j → v = calculateDistance sqrt ci cj) ∧
        (i ≠ j →
         v = sqrt ((x ci - x cj) * (x ci - x cj) + (y ci - y cj) * (y ci - y cj))%Q)) ∧
  lookup2 m i i = Some 0%Q.
Proof.
  intros Hi Hj m. subst m.
  assert (Hin : i < length cities) by (eapply lookup_lt_Some; done).
  assert (Hjn : j < length cities) by (eapply lookup_lt_Some; done).
  destruct (buildDistanceMatrix_lookup cities i j) as [Hsq Hij].
  destruct (buildDistanceMatrix_lookup cities j i) as [_ Hji].
  destruct (buildDistanceMatrix_lookup cities i i) as [_ Hii].
  split; [done|]. split.
  - eexists. split; [apply Hij; done|]. split.
    + rewrite Hji by done. f_equal.
      repeat case_decide; try done; try congruence.
      unfold distOf. rewrite Hi, Hj. apply calculateDistance_sym.
    + split; intros Hne; rewrite decide_False by done;
        unfold distOf; rewrite Hi, Hj; done.
  - rewrite Hii by done. rewrite decide_True by done. done.
Qed.

End DistanceMatrix.

(** ** Loops in the random monad *)

Lemma foldRand_total {A B} (f : B → A → M B) (P : B → Prop) (l : list A) : ∀ b g,
  (∀ b a g, P b → a ∈ l → ∃ b' g', f b a g = Some (b', g') ∧ P b') →
  P b → ∃ b' g', foldRand f b l g = Some (b', g') ∧ P b'.
Proof.
  induction l as [|a l IH]; intros b g Hf Hb; simpl.
  - eauto.
  - destruct (Hf b a g Hb) as (b1 & g1 & H1 & Hb1); [left|].
    unfold bind. rewrite H1. apply IH; [|done].
    intros b2 a2 g2 ? ?. apply Hf; [done|by right].
Qed.

Lemma foldRand_inv {A B} (f : B → A → M B) (P : B → Prop) (l : list A) : ∀ b g b' g',
  foldRand f b l g = Some (b', g') →
  (∀ b a g b' g', P b → a ∈ l → f b a g = Some (b', g') → P b') →
  P b → P b'.
Proof.
  induction l as [|a l IH]; intros b g b' g' H Hf Hb; simpl in H.
  - inv_M H. by subst.
  - inv_M H. eapply IH; [done| |].
    + intros ? ? ? ? ? ? ? ?. eapply Hf; [done|by right|done].
    + eapply Hf; [done|left|done].
Qed.

Lemma mapRand_total {A B} (f : A → M B) (P : B → Prop) (l : list A) : ∀ g,
  (∀ a g, a ∈ l → ∃ b g', f a g = Some (b, g') ∧ P b) →
  ∃ bs g', mapRand f l g = Some (bs, g') ∧ length bs = length l ∧ Forall P bs.
Proof.
  induction l as [|a l IH]; intros g Hf; simpl.
  - exists [], g. done.
  - destruct (Hf a g) as (b & g1 & H1 & Hb); [left|].
    destruct (IH g1) as (bs & g2 & H2 & Hlen & Hbs).
    { intros ? ? ?. apply Hf. by right. }
    exists (b :: bs), g2. unfold bind, ret. rewrite H1, H2.
    simpl. split; [done|]. split; [lia|]. by constructor.
Qed.

Lemma mapRand_inv {A B} (f : A → M B) (R : A → B → Prop) (l : list A) : ∀ g bs g',
  mapRand f l g = Some (bs, g') →
  (∀ a g b g', a ∈ l → f a g = Some (b, g') → R a b) →
  Forall2 R l bs.
Proof.
  induction l as [|a l IH]; intros g bs g' H Hf; simpl in H.
  - inv_M H. subst. constructor.
  - inv_M H. subst. constructor.
    + eapply Hf; [left|done].
    + eapply IH; [done|]. intros ? ? ? ? ? ?. eapply Hf; [by right|done].
Qed.

(** ** The Fisher-Yates shuffle *)

Lemma swap_at_Some a i j : i < length a → j < length a → is_Some (swap_at a i j).
Proof.
  intros Hi Hj. unfold swap_at.
  destruct (lookup_lt_is_Some_2 a i Hi) as [vi ->].
  destruct (lookup_lt_is_Some_2 a j Hj) as [vj ->]. simpl. eauto.
Qed.

Lemma swap_at_perm a i j a' : swap_at a i j = Some a' → a' ≡ₚ a.
Proof.
  unfold swap_at. intros H.
  destruct (a !! i) as [vi|] eqn:Hi; [|done].
  destruct (a !! j) as [vj|] eqn:Hj; [|done].
  simpl in H. injection H as <-. by apply Permutation_insert_swap.
Qed.

Lemma swap_at_length a i j a' : swap_at a i j = Some a' → length a' = length a.
Proof. intros H. apply Permutation_length. eapply swap_at_perm. done. Qed.

Lemma generateRandomChromosome_tour cityCount g :
  ∃ gs g', generateRandomChromosome cityCount g = Some (gs, g') ∧ is_tour cityCount gs.
Proof.
  unfold generateRandomChromosome, is_tour.
  apply (foldRand_total _ (λ gs, gs ≡ₚ seq 0 cityCount)); [|done].
  intros gs i h Hgs Hi.
  apply elem_of_reverse, elem_of_seq in Hi.
  destruct (randomIndex_total (i + 1) h) as [[j h'] Hj].
  assert (j < i + 1) by (eapply randomIndex_lt; [done|lia]).
  assert (Hlen : length gs = cityCount).
  { rewrite (Permutation_length Hgs). apply length_seq. }
  destruct (swap_at_Some gs i j) as [gs' Hgs']; [lia..|].
  exists gs', h'. unfold bind. rewrite Hj. rewrite Hgs'. simpl. split; [done|].
  etrans; [eapply swap_at_perm; done|done].
Qed.

Lemma generateRandomChromosome_inv cityCount g gs g' :
  generateRandomChromosome cityCount g = Some (gs, g') → is_tour cityCount gs.
Proof.
  intros H. destruct (generateRandomChromosome_tour cityCount g) as (gs1 & g1 & H1 & Ht).
  congruence.
Qed.

(** ** The unique operator *)

Lemma unique_result_snoc cityCount pre result c r :
  unique_result cityCount pre result →
  (if decide (genes c ∈ genes <$> pre) then freshly_generated cityCount r else r = c) →
  unique_result cityCount (pre ++ [c]) (result ++ [r]).
Proof.
  intros [Hlen Hres] Hr. split.
  - rewrite !length_app, Hlen. done.
  - intros i c' Hi. apply lookup_snoc_Some in Hi as [[Hlt Hi]|[-> <-]].
    + destruct (Hres i c' Hi) as (r' & Hr' & Hcase).
      exists r'. split; [rewrite lookup_app_l by lia; done|].
      rewrite take_app_le by lia. done.
    + exists r. split.
      * rewrite <- Hlen. rewrite lookup_app_r by lia.
        rewrite Nat.sub_diag. done.
      * rewrite take_app_length. done.
Qed.

Lemma uniqueLoop_spec cityCount rest : ∀ pre seen result g,
  (∀ k, is_Some (seen !! k) ↔ k ∈ genes <$> pre) →
  unique_result cityCount pre result →
  ∃ seen' result' g',
    foldRand (uniqueStep cityCount) (seen, result) rest g = Some ((seen', result'), g') ∧
    unique_result cityCount (pre ++ rest) result'.
Proof.
  induction rest as [|c rest IH]; intros pre seen result g Hseen Hres.
  - simpl. exists seen, result, g. rewrite app_nil_r. done.
  - simpl. unfold bind at 1. unfold uniqueStep at 1.
    destruct (decide (is_Some (seen !! genes c))) as [Hdup|Hnew].
    + destruct (generateRandomChromosome_tour cityCount g) as (gs & g1 & Hgen & Htour).
      unfold bind at 1. rewrite Hgen. unfold ret at 1.
      set (r := {| genes := gs; fitness := 0; distance := 0 |}).
      destruct (IH (pre ++ [c]) seen (result ++ [r]) g1) as (seen' & result' & g' & Hloop & Hres').
      { intros k. rewrite Hseen, fmap_app, elem_of_app. split; [by left|].
        intros [?|Hk]; [done|]. apply list_elem_of_singleton in Hk. subst k.
        by apply Hseen. }
      { apply unique_result_snoc; [done|].
        rewrite decide_True by (by apply Hseen).
        repeat split; [done|]. exists g, g1. done. }
      exists seen', result', g'. rewrite <- app_assoc in Hres'. done.
    + unfold ret at 1.
      destruct (IH (pre ++ [c]) (<[genes c := true]> seen) (result ++ [c]) g)
        as (seen' & result' & g' & Hloop & Hres').
      { intros k. rewrite fmap_app, elem_of_app, <- Hseen.
        destruct (decide (k = genes c)) as [->|Hne].
        - rewrite lookup_insert_eq. split; [|by eauto].
          intros _. right. by apply list_elem_of_singleton.
        - rewrite lookup_insert_ne by done. split; [by left|].
          intros [?|Hk]; [done|]. by apply list_elem_of_singleton in Hk. }
      { apply unique_result_snoc; [done|].
        rewrite decide_False; [done|]. intros Hin. apply Hnew, Hseen, Hin. }
      exists seen', result', g'. rewrite <- app_assoc in Hres'. done.
Qed.

Lemma uniqueOperator_spec population cityCount g :
  ∃ result g', uniqueOperator population cityCount g = Some (result, g') ∧
               unique_result cityCount population result.
Proof.
  destruct (uniqueLoop_spec cityCount population [] ∅ [] g)
    as (seen' & result' & g' & Hloop & Hres).
  { intros k. rewrite lookup_empty. split; [by intros [? ?]|].
    intros Hk. inversion Hk. }
  { split; [done|]. intros i c Hi. done. }
  exists result', g'. unfold uniqueOperator, bind. rewrite Hloop. done.
Qed.

Lemma recomputeZeroFitness_lookup chromosomes distanceMatrix i :
  recomputeZeroFitness chromosomes distanceMatrix !! i =
  (λ r, if Qeq_bool (fitness r) 0 then recomputed distanceMatrix r else r)
    <$> chromosomes !! i.
Proof. unfold recomputeZeroFitness. apply list_lookup_fmap. Qed.

(** C6. For every population, [uniqueOperator] returns a population of the
    same size in which the first occurrence of each gene sequence is the
    chromosome itself and every later duplicate is replaced by a freshly
    generated random permutation of the cities with fitness and distance 0;
    [calculateFitnessAfterUnique] then stores the tour length in exactly the
    chromosomes whose fitness is 0 and leaves the others as they are, so a
    replacement carries the length of its own tour; and five identical tours
    give the original followed by four freshly generated permutations. *)
Theorem uniqueOperator_keeps_first_and_replaces_duplicates
    (population : list Chromosome) (cityCount : nat) (distanceMatrix : Matrix) (g : Rng) :
  (∃ result g',
     uniqueOperator population cityCount g = Some (result, g') ∧
     unique_result cityCount population result ∧
     (∀ i r, result !! i = Some r →
        calculateFitnessAfterUnique result distanceMatrix !! i =
          Some (if Qeq_bool (fitness r) 0 then recomputed distanceMatrix r else r)) ∧
     (∀ i r, result !! i = Some r → freshly_generated cityCount r →
        calculateFitnessAfterUnique result distanceMatrix !! i =
          Some (recomputed distanceMatrix r))) ∧
  (∀ c, ∃ r1 r2 r3 r4 g',
     uniqueOperator [c; c; c; c; c] cityCount g = Some ([c; r1; r2; r3; r4], g') ∧
     freshly_generated cityCount r1 ∧ freshly_generated cityCount r2 ∧
     freshly_generated cityCount r3 ∧ freshly_generated cityCount r4).
Proof.
  split.
  - destruct (uniqueOperator_spec population cityCount g) as (result & g' & Hrun & Hres).
    exists result, g'. split; [done|]. split; [done|]. split.
    + intros i r Hr. unfold calculateFitnessAfterUnique.
      rewrite recomputeZeroFitness_lookup, Hr. done.
    + intros i r Hr (Hfit & _). unfold calculateFitnessAfterUnique.
      rewrite recomputeZeroFitness_lookup, Hr. simpl. rewrite Hfit. done.
  - intros c.
    destruct (uniqueOperator_spec [c; c; c; c; c] cityCount g)
      as (result & g' & Hrun & Hlen & Hres).
    destruct result as [|r0 [|r1 [|r2 [|r3 [|r4 [|? ?]]]]]]; try done.
    destruct (Hres 0 c eq_refl) as (? & [= <-] & H0).
    destruct (Hres 1 c eq_refl) as (? & [= <-] & H1).
    destruct (Hres 2 c eq_refl) as (? & [= <-] & H2).
    destruct (Hres 3 c eq_refl) as (? & [= <-] & H3).
    destruct (Hres 4 c eq_refl) as (? & [= <-] & H4).
    destruct (decide _) as [Hin|_] in H0; [inversion Hin|].
    destruct (decide _) as [_|Hout] in H1; [|exfalso; apply Hout; left].
    destruct (decide _) as [_|Hout] in H2; [|exfalso; apply Hout; left].
    destruct (decide _) as [_|Hout] in H3; [|exfalso; apply Hout; left].
    destruct (decide _) as [_|Hout] in H4; [|exfalso; apply Hout; left].
    subst r0. exists r1, r2, r3, r4, g'. done.
Qed.

(** ** Roulette-wheel selection *)

Lemma foldl_Qplus_snoc (a : Q) (l : list Q) (f : Q) :
  foldl Qplus a (l ++ [f]) = (foldl Qplus a l + f)%Q.
Proof. rewrite foldl_app. done. Qed.

Lemma foldl_Qplus_shift (l : list Q) : ∀ a b : Q,
  (foldl Qplus (a + b) l == a + foldl Qplus b l)%Q.
Proof.
  induction l as [|f l IH]; intros a b; simpl.
  - reflexivity.
  - rewrite <- IH. assert (E : (a + b + f == a + (b + f))%Q) by ring.
    clear IH. revert E. generalize (a + b + f)%Q, (a + (b + f))%Q.
    induction l as [|f' l IH]; intros u v E; simpl; [done|].
    apply IH. rewrite E. reflexivity.
Qed.

Lemma cumulativeFitness_S fs k f :
  fs !! k = Some f → cumulativeFitness fs (S k) = (cumulativeFitness fs k + f)%Q.
Proof.
  intros H. unfold cumulativeFitness.
  rewrite (take_S_r _ _ _ H). apply foldl_Qplus_snoc.
Qed.

Lemma cumulativeFitness_all fs : cumulativeFitness fs (length fs) = foldl Qplus 0%Q fs.
Proof. unfold cumulativeFitness. rewrite firstn_all. done. Qed.

Lemma cumulativeFitness_mono fs :
  (∀ f, f ∈ fs → (0 <= f)%Q) →
  ∀ j k, j ≤ k → k ≤ length fs → (cumulativeFitness fs j <= cumulativeFitness fs k)%Q.
Proof.
  intros Hpos j k Hjk. induction Hjk as [|k Hjk IH]; intros Hk.
  - apply Qle_refl.
  - destruct (lookup_lt_is_Some_2 fs k) as [f Hf]; [lia|].
    rewrite (cumulativeFitness_S _ _ _ Hf).
    assert (0 <= f)%Q by (apply Hpos; eapply list_elem_of_lookup_2; done).
    assert (cumulativeFitness fs j <= cumulativeFitness fs k)%Q by (apply IH; lia).
    lra.
Qed.

(** The wheel stops at the first index whose cumulative fitness reaches the
    spin, and falls through when there is none. *)
Lemma spinWheel_first population fitnessValues spin : ∀ n k,
  n = length population - k →
  match spinWheel (drop k population) (drop k fitnessValues)
                  (cumulativeFitness fitnessValues k) spin with
  | Some c =>
      ∃ i, k ≤ i ∧ population !! i = Some c ∧ i < length fitnessValues ∧
           (spin <= cumulativeFitness fitnessValues (S i))%Q ∧
           ∀ j, k ≤ j → j < i → (cumulativeFitness fitnessValues (S j) < spin)%Q
  | None =>
      ∀ j, k ≤ j → j < length population → j < length fitnessValues →
           (cumulativeFitness fitnessValues (S j) < spin)%Q
  end.
Proof.
  induction n as [|n IH]; intros k Hn.
  - rewrite drop_ge by lia. simpl. intros j ? ? ?. lia.
  - destruct (lookup_lt_is_Some_2 population k) as [c Hc]; [lia|].
    rewrite (drop_S _ _ _ Hc).
    destruct (fitnessValues !! k) as [f|] eqn:Hf.
    + rewrite (drop_S _ _ _ Hf). simpl.
      rewrite <- (cumulativeFitness_S _ _ _ Hf).
      destruct (Qle_bool spin (cumulativeFitness fitnessValues (S k))) eqn:Hle.
      * apply Qle_bool_iff in Hle. exists k.
        split; [done|]. split; [done|]. split; [eapply lookup_lt_Some; done|].
        split; [done|]. intros j ? ?. lia.
      * assert (Hlt : (cumulativeFitness fitnessValues (S k) < spin)%Q).
        { apply Qnot_le_lt. intros H. apply Qle_bool_iff in H. congruence. }
        specialize (IH (S k)). destruct (spinWheel _ _ _ _) as [c'|].
        -- destruct IH as (i & Hki & Hi & Hif & Hspin & Hbefore); [lia|].
           exists i. split; [lia|]. split; [done|]. split; [done|]. split; [done|].
           intros j Hkj Hji. destruct (decide (j = k)) as [->|]; [done|].
           apply Hbefore; lia.
        -- intros j Hkj Hjp Hjf. destruct (decide (j = k)) as [->|]; [done|].
           apply IH; lia.
    + apply lookup_ge_None in Hf. rewrite (drop_ge fitnessValues) by lia. simpl.
      intros j ? ? ?. lia.
Qed.

Lemma Qfloor_unique (v : Q) (z : Z) :
  (inject_Z z <= v)%Q → (v < inject_Z (z + 1))%Q → Qfloor v = z.
Proof.
  intros Hle Hlt.
  assert (z <= Qfloor v)%Z.
  { rewrite <- (Qfloor_Z z). by apply Qfloor_resp_le. }
  assert (Qfloor v < z + 1)%Z.
  { rewrite Zlt_Qlt. pose proof (Qfloor_le v). lra. }
  lia.
Qed.

Lemma Qnat_S n : (Qnat (S n) == Qnat n + 1)%Q.
Proof.
  unfold Qnat. rewrite Nat2Z.inj_succ, <- Z.add_1_r, inject_Z_plus. reflexivity.
Qed.

Lemma Qnat_pos n : 0 < n → (0 < Qnat n)%Q.
Proof. intros H. unfold Qnat. rewrite <- (Zlt_Qlt 0). lia. Qed.


(** [Math.floor(u * N)] is [i] exactly on the interval [[i/N, (i+1)/N)]. *)
Lemma floor_nat_interval (u : Q) (N i : nat) :
  (0 <= u)%Q → 0 < N →
  floor_nat (u * Qnat N) = i ↔ (Qnat i / Qnat N <= u ∧ u < Qnat (S i) / Qnat N)%Q.
Proof.
  intros Hu HN. pose proof (Qnat_pos N HN) as HNq.
  assert (Hnz : ¬ (Qnat N == 0)%Q) by lra.
  assert (H0 : (0 <= u * Qnat N)%Q) by nra.
  pose proof (Qfloor_le (u * Qnat N)) as Hfl.
  pose proof (Qlt_floor (u * Qnat N)) as Hfu.
  assert (Hf0 : (0 <= Qfloor (u * Qnat N))%Z).
  { rewrite <- (Qfloor_Z 0). by apply Qfloor_resp_le. }
  unfold floor_nat. split.
  - intros <-. set (z := Qfloor (u * Qnat N)) in *.
    assert (Hi : Qnat (Z.to_nat z) = inject_Z z) by (unfold Qnat; rewrite Z2Nat.id; done).
    split.
    + rewrite Hi. apply Qle_shift_div_r; done.
    + apply Qlt_shift_div_l; [done|]. rewrite Qnat_S, Hi.
      rewrite inject_Z_plus in Hfu. done.
  - intros [Hl Hr].
    assert (Hl' : (Qnat i <= u * Qnat N)%Q).
    { apply (Qmult_le_r _ _ (Qnat N)) in Hl; [|done].
      rewrite Qmult_comm, Qmult_div_r in Hl by done. lra. }
    assert (Hr' : (u * Qnat N < Qnat (S i))%Q).
    { apply (Qmult_lt_r _ _ (Qnat N)) in Hr; [|done].
      rewrite (Qmult_comm (Qnat (S i) / Qnat N)), Qmult_div_r in Hr by done. lra. }
    rewrite (Qfloor_unique _ (Z.of_nat i)); [lia|done|].
    unfold Qnat in Hr'. rewrite Nat2Z.inj_succ, <- Z.add_1_r in Hr'. done.
Qed.

(** C7. Roulette-wheel selection always returns (it raises no error), and a
    member whenever the population is not empty.  When the fitness values
    sum to zero the member is [population[floor(u * N)]] for the draw [u]:
    member [i] is chosen exactly on the draws of [[i/N, (i+1)/N)], an
    interval of length [1/N].  When the values are non-negative with a
    positive sum [T], member [i] is chosen exactly on the draws with
    [C i < u * T <= C (i+1)] (from 0 for the first member), [C] being the
    cumulative fitness: an interval of length [f_i / T]. *)
Theorem rouletteWheelSelect_uniform_or_proportional
    (population : list Chromosome) (fitnessValues : list Q) (g : Rng) :
  let N := length population in
  let T := foldl Qplus 0%Q fitnessValues in
  let u := u01 (g 0) in
  ∃ r g',
    rouletteWheelSelect population fitnessValues g = Some (r, g') ∧
    (population ≠ [] → is_Some r) ∧
    ((T == 0)%Q →
       r = population !! floor_nat (u * Qnat N) ∧
       ∀ i, i < N →
         (floor_nat (u * Qnat N) = i ↔
          (Qnat i / Qnat N <= u ∧ u < Qnat (S i) / Qnat N)%Q)) ∧
    (length fitnessValues = N → (∀ f, f ∈ fitnessValues → (0 <= f)%Q) → (0 < T)%Q →
       ∃ i, i < N ∧ r = population !! i ∧
            (∀ f, fitnessValues !! i = Some f →
               (cumulativeFitness fitnessValues (S i)
                - cumulativeFitness fitnessValues i == f)%Q) ∧
            ∀ j, j < N →
              (j = i ↔
               ((j = 0 ∨ (cumulativeFitness fitnessValues j < u * T)%Q) ∧
                (u * T <= cumulativeFitness fitnessValues (S j))%Q))).
Proof.
  intros N T u. pose proof (u01_range (g 0)) as [Hu0 Hu1]. fold u in Hu0, Hu1.
  unfold rouletteWheelSelect. fold T.
  destruct (Qeq_bool T 0) eqn:HT.
  - apply Qeq_bool_iff in HT.
    exists (population !! floor_nat (u * Qnat N)), (λ k, g (S k)).
    split; [done|]. split.
    { intros Hne. apply lookup_lt_is_Some_2.
      apply floor_nat_lt; [done|]. destruct population; [done|simpl; lia]. }
    split.
    + intros _. split; [done|]. intros i Hi. apply floor_nat_interval; [done|lia].
    + intros _ _ HTpos. lra.
  - assert (HT0 : ¬ (T == 0)%Q).
    { intros H. apply Qeq_bool_iff in H. congruence. }
    pose proof (spinWheel_first population fitnessValues (u * T) N 0) as Hw.
    rewrite !drop_0 in Hw. change (cumulativeFitness fitnessValues 0) with 0%Q in Hw.
    unfold bind, Math_random, ret. fold u.
    eexists _, (λ k, g (S k)). split; [done|]. split.
    { intros Hne. destruct (spinWheel _ _ _ _); [done|].
      destruct (exists_last Hne) as (l & c & ->). rewrite last_snoc. done. }
    split; [intros; contradiction|].
    intros Hlen Hpos HTpos.
    destruct (spinWheel population fitnessValues 0 (u * T)) as [c|].
    + destruct Hw as (i & _ & Hi & Hif & Hspin & Hbefore); [unfold N; lia|].
      exists i. split; [eapply lookup_lt_Some; done|]. split; [done|]. split.
      { intros f Hf. rewrite (cumulativeFitness_S _ _ _ Hf). ring. }
      intros j Hj. split.
      * intros ->. split; [|done].
        destruct i as [|i]; [by left|]. right. apply Hbefore; lia.
      * intros [Hlow Hhigh].
        destruct (Nat.lt_trichotomy j i) as [Hlt|[->|Hgt]]; [|done|].
        -- assert (cumulativeFitness fitnessValues (S j) < u * T)%Q
             by (apply Hbefore; lia).
           lra.
        -- destruct Hlow as [->|Hlow]; [lia|].
           assert (cumulativeFitness fitnessValues (S i) <= cumulativeFitness fitnessValues j)%Q
             by (apply cumulativeFitness_mono; [done|lia|lia]).
           lra.
    + exfalso.
      assert (HN : 0 < N).
      { destruct (decide (N = 0)) as [E|]; [|lia].
        rewrite E in Hlen. destruct fitnessValues; [|done].
        unfold T in HTpos. simpl in HTpos. lra. }
      assert (Hlast : (cumulativeFitness fitnessValues (S (N - 1)) < u * T)%Q)
        by (apply Hw; unfold N in *; lia).
      replace (S (N - 1)) with (length fitnessValues) in Hlast by lia.
      rewrite cumulativeFitness_all in Hlast. fold T in Hlast.
      nra.
Qed.

(** ** Sorting by distance *)

Lemma insert_by_distance_perm c l : insert_by_distance c l ≡ₚ c :: l.
Proof.
  induction l as [|c' l IH]; simpl; [done|].
  destruct (Qle_bool _ _); [done|].
  rewrite IH. apply Permutation_swap.
Qed.

Lemma sortByDistance_perm l : sortByDistance l ≡ₚ l.
Proof.
  induction l as [|c l IH]; simpl; [done|].
  rewrite insert_by_distance_perm. by constructor.
Qed.

Lemma sortByDistance_length l : length (sortByDistance l) = length l.
Proof. apply Permutation_length, sortByDistance_perm. Qed.

Lemma sortByDistance_elem l c : c ∈ sortByDistance l ↔ c ∈ l.
Proof. by rewrite sortByDistance_perm. Qed.

#[local] Instance le_distance_trans : Transitive le_distance.
Proof. intros a b c. unfold le_distance. apply Qle_trans. Qed.

Lemma insert_by_distance_sorted c l :
  Sorted le_distance l → Sorted le_distance (insert_by_distance c l).
Proof.
  induction 1 as [|c' l Hs IH Hhd]; simpl.
  - repeat constructor.
  - destruct (Qle_bool (distance c) (distance c')) eqn:E.
    + apply Qle_bool_iff in E. repeat constructor; done.
    + assert (Hlt : le_distance c' c).
      { unfold le_distance. apply Qlt_le_weak, Qnot_le_lt.
        intros H. apply Qle_bool_iff in H. congruence. }
      constructor; [done|].
      destruct Hhd as [|c'' l Hc'']; simpl.
      * by constructor.
      * destruct (Qle_bool (distance c) (distance c'')); by constructor.
Qed.

Lemma sortByDistance_sorted l : Sorted le_distance (sortByDistance l).
Proof.
  induction l as [|c l IH]; simpl; [constructor|].
  by apply insert_by_distance_sorted.
Qed.

(** The head of the sorted population has the least distance. *)
Lemma sortByDistance_head_min l b c :
  sortByDistance l !! 0 = Some b → c ∈ l → (distance b <= distance c)%Q.
Proof.
  intros Hb Hc. apply sortByDistance_elem in Hc.
  pose proof (sortByDistance_sorted l) as Hs.
  apply Sorted_StronglySorted in Hs; [|apply le_distance_trans].
  destruct (sortByDistance l) as [|b' s]; [done|]. injection Hb as ->.
  apply StronglySorted_inv in Hs as [_ Hall].
  apply elem_of_cons in Hc as [->|Hc]; [apply Qle_refl|].
  rewrite Forall_forall in Hall. by apply Hall.
Qed.

Lemma sortByDistance_valid n l :
  valid_population n l → valid_population n (sortByDistance l).
Proof. unfold valid_population. by rewrite sortByDistance_perm. Qed.

(** ** Population snapshots *)

Lemma at_Z_last {A} (l : list A) : at_Z l (Z.of_nat (length l) - 1) = last l.
Proof.
  unfold at_Z. destruct l as [|a l] using rev_ind.
  - done.
  - rewrite length_app, last_snoc. simpl length.
    destruct (Z.ltb_spec (Z.of_nat (length l + 1) - 1) 0); [lia|].
    replace (Z.to_nat (Z.of_nat (length l + 1) - 1)) with (length l) by lia.
    by rewrite list_lookup_middle.
Qed.

Lemma snapshotOf_empty chromosomes generation :
  let p := snapshotOf [] chromosomes generation in
  best p = None ∧ worst p = None ∧ average p = None.
Proof. done. Qed.

Lemma snapshotOf_nonempty sorted chromosomes generation :
  sorted ≠ [] → chromosomes ≠ [] →
  let p := snapshotOf sorted chromosomes generation in
  is_Some (best p) ∧ is_Some (worst p) ∧ is_Some (average p) ∧ is_Some (diversity p).
Proof.
  intros Hs Hc. simpl. split; [|split; [|split]].
  - destruct sorted; [done|]. simpl. eauto.
  - rewrite at_Z_last. destruct (exists_last Hs) as (l & c & ->).
    rewrite last_snoc. eauto.
  - unfold averageDistanceOf. rewrite decide_False; [eauto|].
    destruct sorted; done.
  - unfold calculateDiversity. rewrite decide_False; [eauto|].
    destruct chromosomes; done.
Qed.

Lemma statsOf_Some p elapsed :
  is_Some (statsOf p elapsed) ↔ is_Some (best p) ∧ is_Some (worst p).
Proof.
  unfold statsOf. destruct (best p) as [b|], (worst p) as [w|]; simpl; split.
  - intros _. split; eauto.
  - intros _. eauto.
  - intros H. by apply is_Some_None in H.
  - intros [_ H]. by apply is_Some_None in H.
  - intros H. by apply is_Some_None in H.
  - intros [H _]. by apply is_Some_None in H.
  - intros H. by apply is_Some_None in H.
  - intros [H _]. by apply is_Some_None in H.
Qed.

(** ** Initialisation *)

Lemma tour_lookup_lt n gs i c : is_tour n gs → gs !! i = Some c → c < n.
Proof.
  intros Ht Hc. apply list_elem_of_lookup_2 in Hc.
  rewrite Ht in Hc. apply elem_of_seq in Hc. lia.
Qed.

Lemma tour_length n gs : is_tour n gs → length gs = n.
Proof. intros Ht. rewrite (Permutation_length Ht). apply length_seq. Qed.

Lemma calculateTotalDistance_Some sqrt gs cities :
  is_tour (length cities) gs → is_Some (calculateTotalDistance sqrt gs cities).
Proof.
  intros Ht. unfold calculateTotalDistance.
  pose proof (tour_length _ _ Ht) as Hlen.
  assert (Hstep : ∀ l acc, is_Some acc → (∀ i, i ∈ l → i < length gs) →
    is_Some (foldl (λ total i,
                      t ← total;
                      c ← gs !! i;
                      c' ← gs !! ((i + 1) `mod` length gs);
                      city ← cities !! c;
                      city' ← cities !! c';
                      Some (t + calculateDistance sqrt city city')%Q) acc l)).
  { induction l as [|i l IH]; intros acc [t ->] Hl; simpl; [eauto|].
    assert (Hi : i < length gs) by (apply Hl; left).
    destruct (lookup_lt_is_Some_2 gs i Hi) as [c Hc].
    destruct (lookup_lt_is_Some_2 gs ((i + 1) `mod` length gs)) as [c' Hc'].
    { apply Nat.mod_upper_bound. lia. }
    destruct (lookup_lt_is_Some_2 cities c) as [city Hcity].
    { eapply tour_lookup_lt; done. }
    destruct (lookup_lt_is_Some_2 cities c') as [city' Hcity'].
    { eapply tour_lookup_lt; done. }
    rewrite Hc, Hc'. simpl. rewrite Hcity, Hcity'. simpl.
    apply IH; [eauto|]. intros ? ?. apply Hl. by right. }
  apply Hstep; [eauto|]. intros i Hi%elem_of_seq. lia.
Qed.

Lemma createChromosome_Some sqrt gs cities c :
  createChromosome sqrt gs cities = Some c → genes c = gs.
Proof.
  unfold createChromosome. destruct (calculateTotalDistance _ _ _); [|done].
  simpl. by intros [= <-].
Qed.

Lemma initializePopulation_spec sqrt cities populationSize g :
  ∃ population g',
    initializePopulation sqrt cities populationSize g = Some (population, g') ∧
    length population = populationSize ∧
    valid_population (length cities) population.
Proof.
  unfold initializePopulation.
  destruct (mapRand_total
    (λ _ : nat, let* gs := generateRandomChromosome (length cities) in
                lift (createChromosome sqrt gs cities))
    (λ c, is_tour (length cities) (genes c)) (seq 0 populationSize) g)
    as (population & g' & Hrun & Hlen & Hvalid).
  { intros _ h _.
    destruct (generateRandomChromosome_tour (length cities) h) as (gs & h' & Hgs & Ht).
    destruct (calculateTotalDistance_Some sqrt gs cities Ht) as [d Hd].
    eexists _, h'. unfold bind. rewrite Hgs. unfold createChromosome. rewrite Hd.
    simpl. split; [done|]. done. }
  exists population, g'. rewrite length_seq in Hlen. done.
Qed.

Lemma GAJGHO_initialize_spec sqrt now this g :
  ∃ this' g',
    GAJGHO.initialize sqrt now this g = Some (this', g') ∧
    GAJGHO.generation this' = 0 ∧
    GAJGHO.cities this' = GAJGHO.cities this ∧
    GAJGHO.params this' = GAJGHO.params this ∧
    GAJGHO.distanceMatrix this' = GAJGHO.distanceMatrix this ∧
    length (GAJGHO.currentPopulation this') = populationSize (GAJGHO.params this) ∧
    valid_population (length (GAJGHO.cities this)) (GAJGHO.currentPopulation this').
Proof.
  destruct (initializePopulation_spec sqrt (GAJGHO.cities this)
              (populationSize (GAJGHO.params this)) g) as (pop & g' & Hpop & Hlen & Hv).
  eexists _, g'. unfold GAJGHO.initialize, bind. rewrite Hpop. simpl.
  split; [done|]. done.
Qed.

(** ** Bidirectional heuristic crossover *)

Lemma tour_elem n gs c : is_tour n gs → c ∈ gs ↔ c < n.
Proof. intros Ht. rewrite Ht, elem_of_seq. lia. Qed.

Lemma tour_NoDup n gs : is_tour n gs → NoDup gs.
Proof. intros Ht. rewrite Ht. apply NoDup_seq. Qed.

Lemma NoDup_bounded_tour n gs :
  NoDup gs → (∀ c, c ∈ gs → c < n) → n ≤ length gs → is_tour n gs.
Proof.
  intros Hnd Hlt Hlen. apply submseteq_length_Permutation.
  - apply NoDup_submseteq; [done|]. intros c Hc. apply elem_of_seq.
    specialize (Hlt c Hc). lia.
  - by rewrite length_seq.
Qed.

Lemma indexOf_elem gs c :
  c ∈ gs → ∃ i, indexOf gs c = Z.of_nat i ∧ gs !! i = Some c.
Proof.
  intros Hc. unfold indexOf.
  destruct (list_find (λ v, v = c) gs) as [[i v]|] eqn:Hf.
  - apply list_find_Some in Hf as (Hi & -> & _). eauto.
  - apply list_find_None in Hf. rewrite Forall_forall in Hf.
    by destruct (Hf c Hc).
Qed.

Lemma at_Z_elem {A} (l : list A) i v : at_Z l i = Some v → v ∈ l.
Proof.
  unfold at_Z. destruct (i <? 0)%Z; [done|]. apply list_elem_of_lookup_2.
Qed.

Lemma at_Z_Some {A} (l : list A) i :
  (0 <= i < Z.of_nat (length l))%Z → is_Some (at_Z l i).
Proof.
  intros Hi. unfold at_Z. destruct (Z.ltb_spec i 0); [lia|].
  apply lookup_lt_is_Some_2. lia.
Qed.

Lemma findNeighbors_elem c chr dir ns v :
  findNeighbors c chr dir = Some ns → v ∈ ns → v ∈ genes chr.
Proof.
  unfold findNeighbors. destruct dir.
  - destruct (at_Z _ _) as [w|] eqn:Hw; [|done]. simpl. intros [= <-] Hv.
    apply list_elem_of_singleton in Hv as ->. eapply at_Z_elem. done.
  - destruct (at_Z _ _) as [w|] eqn:Hw; [|done]. simpl. intros [= <-] Hv.
    apply list_elem_of_singleton in Hv as ->. eapply at_Z_elem. done.
Qed.

Lemma findNeighbors_total c chr dir :
  c ∈ genes chr → is_Some (findNeighbors c chr dir).
Proof.
  intros Hc. destruct (indexOf_elem _ _ Hc) as (i & Hi & Hlook).
  apply lookup_lt_Some in Hlook.
  unfold findNeighbors. rewrite Hi. destruct dir.
  - destruct (at_Z_Some (genes chr)
                (Z.rem (Z.of_nat i + 1) (Z.of_nat (length (genes chr))))) as [v ->].
    { apply Z.rem_bound_pos; lia. }
    simpl. eauto.
  - destruct (at_Z_Some (genes chr)
                (Z.rem (Z.of_nat i - 1 + Z.of_nat (length (genes chr)))
                       (Z.of_nat (length (genes chr))))) as [v ->].
    { apply Z.rem_bound_pos; lia. }
    simpl. eauto.
Qed.

Lemma findNearestCity_elem from cands dm c :
  findNearestCity from cands dm = Some c → c ∈ cands.
Proof.
  unfold findNearestCity. destruct (head cands) as [c0|] eqn:Hh; [|done].
  simpl. intros [= <-]. apply head_Some_elem_of in Hh.
  assert (Hgen : ∀ l (acc : nat * Q), fst acc ∈ cands → (∀ v, v ∈ l → v ∈ cands) →
    fst (foldl (λ '(nearestCityId, minDistance) cityId,
                  let dist := entry dm from cityId in
                  if Qltb dist minDistance then (cityId, dist)
                  else (nearestCityId, minDistance)) acc l) ∈ cands).
  { induction l as [|v l IH]; intros [b m] Hb Hl; simpl; [done|].
    apply IH.
    - destruct (Qltb _ _); simpl; [apply Hl; left|done].
    - intros ? ?. apply Hl. by right. }
  apply Hgen; done.
Qed.

Lemma findNearestCity_total from cands dm :
  cands ≠ [] → is_Some (findNearestCity from cands dm).
Proof.
  intros H. unfold findNearestCity. destruct cands; [done|]. simpl. eauto.
Qed.

Section BHX.

Variables (parent1 parent2 : Chromosome) (distanceMatrix : Matrix)
          (direction : Direction) (n : nat).
Hypothesis tour1 : is_tour n (genes parent1).
Hypothesis tour2 : is_tour n (genes parent2).

Lemma bhx_inv_push offspring visited c :
  bhx_inv n offspring visited → c ∉ visited → c < n →
  bhx_inv n (offspring ++ [c]) ({[c]} ∪ visited).
Proof.
  intros (Hnd & Hvis & Hlt) Hc Hcn. split; [|split].
  - apply NoDup_app. split; [done|]. split; [|apply NoDup_singleton].
    intros v Hv Hv'. apply list_elem_of_singleton in Hv' as ->.
    by apply Hc, Hvis.
  - intros v. rewrite elem_of_union, elem_of_singleton, elem_of_app,
      list_elem_of_singleton, Hvis. tauto.
  - intros v [Hv|Hv]%elem_of_app; [by apply Hlt|].
    by apply list_elem_of_singleton in Hv as ->.
Qed.

Lemma bhx_candidates currentCity neighbors1 neighbors2 (visited : gset nat) c :
  findNeighbors currentCity parent1 direction = Some neighbors1 →
  findNeighbors currentCity parent2 direction = Some neighbors2 →
  c ∈ filter (λ city, city ∉ visited) (neighbors1 ++ neighbors2) →
  (c ∉ visited) ∧ c < n.
Proof.
  intros H1 H2 [Hc Hin]%list_elem_of_filter. split; [done|].
  apply elem_of_app in Hin as [Hin|Hin].
  - eapply tour_elem; [exact tour1|]. eapply findNeighbors_elem; done.
  - eapply tour_elem; [exact tour2|]. eapply findNeighbors_elem; done.
Qed.

Lemma bhxLoop_inv k : ∀ offspring visited currentCity result,
  bhx_inv n offspring visited →
  bhxLoop k parent1 parent2 distanceMatrix direction n offspring visited currentCity
    = Some result →
  is_tour n result.
Proof.
  induction k as [|k IH]; intros offspring visited cur result Hinv Hrun; simpl in Hrun.
  - case_bool_decide; [done|]. injection Hrun as <-.
    destruct Hinv as (Hnd & _ & Hlt). apply NoDup_bounded_tour; [done|done|lia].
  - case_bool_decide as Hlen.
    + destruct (findNeighbors cur parent1 direction) as [ns1|] eqn:Hn1; [|done].
      destruct (findNeighbors cur parent2 direction) as [ns2|] eqn:Hn2; [|done].
      simpl in Hrun.
      destruct (filter (λ city, city ∉ visited) (ns1 ++ ns2)) as [|u us] eqn:Hun.
      * destruct (filter (λ city, city ∉ visited) (seq 0 n)) as [|r rs] eqn:Hrem.
        -- injection Hrun as <-. destruct Hinv as (Hnd & Hvis & Hlt).
           apply NoDup_bounded_tour; [done|done|].
           rewrite <- (length_seq n 0). apply submseteq_length.
           apply NoDup_submseteq; [apply NoDup_seq|].
           intros c Hc. apply Hvis. destruct (decide (c ∈ visited)) as [|Hnv]; [done|].
           assert (Hin : c ∈ filter (λ city, city ∉ visited) (seq 0 n))
             by (apply list_elem_of_filter; done).
           rewrite Hrem in Hin. inversion Hin.
        -- rewrite <- Hrem in Hrun.
           destruct (findNearestCity cur _ distanceMatrix) as [next|] eqn:Hnext; [|done].
           simpl in Hrun. apply findNearestCity_elem in Hnext.
           apply list_elem_of_filter in Hnext as [Hnv Hseq]. apply elem_of_seq in Hseq.
           eapply IH; [|done]. apply bhx_inv_push; [done|done|lia].
      * rewrite <- Hun in Hrun.
        destruct (findNearestCity cur _ distanceMatrix) as [next|] eqn:Hnext; [|done].
        simpl in Hrun. apply findNearestCity_elem in Hnext.
        destruct (bhx_candidates _ _ _ _ _ Hn1 Hn2 Hnext) as [Hnv Hnn].
        eapply IH; [|done]. by apply bhx_inv_push.
    + injection Hrun as <-. destruct Hinv as (Hnd & _ & Hlt).
      apply NoDup_bounded_tour; [done|done|lia].
Qed.

Lemma bhxLoop_total k : ∀ offspring visited currentCity,
  bhx_inv n offspring visited → currentCity < n → n ≤ k + length offspring →
  is_Some (bhxLoop k parent1 parent2 distanceMatrix direction n
                   offspring visited currentCity).
Proof.
  induction k as [|k IH]; intros offspring visited cur Hinv Hcur Hk; simpl.
  - rewrite bool_decide_eq_false_2 by lia. eauto.
  - case_bool_decide as Hlen; [|eauto].
    destruct (findNeighbors_total cur parent1 direction) as [ns1 Hn1].
    { by apply (tour_elem n). }
    destruct (findNeighbors_total cur parent2 direction) as [ns2 Hn2].
    { by apply (tour_elem n). }
    rewrite Hn1, Hn2. simpl.
    destruct (filter (λ city, city ∉ visited) (ns1 ++ ns2)) as [|u us] eqn:Hun.
    + destruct (filter (λ city, city ∉ visited) (seq 0 n)) as [|r rs] eqn:Hrem; [eauto|].
      rewrite <- Hrem.
      destruct (findNearestCity_total cur (filter (λ city, city ∉ visited) (seq 0 n))
                  distanceMatrix) as [next Hnext]; [by rewrite Hrem|].
      rewrite Hnext. simpl. apply findNearestCity_elem in Hnext.
      apply list_elem_of_filter in Hnext as [Hnv Hseq]. apply elem_of_seq in Hseq.
      apply IH; [apply bhx_inv_push; [done|done|lia]|lia|].
      rewrite length_app. simpl. lia.
    + rewrite <- Hun.
      destruct (findNearestCity_total cur (filter (λ city, city ∉ visited) (ns1 ++ ns2))
                  distanceMatrix) as [next Hnext]; [by rewrite Hun|].
      rewrite Hnext. simpl. apply findNearestCity_elem in Hnext.
      destruct (bhx_candidates _ _ _ _ _ Hn1 Hn2 Hnext) as [Hnv Hnn].
      apply IH; [by apply bhx_inv_push|done|].
      rewrite length_app. simpl. lia.
Qed.

Lemma bhx_inv_start c : c < n → bhx_inv n [c] {[c]}.
Proof.
  intros Hc. split; [apply NoDup_singleton|]. split.
  - intros v. rewrite elem_of_singleton, list_elem_of_singleton. done.
  - intros v Hv. by apply list_elem_of_singleton in Hv as ->.
Qed.

End BHX.

Lemma bidirectionalHeuristicCrossover_tour n parent1 parent2 distanceMatrix g c g' :
  is_tour n (genes parent1) → is_tour n (genes parent2) →
  bidirectionalHeuristicCrossover parent1 parent2 distanceMatrix g = Some (c, g') →
  is_tour n (genes c).
Proof.
  intros Ht1 Ht2 H. unfold bidirectionalHeuristicCrossover in H. inv_M H. subst. simpl.
  rewrite (tour_length _ _ Ht1) in *.
  match goal with Hs : genes parent1 !! _ = Some ?s |- _ =>
    pose proof (tour_lookup_lt _ _ _ _ Ht1 Hs) end.
  eapply bhxLoop_inv; [exact Ht1|exact Ht2| |done].
  by apply bhx_inv_start.
Qed.

Lemma bidirectionalHeuristicCrossover_total n parent1 parent2 distanceMatrix g :
  is_tour n (genes parent1) → is_tour n (genes parent2) → 0 < n →
  is_Some (bidirectionalHeuristicCrossover parent1 parent2 distanceMatrix g).
Proof.
  intros Ht1 Ht2 Hn. unfold bidirectionalHeuristicCrossover.
  pose proof (tour_length _ _ Ht1) as Hlen. rewrite Hlen.
  unfold bind at 1. unfold Math_random at 1.
  set (g1 := λ k, g (S k)).
  unfold bind at 1.
  destruct (randomIndex_total n g1) as [[i g2] Hi]. rewrite Hi.
  assert (i < n) by exact (randomIndex_lt _ _ _ _ Hi Hn).
  destruct (lookup_lt_is_Some_2 (genes parent1) i) as [s Hs]; [lia|].
  unfold bind at 1. rewrite Hs. simpl.
  assert (s < n) by exact (tour_lookup_lt _ _ _ _ Ht1 Hs).
  unfold bind at 1.
  edestruct (bhxLoop_total parent1 parent2 distanceMatrix
               (if Qltb (u01 (g 0)) (1 # 2) then clockwise else counterclockwise)
               n Ht1 Ht2 n [s] {[s]} s) as [off Hoff].
  { by apply bhx_inv_start. } { done. } { simpl. lia. }
  rewrite Hoff. simpl. eauto.
Qed.

Lemma bidirectionalHeuristicCrossover_empty parent1 parent2 distanceMatrix g :
  genes parent1 = [] →
  bidirectionalHeuristicCrossover parent1 parent2 distanceMatrix g = None.
Proof.
  intros He. unfold bidirectionalHeuristicCrossover. rewrite He.
  unfold bind, Math_random.
  destruct (randomIndex _ _) as [[i g2]|]; [|done].
  destruct i; done.
Qed.

(** ** The operators keep tours *)

Lemma filter_all {A} (P : A → Prop) `{∀ a, Decision (P a)} (l : list A) :
  (∀ a, a ∈ l → P a) → filter P l = l.
Proof.
  induction l as [|a l IH]; intros Hl; [done|].
  rewrite filter_cons_True by (apply Hl; left).
  f_equal. apply IH. intros ? ?. apply Hl. by right.
Qed.

Lemma take_insert_drop {A} (l : list A) (s : list A) i :
  take i l ++ s ++ drop i l ≡ₚ s ++ l.
Proof.
  rewrite <- (take_drop i l) at 3.
  rewrite !app_assoc. f_equiv. apply Permutation_app_comm.
Qed.

(** *** Jumping gene *)

Lemma jumpingGene_relocation (gs : list nat) (mask : list nat) (q insertPos : nat) :
  NoDup gs → length mask = length gs →
  let marked := zip gs mask in
  let extractedGenes := fst <$> filter (λ gm, snd gm = 1) marked in
  let remainingGenes := fst <$> filter (λ gm, snd gm ≠ 1) marked in
  let segmentLength := q `min` length extractedGenes in
  let segment := take segmentLength extractedGenes in
  let leftoverExtracted := drop segmentLength extractedGenes in
  let finalRemaining :=
    filter (λ gene, gene ∉ segment) remainingGenes ++ leftoverExtracted in
  take insertPos finalRemaining ++ segment ++ drop insertPos finalRemaining ≡ₚ gs.
Proof.
  intros Hnd Hlen marked extractedGenes remainingGenes segmentLength segment
    leftoverExtracted finalRemaining.
  assert (Hsplit : extractedGenes ++ remainingGenes ≡ₚ gs).
  { unfold extractedGenes, remainingGenes. rewrite <- fmap_app.
    rewrite (filter_app_complement (λ gm : nat * nat, snd gm = 1) marked).
    unfold marked. apply reflexive_eq, fst_zip. lia. }
  assert (Hnd2 : NoDup (extractedGenes ++ remainingGenes)) by (by rewrite Hsplit).
  apply NoDup_app in Hnd2 as (_ & Hdisj & _).
  assert (Hfilter : filter (λ gene, gene ∉ segment) remainingGenes = remainingGenes).
  { apply filter_all. intros v Hv Hseg. apply (Hdisj v); [|done].
    unfold segment in Hseg. by apply elem_of_take in Hseg as (? & ?%list_elem_of_lookup_2 & _). }
  rewrite take_insert_drop. unfold finalRemaining. rewrite Hfilter.
  rewrite <- Hsplit.
  transitivity ((segment ++ leftoverExtracted) ++ remainingGenes).
  - rewrite <- app_assoc. f_equiv. apply Permutation_app_comm.
  - unfold segment, leftoverExtracted. rewrite take_drop. done.
Qed.

Lemma jumpingGeneOperator_spec n chromosome PJG q g :
  is_tour n (genes chromosome) →
  ∃ c g', jumpingGeneOperator chromosome PJG q g = Some (c, g') ∧ is_tour n (genes c).
Proof.
  intros Ht. unfold jumpingGeneOperator, bind at 1, Math_random at 1.
  destruct (Qltb PJG (u01 (g 0))); [eexists _, _; split; [done|done]|].
  set (g1 := λ k, g (S k)).
  destruct (mapRand_total
    (λ _ : nat, let* v := Math_random in ret (if Qltb v (1 # 2) then 1 else 0))
    (λ _, True) (seq 0 (length (genes chromosome))) g1) as (mask & g2 & Hmask & Hlen & _).
  { intros _ h _. eexists _, _. split; [|done]. unfold bind, Math_random, ret. done. }
  rewrite length_seq in Hlen.
  unfold bind at 1. rewrite Hmask.
  unfold bind at 1.
  destruct (randomIndex_total
    (length (filter (λ gene, gene ∉ take (q `min` length
        (fst <$> filter (λ gm, snd gm = 1) (zip (genes chromosome) mask)))
        (fst <$> filter (λ gm, snd gm = 1) (zip (genes chromosome) mask)))
       (fst <$> filter (λ gm, snd gm ≠ 1) (zip (genes chromosome) mask)) ++
      drop (q `min` length (fst <$> filter (λ gm, snd gm = 1) (zip (genes chromosome) mask)))
        (fst <$> filter (λ gm, snd gm = 1) (zip (genes chromosome) mask))) + 1) g2)
    as [[insertPos g3] Hpos].
  rewrite Hpos. eexists _, g3. split; [done|]. simpl.
  unfold is_tour. rewrite <- Ht.
  apply jumpingGene_relocation; [by eapply tour_NoDup|done].
Qed.

(** *** Mutation *)

Lemma redrawWhileEqual_lt fuel : ∀ n pos1 pos2 g p g',
  redrawWhileEqual fuel n pos1 pos2 g = Some (p, g') →
  0 < n → pos2 < n → p < n.
Proof.
  induction fuel as [|fuel IH]; intros n pos1 pos2 g p g' H Hn Hp; simpl in H.
  - destruct (decide (pos2 = pos1)); [done|]. inv_M H. by subst.
  - destruct (decide (pos2 = pos1)); [|inv_M H; by subst].
    inv_M H. eapply IH; [done|done|]. eapply randomIndex_lt; done.
Qed.

Lemma swapMutation_perm fuel chromosome g c g' :
  swapMutation fuel chromosome g = Some (c, g') → genes c ≡ₚ genes chromosome.
Proof.
  unfold swapMutation. intros H. inv_M H. subst. simpl.
  eapply swap_at_perm. done.
Qed.

Lemma reverseBetween_perm k : ∀ gs pos1 pos2 gs',
  reverseBetween k gs pos1 pos2 = Some gs' → gs' ≡ₚ gs.
Proof.
  induction k as [|k IH]; intros gs pos1 pos2 gs' H; simpl in H.
  - by injection H as <-.
  - destruct (decide (pos1 < pos2)); [|by injection H as <-].
    destruct (swap_at gs pos1 pos2) as [gs1|] eqn:Hs; [|done]. simpl in H.
    rewrite (IH _ _ _ _ H). eapply swap_at_perm. done.
Qed.

Lemma inverseMutation_perm chromosome g c g' :
  inverseMutation chromosome g = Some (c, g') → genes c ≡ₚ genes chromosome.
Proof.
  unfold inverseMutation. intros H. inv_M H.
  destruct (decide _) in H; inv_M H; subst; simpl; eapply reverseBetween_perm; done.
Qed.

Lemma nearestNonAdjacent_elem gs distanceMatrix pos1 city1 c :
  nearestNonAdjacent gs distanceMatrix pos1 city1 = Some c → c ∈ gs.
Proof.
  unfold nearestNonAdjacent.
  set (f := λ '(nearestCity, minDistance) '(i, city2), _).
  assert (Hgen : ∀ (l : list (nat * nat)) (acc : option nat * option Q),
    (∀ v, fst acc = Some v → v ∈ gs) → (∀ iv, iv ∈ l → snd iv ∈ gs) →
    ∀ v, fst (foldl f acc l) = Some v → v ∈ gs).
  { induction l as [|[i city2] l IH]; intros [b m] Hb Hl v; simpl; [apply Hb|].
    apply IH; [|intros ? ?; apply Hl; by right].
    assert (Hc2 : city2 ∈ gs) by (apply (Hl (i, city2)); left).
    repeat case_decide; try done.
    destruct m as [m|]; [destruct (Qltb _ m)|]; simpl; try done;
      intros ? [= <-]; done. }
  apply Hgen; [done|].
  intros [i v] Hiv. apply list_elem_of_lookup in Hiv as [j Hj].
  rewrite list_lookup_imap in Hj.
  destruct (gs !! j) eqn:E; [|done]. simpl in Hj. injection Hj as <- <-.
  eapply list_elem_of_lookup_2. done.
Qed.

Lemma removeAt_insertAt_perm gs pos v insertPos :
  gs !! pos = Some v → insertAt (removeAt gs pos) insertPos v ≡ₚ gs.
Proof.
  intros Hv. unfold insertAt, removeAt.
  rewrite (take_insert_drop _ [v]). simpl.
  rewrite <- (take_drop_middle gs pos v Hv) at 3.
  apply Permutation_middle.
Qed.

Lemma heuristicMutation_spec chromosome distanceMatrix g :
  ∃ c g', heuristicMutation chromosome distanceMatrix g = Some (c, g') ∧
          genes c ≡ₚ genes chromosome.
Proof.
  unfold heuristicMutation, bind.
  destruct (randomIndex_total (length (genes chromosome)) g) as [[pos1 g1] ->].
  destruct (genes chromosome !! pos1) as [city1|]; [|eexists _, _; split; done].
  destruct (nearestNonAdjacent _ _ _ _) as [nearest|] eqn:Hn;
    [|eexists _, _; split; done].
  eexists _, _. split; [done|]. simpl.
  apply nearestNonAdjacent_elem in Hn.
  destruct (indexOf_elem _ _ Hn) as (i & -> & Hi).
  rewrite Nat2Z.id. by apply removeAt_insertAt_perm.
Qed.

Lemma combinationMutation_perm fuel chromosome Ps beta distanceMatrix g c g' :
  combinationMutation fuel chromosome Ps beta distanceMatrix g = Some (c, g') →
  genes c ≡ₚ genes chromosome.
Proof.
  unfold combinationMutation. intros H. inv_M H.
  destruct (Qle_bool _ Ps); [by eapply swapMutation_perm|].
  destruct (Qle_bool _ _); [by eapply inverseMutation_perm|].
  destruct (heuristicMutation_spec chromosome distanceMatrix g0) as (c' & h & Hc' & Hp).
  congruence.
Qed.

Lemma recomputeZeroFitness_valid n chromosomes distanceMatrix :
  valid_population n chromosomes →
  valid_population n (recomputeZeroFitness chromosomes distanceMatrix).
Proof.
  unfold valid_population, recomputeZeroFitness. intros H.
  apply Forall_fmap. eapply Forall_impl; [done|].
  intros c Hc. simpl. by destruct (Qeq_bool _ _).
Qed.

Lemma recomputeZeroFitness_length chromosomes distanceMatrix :
  length (recomputeZeroFitness chromosomes distanceMatrix) = length chromosomes.
Proof. unfold recomputeZeroFitness. apply length_fmap. Qed.

Lemma Forall2_valid n (R : Chromosome → Chromosome → Prop) l l' :
  (∀ a b, R a b → genes b ≡ₚ genes a) →
  Forall2 R l l' → valid_population n l → valid_population n l'.
Proof.
  intros HR H. unfold valid_population. induction H as [|a b l l' Hab _ IH]; [done|].
  intros [Ha Hl]%Forall_cons. constructor; [|by apply IH].
  unfold is_tour. by rewrite (HR _ _ Hab).
Qed.

Lemma performMutation_valid n fuel chromosomes Ps beta distanceMatrix g result g' :
  performMutation fuel chromosomes Ps beta distanceMatrix g = Some (result, g') →
  valid_population n chromosomes →
  valid_population n result ∧ length result = length chromosomes.
Proof.
  unfold performMutation. intros H Hv. inv_M H. subst.
  unfold calculateFitnessForChromosomes. rewrite recomputeZeroFitness_length.
  match goal with Hm : mapRand _ _ _ = Some _ |- _ =>
    pose proof (mapRand_inv _ (λ a b, genes b ≡ₚ genes a) _ _ _ _ Hm) as HF end.
  assert (HF' : Forall2 (λ a b, genes b ≡ₚ genes a) chromosomes a).
  { apply HF. intros ? ? ? ? _ ?. by eapply combinationMutation_perm. }
  split.
  - apply recomputeZeroFitness_valid. eapply Forall2_valid; [|done|done]. done.
  - symmetry. eapply Forall2_length. done.
Qed.

Lemma applyJumpingGeneToPopulation_valid n population PJG q g result g' :
  applyJumpingGeneToPopulation population PJG q g = Some (result, g') →
  valid_population n population →
  valid_population n result ∧ length result = length population.
Proof.
  unfold applyJumpingGeneToPopulation. intros H Hv.
  pose proof (mapRand_inv _ (λ a b, is_tour n (genes a) → is_tour n (genes b))
                _ _ _ _ H) as HF.
  assert (HF' : Forall2 (λ a b, is_tour n (genes a) → is_tour n (genes b)) population result).
  { apply HF. intros c h c' h' _ Hrun Ht.
    destruct (jumpingGeneOperator_spec n c PJG q h Ht) as (c1 & h1 & Hc1 & Ht1).
    congruence. }
  split; [|symmetry; eapply Forall2_length; done].
  clear - HF' Hv. unfold valid_population in *.
  induction HF' as [|a b l l' Hab _ IH]; [done|].
  apply Forall_cons in Hv as [Ha Hl]. constructor; [by apply Hab|by apply IH].
Qed.

(** *** 2-opt keeps the cities *)

Lemma reverseSegment_perm gs i j : i ≤ j → reverseSegment gs i j ≡ₚ gs.
Proof.
  intros Hij. unfold reverseSegment. rewrite reverse_Permutation.
  replace (drop (j + 1) gs) with (drop (j - i) (drop (i + 1) gs))
    by (rewrite drop_drop; f_equal; lia).
  rewrite take_drop, take_drop. done.
Qed.

Lemma reverseSegment_length gs i j : i ≤ j → length (reverseSegment gs i j) = length gs.
Proof. intros H. apply Permutation_length. by apply reverseSegment_perm. Qed.

Lemma twoOptPairs_elem n i j : (i, j) ∈ twoOptPairs n ↔ i < j ∧ j < n.
Proof.
  unfold twoOptPairs. rewrite list_elem_of_bind. split.
  - intros (i' & Hj & Hi). apply list_elem_of_fmap in Hj as (j' & [= -> ->] & Hj).
    apply elem_of_seq in Hj, Hi. lia.
  - intros [Hij Hj]. exists i. split.
    + apply list_elem_of_fmap. exists j. split; [done|]. apply elem_of_seq. lia.
    + apply elem_of_seq. lia.
Qed.

Lemma twoOptStep_perm distanceMatrix n st ij :
  fst ij ≤ snd ij → fst (twoOptStep distanceMatrix n st ij) ≡ₚ fst st.
Proof.
  destruct st as [gs improved], ij as [i j]. simpl. intros Hij.
  destruct (Qltb _ _); simpl; [by apply reverseSegment_perm|done].
Qed.

Lemma twoOptPass_perm distanceMatrix n gs :
  fst (twoOptPass distanceMatrix n gs) ≡ₚ gs.
Proof.
  unfold twoOptPass.
  assert (Hgen : ∀ l st, (∀ ij, ij ∈ l → fst ij ≤ snd ij) →
            fst (foldl (twoOptStep distanceMatrix n) st l) ≡ₚ fst st).
  { induction l as [|ij l IH]; intros st Hl; simpl; [done|].
    rewrite IH by (intros ? ?; apply Hl; by right).
    apply twoOptStep_perm, Hl. left. }
  apply (Hgen _ (gs, false)). intros [i j] Hij%twoOptPairs_elem. simpl. lia.
Qed.

Lemma twoOptLoop_perm fuel distanceMatrix n : ∀ gs gs',
  twoOptLoop fuel distanceMatrix n gs = Some gs' → gs' ≡ₚ gs.
Proof.
  induction fuel as [|fuel IH]; intros gs gs' H; simpl in H; [done|].
  pose proof (twoOptPass_perm distanceMatrix n gs) as Hp.
  destruct (twoOptPass distanceMatrix n gs) as [gs1 improved]. simpl in Hp.
  destruct improved.
  - rewrite (IH _ _ H). done.
  - by injection H as <-.
Qed.

Lemma twoOptOperator_perm fuel chromosome distanceMatrix c :
  twoOptOperator fuel chromosome distanceMatrix = Some c →
  genes c ≡ₚ genes chromosome.
Proof.
  unfold twoOptOperator. intros H.
  destruct (twoOptLoop _ _ _ _) as [gs|] eqn:Hl; [|done]. simpl in H.
  injection H as <-. simpl. by eapply twoOptLoop_perm.
Qed.

Lemma applyTwoOptToPopulation_valid n fuel population distanceMatrix topN result :
  applyTwoOptToPopulation fuel population distanceMatrix false topN = Some result →
  valid_population n population →
  valid_population n result ∧ length result = length population.
Proof.
  unfold applyTwoOptToPopulation. intros H Hv.
  pose proof (length_mapM _ _ _ H) as Hlen.
  rewrite length_imap, sortByDistance_length in Hlen.
  split; [|done].
  apply mapM_Some_1 in H. apply sortByDistance_valid in Hv.
  unfold valid_population in *. rewrite Forall_forall in Hv.
  apply Forall_forall. intros c Hc.
  apply list_elem_of_lookup in Hc as [k Hk].
  destruct (Forall2_lookup_r _ _ _ _ _ H Hk) as ([i c0] & Hic & Hrun).
  rewrite list_lookup_imap in Hic.
  destruct (sortByDistance population !! k) as [c1|] eqn:Hc1; [|done].
  simpl in Hic. injection Hic as <- <-.
  assert (Ht : is_tour n (genes c1)).
  { apply Hv. eapply list_elem_of_lookup_2. done. }
  destruct (decide (k < topN)).
  - unfold is_tour. rewrite (twoOptOperator_perm _ _ _ _ Hrun). done.
  - by injection Hrun as <-.
Qed.

(** *** Selection picks members *)

Lemma spinWheel_elem population : ∀ fitnessValues cumulative spin c,
  spinWheel population fitnessValues cumulative spin = Some c → c ∈ population.
Proof.
  induction population as [|c0 population IH]; intros fs cum spin c H; simpl in H; [done|].
  destruct fs as [|f fs]; [done|].
  destruct (Qle_bool _ _).
  - injection H as <-. left.
  - right. eapply IH. done.
Qed.

Lemma rouletteWheelSelect_elem population fitnessValues g c g' :
  rouletteWheelSelect population fitnessValues g = Some (Some c, g') → c ∈ population.
Proof.
  unfold rouletteWheelSelect. destruct (Qeq_bool _ _); intros H; inv_M H.
  - eapply list_elem_of_lookup_2. done.
  - destruct (spinWheel _ _ _ _) as [c1|] eqn:Hs.
    + match goal with E : Some _ = Some _ |- _ => injection E as -> end.
      eapply spinWheel_elem. done.
    + match goal with E : last _ = Some _ |- _ => apply last_Some in E as [l ->] end.
      apply elem_of_app. right. left.
Qed.

Lemma selectParents_spec n population count Pfit beta g parents g' :
  selectParents population count Pfit beta g = Some (parents, g') →
  valid_population n population →
  valid_population n parents ∧ length parents = count.
Proof.
  unfold selectParents. intros H Hv.
  pose proof (mapRand_inv _ (λ _ p, p ∈ population) _ _ _ _ H) as HF.
  assert (HF' : Forall2 (λ (_ : nat) p, p ∈ population) (seq 0 count) parents).
  { apply HF. intros _ h p h' _ Hrun. inv_M Hrun. subst.
    unfold rouletteSelection in Hc. inv_M Hc.
    eapply rouletteWheelSelect_elem. done. }
  split.
  - unfold valid_population in *. rewrite Forall_forall in Hv.
    apply Forall_forall. intros p Hp.
    apply list_elem_of_lookup in Hp as [k Hk].
    destruct (Forall2_lookup_r _ _ _ _ _ HF' Hk) as (? & _ & Hin). by apply Hv.
  - rewrite <- (Forall2_length _ _ _ HF'). apply length_seq.
Qed.

(** *** Crossover of a population *)

Lemma crossoverStep_spec n parents distanceMatrix targetCount offspring i g result g' :
  crossoverStep parents distanceMatrix targetCount offspring i g = Some (result, g') →
  valid_population n parents → valid_population n offspring →
  valid_population n result ∧
  length result =
    if decide (length offspring + 1 < targetCount) then length offspring + 2
    else length offspring + 1.
Proof.
  unfold crossoverStep. intros H Hp Ho. inv_M H.
  unfold valid_population in Hp. rewrite Forall_forall in Hp.
  match goal with H1 : parents !! _ = Some ?p1, H2 : parents !! _ = Some ?p2 |- _ =>
    assert (Ht1 : is_tour n (genes p1)) by (eapply Hp, list_elem_of_lookup_2; exact H1);
    assert (Ht2 : is_tour n (genes p2)) by (eapply Hp, list_elem_of_lookup_2; exact H2)
  end.
  match goal with Hb : bidirectionalHeuristicCrossover _ _ _ _ = Some (?o, _) |- _ =>
    assert (Ho1 : is_tour n (genes o))
      by exact (bidirectionalHeuristicCrossover_tour _ _ _ _ _ _ _ Ht1 Ht2 Hb)
  end.
  rewrite length_app in H. simpl in H.
  case_bool_decide as Hlt.
  - inv_M H. subst.
    match goal with Hb : bidirectionalHeuristicCrossover _ _ _ _ = Some (?o, g') |- _ =>
      assert (Ho2 : is_tour n (genes o))
        by exact (bidirectionalHeuristicCrossover_tour _ _ _ _ _ _ _ Ht2 Ht1 Hb)
    end.
    rewrite decide_True by done. split.
    + unfold valid_population. rewrite !Forall_app. repeat split; try done; by constructor.
    + rewrite !length_app. simpl. lia.
  - inv_M H. subst. rewrite decide_False by done. split.
    + unfold valid_population. rewrite !Forall_app. repeat split; try done; by constructor.
    + rewrite !length_app. simpl. lia.
Qed.

Lemma crossoverLoop_spec n parents distanceMatrix targetCount m : ∀ a offspring g result g',
  foldRand (crossoverStep parents distanceMatrix targetCount) offspring
           ((λ k, 2 * k) <$> seq a m) g = Some (result, g') →
  valid_population n parents → valid_population n offspring →
  length offspring = (2 * a) `min` targetCount → 2 * (a + m) ≤ targetCount + 1 →
  valid_population n result ∧ length result = (2 * (a + m)) `min` targetCount.
Proof.
  induction m as [|m IH]; intros a offspring g result g' H Hp Ho Hlen Hm; simpl in H.
  - inv_M H. subst. split; [done|]. rewrite Hlen. f_equal. lia.
  - inv_M H.
    match goal with Hs : crossoverStep _ _ _ _ _ _ = Some (?o, _) |- _ =>
      destruct (crossoverStep_spec n _ _ _ _ _ _ _ _ Hs Hp Ho) as [Hv1 Hl1] end.
    replace (a + S m) with (S a + m) by lia.
    eapply IH; [done|done|done| |lia].
    rewrite Hl1. case_decide; lia.
Qed.

Lemma performCrossover_spec n parents distanceMatrix offspringCount g result g' :
  performCrossover parents distanceMatrix offspringCount g = Some (result, g') →
  valid_population n parents → length parents = offspringCount →
  valid_population n result ∧ length result = offspringCount.
Proof.
  unfold performCrossover. intros H Hp Hlen. inv_M H. subst.
  set (targetCount := if decide (length parents = 0) then length parents else length parents) in *.
  assert (Ht : targetCount = length parents) by (unfold targetCount; by case_decide).
  match goal with Hs : foldRand _ _ _ _ = Some (?o, _) |- _ =>
    destruct (crossoverLoop_spec n _ _ _ _ 0 [] _ _ _ Hs Hp) as [Hv Hl] end.
  { constructor. } { done. }
  { pose proof (Nat.div_mod_eq (targetCount + 1) 2).
    pose proof (Nat.mod_upper_bound (targetCount + 1) 2). lia. }
  split.
  - unfold valid_population in *. by apply Forall_take.
  - rewrite length_take, Hl.
    pose proof (Nat.div_mod_eq (targetCount + 1) 2).
    pose proof (Nat.mod_upper_bound (targetCount + 1) 2). lia.
Qed.

Lemma uniqueOperator_valid n population g result g' :
  uniqueOperator population n g = Some (result, g') →
  valid_population n population →
  valid_population n result ∧ length result = length population.
Proof.
  intros H Hv.
  destruct (uniqueOperator_spec population n g) as (r & h & Hr & Hlen & Hres).
  assert (r = result) by congruence. subst r. split; [|done].
  unfold valid_population in *. rewrite Forall_forall in Hv.
  apply Forall_forall. intros c Hc.
  apply list_elem_of_lookup in Hc as [i Hi].
  destruct (lookup_lt_is_Some_2 population i) as [c0 Hc0].
  { rewrite <- Hlen. eapply lookup_lt_Some. done. }
  destruct (Hres i c0 Hc0) as (r & Hri & Hcase).
  assert (r = c) by congruence. subst r.
  case_decide.
  - by destruct Hcase as (_ & _ & Ht & _).
  - subst c. apply Hv. eapply list_elem_of_lookup_2. done.
Qed.

(** ** One generation of GA-JGHO *)

Lemma slice_to_elem {A} (l : list A) e v : v ∈ slice_to l e → v ∈ l.
Proof.
  unfold slice_to. destruct (e <? 0)%Z; intros (i & H%list_elem_of_lookup_2 & _)%elem_of_take; done.
Qed.

Lemma slice_to_all {A} (l : list A) e :
  (Z.of_nat (length l) <= e)%Z → slice_to l e = l.
Proof.
  intros H. unfold slice_to. destruct (Z.ltb_spec e 0); [lia|].
  apply take_ge. lia.
Qed.

Lemma GAJGHO_runGeneration_inv fuel this g this' pop g' :
  GAJGHO.runGeneration fuel this g = Some (this', pop, g') →
  ∃ offspring,
    GAJGHO.currentPopulation this' =
      mergeElites (GAJGHO.params this) offspring (GAJGHO.currentPopulation this) ∧
    GAJGHO.generation this' = S (GAJGHO.generation this) ∧
    GAJGHO.cities this' = GAJGHO.cities this ∧
    GAJGHO.params this' = GAJGHO.params this ∧
    GAJGHO.distanceMatrix this' = GAJGHO.distanceMatrix this ∧
    pop = GAJGHO.getPopulation this' ∧
    (valid_population (length (GAJGHO.cities this)) (GAJGHO.currentPopulation this) →
     valid_population (length (GAJGHO.cities this)) offspring ∧
     length offspring = populationSize (GAJGHO.params this)).
Proof.
  unfold GAJGHO.runGeneration. intros H. inv_M H.
  match goal with E : (_, _) = (_, _) |- _ => injection E as <- <- end. subst.
  eexists. split; [reflexivity|]. repeat (split; [reflexivity|]).
  intros Hv.
  match goal with Hs : selectParents _ _ _ _ _ = Some _ |- _ =>
    destruct (selectParents_spec _ _ _ _ _ _ _ _ Hs Hv) as [Hv1 Hl1] end.
  match goal with Hs : performCrossover _ _ _ _ = Some _ |- _ =>
    destruct (performCrossover_spec _ _ _ _ _ _ _ Hs Hv1 Hl1) as [Hv2 Hl2] end.
  match goal with Hs : uniqueOperator _ _ _ = Some _ |- _ =>
    destruct (uniqueOperator_valid _ _ _ _ _ Hs Hv2) as [Hv3 Hl3] end.
  match goal with Hs : performMutation _ _ _ _ _ _ = Some _ |- _ =>
    destruct (performMutation_valid (length (GAJGHO.cities this)) _ _ _ _ _ _ _ _ Hs)
      as [Hv4 Hl4] end.
  { by apply recomputeZeroFitness_valid. }
  match goal with Hs : applyJumpingGeneToPopulation _ _ _ _ = Some _ |- _ =>
    destruct (applyJumpingGeneToPopulation_valid _ _ _ _ _ _ _ Hs Hv4) as [Hv5 Hl5] end.
  match goal with Hs : applyTwoOptToPopulation _ _ _ _ _ = Some _ |- _ =>
    destruct (applyTwoOptToPopulation_valid (length (GAJGHO.cities this)) _ _ _ _ _ Hs)
      as [Hv6 Hl6] end.
  { by apply recomputeZeroFitness_valid. }
  split; [done|].
  rewrite Hl6. unfold calculateFitnessAfterJumping.
  rewrite recomputeZeroFitness_length, Hl5, Hl4.
  unfold calculateFitnessAfterUnique. rewrite recomputeZeroFitness_length, Hl3, Hl2. done.
Qed.

Lemma mergeElites_valid n p offspring previous :
  valid_population n offspring → valid_population n previous →
  valid_population n (mergeElites p offspring previous).
Proof.
  intros Ho Hp. unfold mergeElites. apply sortByDistance_valid.
  unfold valid_population in *. rewrite Forall_forall in Ho, Hp.
  apply Forall_forall. intros c [Hc|Hc]%elem_of_app.
  - apply Ho. apply sortByDistance_elem. eapply slice_to_elem. done.
  - apply Hp. apply sortByDistance_elem.
    apply elem_of_take in Hc as (i & Hi%list_elem_of_lookup_2 & _). done.
Qed.

(** The best of the previous population is among the elites carried over. *)
Lemma mergeElites_keeps_best p offspring previous b :
  1 ≤ eliteCount p → sortByDistance previous !! 0 = Some b →
  b ∈ mergeElites p offspring previous.
Proof.
  intros He Hb. unfold mergeElites. apply sortByDistance_elem.
  apply elem_of_app. right. apply elem_of_take. exists 0. split; [done|lia].
Qed.

Lemma mergeElites_nonempty p offspring previous :
  1 ≤ populationSize p → length offspring = populationSize p → previous ≠ [] →
  mergeElites p offspring previous ≠ [].
Proof.
  intros Hps Hlen Hprev Hnil.
  apply (f_equal length) in Hnil. unfold mergeElites in Hnil.
  rewrite sortByDistance_length, length_app, length_take, sortByDistance_length in Hnil.
  simpl in Hnil.
  destruct (decide (eliteCount p = 0)) as [He|He].
  - rewrite He in Hnil. rewrite slice_to_all in Hnil.
    + rewrite sortByDistance_length in Hnil. lia.
    + rewrite sortByDistance_length. lia.
  - destruct previous; [done|]. simpl in Hnil. lia.
Qed.

(** C1. For parents that are permutations of [0..n-1], the offspring that
    [bidirectionalHeuristicCrossover] returns is a permutation of [0..n-1],
    and it does return one when [n] is positive (for empty parents the
    source raises a TypeError and returns nothing); for a tour that is a
    permutation of [0..n-1] and any [PJG] and [q], [jumpingGeneOperator]
    returns a permutation of [0..n-1]; and so the population that
    [initialize] builds, and the population after every [runGeneration] of
    GA-JGHO that starts from tours, consists of permutations of all city
    indices. *)
Theorem operators_preserve_permutations :
  (∀ n parent1 parent2 distanceMatrix g,
     is_tour n (genes parent1) → is_tour n (genes parent2) →
     (∀ c g', bidirectionalHeuristicCrossover parent1 parent2 distanceMatrix g = Some (c, g') →
              is_tour n (genes c)) ∧
     (0 < n → is_Some (bidirectionalHeuristicCrossover parent1 parent2 distanceMatrix g)) ∧
     (n = 0 → bidirectionalHeuristicCrossover parent1 parent2 distanceMatrix g = None)) ∧
  (∀ n chromosome PJG q g,
     is_tour n (genes chromosome) →
     ∃ c g', jumpingGeneOperator chromosome PJG q g = Some (c, g') ∧ is_tour n (genes c)) ∧
  (∀ sqrt now this g,
     ∃ this' g', GAJGHO.initialize sqrt now this g = Some (this', g') ∧
       valid_population (length (GAJGHO.cities this')) (GAJGHO.currentPopulation this')) ∧
  (∀ fuel this g this' pop g',
     valid_population (length (GAJGHO.cities this)) (GAJGHO.currentPopulation this) →
     GAJGHO.runGeneration fuel this g = Some (this', pop, g') →
     valid_population (length (GAJGHO.cities this')) (GAJGHO.currentPopulation this') ∧
     chromosomes pop = GAJGHO.currentPopulation this').
Proof.
  split; [|split; [|split]].
  - intros n parent1 parent2 distanceMatrix g Ht1 Ht2. split; [|split].
    + intros c g'. by apply bidirectionalHeuristicCrossover_tour.
    + by apply bidirectionalHeuristicCrossover_total.
    + intros ->. apply bidirectionalHeuristicCrossover_empty.
      apply tour_length in Ht1. by destruct (genes parent1).
  - intros n chromosome PJG q g. apply jumpingGeneOperator_spec.
  - intros sqrt now this g.
    destruct (GAJGHO_initialize_spec sqrt now this g)
      as (this' & g' & Hrun & _ & Hc & _ & _ & _ & Hv).
    exists this', g'. rewrite Hc. done.
  - intros fuel this g this' pop g' Hv Hrun.
    destruct (GAJGHO_runGeneration_inv _ _ _ _ _ _ Hrun)
      as (offspring & Hpop & _ & Hc & _ & _ & -> & Hoff).
    destruct (Hoff Hv) as [Hvo _]. rewrite Hc, Hpop. split; [|done].
    by apply mergeElites_valid.
Qed.

(** C10. In a GAJGHO instance that holds no population (fresh from the
    constructor, or after [reset]) [getPopulation] reads element 0 and the
    last element of an empty sorted array and divides by a length of 0: its
    [best] and [worst] are [undefined] and its [average] and [diversity] are
    [NaN], and [getStats] raises a TypeError.  After [initialize] with a
    population size of at least 1, and after every later generation that
    starts from tours, the population is not empty, so both reads are in
    bounds, both divisions are by a positive count, and [getStats] returns. *)
Theorem GAJGHO_snapshot_needs_population :
  (∀ sqrt now now' cities params this,
     this = GAJGHO.new sqrt now cities params ∨
     (∃ this0, this = GAJGHO.reset now this0) →
     let p := GAJGHO.getPopulation this in
     sortByDistance (GAJGHO.currentPopulation this) = [] ∧
     best p = None ∧ worst p = None ∧ average p = None ∧ diversity p = None ∧
     GAJGHO.getStats now' this = None) ∧
  (∀ sqrt now now' this g this' g',
     1 ≤ populationSize (GAJGHO.params this) →
     GAJGHO.initialize sqrt now this g = Some (this', g') →
     let p := GAJGHO.getPopulation this' in
     0 < length (sortByDistance (GAJGHO.currentPopulation this')) ∧
     is_Some (best p) ∧ is_Some (worst p) ∧ is_Some (average p) ∧
     is_Some (diversity p) ∧ is_Some (GAJGHO.getStats now' this')) ∧
  (∀ fuel now' this g this' pop g',
     1 ≤ populationSize (GAJGHO.params this) →
     GAJGHO.currentPopulation this ≠ [] →
     valid_population (length (GAJGHO.cities this)) (GAJGHO.currentPopulation this) →
     GAJGHO.runGeneration fuel this g = Some (this', pop, g') →
     0 < length (sortByDistance (GAJGHO.currentPopulation this')) ∧
     is_Some (best pop) ∧ is_Some (worst pop) ∧ is_Some (average pop) ∧
     is_Some (diversity pop) ∧ is_Some (GAJGHO.getStats now' this')).
Proof.
  assert (Hne : ∀ now' this, GAJGHO.currentPopulation this ≠ [] →
    let p := GAJGHO.getPopulation this in
    0 < length (sortByDistance (GAJGHO.currentPopulation this)) ∧
    is_Some (best p) ∧ is_Some (worst p) ∧ is_Some (average p) ∧
    is_Some (diversity p) ∧ is_Some (GAJGHO.getStats now' this)).
  { intros now' this Hpop p.
    assert (Hs : sortByDistance (GAJGHO.currentPopulation this) ≠ []).
    { intros E. apply (f_equal length) in E. rewrite sortByDistance_length in E.
      by destruct (GAJGHO.currentPopulation this). }
    destruct (snapshotOf_nonempty _ _ (GAJGHO.generation this) Hs Hpop)
      as (Hb & Hw & Ha & Hd).
    split; [destruct (sortByDistance _); [done|simpl; lia]|].
    repeat (split; [done|]). unfold GAJGHO.getStats. apply statsOf_Some. done. }
  split; [|split].
  - intros sqrt now now' cities params this Hthis p.
    assert (Hpop : GAJGHO.currentPopulation this = []).
    { destruct Hthis as [->|[this0 ->]]; done. }
    unfold p, GAJGHO.getPopulation, GAJGHO.getStats, GAJGHO.getPopulation.
    rewrite Hpop. done.
  - intros sqrt now now' this g this' g' Hps Hrun.
    destruct (GAJGHO_initialize_spec sqrt now this g)
      as (this1 & g1 & Hrun1 & _ & _ & _ & _ & Hlen & _).
    assert (this1 = this') by congruence. subst this1.
    apply Hne. intros E. rewrite E in Hlen. simpl in Hlen. lia.
  - intros fuel now' this g this' pop g' Hps Hpop Hv Hrun.
    destruct (GAJGHO_runGeneration_inv _ _ _ _ _ _ Hrun)
      as (offspring & Hnew & _ & _ & _ & _ & -> & Hoff).
    destruct (Hoff Hv) as [_ Hlen].
    apply Hne. rewrite Hnew. by apply mergeElites_nonempty.
Qed.

(** ** Elitism *)

Lemma snapshot_best_min sorted0 chromosomes generation population b c :
  sorted0 = sortByDistance population →
  best (snapshotOf sorted0 chromosomes generation) = Some b →
  c ∈ population → (distance b <= distance c)%Q.
Proof. intros -> Hb Hc. simpl in Hb. eapply sortByDistance_head_min; done. Qed.

Lemma sorted_best_exists population c :
  c ∈ population → ∃ b, sortByDistance population !! 0 = Some b.
Proof.
  intros Hc. apply sortByDistance_elem in Hc.
  destruct (sortByDistance population) as [|b s]; [inversion Hc|]. by exists b.
Qed.

Lemma StandardGA_runGeneration_keeps_best fuel elapsed this g this' pop g' b :
  StandardGA.runGeneration fuel elapsed this g = Some (this', pop, g') →
  1 ≤ eliteCount (StandardGA.params this) →
  sortByDistance (StandardGA.population this) !! 0 = Some b →
  b ∈ StandardGA.population this' ∧
  pop = snapshotOf (StandardGA.population this') (StandardGA.population this')
                   (StandardGA.currentGeneration this') ∧
  ∃ unsorted, StandardGA.population this' = sortByDistance unsorted ∧
  StandardGA.currentGeneration this' = S (StandardGA.currentGeneration this).
Proof.
  unfold StandardGA.runGeneration. intros H He Hb. inv_M H. simpl in *.
  unfold StandardGA.getPopulation in H. injection H as <- <-.
  match goal with E : StandardGA.updateStats _ _ = Some _ |- _ =>
    rename E into Hup end.
  unfold StandardGA.updateStats in Hup. simpl in Hup.
  destruct (pushStats _ _ _ _) as [stats'|]; [|done]. simpl in Hup.
  injection Hup as <-. simpl.
  assert (Hb0 : take (eliteCount (StandardGA.params this))
                 (sortByDistance (StandardGA.population this)) !! 0 = Some b).
  { rewrite lookup_take_lt by lia. done. }
  match goal with Hf : foldRand _ (take _ _) _ _ = Some (?l1, _) |- _ =>
    assert (Hk1 : l1 !! 0 = Some b) end.
  { eapply (foldRand_inv _ (λ l, l !! 0 = Some b)); [done| |done].
    intros l k h l' h' Hl _ Hstep. inv_M Hstep. subst. cbv beta in *.
    rewrite lookup_app_l; [done|]. eapply lookup_lt_Some. done. }
  match goal with Hf : foldRand _ ?l1 (seq (eliteCount _) _) _ = Some (?l2, _) |- _ =>
    assert (Hk2 : l2 !! 0 = Some b) end.
  { eapply (foldRand_inv _ (λ l, l !! 0 = Some b)); [done| |done].
    intros l i h l' h' Hl Hi%elem_of_seq Hstep. inv_M Hstep. subst. cbv beta in *.
    rewrite list_lookup_insert_ne by lia. done. }
  split.
  - apply sortByDistance_elem, sortByDistance_elem.
    eapply list_elem_of_lookup_2. done.
  - split; [done|]. eexists. split; [reflexivity|]. done.
Qed.

(** C2. With [eliteCount >= 1], a generation of GA-JGHO and a generation of
    StandardGA never raise the minimum distance of the population: the best
    chromosome of the snapshot returned by [runGeneration] is no longer than
    the best one of the population before the call, each of the two being
    the minimum over its population, because the best chromosome of the
    previous population is itself carried into the new one. *)
Theorem elitism_never_regresses :
  (∀ fuel this g this' pop g' b,
     1 ≤ eliteCount (GAJGHO.params this) →
     best (GAJGHO.getPopulation this) = Some b →
     GAJGHO.runGeneration fuel this g = Some (this', pop, g') →
     b ∈ chromosomes pop ∧
     (∀ c, c ∈ GAJGHO.currentPopulation this → (distance b <= distance c)%Q) ∧
     ∃ b', best pop = Some b' ∧
           (∀ c, c ∈ chromosomes pop → (distance b' <= distance c)%Q) ∧
           (distance b' <= distance b)%Q) ∧
  (∀ fuel elapsed this g this' pop g' b,
     1 ≤ eliteCount (StandardGA.params this) →
     best (snd (StandardGA.getPopulation this)) = Some b →
     StandardGA.runGeneration fuel elapsed this g = Some (this', pop, g') →
     b ∈ chromosomes pop ∧
     (∀ c, c ∈ StandardGA.population this → (distance b <= distance c)%Q) ∧
     ∃ b', best pop = Some b' ∧
           (∀ c, c ∈ chromosomes pop → (distance b' <= distance c)%Q) ∧
           (distance b' <= distance b)%Q).
Proof.
  split.
  - intros fuel this g this' pop g' b He Hb Hrun.
    destruct (GAJGHO_runGeneration_inv _ _ _ _ _ _ Hrun)
      as (offspring & Hnew & _ & _ & _ & _ & -> & _).
    simpl in Hb.
    assert (Hin : b ∈ GAJGHO.currentPopulation this').
    { rewrite Hnew. by apply mergeElites_keeps_best. }
    split; [done|]. split.
    { intros c Hc. eapply sortByDistance_head_min; done. }
    destruct (sorted_best_exists _ _ Hin) as [b' Hb'].
    exists b'. split; [done|]. split.
    + intros c Hc. eapply sortByDistance_head_min; done.
    + eapply sortByDistance_head_min; done.
  - intros fuel elapsed this g this' pop g' b He Hb Hrun. simpl in Hb.
    destruct (StandardGA_runGeneration_keeps_best _ _ _ _ _ _ _ _ Hrun He Hb)
      as (Hin & -> & unsorted & Hsorted & _).
    simpl. split; [done|]. split.
    { intros c Hc. eapply sortByDistance_head_min; done. }
    assert (Hin' : b ∈ unsorted) by (by rewrite Hsorted, sortByDistance_elem in Hin).
    destruct (sorted_best_exists _ _ Hin') as [b' Hb'].
    rewrite Hsorted. exists b'. split; [done|]. split.
    + intros c Hc. apply (proj1 (sortByDistance_elem _ _)) in Hc. exact (sortByDistance_head_min _ _ _ Hb' Hc).
    + exact (sortByDistance_head_min _ _ _ Hb' Hin').
Qed.

(** ** The bee colony keeps its number of food sources *)

Lemma ABC_greedyStep_length this i g this' g' :
  ABCTSP.greedyStep this i g = Some (this', g') →
  length (ABCTSP.foodSources this') = length (ABCTSP.foodSources this) ∧
  length (ABCTSP.trials this') = length (ABCTSP.trials this) ∧
  ABCTSP.params this' = ABCTSP.params this.
Proof.
  unfold ABCTSP.greedyStep. intros H. inv_M H.
  destruct (Qltb _ _); inv_M H; subst; simpl;
    rewrite ?length_insert, ?length_alter; done.
Qed.

Lemma ABC_employedBeePhase_length this g this' g' :
  ABCTSP.employedBeePhase this g = Some (this', g') →
  length (ABCTSP.foodSources this') = length (ABCTSP.foodSources this) ∧
  length (ABCTSP.trials this') = length (ABCTSP.trials this) ∧
  ABCTSP.params this' = ABCTSP.params this.
Proof.
  unfold ABCTSP.employedBeePhase. intros H.
  eapply (foldRand_inv _ (λ s,
    length (ABCTSP.foodSources s) = length (ABCTSP.foodSources this) ∧
    length (ABCTSP.trials s) = length (ABCTSP.trials this) ∧
    ABCTSP.params s = ABCTSP.params this)); [done| |done].
  intros s i h s' h' (H1 & H2 & H3) _ Hstep.
  apply ABC_greedyStep_length in Hstep as (-> & -> & ->). done.
Qed.

Lemma ABC_onlookerLoop_length fuel probabilities : ∀ tcount i this g this' g',
  ABCTSP.onlookerLoop fuel probabilities tcount i this g = Some (this', g') →
  length (ABCTSP.foodSources this') = length (ABCTSP.foodSources this) ∧
  length (ABCTSP.trials this') = length (ABCTSP.trials this) ∧
  ABCTSP.params this' = ABCTSP.params this.
Proof.
  induction fuel as [|fuel IH]; intros tcount i this g this' g' H; simpl in H.
  - case_decide; [done|]. inv_M H. by subst.
  - case_decide; [|inv_M H; by subst].
    inv_M H. destruct (Qltb _ _).
    + inv_M H.
      match goal with Hs : ABCTSP.greedyStep _ _ _ = Some _ |- _ =>
        apply ABC_greedyStep_length in Hs as (E1 & E2 & E3) end.
      apply IH in H as (-> & -> & ->). done.
    + by apply IH in H.
Qed.

Lemma ABC_scoutBeePhase_length this g this' g' :
  ABCTSP.scoutBeePhase this g = Some (this', g') →
  length (ABCTSP.foodSources this') = length (ABCTSP.foodSources this) ∧
  length (ABCTSP.trials this') = length (ABCTSP.trials this) ∧
  ABCTSP.params this' = ABCTSP.params this.
Proof.
  unfold ABCTSP.scoutBeePhase. intros H.
  eapply (foldRand_inv _ (λ s,
    length (ABCTSP.foodSources s) = length (ABCTSP.foodSources this) ∧
    length (ABCTSP.trials s) = length (ABCTSP.trials this) ∧
    ABCTSP.params s = ABCTSP.params this)); [done| |done].
  intros s i h s' h' (H1 & H2 & H3) _ Hstep. unfold ABCTSP.scoutStep in Hstep.
  destruct (ABCTSP.trials s !! i); [|inv_M Hstep; by subst].
  case_decide; inv_M Hstep; subst; simpl; rewrite ?length_insert; done.
Qed.

Lemma ABC_updateStats_length elapsed this this' :
  ABCTSP.updateStats elapsed this = Some this' →
  length (ABCTSP.foodSources this') = length (ABCTSP.foodSources this) ∧
  ABCTSP.params this' = ABCTSP.params this ∧
  ABCTSP.currentGeneration this' = ABCTSP.currentGeneration this.
Proof.
  unfold ABCTSP.updateStats. intros H.
  destruct (pushStats _ _ _ _); [|done]. simpl in H. injection H as <-. simpl.
  rewrite sortByDistance_length. done.
Qed.

Lemma ABC_initialize_sources_spec this g :
  ∃ this' g', ABCTSP.initialize_sources this g = Some (this', g') ∧
    length (ABCTSP.foodSources this') = populationSize (ABCTSP.params this) / 2 ∧
    length (ABCTSP.trials this') = populationSize (ABCTSP.params this) / 2 ∧
    ABCTSP.params this' = ABCTSP.params this ∧
    ABCTSP.currentGeneration this' = ABCTSP.currentGeneration this.
Proof.
  unfold ABCTSP.initialize_sources.
  destruct (mapRand_total (λ _ : nat, ABCTSP.createRandomSolution this) (λ _, True)
              (seq 0 (populationSize (ABCTSP.params this) / 2)) g)
    as (sources & g' & Hrun & Hlen & _).
  { intros _ h _. unfold ABCTSP.createRandomSolution, createRandomTour.
    destruct (generateRandomChromosome_tour (length (ABCTSP.cities this)) h)
      as (gs & h' & Hgs & _).
    eexists _, h'. unfold bind. rewrite Hgs. done. }
  eexists _, g'. unfold bind. rewrite Hrun. split; [done|]. simpl.
  rewrite Hlen, length_seq, length_replicate. done.
Qed.

Lemma ABC_initialize_length this g this' g' :
  ABCTSP.initialize this g = Some (this', g') →
  length (ABCTSP.foodSources this') = populationSize (ABCTSP.params this) / 2 ∧
  ABCTSP.params this' = ABCTSP.params this ∧
  ABCTSP.currentGeneration this' = ABCTSP.currentGeneration this.
Proof.
  unfold ABCTSP.initialize. intros H. inv_M H. subst.
  destruct (ABC_initialize_sources_spec this g) as (s & h & Hs & Hl & _ & Hp & Hg).
  match goal with Hc : ABCTSP.initialize_sources _ _ = Some _ |- _ =>
    rewrite Hs in Hc; injection Hc as <- <- end.
  match goal with Hu : ABCTSP.updateStats _ _ = Some _ |- _ =>
    apply ABC_updateStats_length in Hu as (-> & -> & ->) end.
  done.
Qed.

Lemma ABC_runGeneration_length fuel elapsed this g this' pop g' :
  ABCTSP.runGeneration fuel elapsed this g = Some (this', pop, g') →
  length (ABCTSP.foodSources this') = length (ABCTSP.foodSources this) ∧
  length (chromosomes pop) = length (ABCTSP.foodSources this) ∧
  ABCTSP.params this' = ABCTSP.params this.
Proof.
  unfold ABCTSP.runGeneration. intros H. inv_M H. subst.
  match goal with Hs : ABCTSP.employedBeePhase _ _ = Some _ |- _ =>
    apply ABC_employedBeePhase_length in Hs as (E1 & _ & P1) end.
  match goal with Hs : ABCTSP.onlookerBeePhase _ _ _ = Some _ |- _ =>
    apply ABC_onlookerLoop_length in Hs as (E2 & _ & P2) end.
  match goal with Hs : ABCTSP.scoutBeePhase _ _ = Some _ |- _ =>
    apply ABC_scoutBeePhase_length in Hs as (E3 & _ & P3) end.
  match goal with Hs : ABCTSP.updateStats _ _ = Some _ |- _ =>
    apply ABC_updateStats_length in Hs as (E4 & P4 & _) end.
  simpl in E4, P4.
  match goal with Hs : ABCTSP.getPopulation _ = _ |- _ =>
    unfold ABCTSP.getPopulation in Hs; injection Hs as <- <- end.
  simpl. rewrite !sortByDistance_length. split; [|split]; congruence.
Qed.

(** C9. ABCTSP holds [floor(populationSize / 2)] food sources: [initialize]
    creates that many (and as many trial counters), the employed, onlooker
    and scout phases replace sources in place without changing their
    number, and so the colony after [initialize] and any number of
    generations, and the snapshot of every [runGeneration], hold half the
    configured population size. *)
Theorem ABCTSP_keeps_half_population :
  (∀ this g,
     ∃ this' g', ABCTSP.initialize_sources this g = Some (this', g') ∧
       length (ABCTSP.foodSources this') = populationSize (ABCTSP.params this) / 2 ∧
       length (ABCTSP.trials this') = populationSize (ABCTSP.params this) / 2) ∧
  (∀ this g this' g',
     ABCTSP.initialize this g = Some (this', g') →
     length (ABCTSP.foodSources this') = populationSize (ABCTSP.params this) / 2) ∧
  (∀ fuel this g this' g',
     (ABCTSP.employedBeePhase this g = Some (this', g') ∨
      ABCTSP.onlookerBeePhase fuel this g = Some (this', g') ∨
      ABCTSP.scoutBeePhase this g = Some (this', g')) →
     length (ABCTSP.foodSources this') = length (ABCTSP.foodSources this)) ∧
  (∀ sqrt cities params this,
     ABC_reachable sqrt cities params this →
     length (ABCTSP.foodSources this) = populationSize params / 2 ∧
     length (chromosomes (snd (ABCTSP.getPopulation this))) = populationSize params / 2 ∧
     ∀ fuel elapsed g this' pop g',
       ABCTSP.runGeneration fuel elapsed this g = Some (this', pop, g') →
       length (chromosomes pop) = populationSize params / 2).
Proof.
  split; [|split; [|split]].
  - intros this g.
    destruct (ABC_initialize_sources_spec this g) as (s & h & Hs & Hl & Ht & _).
    by exists s, h.
  - intros this g this' g' H. by apply ABC_initialize_length in H as [? _].
  - intros fuel this g this' g' [H|[H|H]].
    + by apply ABC_employedBeePhase_length in H as [? _].
    + by apply ABC_onlookerLoop_length in H as [? _].
    + by apply ABC_scoutBeePhase_length in H as [? _].
  - intros sqrt cities params this Hreach.
    assert (Hinv : length (ABCTSP.foodSources this) = populationSize params / 2 ∧
                   ABCTSP.params this = params).
    { induction Hreach as [g this g' Hinit|fuel elapsed this g this' pop g' _ IH Hrun].
      - apply ABC_initialize_length in Hinit as (Hl & Hp & _). done.
      - destruct IH as [Hl Hp].
        apply ABC_runGeneration_length in Hrun as (Hl' & _ & Hp'). split; congruence. }
    destruct Hinv as [Hl Hp]. split; [done|]. split.
    + simpl. rewrite sortByDistance_length. done.
    + intros fuel elapsed g this' pop g' Hrun.
      apply ABC_runGeneration_length in Hrun as (_ & Hc & _). congruence.
Qed.

(** ** 2-opt: the tour length as a path length *)

Lemma foldl_Qeq_ext {A} (f g : Q → A → Q) (xs : list A) :
  (∀ t t' x, x ∈ xs → t == t' → f t x == g t' x) →
  ∀ a a', a == a' → foldl f a xs == foldl g a' xs.
Proof.
  induction xs as [|x xs IH]; intros Hfg a a' Ha; simpl; [done|].
  apply IH.
  - intros t t' y Hy. apply Hfg. by right.
  - apply Hfg; [by left|done].
Qed.

Lemma pathLen_foldl m : ∀ l acc,
  foldl (λ total i,
           match l !! i, l !! (i + 1) with
           | Some c, Some c' => (total + entry m c c')%Q
           | _, _ => total
           end) acc (seq 0 (length l - 1)) == acc + pathLen m l.
Proof.
  induction l as [|a l IH]; intros acc; [simpl; ring|].
  destruct l as [|b l]; [simpl; ring|].
  replace (length (a :: b :: l) - 1) with (S (length (b :: l) - 1)) by (simpl; lia).
  rewrite <- cons_seq, <- fmap_S_seq. cbn [foldl]. rewrite foldl_fmap.
  cbn [lookup list_lookup Nat.add]. 
  etransitivity; [|etransitivity; [apply (IH (acc + entry m a b)%Q)|]].
  - apply foldl_Qeq_ext; [|done]. intros t t' i _ Ht.
    replace (S i + 1) with (S (i + 1)) by lia. cbn [lookup list_lookup].
    destruct ((b :: l) !! i), ((b :: l) !! (i + 1)); rewrite ?Ht; reflexivity.
  - change (pathLen m (a :: b :: l)) with (entry m a b + pathLen m (b :: l))%Q. ring.
Qed.

Lemma tourLen_pathLen gs m :
  calculateTotalDistanceWithMatrix gs m == pathLen m (gs ++ take 1 gs).
Proof.
  destruct gs as [|a gs]; [done|].
  unfold calculateTotalDistanceWithMatrix.
  set (cyc := (a :: gs) ++ take 1 (a :: gs)).
  assert (Hlen : length (a :: gs) = length cyc - 1).
  { unfold cyc. rewrite length_app. simpl. lia. }
  rewrite <- (Qplus_0_l (pathLen m cyc)), <- pathLen_foldl, <- Hlen.
  apply foldl_Qeq_ext; [|done]. intros t t' i Hi Ht.
  apply elem_of_seq in Hi as [_ Hi]. rewrite Nat.add_0_l in Hi.
  assert (E1 : (a :: gs) !! i = cyc !! i).
  { unfold cyc. by rewrite lookup_app_l. }
  assert (E2 : (a :: gs) !! ((i + 1) `mod` length (a :: gs)) = cyc !! (i + 1)).
  { unfold cyc. destruct (decide (i + 1 < length (a :: gs))) as [Hlt|Hge].
    - rewrite Nat.mod_small by done. by rewrite lookup_app_l.
    - assert (Hi1 : i + 1 = length (a :: gs)) by lia.
      rewrite Hi1, Nat.Div0.mod_same, lookup_app_r by lia.
      by rewrite Nat.sub_diag. }
  rewrite E1, E2. destruct (cyc !! i), (cyc !! (i + 1)); rewrite ?Ht; reflexivity.
Qed.

Lemma pathLen_app m : ∀ l1 l2,
  pathLen m (l1 ++ l2) == pathLen m l1 + link m l1 l2 + pathLen m l2.
Proof.
  induction l1 as [|a l1 IH]; intros l2.
  - unfold link. simpl. ring.
  - destruct l1 as [|b l1].
    + unfold link. destruct l2 as [|c l2]; simpl; ring.
    + change (pathLen m ((a :: b :: l1) ++ l2))
        with (entry m a b + pathLen m ((b :: l1) ++ l2))%Q.
      rewrite IH.
      change (pathLen m (a :: b :: l1)) with (entry m a b + pathLen m (b :: l1))%Q.
      change (link m (a :: b :: l1) l2) with (link m (b :: l1) l2). ring.
Qed.

Lemma pathLen_reverse m gs0 : symmetric_on m gs0 → ∀ l,
  l ⊆ gs0 → pathLen m (reverse l) == pathLen m l.
Proof.
  intros Hsym. induction l as [|a l IH]; intros Hl; [done|].
  rewrite reverse_cons, pathLen_app, IH by set_solver.
  destruct l as [|b l]; [unfold link; simpl; ring|].
  change (pathLen m (a :: b :: l)) with (entry m a b + pathLen m (b :: l))%Q.
  unfold link. rewrite last_reverse. simpl.
  rewrite (Hsym b a) by set_solver. ring.
Qed.

Lemma link_Some m l1 l2 a b :
  last l1 = Some a → head l2 = Some b → link m l1 l2 = entry m a b.
Proof. unfold link. by intros -> ->. Qed.

Lemma reverseSegment_split (gs : list nat) i j :
  i < j → j < length gs →
  gs = take (i + 1) gs ++ take (j - i) (drop (i + 1) gs) ++ drop (j + 1) gs.
Proof.
  intros Hij Hj.
  rewrite <- (take_drop (i + 1) gs) at 1. f_equal.
  rewrite <- (take_drop (j - i) (drop (i + 1) gs)) at 1. f_equal.
  rewrite drop_drop. by replace (i + 1 + (j - i)) with (j + 1) by lia.
Qed.

(** Under a symmetric matrix, reversing the segment between [i + 1] and
    [j] changes the tour length by exactly the two exchanged edges. *)
Lemma tourLen_reverseSegment m gs i j :
  symmetric_on m gs → i < j → j < length gs →
  calculateTotalDistanceWithMatrix (reverseSegment gs i j) m ==
  calculateTotalDistanceWithMatrix gs m
    - currentDist m (length gs) gs i j + newDist m (length gs) gs i j.
Proof.
  intros Hsym Hij Hj.
  destruct (lookup_lt_is_Some_2 gs i) as [a Ha]; [lia|].
  destruct (lookup_lt_is_Some_2 gs (i + 1)) as [b Hb]; [lia|].
  destruct (lookup_lt_is_Some_2 gs j) as [c Hc]; [lia|].
  destruct (lookup_lt_is_Some_2 gs ((j + 1) `mod` length gs)) as [d Hd].
  { apply Nat.mod_upper_bound. lia. }
  unfold currentDist, newDist, gene. rewrite Ha, Hb, Hc, Hd. simpl.
  rewrite !tourLen_pathLen.
  set (A := take (i + 1) gs).
  set (B := take (j - i) (drop (i + 1) gs)).
  set (C := drop (j + 1) gs).
  assert (Hgs : gs = A ++ B ++ C) by by apply reverseSegment_split.
  assert (HlenA : length A = i + 1) by (unfold A; rewrite length_take; lia).
  assert (HlenB : length B = j - i).
  { unfold B. rewrite length_take, length_drop. lia. }
  assert (HlastA : last A = Some a).
  { rewrite last_lookup, HlenA. unfold A. rewrite lookup_take_lt by lia.
    by replace (Init.Nat.pred (i + 1)) with i by lia. }
  assert (HheadB : head B = Some b).
  { rewrite head_lookup. unfold B. rewrite lookup_take_lt, lookup_drop by lia.
    by rewrite Nat.add_0_r. }
  assert (HlastB : last B = Some c).
  { rewrite last_lookup, HlenB. unfold B.
    rewrite lookup_take_lt, lookup_drop by lia.
    by replace (i + 1 + Init.Nat.pred (j - i)) with j by lia. }
  assert (Htake : take 1 gs = take 1 A).
  { unfold A. rewrite take_take. f_equal. lia. }
  assert (Htake' : take 1 (reverseSegment gs i j) = take 1 A).
  { unfold reverseSegment. fold A B C. rewrite take_app_le by lia. done. }
  assert (HheadC : head (C ++ take 1 A) = Some d).
  { rewrite head_app. destruct (decide (j + 1 < length gs)) as [Hlt|Hge].
    - rewrite Nat.mod_small in Hd by done.
      rewrite head_lookup. unfold C. rewrite lookup_drop, Nat.add_0_r, Hd. done.
    - assert (E : j + 1 = length gs) by lia.
      rewrite E, Nat.Div0.mod_same in Hd.
      unfold C. rewrite drop_ge by lia. simpl.
      rewrite <- Htake, head_lookup, lookup_take_lt by lia. done. }
  assert (HB : B ⊆ gs).
  { unfold B. etransitivity; [apply subseteq_take|apply subseteq_drop]. }
  rewrite Htake', Htake. unfold reverseSegment. fold A B C.
  rewrite Hgs at 1.
  rewrite <- !(assoc_L (++)).
  rewrite !pathLen_app.
  rewrite (pathLen_reverse m gs Hsym B HB).
  rewrite (link_Some m A (reverse B ++ C ++ take 1 A) a c);
    [|done|by rewrite head_app, head_reverse, HlastB].
  rewrite (link_Some m (reverse B) (C ++ take 1 A) b d);
    [|by rewrite last_reverse|done].
  rewrite (link_Some m A (B ++ C ++ take 1 A) a b);
    [|done|by rewrite head_app, HheadB].
  rewrite (link_Some m B (C ++ take 1 A) c d); [|done|done].
  ring.
Qed.

(** ** 2-opt: one pass, and termination of the search *)

Lemma symmetric_on_perm m gs gs' : gs' ≡ₚ gs → symmetric_on m gs → symmetric_on m gs'.
Proof.
  intros Hp Hsym a b Ha Hb. apply Hsym; by rewrite <- Hp.
Qed.

Lemma twoOptPass_spec m gs :
  symmetric_on m gs →
  ∀ gs' improved,
    twoOptPass m (length gs) gs = (gs', improved) →
    gs' ≡ₚ gs ∧
    (improved = false →
       gs' = gs ∧
       ∀ i j, i < j → j < length gs →
         Qltb (newDist m (length gs) gs i j) (currentDist m (length gs) gs i j) = false) ∧
    (improved = true →
       (calculateTotalDistanceWithMatrix gs' m < calculateTotalDistanceWithMatrix gs m)%Q).
Proof.
  intros Hsym. unfold twoOptPass.
  assert (Hgen : ∀ ps, (∀ i j, (i, j) ∈ ps → i < j ∧ j < length gs) →
    ∀ gs' improved,
      foldl (twoOptStep m (length gs)) (gs, false) ps = (gs', improved) →
      gs' ≡ₚ gs ∧
      (improved = false →
         gs' = gs ∧
         ∀ i j, (i, j) ∈ ps →
           Qltb (newDist m (length gs) gs i j) (currentDist m (length gs) gs i j) = false) ∧
      (improved = true →
         (calculateTotalDistanceWithMatrix gs' m < calculateTotalDistanceWithMatrix gs m)%Q)).
  { induction ps as [|[i j] ps IH] using rev_ind; intros Hps gs' improved Hfold.
    - simpl in Hfold. injection Hfold as <- <-. split; [done|]. split; [|done].
      intros _. split; [done|]. intros i j Hij. by apply elem_of_nil in Hij.
    - rewrite foldl_snoc in Hfold.
      destruct (foldl (twoOptStep m (length gs)) (gs, false) ps) as [gs1 imp1] eqn:Hprev.
      destruct (IH (λ i' j' H, Hps i' j' (proj2 (elem_of_app _ _ _) (or_introl H)))
                  gs1 imp1 eq_refl) as (Hperm & Hfalse & Htrue).
      destruct (Hps i j) as [Hij Hj]; [apply elem_of_app; right; by left|].
      simpl in Hfold.
      destruct (Qltb (newDist m (length gs) gs1 i j) (currentDist m (length gs) gs1 i j))
        eqn:Hcmp; injection Hfold as <- <-.
      + assert (Hlen : length gs1 = length gs) by by apply Permutation_length.
        split; [by rewrite reverseSegment_perm by lia|]. split; [done|]. intros _.
        apply Qltb_lt in Hcmp.
        pose proof (tourLen_reverseSegment m gs1 i j
                      (symmetric_on_perm _ _ _ Hperm Hsym) Hij ltac:(lia)) as Hrev.
        rewrite Hlen in Hrev.
        assert (Hle : (calculateTotalDistanceWithMatrix gs1 m
                       <= calculateTotalDistanceWithMatrix gs m)%Q).
        { destruct imp1; [apply Qlt_le_weak; by apply Htrue|].
          destruct Hfalse as [-> _]; [done|]. apply Qle_refl. }
        lra.
      + split; [done|]. split; [|done]. intros ->.
        destruct Hfalse as [-> Hall]; [done|]. split; [done|].
        intros i' j' Hin. apply elem_of_app in Hin as [Hin|Hin]; [by apply Hall|].
        apply list_elem_of_singleton in Hin. injection Hin as -> ->. done. }
  intros gs' improved Hpass.
  destruct (Hgen (twoOptPairs (length gs))
              (λ i j H, proj1 (twoOptPairs_elem _ _ _) H) gs' improved Hpass)
    as (Hperm & Hfalse & Htrue).
  split; [done|]. split; [|done]. intros Himp.
  destruct (Hfalse Himp) as [-> Hall]. split; [done|].
  intros i j Hij Hj. apply Hall, twoOptPairs_elem. done.
Qed.

Lemma length_filter_impl {A} (P R : A → Prop)
    `{∀ x, Decision (P x)} `{∀ x, Decision (R x)} (l : list A) :
  (∀ y, P y → R y) → length (filter P l) ≤ length (filter R l).
Proof.
  intros HPR. induction l as [|y l IH]; [done|].
  rewrite !filter_cons. destruct (decide (P y)) as [HP|HP].
  - rewrite decide_True by auto. simpl. lia.
  - destruct (decide (R y)); simpl; lia.
Qed.

Lemma length_filter_lt {A} (P R : A → Prop)
    `{∀ x, Decision (P x)} `{∀ x, Decision (R x)} (l : list A) x :
  (∀ y, P y → R y) → x ∈ l → R x → ¬ P x →
  length (filter P l) < length (filter R l).
Proof.
  intros HPR Hx HR HP. induction l as [|y l IH]; [by apply elem_of_nil in Hx|].
  rewrite !filter_cons. apply elem_of_cons in Hx as [<-|Hx].
  - rewrite decide_False, decide_True by done. simpl.
    pose proof (length_filter_impl P R l HPR). lia.
  - specialize (IH Hx). destruct (decide (P y)) as [HPy|HPy].
    + rewrite decide_True by auto. simpl. lia.
    + destruct (decide (R y)); simpl; lia.
Qed.

Lemma shorter_tours_lt m gs0 gs gs' :
  gs' ≡ₚ gs0 →
  (calculateTotalDistanceWithMatrix gs' m < calculateTotalDistanceWithMatrix gs m)%Q →
  length (shorter_tours m gs0 gs') < length (shorter_tours m gs0 gs).
Proof.
  intros Hperm Hlt. unfold shorter_tours.
  apply (length_filter_lt _ _ _ gs').
  - intros p Hp. apply Is_true_true, Qltb_lt in Hp. apply Is_true_true, Qltb_lt. lra.
  - apply permutations_Permutation. done.
  - apply Is_true_true, Qltb_lt. done.
  - intros Hp. apply Is_true_true, Qltb_lt in Hp. lra.
Qed.

Lemma twoOptLoop_terminates m gs0 :
  symmetric_on m gs0 →
  ∀ k gs, gs ≡ₚ gs0 → length (shorter_tours m gs0 gs) < k →
    ∃ gs', (∀ fuel, k ≤ fuel → twoOptLoop fuel m (length gs0) gs = Some gs') ∧
      gs' ≡ₚ gs0 ∧
      ∀ i j, i < j → j < length gs' →
        Qltb (newDist m (length gs') gs' i j) (currentDist m (length gs') gs' i j) = false.
Proof.
  intros Hsym. induction k as [|k IH]; intros gs Hperm Hk; [lia|].
  assert (Hlen : length gs = length gs0) by by apply Permutation_length.
  destruct (twoOptPass m (length gs) gs) as [gs1 improved] eqn:Hpass.
  destruct (twoOptPass_spec m gs (symmetric_on_perm _ _ _ Hperm Hsym) gs1 improved Hpass)
    as (Hperm1 & Hfalse & Htrue).
  destruct improved.
  - destruct (IH gs1) as (gs' & Hrun & Hperm' & Hopt).
    { by rewrite Hperm1. }
    { pose proof (shorter_tours_lt m gs0 gs gs1 ltac:(by rewrite Hperm1) (Htrue eq_refl)).
      lia. }
    exists gs'. split; [|done]. intros [|fuel] Hfuel; [lia|].
    simpl. rewrite <- Hlen, Hpass, Hlen. apply Hrun. lia.
  - destruct Hfalse as [-> Hall]; [done|]. exists gs. split; [|done].
    intros [|fuel] Hfuel; [lia|]. simpl. rewrite <- Hlen, Hpass. done.
Qed.

Lemma tour_symmetric_on n m gs :
  is_tour n gs →
  (∀ a b, a < n → b < n → entry m a b == entry m b a) →
  symmetric_on m gs.
Proof.
  intros Ht Hsym a b Ha Hb.
  apply Hsym; by apply (tour_elem n gs).
Qed.

(** Without symmetry the search need not stop: on this matrix the passes
    alternate between two tours, each pass finding an exchange that the
    comparison of the four entries takes for an improvement. *)
Lemma twoOptOperator_diverges_on_asymmetric_matrix fuel :
  twoOptOperator fuel (createChromosomeWithMatrix [0; 1; 3; 2] asymmetric4) asymmetric4
  = None.
Proof.
  assert (Hloop : ∀ k, twoOptLoop k asymmetric4 4 [0; 1; 3; 2] = None ∧
                       twoOptLoop k asymmetric4 4 [0; 2; 3; 1] = None).
  { induction k as [|k [IH1 IH2]]; [done|]. split.
    - change (twoOptLoop (S k) asymmetric4 4 [0; 1; 3; 2])
        with (let '(gs', improved) := twoOptPass asymmetric4 4 [0; 1; 3; 2] in
              if improved then twoOptLoop k asymmetric4 4 gs' else Some gs').
      replace (twoOptPass asymmetric4 4 [0; 1; 3; 2]) with ([0; 2; 3; 1], true)
        by (vm_compute; reflexivity).
      exact IH2.
    - change (twoOptLoop (S k) asymmetric4 4 [0; 2; 3; 1])
        with (let '(gs', improved) := twoOptPass asymmetric4 4 [0; 2; 3; 1] in
              if improved then twoOptLoop k asymmetric4 4 gs' else Some gs').
      replace (twoOptPass asymmetric4 4 [0; 2; 3; 1]) with ([0; 1; 3; 2], true)
        by (vm_compute; reflexivity).
      exact IH1. }
  unfold twoOptOperator. simpl. rewrite (proj1 (Hloop fuel)). done.
Qed.

(** C3. For every tour over [n] cities and every [n]-by-[n] distance
    matrix (symmetric, as distance matrices are), [twoOptOperator]
    terminates: from some amount of fuel for its [while] loop on, it
    returns the same result.  The returned genes are again a tour, in which
    no pair of edges (i,i+1) and (j,(j+1) mod n) can be replaced by the
    edges (i,j) and (i+1,(j+1) mod n) with strictly smaller combined
    length, and the distance (and fitness) field of the result is the
    cyclic tour length of the returned genes under the matrix. *)
Theorem twoOptOperator_terminates_at_local_optimum n chromosome distanceMatrix :
  is_tour n (genes chromosome) →
  square n distanceMatrix →
  (∀ a b, a < n → b < n → entry distanceMatrix a b == entry distanceMatrix b a) →
  ∃ result,
    (∃ fuel0, ∀ fuel, fuel0 ≤ fuel →
       twoOptOperator fuel chromosome distanceMatrix = Some result) ∧
    is_tour n (genes result) ∧
    two_opt_optimal distanceMatrix (genes result) ∧
    distance result = calculateTotalDistanceWithMatrix (genes result) distanceMatrix ∧
    fitness result = distance result.
Proof.
  intros Htour _ Hentries.
  pose proof (tour_symmetric_on n distanceMatrix (genes chromosome) Htour Hentries) as Hsym.
  destruct (twoOptLoop_terminates distanceMatrix (genes chromosome) Hsym
              (S (length (shorter_tours distanceMatrix (genes chromosome) (genes chromosome))))
              (genes chromosome) ltac:(done) ltac:(lia))
    as (gs' & Hrun & Hperm & Hopt).
  eexists {| genes := gs'; fitness := _; distance := _ |}. split; [|split; [|split]].
  - eexists. intros fuel Hfuel. unfold twoOptOperator. rewrite (Hrun fuel Hfuel). done.
  - unfold is_tour in *. simpl. by rewrite Hperm.
  - simpl. intros i j a b c d Hij Hj Ha Hb Hc Hd.
    specialize (Hopt i j Hij Hj). apply Qltb_ge in Hopt.
    unfold currentDist, newDist, gene in Hopt. rewrite Ha, Hb, Hc, Hd in Hopt. done.
  - done.
Qed.

(** ** [initialize]: validation and the generation counter *)

Lemma StandardGA_initialize_generation this g this' g' :
  StandardGA.initialize this g = Some (this', g') →
  StandardGA.currentGeneration this' = StandardGA.currentGeneration this.
Proof.
  unfold StandardGA.initialize, StandardGA.updateStats. intros H. inv_M H. subst.
  match goal with Hu : _ ≫= _ = Some _ |- _ =>
    destruct (pushStats _ _ _ _) in Hu; [|done]; simpl in Hu; injection Hu as <- end.
  done.
Qed.

Lemma PACO3Opt_initialize_generation this g this' g' :
  PACO3Opt.initialize this g = Some (this', g') →
  PACO3Opt.currentGeneration this' = PACO3Opt.currentGeneration this.
Proof.
  unfold PACO3Opt.initialize, PACO3Opt.updateStats. intros H. inv_M H. subst.
  match goal with Hu : _ ≫= _ = Some _ |- _ =>
    destruct (pushStats _ _ _ _) in Hu; [|done]; simpl in Hu; injection Hu as <- end.
  done.
Qed.

Lemma GAJGHO_initialize_empty_stats sqrt now this g this' g' :
  populationSize (GAJGHO.params this) = 0 →
  GAJGHO.initialize sqrt now this g = Some (this', g') →
  GAJGHO.getStats now this' = None.
Proof.
  intros Hps Hinit.
  destruct (GAJGHO_initialize_spec sqrt now this g) as (s & h & Hs & _ & _ & _ & _ & Hl & _).
  rewrite Hs in Hinit. injection Hinit as <- <-.
  rewrite Hps in Hl. apply nil_length_inv in Hl.
  unfold GAJGHO.getStats, GAJGHO.getPopulation. rewrite Hl. done.
Qed.

(** With 3 cities or more the store does not look at the population size:
    for size 0 the call fails when [getStats] reads the best tour of the
    empty population. *)
Lemma Store_initializeAlgorithm_empty_population sqrt now store g :
  3 ≤ length (Store.cities store) →
  populationSize (Store.params store) = 0 →
  Store.initializeAlgorithm sqrt now store g = None.
Proof.
  intros Hge Hps. unfold Store.initializeAlgorithm.
  rewrite decide_False by lia.
  destruct (GAJGHO_initialize_spec sqrt now
              (GAJGHO.new sqrt now (Store.cities store) (Store.params store)) g)
    as (s & h & Hs & _).
  unfold bind at 1. rewrite Hs.
  unfold bind, lift.
  rewrite (GAJGHO_initialize_empty_stats sqrt now
             (GAJGHO.new sqrt now (Store.cities store) (Store.params store))
             g s h Hps Hs). done.
Qed.

(** C4 (as the code has it). [GAJGHO.initialize] validates nothing: for
    every set of cities and every population size it returns normally
    with [populationSize] tours over the given cities, so with fewer than
    3 cities it builds degenerate tours and with population size 0 an
    empty population.  The only guard is in the store's
    [initializeAlgorithm]: with fewer than 3 cities it logs a console
    warning and returns, raising nothing, consuming no randomness and
    leaving the store as it was; with 3 cities or more and a positive
    population size it installs the initialised algorithm at generation 0. *)
Theorem initialize_validates_nothing_store_warns :
  (∀ sqrt now cities params g,
     ∃ this' g',
       GAJGHO.initialize sqrt now (GAJGHO.new sqrt now cities params) g = Some (this', g') ∧
       length (GAJGHO.currentPopulation this') = populationSize params ∧
       valid_population (length cities) (GAJGHO.currentPopulation this')) ∧
  (∀ sqrt now store g,
     length (Store.cities store) < 3 →
     Store.initializeAlgorithm sqrt now store g =
       Some (Store.Warned "Need at least 3 cities to run algorithm", g)) ∧
  (∀ sqrt now store g,
     3 ≤ length (Store.cities store) →
     1 ≤ populationSize (Store.params store) →
     ∃ store' g',
       Store.initializeAlgorithm sqrt now store g = Some (Store.Initialized store', g') ∧
       Store.currentGeneration store' = 0 ∧
       is_Some (Store.algorithm store') ∧
       is_Some (Store.currentPopulation store')).
Proof.
  split; [|split].
  - intros sqrt now cities params g.
    destruct (GAJGHO_initialize_spec sqrt now (GAJGHO.new sqrt now cities params) g)
      as (s & h & Hs & _ & _ & _ & _ & Hl & Hv).
    by exists s, h.
  - intros sqrt now store g Hlt. unfold Store.initializeAlgorithm.
    rewrite decide_True by done. done.
  - intros sqrt now store g Hge Hps. unfold Store.initializeAlgorithm.
    rewrite decide_False by lia.
    destruct (GAJGHO_initialize_spec sqrt now
                (GAJGHO.new sqrt now (Store.cities store) (Store.params store)) g)
      as (s & h & Hs & _ & _ & _ & _ & Hl & _).
    simpl in Hl. unfold bind at 1. rewrite Hs.
    assert (Hne : GAJGHO.currentPopulation s ≠ []).
    { intros E. rewrite E in Hl. simpl in Hl. lia. }
    assert (Hne' : sortByDistance (GAJGHO.currentPopulation s) ≠ []).
    { intros E. apply (f_equal length) in E. rewrite sortByDistance_length in E.
      simpl in E. lia. }
    destruct (snapshotOf_nonempty _ _ (GAJGHO.generation s) Hne' Hne) as (Hb & Hw & _).
    destruct (proj2 (statsOf_Some (GAJGHO.getPopulation s)
                       (inject_Z (now - GAJGHO.startTime s))) (conj Hb Hw)) as [st Hst].
    unfold GAJGHO.getStats, bind, lift. rewrite Hst. simpl.
    eexists _, h. split; [done|]. simpl. split; [done|]. split; eauto.
Qed.

(** C4, refuted as stated: on two points [GAJGHO.initialize] raises
    nothing and builds a population of four two-city tours, and with
    population size 0 it returns normally with an empty population. *)
Lemma GAJGHO_initialize_accepts_two_points :
  GAJGHO.currentPopulation <$>
    result_of (GAJGHO.initialize isqrt 0 (GAJGHO.new isqrt 0 two_points params4)) rng0
  = Some [ {| genes := [1; 0]; fitness := 10; distance := 10 |};
           {| genes := [0; 1]; fitness := 10; distance := 10 |};
           {| genes := [1; 0]; fitness := 10; distance := 10 |};
           {| genes := [0; 1]; fitness := 10; distance := 10 |} ] ∧
  GAJGHO.currentPopulation <$>
    result_of (GAJGHO.initialize isqrt 0 (GAJGHO.new isqrt 0 two_points params0)) rng0
  = Some [].
Proof. split; vm_compute; reflexivity. Qed.

(** Of the four classes only [GAJGHO.initialize]
    sets the generation counter to 0; [initialize] of StandardGA, ABCTSP
    and PACO3Opt leaves the counter as it was, so it is 0 only when no
    generation has been run since construction. *)
Lemma initialize_resets_generation_in_GAJGHO_only :
  (∀ sqrt now this g this' g',
     GAJGHO.initialize sqrt now this g = Some (this', g') →
     GAJGHO.generation this' = 0) ∧
  (∀ this g this' g',
     StandardGA.initialize this g = Some (this', g') →
     StandardGA.currentGeneration this' = StandardGA.currentGeneration this) ∧
  (∀ this g this' g',
     ABCTSP.initialize this g = Some (this', g') →
     ABCTSP.currentGeneration this' = ABCTSP.currentGeneration this) ∧
  (∀ this g this' g',
     PACO3Opt.initialize this g = Some (this', g') →
     PACO3Opt.currentGeneration this' = PACO3Opt.currentGeneration this).
Proof.
  split; [|split; [|split]].
  - intros sqrt now this g this' g' H.
    destruct (GAJGHO_initialize_spec sqrt now this g) as (s & h & Hs & Hg & _).
    rewrite Hs in H. by injection H as <- <-.
  - apply StandardGA_initialize_generation.
  - intros this g this' g' H. by apply ABC_initialize_length in H as (_ & _ & ?).
  - apply PACO3Opt_initialize_generation.
Qed.

(** C5, at the failing input: on four cities with population size 4, after
    [initialize] and one [runGeneration], a second [initialize] resets the
    generation counter of GAJGHO to 0 and leaves the counter of StandardGA,
    ABCTSP and PACO3Opt at 1, which is also the generation of the snapshot
    StandardGA then reports. *)
Theorem initialize_after_one_generation :
  GAJGHO.generation <$> result_of reinitialize_GAJGHO rng0 = Some 0 ∧
  StandardGA.currentGeneration <$> result_of reinitialize_StandardGA rng0 = Some 1 ∧
  ABCTSP.currentGeneration <$> result_of reinitialize_ABCTSP rng0 = Some 1 ∧
  PACO3Opt.currentGeneration <$> result_of reinitialize_PACO3Opt rng0 = Some 1 ∧
  (λ s, pop_generation (snd (StandardGA.getPopulation s)))
    <$> result_of reinitialize_StandardGA rng0 = Some 1.
Proof. repeat split; vm_compute; reflexivity. Qed.

(** ** Instances on concrete inputs *)

(** Names the result [Some (a, b)] of running [c]. *)
Ltac run_as c a b :=
  let r := eval vm_compute in c in
  lazymatch r with
  | Some (?u, ?v) => pose (a := u); pose (b := v)
  end.

Lemma crossover_of_square4_is_tour :
  ∃ c g',
    bidirectionalHeuristicCrossover tour0123 tour2031 matrix4 rng0 = Some (c, g') ∧
    is_tour 4 (genes c).
Proof.
  eexists _, _. split; [vm_compute; reflexivity|].
  refine (proj1 (proj1 operators_preserve_permutations 4 tour0123 tour2031 matrix4 rng0
                   _ _) _ _ _).
  - unfold is_tour. simpl. done.
  - unfold is_tour. simpl. apply (bool_decide_unpack _). vm_compute. reflexivity.
  - vm_compute. reflexivity.
Defined.

Lemma elitism_on_square4 :
  ∃ this g this' pop g' b,
    GAJGHO.initialize isqrt 0 (GAJGHO.new isqrt 0 square4 params4) rng0 = Some (this, g) ∧
    1 ≤ eliteCount (GAJGHO.params this) ∧
    best (GAJGHO.getPopulation this) = Some b ∧
    GAJGHO.runGeneration 100 this g = Some (this', pop, g') ∧
    b ∈ chromosomes pop ∧
    (∀ c, c ∈ GAJGHO.currentPopulation this → (distance b <= distance c)%Q) ∧
    ∃ b', best pop = Some b' ∧
          (∀ c, c ∈ chromosomes pop → (distance b' <= distance c)%Q) ∧
          (distance b' <= distance b)%Q.
Proof.
  run_as (GAJGHO.initialize isqrt 0 (GAJGHO.new isqrt 0 square4 params4) rng0) this g.
  run_as (GAJGHO.runGeneration 100 this g) r g'.
  exists this, g, (fst r), (snd r), g'.
  eexists. split; [vm_compute; reflexivity|].
  assert (H1 : 1 ≤ eliteCount (GAJGHO.params this)) by (vm_compute; lia).
  split; [exact H1|].
  split; [vm_compute; reflexivity|].
  assert (H3 : GAJGHO.runGeneration 100 this g = Some (fst r, snd r, g'))
    by (vm_compute; reflexivity).
  split; [exact H3|].
  refine (proj1 elitism_never_regresses 100 this g (fst r) (snd r) g' _ H1 _ H3).
  vm_compute. reflexivity.
Defined.

Lemma twoOpt_uncrosses_square4 :
  ∃ result,
    (∃ fuel0, ∀ fuel, fuel0 ≤ fuel →
       twoOptOperator fuel tour2031 matrix4 = Some result) ∧
    is_tour 4 (genes result) ∧
    two_opt_optimal matrix4 (genes result) ∧
    distance result = calculateTotalDistanceWithMatrix (genes result) matrix4 ∧
    fitness result = distance result.
Proof.
  apply (twoOptOperator_terminates_at_local_optimum 4 tour2031 matrix4).
  - unfold is_tour. simpl. apply (bool_decide_unpack _). vm_compute. reflexivity.
  - split; [reflexivity|]. repeat constructor.
  - intros a b Ha Hb.
    destruct a as [|[|[|[|a]]]]; [| | | |lia];
      (destruct b as [|[|[|[|b]]]]; [| | | |lia]); reflexivity.
Defined.

Lemma store_warns_on_two_points :
  length (Store.cities store_two_points) < 3 ∧
  Store.initializeAlgorithm isqrt 0 store_two_points rng0 =
    Some (Store.Warned "Need at least 3 cities to run algorithm", rng0).
Proof.
  assert (H : length (Store.cities store_two_points) < 3) by (simpl; lia).
  split; [exact H|].
  exact (proj1 (proj2 initialize_validates_nothing_store_warns)
           isqrt 0%Z store_two_points rng0 H).
Defined.

Lemma unique_of_five_copies_of_tour0123 :
  ∃ r1 r2 r3 r4 g',
    uniqueOperator [tour0123; tour0123; tour0123; tour0123; tour0123] 4 rng0
      = Some ([tour0123; r1; r2; r3; r4], g') ∧
    freshly_generated 4 r1 ∧ freshly_generated 4 r2 ∧
    freshly_generated 4 r3 ∧ freshly_generated 4 r4.
Proof.
  exact (proj2 (uniqueOperator_keeps_first_and_replaces_duplicates [] 4 matrix4 rng0)
           tour0123).
Defined.

Lemma roulette_on_zero_fitness_picks_by_floor :
  ∃ r g',
    rouletteWheelSelect [tour0123; tour2031; tour0123] [0; 0; 0]%Q rng0 = Some (r, g') ∧
    r = Some tour2031.
Proof.
  destruct (rouletteWheelSelect_uniform_or_proportional
              [tour0123; tour2031; tour0123] [0; 0; 0]%Q rng0)
    as (r & g' & Hrun & _ & Hzero & _).
  exists r, g'. split; [exact Hrun|].
  destruct Hzero as [-> _]; [reflexivity|]. vm_compute. reflexivity.
Defined.

Lemma matrix_of_square4 :
  square (length square4) matrix4 ∧
  (∃ v, lookup2 matrix4 1 2 = Some v ∧ lookup2 matrix4 2 1 = Some v ∧
        (1 ≠ 2 → v = calculateDistance isqrt (mkCity 1 0 10) (mkCity 2 10 10)) ∧
        (1 ≠ 2 →
         v = isqrt ((x (mkCity 1 0 10) - x (mkCity 2 10 10))
                      * (x (mkCity 1 0 10) - x (mkCity 2 10 10))
                    + (y (mkCity 1 0 10) - y (mkCity 2 10 10))
                      * (y (mkCity 1 0 10) - y (mkCity 2 10 10)))%Q)) ∧
  lookup2 matrix4 1 1 = Some 0%Q.
Proof.
  exact (buildDistanceMatrix_symmetric_zero_diagonal_euclidean isqrt square4 1 2
           (mkCity 1 0 10) (mkCity 2 10 10) eq_refl eq_refl).
Defined.

Lemma bee_colony_of_square4_has_two_sources :
  ∃ this g this' pop g',
    ABCTSP.initialize (ABCTSP.new isqrt square4 params4) rng0 = Some (this, g) ∧
    ABCTSP.runGeneration 100 1 this g = Some (this', pop, g') ∧
    length (ABCTSP.foodSources this') = 2 ∧
    length (chromosomes (snd (ABCTSP.getPopulation this'))) = 2 ∧
    length (chromosomes pop) = 2.
Proof.
  run_as (ABCTSP.initialize (ABCTSP.new isqrt square4 params4) rng0) this g.
  run_as (ABCTSP.runGeneration 100 1 this g) r g'.
  exists this, g, (fst r), (snd r), g'.
  assert (H0 : ABCTSP.initialize (ABCTSP.new isqrt square4 params4) rng0 = Some (this, g))
    by (vm_compute; reflexivity).
  assert (H1 : ABCTSP.runGeneration 100 1 this g = Some (fst r, snd r, g'))
    by (vm_compute; reflexivity).
  split; [exact H0|]. split; [exact H1|].
  pose proof (ABC_initialized isqrt square4 params4 rng0 this g H0) as R0.
  pose proof (ABC_generation isqrt square4 params4 100 1 this g (fst r) (snd r) g' R0 H1)
    as R1.
  destruct (proj2 (proj2 (proj2 ABCTSP_keeps_half_population))
              isqrt square4 params4 this R0) as (_ & _ & Hrun).
  destruct (proj2 (proj2 (proj2 ABCTSP_keeps_half_population))
              isqrt square4 params4 (fst r) R1) as (Hlen & Hsnap & _).
  split; [exact Hlen|]. split; [exact Hsnap|].
  exact (Hrun 100 1%Q g (fst r) (snd r) g' H1).
Defined.

Lemma snapshot_of_square4_after_initialize :
  ∃ this' g',
    GAJGHO.initialize isqrt 0 (GAJGHO.new isqrt 0 square4 params4) rng0 = Some (this', g') ∧
    0 < length (sortByDistance (GAJGHO.currentPopulation this')) ∧
    is_Some (best (GAJGHO.getPopulation this')) ∧
    is_Some (worst (GAJGHO.getPopulation this')) ∧
    is_Some (average (GAJGHO.getPopulation this')) ∧
    is_Some (diversity (GAJGHO.getPopulation this')) ∧
    is_Some (GAJGHO.getStats 5 this').
Proof.
  run_as (GAJGHO.initialize isqrt 0 (GAJGHO.new isqrt 0 square4 params4) rng0) this g.
  exists this, g.
  assert (H0 : GAJGHO.initialize isqrt 0 (GAJGHO.new isqrt 0 square4 params4) rng0
               = Some (this, g)) by (vm_compute; reflexivity).
  split; [exact H0|].
  refine (proj1 (proj2 GAJGHO_snapshot_needs_population) isqrt 0%Z 5%Z
            (GAJGHO.new isqrt 0 square4 params4) rng0 this g _ H0).
  simpl. lia.
Defined.

(** * Further properties of the engine *)

(** ** Initialisation and the distance cache *)

(** X1. [generateRandomChromosome] (the Fisher-Yates shuffle) returns, for
    every city count and every sequence of random draws, a permutation of
    [0..cityCount-1]: no index is out of the array, no city is lost or
    repeated. *)
Theorem generateRandomChromosome_is_permutation (cityCount : nat) (g : Rng) :
  ∃ gs g',
    generateRandomChromosome cityCount g = Some (gs, g') ∧
    gs ≡ₚ seq 0 cityCount ∧ NoDup gs ∧ length gs = cityCount ∧
    ∀ c, c ∈ gs ↔ c < cityCount.
Proof.
  destruct (generateRandomChromosome_tour cityCount g) as (gs & g' & Hrun & Ht).
  exists gs, g'. split; [done|]. split; [done|]. split; [by eapply tour_NoDup|].
  split; [by apply tour_length|]. intros c. by apply tour_elem.
Qed.

Lemma foldl_option_agree {A} (f : option Q → A → option Q) (h : Q → A → Q) (l : list A) :
  (∀ t a, a ∈ l → f (Some t) a = Some (h t a)) →
  ∀ t, foldl f (Some t) l = Some (foldl h t l).
Proof.
  induction l as [|a l IH]; intros Hstep t; [done|]. simpl.
  rewrite Hstep by (by left). apply IH. intros t' a' Ha'. apply Hstep. by right.
Qed.

Lemma tour_next_distinct n gs i c c' :
  is_tour n gs → n ≠ 1 →
  gs !! i = Some c → gs !! ((i + 1) `mod` length gs) = Some c' → c ≠ c'.
Proof.
  intros Ht Hn Hc Hc' ->.
  pose proof (tour_length n gs Ht) as Hlen.
  pose proof (lookup_lt_Some _ _ _ Hc) as Hi.
  pose proof (NoDup_lookup gs _ _ _ (tour_NoDup n gs Ht) Hc Hc') as Heq.
  destruct (decide (i + 1 < length gs)) as [Hlt|Hge].
  - rewrite Nat.mod_small in Heq by done. lia.
  - replace (i + 1) with (length gs) in Heq by lia.
    rewrite Nat.Div0.mod_same in Heq. lia.
Qed.

Lemma calculateTotalDistance_matrix sqrt cities gs :
  is_tour (length cities) gs → length cities ≠ 1 →
  calculateTotalDistance sqrt gs cities =
    Some (calculateTotalDistanceWithMatrix gs (buildDistanceMatrix sqrt cities)).
Proof.
  intros Ht Hn. unfold calculateTotalDistance, calculateTotalDistanceWithMatrix.
  apply foldl_option_agree. intros t i Hi.
  apply elem_of_seq in Hi as [_ Hi]. rewrite Nat.add_0_l in Hi.
  destruct (lookup_lt_is_Some_2 gs i Hi) as [c Hc].
  destruct (lookup_lt_is_Some_2 gs ((i + 1) `mod` length gs)) as [c' Hc'].
  { apply Nat.mod_upper_bound. lia. }
  rewrite Hc, Hc'. simpl.
  pose proof (tour_lookup_lt _ _ _ _ Ht Hc) as Hlt.
  pose proof (tour_lookup_lt _ _ _ _ Ht Hc') as Hlt'.
  destruct (lookup_lt_is_Some_2 cities c Hlt) as [city Hcity].
  destruct (lookup_lt_is_Some_2 cities c' Hlt') as [city' Hcity'].
  rewrite Hcity, Hcity'. simpl.
  destruct (buildDistanceMatrix_lookup sqrt cities c c') as [_ Hlook].
  specialize (Hlook Hlt Hlt').
  rewrite decide_False in Hlook by by eapply tour_next_distinct.
  rewrite (entry_lookup2 _ _ _ _ Hlook).
  unfold distOf. rewrite Hcity, Hcity'. done.
Qed.

(** X2. For a tour over the cities (any number of cities but one), the
    length computed from the coordinates by [calculateTotalDistance] is the
    length computed from the cached matrix of [buildDistanceMatrix] by
    [calculateTotalDistanceWithMatrix], and so [createChromosome] and
    [createChromosomeWithMatrix] build the same chromosome.  (With a single
    city the first takes [Math.sqrt] of a zero and the second reads the
    0 of the diagonal.) *)
Theorem distance_cache_agrees_with_coordinates
    (sqrt : Q → Q) (cities : list City) (gs : list nat) :
  is_tour (length cities) gs → length cities ≠ 1 →
  calculateTotalDistance sqrt gs cities =
    Some (calculateTotalDistanceWithMatrix gs (buildDistanceMatrix sqrt cities)) ∧
  createChromosome sqrt gs cities =
    Some (createChromosomeWithMatrix gs (buildDistanceMatrix sqrt cities)).
Proof.
  intros Ht Hn.
  pose proof (calculateTotalDistance_matrix sqrt cities gs Ht Hn) as H.
  split; [done|]. unfold createChromosome. rewrite H. done.
Qed.

Lemma distance_cache_on_square4 :
  calculateTotalDistance isqrt [2; 0; 3; 1] square4 =
    Some (calculateTotalDistanceWithMatrix [2; 0; 3; 1] (buildDistanceMatrix isqrt square4)) ∧
  createChromosome isqrt [2; 0; 3; 1] square4 =
    Some (createChromosomeWithMatrix [2; 0; 3; 1] (buildDistanceMatrix isqrt square4)).
Proof.
  apply (distance_cache_agrees_with_coordinates isqrt square4 [2; 0; 3; 1]).
  - unfold is_tour. simpl. apply (bool_decide_unpack _). vm_compute. reflexivity.
  - simpl. lia.
Defined.

Lemma initializePopulation_builds_tours
    (sqrt : Q → Q) (cities : list City) (populationSize : nat) (g : Rng) :
  ∃ population g',
    initializePopulation sqrt cities populationSize g = Some (population, g') ∧
    length population = populationSize ∧
    ∀ c, c ∈ population →
      is_tour (length cities) (genes c) ∧
      calculateTotalDistance sqrt (genes c) cities = Some (distance c) ∧
      fitness c = distance c.
Proof.
  unfold initializePopulation.
  destruct (mapRand_total
    (λ _ : nat, let* gs := generateRandomChromosome (length cities) in
                lift (createChromosome sqrt gs cities))
    (λ c, is_tour (length cities) (genes c) ∧
          calculateTotalDistance sqrt (genes c) cities = Some (distance c) ∧
          fitness c = distance c) (seq 0 populationSize) g)
    as (population & g' & Hrun & Hlen & Hall).
  { intros _ h _.
    destruct (generateRandomChromosome_tour (length cities) h) as (gs & h' & Hgs & Ht).
    destruct (calculateTotalDistance_Some sqrt gs cities Ht) as [d Hd].
    eexists _, h'. unfold bind. rewrite Hgs. unfold createChromosome. rewrite Hd.
    simpl. split; [done|]. done. }
  exists population, g'. split; [done|]. split; [by rewrite Hlen, length_seq|].
  intros c Hc. by apply (proj1 (Forall_forall _ _) Hall).
Qed.

(** X3. [initializePopulation] returns, for every city list, population
    size and sequence of draws, exactly [populationSize] chromosomes; each
    is a permutation of all city indices whose [distance] is its tour
    length over the coordinates and whose [fitness] is that same number. *)
Theorem initializePopulation_builds_measured_tours
    (sqrt : Q → Q) (cities : list City) (populationSize : nat) (g : Rng) :
  ∃ population g',
    initializePopulation sqrt cities populationSize g = Some (population, g') ∧
    length population = populationSize ∧
    ∀ c, c ∈ population →
      is_tour (length cities) (genes c) ∧
      calculateTotalDistance sqrt (genes c) cities = Some (distance c) ∧
      fitness c = distance c.
Proof. apply initializePopulation_builds_tours. Qed.

(** ** Nearest city, adaptive schedules, selection and crossover *)

Lemma nearestFold_spec dm from (l : list nat) : ∀ c0,
  let c := fst (foldl (λ '(nearestCityId, minDistance) cityId,
                         let dist := entry dm from cityId in
                         if Qltb dist minDistance then (cityId, dist)
                         else (nearestCityId, minDistance))
                      (c0, entry dm from c0) l) in
  (c = c0 ∨ c ∈ l) ∧
  (entry dm from c <= entry dm from c0)%Q ∧
  ∀ c', c' ∈ l → (entry dm from c <= entry dm from c')%Q.
Proof.
  induction l as [|v l IH]; intros c0; simpl.
  - split; [by left|]. split; [apply Qle_refl|]. intros c' Hc'. by apply elem_of_nil in Hc'.
  - destruct (Qltb (entry dm from v) (entry dm from c0)) eqn:Hcmp.
    + apply Qltb_lt in Hcmp. pose proof (IH v) as IHv. cbv zeta in IHv.
      destruct IHv as (Hin & Hle & Hall).
      split; [right; destruct Hin as [->|Hin]; [by left|by right]|].
      split; [lra|]. intros c' Hc'. apply elem_of_cons in Hc' as [->|Hc']; [done|by apply Hall].
    + apply Qltb_ge in Hcmp. pose proof (IH c0) as IHv. cbv zeta in IHv.
      destruct IHv as (Hin & Hle & Hall).
      split; [destruct Hin as [->|Hin]; [by left|right; by right]|].
      split; [done|]. intros c' Hc'. apply elem_of_cons in Hc' as [->|Hc']; [lra|by apply Hall].
Qed.

(** X4. [findNearestCity] returns a candidate whose distance from the
    given city is minimal among all candidates; only for an empty
    candidate list does it return [undefined]. *)
Theorem findNearestCity_returns_a_nearest_candidate
    (fromCityId : nat) (candidateCityIds : list nat) (distanceMatrix : Matrix) :
  match findNearestCity fromCityId candidateCityIds distanceMatrix with
  | Some c =>
      c ∈ candidateCityIds ∧
      ∀ c', c' ∈ candidateCityIds →
        (entry distanceMatrix fromCityId c <= entry distanceMatrix fromCityId c')%Q
  | None => candidateCityIds = []
  end.
Proof.
  unfold findNearestCity. destruct candidateCityIds as [|c0 l]; [done|]. simpl head.
  cbn [mbind option_bind].
  pose proof (nearestFold_spec distanceMatrix fromCityId (c0 :: l) c0) as Hspec.
  cbv zeta in Hspec. destruct Hspec as (Hin & _ & Hall).
  split; [|done]. destruct Hin as [->|Hin]; [by left|done].
Qed.






Lemma rouletteWheelSelect_total population fitnessValues g :
  ∃ r g', rouletteWheelSelect population fitnessValues g = Some (r, g') ∧
          (population ≠ [] → ∃ c, r = Some c ∧ c ∈ population).
Proof.
  unfold rouletteWheelSelect. destruct (Qeq_bool _ _).
  - destruct (randomIndex_total (length population) g) as [[i g'] Hi].
    exists (population !! i), g'. unfold bind. rewrite Hi. split; [done|].
    intros Hne. apply randomIndex_lt in Hi; [|destruct population; [done|simpl; lia]].
    destruct (lookup_lt_is_Some_2 population i Hi) as [c Hc].
    exists c. split; [done|]. by eapply list_elem_of_lookup_2.
  - eexists _, _. unfold bind, Math_random, ret. split; [done|].
    intros Hne. destruct (spinWheel _ _ _ _) as [c|] eqn:Hs.
    + exists c. split; [done|]. by eapply spinWheel_elem.
    + destruct population as [|c0 l] using rev_ind; [done|].
      exists c0. rewrite last_snoc. split; [done|]. apply elem_of_app. right. by left.
Qed.

(** X6. For a non-empty population [selectParents] always returns, with
    exactly [count] parents, each of them a member of the population. *)
Theorem selectParents_returns_members
    (population : list Chromosome) (count : nat) (Pfit beta : Q) (g : Rng) :
  population ≠ [] →
  ∃ parents g',
    selectParents population count Pfit beta g = Some (parents, g') ∧
    length parents = count ∧
    ∀ p, p ∈ parents → p ∈ population.
Proof.
  intros Hne. unfold selectParents.
  destruct (mapRand_total
    (λ _ : nat, let* p := rouletteSelection population Pfit beta in lift p)
    (λ p, p ∈ population) (seq 0 count) g) as (parents & g' & Hrun & Hlen & Hall).
  { intros _ h _. unfold rouletteSelection.
    destruct (rouletteWheelSelect_total population
                (if Qle_bool (u01 (h 0)) Pfit then calculateLinearFitness population
                 else calculateNonLinearFitness population beta) (λ k, h (S k)))
      as (r & h' & Hr & Hsome).
    destruct (Hsome Hne) as (c & -> & Hc).
    exists c, h'. unfold bind at 1. unfold bind at 1. unfold Math_random at 1.
    cbv beta. rewrite Hr. done. }
  exists parents, g'. split; [done|]. split; [by rewrite Hlen, length_seq|].
  intros p Hp. by apply (proj1 (Forall_forall _ _) Hall).
Qed.

Lemma selectParents_on_square4 :
  ∃ parents g',
    selectParents [tour0123; tour2031] 5 (1 # 2) (3 # 10) rng0 = Some (parents, g') ∧
    length parents = 5 ∧
    ∀ p, p ∈ parents → p ∈ [tour0123; tour2031].
Proof.
  apply (selectParents_returns_members [tour0123; tour2031] 5 (1 # 2) (3 # 10) rng0).
  discriminate.
Defined.

Lemma crossoverLoop_total n parents distanceMatrix targetCount (l : list nat) :
  valid_population n parents → parents ≠ [] → 0 < n →
  ∀ offspring g, valid_population n offspring →
    ∃ result g',
      foldRand (crossoverStep parents distanceMatrix targetCount) offspring l g
        = Some (result, g') ∧ valid_population n result.
Proof.
  intros Hp Hne Hn offspring g Hv.
  apply (foldRand_total _ (valid_population n)); [|done].
  clear offspring g Hv. intros o i h Ho _.
  assert (Hlen : 0 < length parents) by (destruct parents; [done|simpl; lia]).
  destruct (lookup_lt_is_Some_2 parents (i `mod` length parents)) as [p1 H1].
  { apply Nat.mod_upper_bound. lia. }
  destruct (lookup_lt_is_Some_2 parents ((i + 1) `mod` length parents)) as [p2 H2].
  { apply Nat.mod_upper_bound. lia. }
  assert (Ht1 : is_tour n (genes p1)).
  { apply (proj1 (Forall_forall _ _) Hp). by eapply list_elem_of_lookup_2. }
  assert (Ht2 : is_tour n (genes p2)).
  { apply (proj1 (Forall_forall _ _) Hp). by eapply list_elem_of_lookup_2. }
  unfold crossoverStep, bind at 1, lift. rewrite H1. unfold ret at 1.
  unfold bind at 1. rewrite H2. unfold ret at 1.
  destruct (bidirectionalHeuristicCrossover_total n p1 p2 distanceMatrix h Ht1 Ht2 Hn)
    as [[o1 h1] Ho1].
  pose proof (bidirectionalHeuristicCrossover_tour _ _ _ _ _ _ _ Ht1 Ht2 Ho1) as Hto1.
  unfold bind at 1. rewrite Ho1.
  destruct (bool_decide _).
  - destruct (bidirectionalHeuristicCrossover_total n p2 p1 distanceMatrix h1 Ht2 Ht1 Hn)
      as [[o2 h2] Ho2].
    pose proof (bidirectionalHeuristicCrossover_tour _ _ _ _ _ _ _ Ht2 Ht1 Ho2) as Hto2.
    unfold bind. rewrite Ho2. eexists _, _. split; [done|].
    unfold valid_population. rewrite !Forall_app. repeat split; try done; by constructor.
  - eexists _, _. split; [done|].
    unfold valid_population. rewrite Forall_app. split; [done|]. by constructor.
Qed.

(** X7. From a non-empty list of parents that are tours over [n >= 1]
    cities, [performCrossover] always returns, with exactly the requested
    number of offspring (the number of parents when none or 0 is
    requested), every one of them a tour over the same cities. *)
Theorem performCrossover_fills_the_offspring
    (n : nat) (parents : list Chromosome) (distanceMatrix : Matrix)
    (offspringCount : nat) (g : Rng) :
  valid_population n parents → parents ≠ [] → 0 < n →
  ∃ result g',
    performCrossover parents distanceMatrix offspringCount g = Some (result, g') ∧
    length result = (if decide (offspringCount = 0) then length parents else offspringCount) ∧
    valid_population n result.
Proof.
  intros Hp Hne Hn. unfold performCrossover.
  set (targetCount := if decide (offspringCount = 0) then length parents else offspringCount).
  destruct (crossoverLoop_total n parents distanceMatrix targetCount
              ((λ k, 2 * k) <$> seq 0 ((targetCount + 1) / 2)) Hp Hne Hn [] g)
    as (offspring & g' & Hrun & Hv); [constructor|].
  exists (take targetCount offspring), g'. unfold bind. rewrite Hrun.
  split; [done|].
  destruct (crossoverLoop_spec n _ _ _ _ 0 [] _ _ _ Hrun Hp) as [_ Hl].
  { constructor. } { done. }
  { pose proof (Nat.div_mod_eq (targetCount + 1) 2).
    pose proof (Nat.mod_upper_bound (targetCount + 1) 2). lia. }
  split.
  - rewrite length_take, Hl.
    pose proof (Nat.div_mod_eq (targetCount + 1) 2).
    pose proof (Nat.mod_upper_bound (targetCount + 1) 2). lia.
  - unfold valid_population in *. by apply Forall_take.
Qed.

Lemma performCrossover_on_square4 :
  ∃ result g',
    performCrossover [tour0123; tour2031] matrix4 3 rng0 = Some (result, g') ∧
    length result = (if decide (3 = 0) then length [tour0123; tour2031] else 3) ∧
    valid_population 4 result.
Proof.
  apply (performCrossover_fills_the_offspring 4 [tour0123; tour2031] matrix4 3 rng0).
  - repeat constructor; unfold is_tour; simpl;
      apply (bool_decide_unpack _); vm_compute; reflexivity.
  - discriminate.
  - lia.
Defined.

(** ** The two fitness functions of the selection *)




Lemma foldl_Qplus_pos (l : list Q) :
  (∀ v, v ∈ l → (0 < v)%Q) → ∀ a, (0 <= a)%Q → l ≠ [] → (0 < foldl Qplus a l)%Q.
Proof.
  induction l as [|v l IH]; intros Hall a Ha Hne; [done|]. simpl.
  assert (Hv : (0 < v)%Q) by (apply Hall; by left).
  destruct l as [|w l]; [simpl; lra|].
  apply IH; [|lra|done]. intros u Hu. apply Hall. by right.
Qed.



(** ** The mutation operators *)

Lemma randomIndex_small n g i g' :
  n ≤ 1 → randomIndex n g = Some (i, g') → i = 0.
Proof.
  intros Hn Hi. destruct n as [|[|n]]; [by eapply randomIndex_zero| |lia].
  apply randomIndex_lt in Hi; lia.
Qed.

Lemma redrawWhileEqual_stuck n : n ≤ 1 → ∀ fuel g, redrawWhileEqual fuel n 0 0 g = None.
Proof.
  intros Hn. induction fuel as [|fuel IH]; intros g; simpl; [done|].
  unfold bind. destruct (randomIndex n g) as [[i g']|] eqn:Hi; [|done].
  apply (randomIndex_small n g i g' Hn) in Hi as ->. apply IH.
Qed.

(** X9. On a tour of fewer than two cities [swapMutation] never returns:
    both positions are drawn as 0 and the loop that redraws the second
    position until it differs from the first cannot end, whatever the
    random draws and however long it runs. *)
Theorem swapMutation_never_returns_below_two_cities
    (fuel : nat) (chromosome : Chromosome) (g : Rng) :
  length (genes chromosome) ≤ 1 →
  swapMutation fuel chromosome g = None.
Proof.
  intros Hn. unfold swapMutation.
  unfold bind at 1.
  destruct (randomIndex (length (genes chromosome)) g) as [[pos1 g1]|] eqn:H1; [|done].
  apply (randomIndex_small _ _ _ _ Hn) in H1 as ->.
  unfold bind at 1.
  destruct (randomIndex (length (genes chromosome)) g1) as [[pos2 g2]|] eqn:H2; [|done].
  apply (randomIndex_small _ _ _ _ Hn) in H2 as ->.
  unfold bind at 1. by rewrite redrawWhileEqual_stuck.
Qed.

Lemma swapMutation_on_one_city :
  swapMutation 1000 {| genes := [0]; fitness := 0; distance := 0 |} rng0 = None.
Proof.
  apply swapMutation_never_returns_below_two_cities. simpl. lia.
Defined.

Lemma redrawWhileEqual_ne fuel : ∀ n pos1 pos2 g p g',
  redrawWhileEqual fuel n pos1 pos2 g = Some (p, g') → p ≠ pos1.
Proof.
  induction fuel as [|fuel IH]; intros n pos1 pos2 g p g' H; simpl in H.
  - case_decide; inv_M H. by subst.
  - case_decide; [|inv_M H; by subst].
    inv_M H. by eapply IH.
Qed.

Lemma swap_at_lookup a i j a' :
  swap_at a i j = Some a' →
  i < length a ∧ j < length a ∧
  ∀ k, a' !! k = if decide (k = j) then a !! i
                 else if decide (k = i) then a !! j else a !! k.
Proof.
  unfold swap_at. intros H.
  destruct (a !! i) as [vi|] eqn:Hi; [|done].
  destruct (a !! j) as [vj|] eqn:Hj; [|done]. simpl in H. injection H as <-.
  pose proof (lookup_lt_Some _ _ _ Hi). pose proof (lookup_lt_Some _ _ _ Hj).
  split; [done|]. split; [done|]. intros k.
  destruct (decide (k = j)) as [->|Hkj].
  - by rewrite list_lookup_insert_eq by by rewrite length_insert.
  - rewrite list_lookup_insert_ne by done.
    destruct (decide (k = i)) as [->|Hki].
    + by rewrite list_lookup_insert_eq.
    + by rewrite list_lookup_insert_ne.
Qed.

(** X10. Whenever [swapMutation] returns, the tour has at least two
    cities and the result is the tour with the cities of two different
    positions exchanged and every other position untouched; its fitness
    and distance are reset to 0. *)
Theorem swapMutation_exchanges_two_positions
    (fuel : nat) (chromosome result : Chromosome) (g g' : Rng) :
  swapMutation fuel chromosome g = Some (result, g') →
  ∃ pos1 pos2,
    pos1 ≠ pos2 ∧ pos1 < length (genes chromosome) ∧ pos2 < length (genes chromosome) ∧
    (∀ k, genes result !! k =
            if decide (k = pos2) then genes chromosome !! pos1
            else if decide (k = pos1) then genes chromosome !! pos2
            else genes chromosome !! k) ∧
    fitness result = 0%Q ∧ distance result = 0%Q.
Proof.
  unfold swapMutation. intros H. inv_M H. subst. simpl.
  match goal with
  | Hr : redrawWhileEqual _ _ ?p1 _ _ = Some (?p2, _),
    Hs : swap_at _ _ _ = Some _ |- _ =>
      exists p1, p2; apply redrawWhileEqual_ne in Hr;
      apply swap_at_lookup in Hs as (Hl1 & Hl2 & Hk)
  end.
  repeat split; done.
Qed.

Lemma swapMutation_on_square4 :
  ∃ result g' pos1 pos2,
    swapMutation 10 tour0123 rng0 = Some (result, g') ∧
    pos1 ≠ pos2 ∧ pos1 < length (genes tour0123) ∧ pos2 < length (genes tour0123) ∧
    (∀ k, genes result !! k =
            if decide (k = pos2) then genes tour0123 !! pos1
            else if decide (k = pos1) then genes tour0123 !! pos2
            else genes tour0123 !! k) ∧
    fitness result = 0%Q ∧ distance result = 0%Q.
Proof.
  eexists _, _.
  assert (H : ∀ r h, swapMutation 10 tour0123 rng0 = Some (r, h) →
            ∃ pos1 pos2, swapMutation 10 tour0123 rng0 = Some (r, h) ∧
              pos1 ≠ pos2 ∧ pos1 < length (genes tour0123) ∧
              pos2 < length (genes tour0123) ∧
              (∀ k, genes r !! k =
                      if decide (k = pos2) then genes tour0123 !! pos1
                      else if decide (k = pos1) then genes tour0123 !! pos2
                      else genes tour0123 !! k) ∧
              fitness r = 0%Q ∧ distance r = 0%Q).
  { intros r h Hrun.
    destruct (swapMutation_exchanges_two_positions 10 tour0123 r rng0 h Hrun)
      as (pos1 & pos2 & Hrest).
    exists pos1, pos2. split; [done|]. exact Hrest. }
  apply H. vm_compute. reflexivity.
Defined.

Lemma reverseBetween_lookup k : ∀ gs a b,
  b ≤ a + 2 * k → (a < b → b < length gs) →
  ∃ gs', reverseBetween k gs a b = Some gs' ∧
    ∀ i, gs' !! i = if decide (a ≤ i ∧ i ≤ b) then gs !! (a + b - i) else gs !! i.
Proof.
  induction k as [|k IH]; intros gs a b Hk Hb; simpl.
  - exists gs. split; [done|]. intros i. case_decide; [|done].
    by replace (a + b - i) with i by lia.
  - case_decide as Hab.
    + destruct (swap_at_Some gs a b ltac:(lia) (Hb Hab)) as [gs1 H1].
      rewrite H1. simpl.
      apply swap_at_lookup in H1 as H1'. destruct H1' as (_ & _ & Hlook).
      destruct (IH gs1 (a + 1) (b - 1)) as (gs' & Hrun & Hspec); [lia| |].
      { intros _. rewrite (swap_at_length _ _ _ _ H1). lia. }
      exists gs'. split; [done|]. intros i. rewrite Hspec.
      repeat case_decide; rewrite Hlook; repeat case_decide; try lia; try done;
        f_equal; lia.
    + exists gs. split; [done|]. intros i. case_decide; [|done].
      by replace (a + b - i) with i by lia.
Qed.

(** X11. [inverseMutation] always returns: it draws two positions, orders
    them, and reverses the segment between them in place.  In the result
    position [i] of the segment holds the city that was at the mirrored
    position [pos1 + pos2 - i]; every position outside the segment is
    untouched, and fitness and distance are reset to 0. *)
Theorem inverseMutation_reverses_a_segment (chromosome : Chromosome) (g : Rng) :
  ∃ result g' pos1 pos2,
    inverseMutation chromosome g = Some (result, g') ∧
    pos1 ≤ pos2 ∧ (pos2 < length (genes chromosome) ∨ genes chromosome = []) ∧
    (∀ i, genes result !! i =
            if decide (pos1 ≤ i ∧ i ≤ pos2) then genes chromosome !! (pos1 + pos2 - i)
            else genes chromosome !! i) ∧
    length (genes result) = length (genes chromosome) ∧
    fitness result = 0%Q ∧ distance result = 0%Q.
Proof.
  unfold inverseMutation.
  set (gs := genes chromosome). set (n := length gs).
  destruct (randomIndex_total n g) as [[p1 g1] H1].
  destruct (randomIndex_total n g1) as [[p2 g2] H2].
  set (lo := if decide (p2 < p1) then p2 else p1).
  set (hi := if decide (p2 < p1) then p1 else p2).
  assert (Hp1 : p1 < n ∨ (n = 0 ∧ p1 = 0)).
  { destruct (decide (0 < n)); [left; by eapply randomIndex_lt|].
    right. assert (n = 0) as E by lia. split; [done|].
    rewrite E in H1. by eapply randomIndex_zero. }
  assert (Hp2 : p2 < n ∨ (n = 0 ∧ p2 = 0)).
  { destruct (decide (0 < n)); [left; by eapply randomIndex_lt|].
    right. assert (n = 0) as E by lia. split; [done|].
    rewrite E in H2. by eapply randomIndex_zero. }
  assert (Hrange : hi < n ∨ gs = []).
  { unfold hi. destruct Hp1 as [?|[E ?]], Hp2 as [?|[E' ?]]; try lia.
    - left. case_decide; lia.
    - right. by apply nil_length_inv. }
  assert (Hlohi : lo ≤ hi) by (unfold lo, hi; case_decide; lia).
  destruct (reverseBetween_lookup n gs lo hi) as (gs' & Hrun & Hspec).
  { unfold lo, hi. case_decide; lia. }
  { intros Hlt. unfold lo, hi in *. case_decide; lia. }
  exists {| genes := gs'; fitness := 0; distance := 0 |}, g2, lo, hi.
  split.
  - unfold bind at 1. rewrite H1. unfold bind at 1. rewrite H2.
    fold lo hi. unfold lo, hi in *. destruct (decide (p2 < p1)); simpl;
      unfold bind, lift; rewrite Hrun; done.
  - split; [done|]. split; [done|]. split; [done|]. split; [|done]. simpl.
    apply Permutation_length. apply (reverseBetween_perm n gs lo hi gs' Hrun).
Qed.

(** *** Mutation of a population *)

Lemma combinationMutation_zero fuel chromosome Ps beta distanceMatrix g c g' :
  combinationMutation fuel chromosome Ps beta distanceMatrix g = Some (c, g') →
  fitness c = 0%Q.
Proof.
  unfold combinationMutation. intros H. inv_M H.
  destruct (Qle_bool _ Ps); [|destruct (Qle_bool _ (Ps + beta))].
  - unfold swapMutation in H. inv_M H. by subst.
  - unfold inverseMutation in H. inv_M H. case_decide; inv_M H; by subst.
  - unfold heuristicMutation in H. inv_M H.
    destruct (genes chromosome !! _); [|inv_M H; by subst].
    destruct (nearestNonAdjacent _ _ _ _); inv_M H; by subst.
Qed.

Lemma performMutation_measured
    (fuel : nat) (chromosomes : list Chromosome) (Ps beta : Q)
    (distanceMatrix : Matrix) (g : Rng) (result : list Chromosome) (g' : Rng) :
  performMutation fuel chromosomes Ps beta distanceMatrix g = Some (result, g') →
  length result = length chromosomes ∧
  ∀ i c r, chromosomes !! i = Some c → result !! i = Some r →
    genes r ≡ₚ genes c ∧ measured distanceMatrix r.
Proof.
  unfold performMutation. intros H. inv_M H. subst.
  match goal with Hm : mapRand _ _ _ = Some (?m, _) |- _ =>
    pose proof (mapRand_inv _ (λ c r, genes r ≡ₚ genes c ∧ fitness r = 0%Q)
                  _ _ _ _ Hm) as HF; rename m into mutated end.
  assert (HF' : Forall2 (λ c r, genes r ≡ₚ genes c ∧ fitness r = 0%Q) chromosomes mutated).
  { apply HF. intros c h r h' _ Hrun. split.
    - by eapply combinationMutation_perm.
    - by eapply combinationMutation_zero. }
  unfold calculateFitnessForChromosomes.
  split; [by rewrite recomputeZeroFitness_length, <- (Forall2_length _ _ _ HF')|].
  intros i c r Hci Hr. rewrite recomputeZeroFitness_lookup in Hr.
  destruct (Forall2_lookup_l _ _ _ _ _ HF' Hci) as (m & Hm & Hperm & Hzero).
  rewrite Hm in Hr. simpl in Hr. injection Hr as <-.
  rewrite Hzero. simpl. split; [done|]. by split.
Qed.


(** X12. Whenever [performMutation] returns, it returns as many
    chromosomes as it was given; chromosome [i] of the result is a
    rearrangement of the cities of chromosome [i] of the input (no city
    lost or repeated), and since every mutation operator resets the fitness
    to 0, every returned chromosome has been measured anew: its distance
    and fitness are the cyclic length of its own genes under the matrix. *)
Theorem performMutation_rearranges_and_measures
    (fuel : nat) (chromosomes : list Chromosome) (Ps beta : Q)
    (distanceMatrix : Matrix) (g : Rng) (result : list Chromosome) (g' : Rng) :
  performMutation fuel chromosomes Ps beta distanceMatrix g = Some (result, g') →
  length result = length chromosomes ∧
  ∀ i c r, chromosomes !! i = Some c → result !! i = Some r →
    genes r ≡ₚ genes c ∧ measured distanceMatrix r.
Proof. apply performMutation_measured. Qed.

Lemma performMutation_on_square4 :
  ∃ result g',
    performMutation 10 [tour0123; tour2031] (1 # 2) (3 # 10) matrix4 rng0
      = Some (result, g') ∧
    length result = length [tour0123; tour2031] ∧
    ∀ i c r, [tour0123; tour2031] !! i = Some c → result !! i = Some r →
      genes r ≡ₚ genes c ∧ measured matrix4 r.
Proof.
  run_as (performMutation 10 [tour0123; tour2031] (1 # 2) (3 # 10) matrix4 rng0) r h.
  exists r, h.
  assert (H : performMutation 10 [tour0123; tour2031] (1 # 2) (3 # 10) matrix4 rng0
              = Some (r, h)) by (vm_compute; reflexivity).
  split; [exact H|].
  exact (performMutation_rearranges_and_measures _ _ _ _ _ _ _ _ H).
Defined.

(** ** Duplicates and diversity *)

Lemma countDuplicates_fold (l : list Chromosome) : ∀ (seen : gset (list nat)) dup pre,
  seen = list_to_set (genes <$> pre) →
  dup + size seen = length pre →
  let st := foldl (λ '(seen, duplicateCount) chromosome,
                     let key := genes chromosome in
                     if decide (key ∈ seen) then (seen, S duplicateCount)
                     else ({[key]} ∪ seen, duplicateCount))
                  (seen, dup) l in
  fst st = list_to_set (genes <$> (pre ++ l)) ∧
  snd st + size (fst st) = length (pre ++ l) ∧
  (snd st = 0 ↔ dup = 0 ∧ NoDup (genes <$> l) ∧ ∀ k, k ∈ genes <$> l → k ∉ seen).
Proof.
  induction l as [|c l IH]; intros seen dup pre Hseen Hsize; simpl.
  - rewrite app_nil_r. split; [done|]. split; [done|]. split.
    + intros ->. split; [done|]. split; [constructor|]. intros k Hk.
      by apply elem_of_nil in Hk.
    + by intros [-> _].
  - assert (Hpre : pre ++ c :: l = (pre ++ [c]) ++ l) by by rewrite <- app_assoc.
    rewrite Hpre.
    assert (Hset : ({[genes c]} ∪ seen : gset (list nat))
                   = list_to_set (genes <$> pre ++ [c])).
    { rewrite Hseen, fmap_app, list_to_set_app_L. simpl.
      rewrite (right_id_L ∅ (∪)). apply (comm_L (∪)). }
    case_decide as Hin.
    + destruct (IH seen (S dup) (pre ++ [c])) as (H1 & H2 & H3).
      { rewrite <- Hset. symmetry. apply subseteq_union_1_L.
        by apply singleton_subseteq_l. }
      { rewrite length_app. simpl. lia. }
      split; [done|]. split; [done|]. split.
      * intros E. apply H3 in E as [? _]. lia.
      * intros (_ & Hnd & Hall). exfalso. apply (Hall (genes c)); [by left|done].
    + destruct (IH ({[genes c]} ∪ seen) dup (pre ++ [c])) as (H1 & H2 & H3).
      { done. }
      { rewrite length_app, size_union, size_singleton
          by (by apply disjoint_singleton_l). simpl. lia. }
      split; [done|]. split; [done|]. rewrite H3. split.
      * intros (-> & Hnd & Hall). split; [done|]. split.
        -- constructor; [|done]. intros Hc. apply (Hall _ Hc).
           apply elem_of_union. left. by apply elem_of_singleton.
        -- intros k Hk. apply elem_of_cons in Hk as [->|Hk]; [done|].
           specialize (Hall k Hk). intros Hks. apply Hall.
           apply elem_of_union. by right.
      * intros (-> & Hnd & Hall). apply NoDup_cons in Hnd as [Hc Hnd].
        split; [done|]. split; [done|]. intros k Hk.
        assert (Hks : k ∉ seen) by (apply Hall; by right).
        intros Hu. apply elem_of_union in Hu as [Hu|Hu]; [|done].
        apply elem_of_singleton in Hu. subst k. done.
Qed.

(** X13. [countDuplicates] counts the chromosomes whose gene sequence
    already occurred earlier in the population: together with the number of
    distinct gene sequences it makes up the population size, and it is 0
    exactly when no sequence occurs twice.  [calculateDiversity] is the
    share of distinct sequences, [(size - duplicates) / size]: for a
    non-empty population it lies in (0, 1], and for an empty one it is
    [0/0]. *)
Theorem countDuplicates_and_diversity (population : list Chromosome) :
  countDuplicates population
    + size (list_to_set (genes <$> population) : gset (list nat))
    = length population ∧
  (countDuplicates population = 0 ↔ NoDup (genes <$> population)) ∧
  match calculateDiversity population with
  | Some d =>
      population ≠ [] ∧
      d = (Qnat (length population - countDuplicates population)
           / Qnat (length population))%Q ∧
      (0 < d)%Q ∧ (d <= 1)%Q
  | None => population = []
  end.
Proof.
  pose proof (countDuplicates_fold population ∅ 0 [] eq_refl) as Hfold.
  cbv zeta in Hfold. rewrite size_empty in Hfold.
  destruct (Hfold eq_refl) as (Hset & Hsize & Hzero). simpl in Hset, Hsize.
  fold (countDuplicates population) in Hsize, Hzero. rewrite Hset in Hsize.
  split; [done|]. split.
  { rewrite Hzero. split; [tauto|]. intros Hnd. split; [done|]. split; [done|].
    intros k _. apply not_elem_of_empty. }
  unfold calculateDiversity. case_decide as Hlen.
  - by apply nil_length_inv.
  - assert (Hne : population ≠ []) by (intros ->; simpl in Hlen; lia).
    split; [done|].
    replace (length population - countDuplicates population)
      with (size (list_to_set (genes <$> population) : gset (list nat))) by lia.
    split; [done|].
    assert (Hpos : 0 < size (list_to_set (genes <$> population) : gset (list nat))).
    { destruct population as [|c l]; [done|].
      assert (size (list_to_set (genes <$> c :: l) : gset (list nat)) ≠ 0); [|lia].
      apply size_non_empty_iff. simpl. intros E.
      apply (not_elem_of_empty (C := gset (list nat)) (genes c)).
      rewrite <- E. apply elem_of_union. left. by apply elem_of_singleton. }
    assert (HN : (0 < Qnat (length population))%Q) by (apply Qnat_pos; lia).
    split.
    + apply Qlt_shift_div_l; [done|]. rewrite Qmult_0_l. by apply Qnat_pos.
    + apply Qle_shift_div_r; [done|]. rewrite Qmult_1_l.
      unfold Qnat. rewrite <- Zle_Qle. lia.
Qed.

(** ** More on the 2-opt search *)




Lemma tour2031_is_tour : is_tour 4 (genes tour2031).
Proof. unfold is_tour. simpl. apply (bool_decide_unpack _). vm_compute. reflexivity. Qed.



(** *** The single pass *)




(** ** Stored distances stay true, and the shape of the population *)

Lemma recomputeZeroFitness_measured dm l :
  Forall (λ c, measured dm c ∨ fitness c = 0%Q) l →
  Forall (measured dm) (recomputeZeroFitness l dm).
Proof.
  intros H. unfold recomputeZeroFitness. apply Forall_fmap.
  eapply Forall_impl; [exact H|]. intros c Hc. simpl.
  destruct (Qeq_bool (fitness c) 0) eqn:Hz; [by split|].
  destruct Hc as [Hm|Hzero]; [done|]. rewrite Hzero in Hz. done.
Qed.

Lemma jumpingGeneOperator_same_or_zero chromosome PJG q g c g' :
  jumpingGeneOperator chromosome PJG q g = Some (c, g') →
  c = chromosome ∨ fitness c = 0%Q.
Proof.
  unfold jumpingGeneOperator. intros H. inv_M H.
  destruct (Qltb PJG _); inv_M H; subst; [by left|by right].
Qed.

Lemma applyJumpingGene_measured dm population PJG q g result g' :
  applyJumpingGeneToPopulation population PJG q g = Some (result, g') →
  Forall (measured dm) population →
  Forall (measured dm) (calculateFitnessAfterJumping result dm).
Proof.
  unfold applyJumpingGeneToPopulation. intros H Hm.
  pose proof (mapRand_inv _ (λ a b, b = a ∨ fitness b = 0%Q) _ _ _ _ H) as HF.
  assert (HF' : Forall2 (λ a b, b = a ∨ fitness b = 0%Q) population result).
  { apply HF. intros c h c' h' _ Hrun. by eapply jumpingGeneOperator_same_or_zero. }
  apply recomputeZeroFitness_measured.
  clear - HF' Hm. induction HF' as [|a b l l' Hab _ IH]; [done|].
  apply Forall_cons in Hm as [Ha Hl]. constructor; [|by apply IH].
  destruct Hab as [->|?]; [by left|by right].
Qed.

Lemma sortByDistance_Forall (P : Chromosome → Prop) l :
  Forall P l → Forall P (sortByDistance l).
Proof.
  rewrite !Forall_forall. intros H c Hc. apply H. by apply sortByDistance_elem.
Qed.

Lemma twoOptOperator_measured fuel c dm r :
  twoOptOperator fuel c dm = Some r → measured dm r.
Proof.
  unfold twoOptOperator. destruct (twoOptLoop _ _ _ _); [|done].
  simpl. intros [= <-]. by split.
Qed.

Lemma applyTwoOpt_lookup fuel population dm topN result :
  applyTwoOptToPopulation fuel population dm false topN = Some result →
  length result = length population ∧
  ∀ i s r, sortByDistance population !! i = Some s → result !! i = Some r →
    if decide (i < topN) then twoOptOperator fuel s dm = Some r else r = s.
Proof.
  unfold applyTwoOptToPopulation. intros H.
  pose proof (length_mapM _ _ _ H) as Hlen.
  rewrite length_imap, sortByDistance_length in Hlen.
  split; [done|]. apply mapM_Some_1 in H.
  intros i s r Hs Hr.
  destruct (Forall2_lookup_r _ _ _ _ _ H Hr) as ([k c0] & Hic & Hrun).
  rewrite list_lookup_imap, Hs in Hic. simpl in Hic. injection Hic as <- <-.
  case_decide; [done|]. by injection Hrun as <-.
Qed.

Lemma applyTwoOpt_measured fuel population dm topN result :
  applyTwoOptToPopulation fuel population dm false topN = Some result →
  Forall (measured dm) population → Forall (measured dm) result.
Proof.
  intros H Hm. destruct (applyTwoOpt_lookup _ _ _ _ _ H) as [Hlen Hlook].
  apply sortByDistance_Forall in Hm. rewrite Forall_forall in Hm.
  apply Forall_forall. intros r Hr. apply list_elem_of_lookup in Hr as [i Hi].
  destruct (lookup_lt_is_Some_2 (sortByDistance population) i) as [s Hs].
  { rewrite sortByDistance_length, <- Hlen. by eapply lookup_lt_Some. }
  specialize (Hlook i s r Hs Hi). case_decide.
  - by eapply twoOptOperator_measured.
  - subst r. apply Hm. by eapply list_elem_of_lookup_2.
Qed.



Lemma mergeElites_Forall (P : Chromosome → Prop) p offspring previous :
  Forall P offspring → Forall P previous → Forall P (mergeElites p offspring previous).
Proof.
  intros Ho Hp. unfold mergeElites. apply sortByDistance_Forall.
  rewrite Forall_forall in Ho, Hp.
  apply Forall_forall. intros c [Hc|Hc]%elem_of_app.
  - apply Ho. apply sortByDistance_elem. eapply slice_to_elem. done.
  - apply Hp. apply sortByDistance_elem.
    apply elem_of_take in Hc as (i & Hi%list_elem_of_lookup_2 & _). done.
Qed.

Lemma performMutation_all_measured fuel chromosomes Ps beta dm g result g' :
  performMutation fuel chromosomes Ps beta dm g = Some (result, g') →
  Forall (measured dm) result.
Proof.
  intros H. destruct (performMutation_measured _ _ _ _ _ _ _ _ H) as [Hlen Hall].
  apply Forall_forall. intros r Hr. apply list_elem_of_lookup in Hr as [i Hi].
  destruct (lookup_lt_is_Some_2 chromosomes i) as [c Hc].
  { rewrite <- Hlen. by eapply lookup_lt_Some. }
  by destruct (Hall i c r Hc Hi).
Qed.

Lemma GAJGHO_runGeneration_measured fuel this g this' pop g' :
  GAJGHO.runGeneration fuel this g = Some (this', pop, g') →
  Forall (measured (GAJGHO.distanceMatrix this)) (GAJGHO.currentPopulation this) →
  GAJGHO.distanceMatrix this' = GAJGHO.distanceMatrix this ∧
  Forall (measured (GAJGHO.distanceMatrix this)) (GAJGHO.currentPopulation this').
Proof.
  unfold GAJGHO.runGeneration. intros H Hm. inv_M H.
  match goal with E : (_, _) = (_, _) |- _ => injection E as <- <- end. subst.
  split; [done|]. simpl. apply mergeElites_Forall; [|done].
  match goal with Hs : applyTwoOptToPopulation _ _ _ _ _ = Some _ |- _ =>
    apply (applyTwoOpt_measured _ _ _ _ _ Hs) end.
  match goal with Hs : applyJumpingGeneToPopulation _ _ _ _ = Some _ |- _ =>
    apply (applyJumpingGene_measured _ _ _ _ _ _ _ Hs) end.
  match goal with Hs : performMutation _ _ _ _ _ _ = Some _ |- _ =>
    apply (performMutation_all_measured _ _ _ _ _ _ _ _ Hs) end.
Qed.

Lemma GAJGHO_after_fields sqrt cities params k this :
  GAJGHO_after sqrt cities params k this →
  GAJGHO.cities this = cities ∧ GAJGHO.params this = params ∧
  GAJGHO.distanceMatrix this = buildDistanceMatrix sqrt cities ∧
  GAJGHO.generation this = k ∧
  valid_population (length cities) (GAJGHO.currentPopulation this).
Proof.
  induction 1 as [now now' g this g' Hinit|k fuel this g this' pop g' _ IH Hrun].
  - destruct (GAJGHO_initialize_spec sqrt now' (GAJGHO.new sqrt now cities params) g)
      as (s & h & Hs & Hg & Hc & Hp & Hd & _ & Hv).
    rewrite Hs in Hinit. injection Hinit as <- <-. done.
  - destruct IH as (Hc & Hp & Hd & Hg & Hv).
    destruct (GAJGHO_runGeneration_inv _ _ _ _ _ _ Hrun)
      as (offspring & Hcur & Hg' & Hc' & Hp' & Hd' & _ & Hoff).
    rewrite Hc in Hoff. destruct (Hoff Hv) as [Hvo _].
    repeat split; try congruence.
    rewrite Hcur. by apply mergeElites_valid.
Qed.

(** X17. In GA-JGHO the stored distance of a chromosome is always true:
    for any number of cities but one, after [initialize] and after every
    later [runGeneration], every chromosome of the population has as its
    [distance] and [fitness] the cyclic length of its own genes under the
    distance matrix of the cities; no operator leaves a stale length
    behind. *)
Theorem GAJGHO_stored_distances_are_true
    (sqrt : Q → Q) (cities : list City) (params : AlgorithmParams)
    (k : nat) (this : GAJGHO.t) :
  length cities ≠ 1 →
  GAJGHO_after sqrt cities params k this →
  ∀ c, c ∈ GAJGHO.currentPopulation this →
    measured (buildDistanceMatrix sqrt cities) c.
Proof.
  intros Hn Hafter.
  assert (Hall : Forall (measured (buildDistanceMatrix sqrt cities))
                        (GAJGHO.currentPopulation this)).
  { induction Hafter as [now now' g this g' Hinit|k fuel this g this' pop g' Hprev IH Hrun].
    - unfold GAJGHO.initialize in Hinit. simpl in Hinit. inv_M Hinit. subst. simpl.
      match goal with Hp : initializePopulation _ _ _ _ = Some _ |- _ =>
        destruct (initializePopulation_builds_tours sqrt cities
                    (populationSize params) g) as (p' & h & Hp' & _ & Hall);
        rewrite Hp' in Hp; injection Hp as <- <-; clear Hp' end.
      apply Forall_forall. intros c Hin. destruct (Hall c Hin) as (Ht & Hd & Hf).
      rewrite (calculateTotalDistance_matrix sqrt cities _ Ht Hn) in Hd.
      injection Hd as Hd. by split.
    - destruct (GAJGHO_after_fields _ _ _ _ _ Hprev) as (_ & _ & Hd & _).
      rewrite <- Hd in IH |- *.
      by destruct (GAJGHO_runGeneration_measured _ _ _ _ _ _ Hrun IH). }
  intros c Hc. by apply (proj1 (Forall_forall _ _) Hall).
Qed.

Lemma GAJGHO_stored_distances_on_square4 :
  ∃ this g this' pop g',
    GAJGHO.initialize isqrt 0 (GAJGHO.new isqrt 0 square4 params4) rng0 = Some (this, g) ∧
    GAJGHO.runGeneration 100 this g = Some (this', pop, g') ∧
    ∀ c, c ∈ GAJGHO.currentPopulation this' →
      measured (buildDistanceMatrix isqrt square4) c.
Proof.
  run_as (GAJGHO.initialize isqrt 0 (GAJGHO.new isqrt 0 square4 params4) rng0) this g.
  run_as (GAJGHO.runGeneration 100 this g) r g'.
  exists this, g, (fst r), (snd r), g'.
  assert (H0 : GAJGHO.initialize isqrt 0 (GAJGHO.new isqrt 0 square4 params4) rng0
               = Some (this, g)) by (vm_compute; reflexivity).
  assert (H1 : GAJGHO.runGeneration 100 this g = Some (fst r, snd r, g'))
    by (vm_compute; reflexivity).
  split; [exact H0|]. split; [exact H1|].
  apply (GAJGHO_stored_distances_are_true isqrt square4 params4 1 (fst r)).
  - simpl. lia.
  - exact (GAJGHO_after_generation isqrt square4 params4 0 100 this g (fst r) (snd r) g'
             (GAJGHO_after_initialize isqrt square4 params4 0%Z 0%Z rng0 this g H0) H1).
Defined.

Lemma mergeElites_length p offspring previous :
  eliteCount p ≤ populationSize p →
  length offspring = populationSize p → length previous = populationSize p →
  length (mergeElites p offspring previous) = populationSize p.
Proof.
  intros Hec Ho Hp. unfold mergeElites, slice_to.
  rewrite sortByDistance_length, length_app.
  destruct (Z.ltb_spec (Z.of_nat (populationSize p) - Z.of_nat (eliteCount p)) 0); [lia|].
  rewrite !length_take, !sortByDistance_length. lia.
Qed.

Lemma GAJGHO_population_keeps_its_size_aux
    (sqrt : Q → Q) (cities : list City) (params : AlgorithmParams)
    (k : nat) (this : GAJGHO.t) :
  eliteCount params ≤ populationSize params →
  GAJGHO_after sqrt cities params k this →
  length (GAJGHO.currentPopulation this) = populationSize params ∧
  valid_population (length cities) (GAJGHO.currentPopulation this) ∧
  GAJGHO.generation this = k ∧
  pop_generation (GAJGHO.getPopulation this) = k ∧
  (0 < k → Sorted le_distance (GAJGHO.currentPopulation this)).
Proof.
  intros Hec Hafter.
  destruct (GAJGHO_after_fields _ _ _ _ _ Hafter) as (Hc & Hp & Hd & Hg & Hv).
  assert (Hlen : length (GAJGHO.currentPopulation this) = populationSize params
                 ∧ (0 < k → Sorted le_distance (GAJGHO.currentPopulation this))).
  { clear Hc Hp Hd Hg Hv.
    induction Hafter as [now now' g this g' Hinit|k fuel this g this' pop g' Hprev IH Hrun].
    - destruct (GAJGHO_initialize_spec sqrt now' (GAJGHO.new sqrt now cities params) g)
        as (s & h & Hs & _ & _ & _ & _ & Hl & _).
      rewrite Hs in Hinit. injection Hinit as <- <-. split; [done|lia].
    - destruct IH as [IH _].
      destruct (GAJGHO_after_fields _ _ _ _ _ Hprev) as (Hc & Hp & _ & _ & Hv).
      destruct (GAJGHO_runGeneration_inv _ _ _ _ _ _ Hrun)
        as (offspring & Hcur & _ & _ & _ & _ & _ & Hoff).
      rewrite Hc in Hoff. destruct (Hoff Hv) as [_ Hlo]. rewrite Hp in Hlo, Hcur.
      rewrite Hcur. split; [by apply mergeElites_length|].
      intros _. unfold mergeElites. apply sortByDistance_sorted. }
  destruct Hlen as [Hlen Hsorted].
  split; [done|]. split; [done|]. split; [done|]. split; [done|]. done.
Qed.


(** X18. With [eliteCount <= populationSize], a GA-JGHO instance holds
    exactly [populationSize] tours after [initialize] and after every
    [runGeneration]; its generation counter is the number of generations
    run; and from the first generation on the population is sorted by
    ascending distance. *)
Theorem GAJGHO_population_keeps_its_size
    (sqrt : Q → Q) (cities : list City) (params : AlgorithmParams)
    (k : nat) (this : GAJGHO.t) :
  eliteCount params ≤ populationSize params →
  GAJGHO_after sqrt cities params k this →
  length (GAJGHO.currentPopulation this) = populationSize params ∧
  valid_population (length cities) (GAJGHO.currentPopulation this) ∧
  GAJGHO.generation this = k ∧
  pop_generation (GAJGHO.getPopulation this) = k ∧
  (0 < k → Sorted le_distance (GAJGHO.currentPopulation this)).
Proof. apply GAJGHO_population_keeps_its_size_aux. Qed.

Lemma GAJGHO_population_size_on_square4 :
  ∃ this g this' pop g',
    GAJGHO.initialize isqrt 0 (GAJGHO.new isqrt 0 square4 params4) rng0 = Some (this, g) ∧
    GAJGHO.runGeneration 100 this g = Some (this', pop, g') ∧
    length (GAJGHO.currentPopulation this') = populationSize params4 ∧
    valid_population (length square4) (GAJGHO.currentPopulation this') ∧
    GAJGHO.generation this' = 1 ∧
    pop_generation (GAJGHO.getPopulation this') = 1 ∧
    (0 < 1 → Sorted le_distance (GAJGHO.currentPopulation this')).
Proof.
  run_as (GAJGHO.initialize isqrt 0 (GAJGHO.new isqrt 0 square4 params4) rng0) this g.
  run_as (GAJGHO.runGeneration 100 this g) r g'.
  exists this, g, (fst r), (snd r), g'.
  assert (H0 : GAJGHO.initialize isqrt 0 (GAJGHO.new isqrt 0 square4 params4) rng0
               = Some (this, g)) by (vm_compute; reflexivity).
  assert (H1 : GAJGHO.runGeneration 100 this g = Some (fst r, snd r, g'))
    by (vm_compute; reflexivity).
  split; [exact H0|]. split; [exact H1|].
  apply (GAJGHO_population_keeps_its_size isqrt square4 params4 1 (fst r)).
  - simpl. lia.
  - exact (GAJGHO_after_generation isqrt square4 params4 0 100 this g (fst r) (snd r) g'
             (GAJGHO_after_initialize isqrt square4 params4 0%Z 0%Z rng0 this g H0) H1).
Defined.

(** *** The complete run *)

Lemma diversity_not_below_one_percent population d :
  calculateDiversity population = Some d → length population ≤ 100 →
  Qltb d (1 # 100) = false.
Proof.
  unfold calculateDiversity. case_decide as Hlen; [done|]. intros [= <-] Hle.
  apply Qltb_ge.
  assert (Hsize : 0 < size (list_to_set (genes <$> population) : gset (list nat))).
  { destruct population as [|c l]; [done|].
    assert (size (list_to_set (genes <$> c :: l) : gset (list nat)) ≠ 0); [|lia].
    apply size_non_empty_iff. simpl. intros E.
    apply (not_elem_of_empty (C := gset (list nat)) (genes c)).
    rewrite <- E. apply elem_of_union. left. by apply elem_of_singleton. }
  assert (HN : (0 < Qnat (length population))%Q) by (apply Qnat_pos; lia).
  apply Qle_shift_div_l; [done|].
  assert (H1 : (Qnat (length population) <= 100)%Q).
  { unfold Qnat. change 100%Q with (inject_Z 100). rewrite <- Zle_Qle. lia. }
  assert (H2 : (1 <= Qnat (size (list_to_set (genes <$> population) : gset (list nat))))%Q).
  { unfold Qnat. change 1%Q with (inject_Z 1). rewrite <- Zle_Qle. lia. }
  lra.
Qed.

Lemma GAJGHO_shouldStop_small this :
  length (GAJGHO.currentPopulation this) ≤ 100 → GAJGHO_shouldStop this = false.
Proof.
  intros Hle. unfold GAJGHO_shouldStop, GAJGHO.getPopulation. simpl.
  destruct (calculateDiversity _) as [d|] eqn:Hd; [|done].
  by eapply diversity_not_below_one_percent.
Qed.

Lemma GAJGHO_runLoop_after {St} sqrt cities params fuel clock
    (cb : option (Population → GenerationStats → St → St)) (remaining : nat) :
  ∀ gen k this s g this' s' g',
    GAJGHO_after sqrt cities params k this →
    GAJGHO_runLoop fuel clock cb remaining gen this s g = Some ((this', s'), g') →
    ∃ j, j ≤ remaining ∧ (0 < remaining → 0 < j) ∧
         GAJGHO_after sqrt cities params (k + j) this' ∧
         (eliteCount params ≤ populationSize params → populationSize params ≤ 100 →
          j = remaining).
Proof.
  induction remaining as [|remaining IH]; intros gen k this s g this' s' g' Hafter Hrun.
  - simpl in Hrun. inv_M Hrun.
    match goal with E : (_, _) = (_, _) |- _ => injection E as <- <- end.
    exists 0. rewrite Nat.add_0_r. split; [done|]. split; [lia|]. split; [done|done].
  - simpl in Hrun. inv_M Hrun.
    match goal with Hr : GAJGHO.runGeneration _ _ _ = Some (?r, _) |- _ =>
      destruct r as [this1 pop1];
      pose proof (GAJGHO_after_generation _ _ _ _ _ _ _ _ _ _ Hafter Hr) as Hafter1
    end.
    simpl in Hrun.
    assert (Hsmall : eliteCount params ≤ populationSize params →
                     populationSize params ≤ 100 → GAJGHO_shouldStop this1 = false).
    { intros Hec Hps. apply GAJGHO_shouldStop_small.
      destruct (GAJGHO_population_keeps_its_size_aux _ _ _ _ _ Hec Hafter1) as [-> _].
      done. }
    destruct (GAJGHO_shouldStop this1) eqn:Hstop.
    + inv_M Hrun.
      match goal with E : (_, _) = (_, _) |- _ => injection E as <- <- end.
      exists 1. replace (k + 1) with (S k) by lia.
      split; [lia|]. split; [lia|]. split; [done|].
      intros Hec Hps. specialize (Hsmall Hec Hps). done.
    + destruct (IH _ _ _ _ _ _ _ _ Hafter1 Hrun) as (j & Hj & Hpos & Hafter' & Hfull).
      exists (S j). replace (k + S j) with (S k + j) by lia.
      split; [lia|]. split; [lia|]. split; [done|].
      intros Hec Hps. rewrite (Hfull Hec Hps). done.
Qed.

(** X19. [run] initialises the instance and then runs at least one and at
    most [maxGenerations] generations (none when [maxGenerations] is 0);
    the snapshot it returns is that of the last generation run.  Its
    early-stop test fires only on a diversity below 0.01, which a
    population of at most 100 chromosomes never has: with
    [eliteCount <= populationSize <= 100] a run that returns has run
    exactly [maxGenerations] generations. *)
Theorem GAJGHO_run_counts_generations {St : Type}
    (fuel : nat) (sqrt : Q → Q) (now0 now : Z) (clock : nat → Z)
    (onGenerationComplete : option (Population → GenerationStats → St → St))
    (cities : list City) (params : AlgorithmParams) (s : St) (g : Rng)
    (this' : GAJGHO.t) (pop : Population) (s' : St) (g' : Rng) :
  GAJGHO_run fuel sqrt now clock onGenerationComplete
             (GAJGHO.new sqrt now0 cities params) s g = Some ((this', pop, s'), g') →
  ∃ j, j ≤ maxGenerations params ∧ (0 < maxGenerations params → 0 < j) ∧
       GAJGHO_after sqrt cities params j this' ∧
       GAJGHO.generation this' = j ∧
       pop = GAJGHO.getPopulation this' ∧ pop_generation pop = j ∧
       (eliteCount params ≤ populationSize params → populationSize params ≤ 100 →
        j = maxGenerations params).
Proof.
  unfold GAJGHO_run. intros Hrun. inv_M Hrun.
  match goal with E : (_, _, _) = (_, _, _) |- _ => injection E as <- <- <- end.
  match goal with Hi : GAJGHO.initialize _ _ _ _ = Some (?t, _) |- _ =>
    pose proof (GAJGHO_after_initialize sqrt cities params now0 now _ _ _ Hi) as Hafter0;
    destruct (GAJGHO_after_fields _ _ _ _ _ Hafter0) as (_ & Hp0 & _)
  end.
  match goal with Hl : GAJGHO_runLoop _ _ _ _ _ _ _ _ = Some (?r, _) |- _ =>
    destruct r as [this1 s1]; rewrite Hp0 in Hl;
    destruct (GAJGHO_runLoop_after _ _ _ _ _ _ _ _ _ _ _ _ _ _ _ Hafter0 Hl)
      as (j & Hj & Hpos & Hafter & Hfull)
  end.
  simpl in *. exists j.
  destruct (GAJGHO_after_fields _ _ _ _ _ Hafter) as (_ & _ & _ & Hg & _).
  repeat split; try done.
Qed.

Lemma GAJGHO_run_on_square4 :
  ∃ this' pop s' g',
    GAJGHO_run 100 isqrt 0 (λ _, 5%Z)
               (Some (λ (_ : Population) stats (h : list GenerationStats), h ++ [stats]))
               (GAJGHO.new isqrt 0 square4 params4) [] rng0
      = Some ((this', pop, s'), g') ∧
    ∃ j, j ≤ maxGenerations params4 ∧ (0 < maxGenerations params4 → 0 < j) ∧
         GAJGHO_after isqrt square4 params4 j this' ∧
         GAJGHO.generation this' = j ∧
         pop = GAJGHO.getPopulation this' ∧ pop_generation pop = j ∧
         (eliteCount params4 ≤ populationSize params4 → populationSize params4 ≤ 100 →
          j = maxGenerations params4).
Proof.
  run_as (GAJGHO_run 100 isqrt 0 (λ _, 5%Z)
            (Some (λ (_ : Population) stats (h : list GenerationStats), h ++ [stats]))
            (GAJGHO.new isqrt 0 square4 params4) [] rng0) r g'.
  exists (fst (fst r)), (snd (fst r)), (snd r), g'.
  assert (H : GAJGHO_run 100 isqrt 0 (λ _, 5%Z)
                (Some (λ (_ : Population) stats (h : list GenerationStats), h ++ [stats]))
                (GAJGHO.new isqrt 0 square4 params4) [] rng0
              = Some ((fst (fst r), snd (fst r), snd r), g')) by (vm_compute; reflexivity).
  split; [exact H|].
  exact (GAJGHO_run_counts_generations _ _ _ _ _ _ _ _ _ _ _ _ _ _ H).
Defined.

(** ** The ant colony: 3-opt improvement and tour construction *)

Lemma triples_elem n i j k : (i, j, k) ∈ PACO3Opt.triples n → i < j ∧ j < k ∧ k < n.
Proof.
  unfold PACO3Opt.triples. intros H.
  apply list_elem_of_bind in H as (i' & H & Hi).
  apply list_elem_of_bind in H as (j' & H & Hj).
  apply list_elem_of_fmap in H as (k' & [= -> -> ->] & Hk).
  apply elem_of_seq in Hi, Hj, Hk. lia.
Qed.

Lemma segments_split (tour : list nat) i j k :
  i ≤ j → j ≤ k →
  tour = take (i + 1) tour ++ take (j - i) (drop (i + 1) tour) ++
         take (k - j) (drop (j + 1) tour) ++ drop (k + 1) tour.
Proof.
  intros Hij Hjk.
  rewrite <- (take_drop (i + 1) tour) at 1. f_equal.
  rewrite <- (take_drop (j - i) (drop (i + 1) tour)) at 1. f_equal.
  rewrite drop_drop. replace (i + 1 + (j - i)) with (j + 1) by lia.
  rewrite <- (take_drop (k - j) (drop (j + 1) tour)) at 1. f_equal.
  rewrite drop_drop. f_equal. lia.
Qed.

Lemma generate3OptMoves_perm (tour : list nat) i j k t :
  i ≤ j → j ≤ k → t ∈ PACO3Opt.generate3OptMoves tour i j k → t ≡ₚ tour.
Proof.
  intros Hij Hjk Ht. pose proof (segments_split tour i j k Hij Hjk) as Hs.
  unfold PACO3Opt.generate3OptMoves in Ht.
  set (s1 := take (i + 1) tour) in *.
  set (s2 := take (j - i) (drop (i + 1) tour)) in *.
  set (s3 := take (k - j) (drop (j + 1) tour)) in *.
  set (s4 := drop (k + 1) tour) in *.
  clearbody s1 s2 s3 s4. subst tour.
  repeat (apply elem_of_cons in Ht as [-> | Ht]).
  - by rewrite reverse_Permutation.
  - by rewrite !reverse_Permutation.
  - rewrite !reverse_Permutation. apply Permutation_app_head.
    rewrite !(assoc (++)). apply Permutation_app_tail, Permutation_app_comm.
  - apply Permutation_app_head.
    rewrite !(assoc (++)). apply Permutation_app_tail, Permutation_app_comm.
  - by apply elem_of_nil in Ht.
Qed.

Lemma firstImprovement_Some this gs gs' :
  PACO3Opt.firstImprovement this gs = Some gs' →
  ∃ i j k, i < j ∧ j < k ∧ k < length gs ∧
    gs' ∈ PACO3Opt.generate3OptMoves gs i j k ∧
    (calculateTotalDistanceWithMatrix gs' (PACO3Opt.distanceMatrix this) <
     calculateTotalDistanceWithMatrix gs (PACO3Opt.distanceMatrix this))%Q.
Proof.
  unfold PACO3Opt.firstImprovement. intros H.
  apply fmap_Some in H as ([n t] & Hfind & ->). simpl.
  apply list_find_Some in Hfind as (Hl & Hlt & _).
  apply list_elem_of_lookup_2 in Hl.
  apply list_elem_of_bind in Hl as ([[i j] k] & Ht & Hijk).
  apply triples_elem in Hijk. exists i, j, k.
  repeat split; [lia | lia | lia | done | by apply Qltb_lt].
Qed.

Lemma firstImprovement_spec this gs gs' :
  PACO3Opt.firstImprovement this gs = Some gs' →
  gs' ≡ₚ gs ∧
  (calculateTotalDistanceWithMatrix gs' (PACO3Opt.distanceMatrix this) <
   calculateTotalDistanceWithMatrix gs (PACO3Opt.distanceMatrix this))%Q.
Proof.
  intros (i & j & k & Hij & Hjk & Hk & Ht & Hlt)%firstImprovement_Some.
  split; [|done]. apply (generate3OptMoves_perm gs i j k); [lia | lia | done].
Qed.

Lemma firstImprovement_None this gs i j k t :
  PACO3Opt.firstImprovement this gs = None →
  i < j → j < k → k < length gs →
  t ∈ PACO3Opt.generate3OptMoves gs i j k →
  (calculateTotalDistanceWithMatrix gs (PACO3Opt.distanceMatrix this) <=
   calculateTotalDistanceWithMatrix t (PACO3Opt.distanceMatrix this))%Q.
Proof.
  unfold PACO3Opt.firstImprovement. intros H Hij Hjk Hk Ht.
  apply fmap_None in H. rewrite list_find_None in H.
  rewrite Forall_forall in H. apply Qltb_ge.
  destruct (Qltb _ _) eqn:E; [|done]. exfalso. eapply H; [|exact E].
  apply list_elem_of_bind. exists (i, j, k). split; [done|].
  unfold PACO3Opt.triples.
  apply list_elem_of_bind. exists i. split; [|apply elem_of_seq; lia].
  apply list_elem_of_bind. exists j. split; [|apply elem_of_seq; lia].
  apply list_elem_of_fmap. exists k. split; [done|apply elem_of_seq; lia].
Qed.

(** The loop either stops at a tour that no candidate move shortens, or
    uses up its iterations, each of them on a strict improvement. *)
Lemma improveLoop_spec this : ∀ iterations gs,
  let r := PACO3Opt.improveLoop iterations this gs in
  r ≡ₚ gs ∧
  (r = gs ∨
   (calculateTotalDistanceWithMatrix r (PACO3Opt.distanceMatrix this) <
    calculateTotalDistanceWithMatrix gs (PACO3Opt.distanceMatrix this))%Q).
Proof.
  induction iterations as [|it IH]; intros gs; simpl; [by split; [|left]|].
  destruct (PACO3Opt.firstImprovement this gs) as [gs'|] eqn:E; [|by split; [|left]].
  apply firstImprovement_spec in E as [Hp Hlt].
  pose proof (IH gs') as IH'. cbv zeta in IH'. destruct IH' as [Hp' Hd].
  split; [by rewrite Hp'|]. right.
  destruct Hd as [-> | Hd]; [done|]. by eapply Qlt_trans.
Qed.

Lemma improveLoop_fixed this iterations gs :
  PACO3Opt.improveLoop (S iterations) this gs = gs ↔
  PACO3Opt.firstImprovement this gs = None.
Proof.
  cbn [PACO3Opt.improveLoop].
  destruct (PACO3Opt.firstImprovement this gs) as [gs'|] eqn:E; [|done].
  split; [|done]. intros Heq. exfalso.
  apply firstImprovement_spec in E as [_ Hlt].
  pose proof (improveLoop_spec this iterations gs') as H. cbv zeta in H.
  destruct H as [_ H]. rewrite Heq in H.
  destruct H as [<- | H]; [by apply Qlt_irrefl in Hlt|].
  apply (Qlt_irrefl (calculateTotalDistanceWithMatrix gs (PACO3Opt.distanceMatrix this))).
  by eapply Qlt_trans.
Qed.

Lemma apply3Opt_spec this solution :
  let dm := PACO3Opt.distanceMatrix this in
  let r := PACO3Opt.apply3Opt this solution in
  genes r ≡ₚ genes solution ∧
  length (genes r) = length (genes solution) ∧
  measured dm r ∧
  (distance r <= calculateTotalDistanceWithMatrix (genes solution) dm)%Q ∧
  (genes r = genes solution ∨
   (distance r < calculateTotalDistanceWithMatrix (genes solution) dm)%Q) ∧
  (genes r = genes solution ↔
   ∀ i j k t, i < j → j < k → k < length (genes solution) →
     t ∈ PACO3Opt.generate3OptMoves (genes solution) i j k →
     (calculateTotalDistanceWithMatrix (genes solution) dm <=
      calculateTotalDistanceWithMatrix t dm)%Q).
Proof.
  intros dm r. subst r. unfold PACO3Opt.apply3Opt.
  pose proof (improveLoop_spec this 10 (genes solution)) as H. cbv zeta in H.
  destruct H as [Hp Hd]. cbn [genes distance createChromosomeWithMatrix].
  split; [done|]. split; [by rewrite Hp|]. split; [done|].
  split; [destruct Hd as [-> | Hd]; [apply Qle_refl | by apply Qlt_le_weak]|].
  split; [done|]. rewrite improveLoop_fixed. split.
  - intros E i j k t Hij Hjk Hk Ht. by apply (firstImprovement_None this _ i j k).
  - intros Hall.
    destruct (PACO3Opt.firstImprovement this (genes solution)) as [gs'|] eqn:E; [|done].
    apply firstImprovement_Some in E as (i & j & k & Hij & Hjk & Hk & Ht & Hlt).
    exfalso. apply (Qlt_not_le _ _ Hlt). by apply (Hall i j k).
Qed.

(** X20: [apply3Opt] never lengthens a tour, whatever the matrix.  The
    result is a rearrangement of the given tour, its stored distance and
    fitness are the cyclic length of its own genes, and either the genes are
    unchanged or the result is strictly shorter than the given genes; the
    genes are unchanged exactly when none of the candidate reconnections of
    the given tour is strictly shorter. *)
Theorem apply3Opt_never_lengthens this solution :
  let dm := PACO3Opt.distanceMatrix this in
  let r := PACO3Opt.apply3Opt this solution in
  genes r ≡ₚ genes solution ∧
  length (genes r) = length (genes solution) ∧
  measured dm r ∧
  (distance r <= calculateTotalDistanceWithMatrix (genes solution) dm)%Q ∧
  (genes r = genes solution ∨
   (distance r < calculateTotalDistanceWithMatrix (genes solution) dm)%Q) ∧
  (genes r = genes solution ↔
   ∀ i j k t, i < j → j < k → k < length (genes solution) →
     t ∈ PACO3Opt.generate3OptMoves (genes solution) i j k →
     (calculateTotalDistanceWithMatrix (genes solution) dm <=
      calculateTotalDistanceWithMatrix t dm)%Q).
Proof. apply apply3Opt_spec. Qed.

Lemma filter_ne_perm (l : list nat) (x : nat) :
  NoDup l → x ∈ l → x :: filter (λ c, c ≠ x) l ≡ₚ l.
Proof.
  induction 1 as [|a l Ha Hl IH]; intros Hx; [by apply elem_of_nil in Hx|].
  rewrite filter_cons. destruct (decide (a ≠ x)) as [Hne | Heq].
  - apply elem_of_cons in Hx as [-> | Hx]; [done|].
    rewrite Permutation_swap. by rewrite IH.
  - apply dec_stable in Heq as ->. f_equiv. rewrite filter_all; [done|].
    intros c Hc ->. done.
Qed.

Lemma pickCity_elem unvisitedArray : ∀ normalizedProbs cumProb rand city,
  PACO3Opt.pickCity unvisitedArray normalizedProbs cumProb rand = Some city →
  city ∈ unvisitedArray.
Proof.
  induction unvisitedArray as [|c l IH]; intros [|p ps] cumProb rand city; simpl; try done.
  destruct (Qle_bool _ _).
  - intros [= ->]. apply elem_of_cons. by left.
  - intros H. apply elem_of_cons. right. by eapply IH.
Qed.

(** [selectNextCity] always answers, with an unvisited city when there is
    one. *)
Lemma selectNextCity_spec this currentCity unvisited g :
  unvisited ≠ [] →
  ∃ city g', PACO3Opt.selectNextCity this currentCity unvisited g = Some (Some city, g') ∧
    city ∈ unvisited.
Proof.
  intros Hne. unfold PACO3Opt.selectNextCity.
  set (np := (λ p, _) <$> _). clearbody np.
  unfold bind, Math_random, ret.
  destruct (PACO3Opt.pickCity unvisited np 0 (u01 (g 0))) as [city|] eqn:E.
  - exists city. eexists. split; [done|]. by eapply pickCity_elem.
  - destruct unvisited as [|c l]; [done|]. exists c. eexists. split; [done|].
    apply elem_of_cons. by left.
Qed.

Lemma constructLoop_spec this : ∀ k gs unvisited currentCity g,
  NoDup unvisited → length unvisited ≤ k →
  ∃ rest g', PACO3Opt.constructLoop k this gs unvisited currentCity g
             = Some (gs ++ rest, g') ∧ rest ≡ₚ unvisited.
Proof.
  induction k as [|k IH]; intros gs unvisited currentCity g Hnd Hlen.
  - destruct unvisited; [|simpl in Hlen; lia]. exists [], g. simpl.
    by rewrite app_nil_r.
  - cbn [PACO3Opt.constructLoop]. destruct (decide (unvisited = [])) as [-> | Hne].
    { exists [], g. by rewrite app_nil_r. }
    destruct (selectNextCity_spec this currentCity unvisited g Hne)
      as (city & g1 & Hsel & Hin).
    pose proof (filter_ne_perm unvisited city Hnd Hin) as Hp.
    destruct (IH (gs ++ [city]) (filter (λ c, c ≠ city) unvisited) city g1)
      as (rest & g' & Hloop & Hrest).
    + by apply NoDup_filter.
    + apply Permutation_length in Hp. simpl in Hp. lia.
    + exists (city :: rest), g'. split.
      * unfold bind at 1. rewrite Hsel. cbn beta iota. unfold bind at 1, lift at 1.
        unfold ret at 1. cbn beta iota. rewrite Hloop. by rewrite <- (assoc (++)).
      * by rewrite Hrest.
Qed.

Lemma constructSolutionACO_builds_a_tour_aux this g :
  PACO3Opt.cities this ≠ [] →
  ∃ start g1 c g',
    randomIndex (length (PACO3Opt.cities this)) g = Some (start, g1) ∧
    PACO3Opt.constructSolutionACO this g = Some (c, g') ∧
    is_tour (length (PACO3Opt.cities this)) (genes c) ∧
    head (genes c) = Some start ∧
    measured (PACO3Opt.distanceMatrix this) c.
Proof.
  intros Hne. set (n := length (PACO3Opt.cities this)).
  assert (Hn : 0 < n) by (subst n; destruct (PACO3Opt.cities this); simpl; [done | lia]).
  destruct (randomIndex_total n g) as [[start g1] Hstart].
  pose proof (randomIndex_lt _ _ _ _ Hstart Hn) as Hlt.
  assert (Hin : start ∈ seq 0 n) by (apply elem_of_seq; lia).
  pose proof (filter_ne_perm (seq 0 n) start (NoDup_seq 0 n) Hin) as Hp.
  destruct (constructLoop_spec this n [start] (filter (λ c, c ≠ start) (seq 0 n)) start g1)
    as (rest & g' & Hloop & Hrest).
  - apply NoDup_filter, NoDup_seq.
  - apply Permutation_length in Hp. rewrite length_seq in Hp. simpl in Hp. lia.
  - exists start, g1, (createChromosomeWithMatrix ([start] ++ rest)
                        (PACO3Opt.distanceMatrix this)), g'.
    split; [done|]. split.
    + unfold PACO3Opt.constructSolutionACO. fold n. unfold bind at 1. rewrite Hstart.
      cbn beta iota. destruct (decide (n = 0)); [lia|]. unfold bind at 1.
      by rewrite Hloop.
    + split; [|done]. unfold is_tour. simpl. by rewrite Hrest.
Qed.

(** X21: with at least one city [constructSolutionACO] always returns a
    complete tour: a permutation of all city indices that starts at the
    randomly drawn start city, with distance and fitness the cyclic length
    of the tour. *)
Theorem constructSolutionACO_builds_a_tour this g :
  PACO3Opt.cities this ≠ [] →
  ∃ start g1 c g',
    randomIndex (length (PACO3Opt.cities this)) g = Some (start, g1) ∧
    PACO3Opt.constructSolutionACO this g = Some (c, g') ∧
    is_tour (length (PACO3Opt.cities this)) (genes c) ∧
    head (genes c) = Some start ∧
    measured (PACO3Opt.distanceMatrix this) c.
Proof. apply constructSolutionACO_builds_a_tour_aux. Qed.

Lemma constructSolutionACO_on_square4 :
  ∃ start g1 c g',
    randomIndex 4 rng0 = Some (start, g1) ∧
    PACO3Opt.constructSolutionACO (PACO3Opt.new isqrt square4 params4) rng0 = Some (c, g') ∧
    is_tour 4 (genes c) ∧
    head (genes c) = Some start ∧
    measured matrix4 c.
Proof.
  apply (constructSolutionACO_builds_a_tour (PACO3Opt.new isqrt square4 params4) rng0).
  discriminate.
Defined.

(** *** A generation of the ant colony *)

Lemma pushStats_nonempty sorted generation elapsed stats :
  sorted ≠ [] →
  ∃ s, pushStats sorted generation elapsed stats = Some (stats ++ [s]).
Proof.
  intros Hne. unfold pushStats.
  destruct (snapshotOf_nonempty sorted sorted generation Hne Hne) as (Hb & Hw & _).
  destruct (proj2 (statsOf_Some (snapshotOf sorted sorted generation) elapsed)
              (conj Hb Hw)) as [s Hs].
  exists s. by rewrite Hs.
Qed.

Lemma sortByDistance_nonempty l : l ≠ [] → sortByDistance l ≠ [].
Proof.
  intros Hne Hs. apply Hne, length_zero_iff_nil.
  by rewrite <- sortByDistance_length, Hs.
Qed.

(** The colony that [initialize] and [runGeneration] build from freshly
    constructed tours. *)
Lemma PACO3Opt_colony_spec this g :
  PACO3Opt.cities this ≠ [] →
  ∃ constructed g',
    mapRand (λ _ : nat, PACO3Opt.constructSolutionACO this)
            (seq 0 (populationSize (PACO3Opt.params this))) g = Some (constructed, g') ∧
    let improved := PACO3Opt.apply3Opt this <$> constructed in
    length improved = populationSize (PACO3Opt.params this) ∧
    valid_population (length (PACO3Opt.cities this)) improved ∧
    Forall (measured (PACO3Opt.distanceMatrix this)) improved.
Proof.
  intros Hne.
  destruct (mapRand_total (λ _ : nat, PACO3Opt.constructSolutionACO this)
              (λ c, is_tour (length (PACO3Opt.cities this)) (genes c))
              (seq 0 (populationSize (PACO3Opt.params this))) g)
    as (constructed & g' & Hmap & Hlen & Hall).
  { intros _ h _.
    destruct (constructSolutionACO_builds_a_tour_aux this h Hne)
      as (start & g1 & c & h' & _ & Hc & Ht & _).
    by exists c, h'. }
  exists constructed, g'. split; [done|]. cbv zeta.
  rewrite length_fmap, Hlen, length_seq. split; [done|]. split.
  - unfold valid_population. rewrite Forall_fmap. eapply Forall_impl; [exact Hall|].
    intros c Hc. simpl.
    pose proof (apply3Opt_spec this c) as H. cbv zeta in H.
    destruct H as (Hp & _). unfold is_tour in *. by rewrite Hp.
  - rewrite Forall_fmap. apply Forall_forall. intros c _. simpl.
    pose proof (apply3Opt_spec this c) as H. cbv zeta in H. apply H.
Qed.

(** X22: with at least one city and one ant, [runGeneration] of the ant
    colony always returns, and it rebuilds the colony from scratch: the new
    solutions are [populationSize] tours with true stored distances, sorted
    by ascending distance, the generation counter grows by one and one
    statistics record is appended.  Nothing of the previous solutions is
    kept but the pheromone they left. *)
Theorem PACO3Opt_runGeneration_rebuilds_the_colony elapsed this g :
  PACO3Opt.cities this ≠ [] →
  1 ≤ populationSize (PACO3Opt.params this) →
  ∃ this' pop g',
    PACO3Opt.runGeneration elapsed this g = Some (this', pop, g') ∧
    length (PACO3Opt.solutions this') = populationSize (PACO3Opt.params this) ∧
    valid_population (length (PACO3Opt.cities this)) (PACO3Opt.solutions this') ∧
    Forall (measured (PACO3Opt.distanceMatrix this)) (PACO3Opt.solutions this') ∧
    Sorted le_distance (PACO3Opt.solutions this') ∧
    chromosomes pop = PACO3Opt.solutions this' ∧
    pop_generation pop = S (PACO3Opt.currentGeneration this) ∧
    PACO3Opt.currentGeneration this' = S (PACO3Opt.currentGeneration this) ∧
    length (PACO3Opt.stats this') = S (length (PACO3Opt.stats this)) ∧
    PACO3Opt.cities this' = PACO3Opt.cities this ∧
    PACO3Opt.params this' = PACO3Opt.params this ∧
    PACO3Opt.distanceMatrix this' = PACO3Opt.distanceMatrix this.
Proof.
  intros Hne Hsize.
  destruct (PACO3Opt_colony_spec this g Hne) as (constructed & g' & Hmap & H).
  cbv zeta in H. destruct H as (Hlen & Hvalid & Hmeasured).
  set (improved := PACO3Opt.apply3Opt this <$> constructed) in *.
  assert (Hne' : sortByDistance (sortByDistance improved) ≠ []).
  { apply sortByDistance_nonempty, sortByDistance_nonempty.
    intros E. rewrite E in Hlen. simpl in Hlen. lia. }
  destruct (pushStats_nonempty _ (S (PACO3Opt.currentGeneration this)) elapsed
              (PACO3Opt.stats this) Hne') as [s Hs].
  eexists _, _, g'. split.
  - unfold PACO3Opt.runGeneration. unfold bind at 1. rewrite Hmap. cbn beta iota.
    fold improved. unfold PACO3Opt.updateStats, PACO3Opt.updatePheromones.
    cbn [PACO3Opt.solutions PACO3Opt.with_solutions PACO3Opt.currentGeneration
         PACO3Opt.stats].
    rewrite Hs. reflexivity.
  - cbn [PACO3Opt.getPopulation PACO3Opt.solutions PACO3Opt.with_solutions
         PACO3Opt.currentGeneration PACO3Opt.stats PACO3Opt.cities PACO3Opt.params
         PACO3Opt.distanceMatrix chromosomes pop_generation snapshotOf fst snd].
    rewrite !sortByDistance_length, Hlen, length_app. simpl.
    repeat split; try done.
    + by do 3 apply sortByDistance_valid.
    + by do 3 apply sortByDistance_Forall.
    + apply sortByDistance_sorted.
    + lia.
Qed.

Lemma PACO3Opt_runGeneration_on_square4 :
  ∃ this' pop g',
    PACO3Opt.runGeneration 1 (PACO3Opt.new isqrt square4 params4) rng0
      = Some (this', pop, g') ∧
    length (PACO3Opt.solutions this') = 4 ∧
    valid_population 4 (PACO3Opt.solutions this') ∧
    Forall (measured matrix4) (PACO3Opt.solutions this') ∧
    Sorted le_distance (PACO3Opt.solutions this') ∧
    chromosomes pop = PACO3Opt.solutions this' ∧
    pop_generation pop = 1 ∧
    PACO3Opt.currentGeneration this' = 1 ∧
    length (PACO3Opt.stats this') = 1 ∧
    PACO3Opt.cities this' = square4 ∧
    PACO3Opt.params this' = params4 ∧
    PACO3Opt.distanceMatrix this' = matrix4.
Proof.
  apply (PACO3Opt_runGeneration_rebuilds_the_colony 1
           (PACO3Opt.new isqrt square4 params4) rng0).
  - discriminate.
  - simpl. lia.
Defined.

(** *** The pheromone trails *)

Lemma entry_default_lookup2 m a b : entry m a b = default 0%Q (lookup2 m a b).
Proof. done. Qed.

Lemma entry_set_entry n m i j v a b :
  square n m → i < n → j < n →
  entry (set_entry m i j v) a b = if decide (a = i ∧ b = j) then v else entry m a b.
Proof.
  intros Hsq Hi Hj. rewrite !entry_default_lookup2, (lookup2_set_entry n) by done.
  by destruct (decide _).
Qed.

Lemma add_entry_square n m i j v : square n m → square n (PACO3Opt.add_entry m i j v).
Proof. apply square_set_entry. Qed.

(** A deposit on the edge between [from] and [to], in both directions. *)
Lemma deposit_symmetric n m from to v :
  square n m → symmetric_below n m → from < n → to < n →
  symmetric_below n (PACO3Opt.add_entry (PACO3Opt.add_entry m from to v) to from v).
Proof.
  intros Hsq Hsym Hf Ht a b Ha Hb. unfold PACO3Opt.add_entry.
  pose proof (square_set_entry n m from to (entry m from to + v)%Q Hsq) as Hsq'.
  rewrite !(entry_set_entry n) by done.
  pose proof (Hsym from to Hf Ht) as Hft. pose proof (Hsym a b Ha Hb) as Hab.
  repeat case_decide; try (exfalso; lia); destruct_and?; simplify_eq;
    try reflexivity; try lra.
Qed.

Lemma deposits_spec n (gs : list nat) deposit (l : list nat) : ∀ m,
  is_tour n gs → square n m → symmetric_below n m →
  let m' := foldl (λ m i,
                     match gs !! i, gs !! ((i + 1) `mod` length gs) with
                     | Some from, Some to =>
                         PACO3Opt.add_entry (PACO3Opt.add_entry m from to deposit)
                                            to from deposit
                     | _, _ => m
                     end) m l in
  square n m' ∧ symmetric_below n m'.
Proof.
  intros m Ht. revert m. induction l as [|i l IH]; intros m Hsq Hsym; simpl; [done|].
  destruct (gs !! i) as [from|] eqn:E1; [|by apply IH].
  destruct (gs !! ((i + 1) `mod` length gs)) as [to|] eqn:E2; [|by apply IH].
  apply IH.
  - by do 2 apply add_entry_square.
  - apply deposit_symmetric; [done | done | |].
    + by apply (tour_lookup_lt n gs i).
    + by apply (tour_lookup_lt n gs ((i + 1) `mod` length gs)).
Qed.

Lemma evaporation_spec n (m : Matrix) (f : Q → Q) :
  (∀ u v, u == v → f u == f v) →
  square n m → symmetric_below n m →
  let m' := (λ row : list Q, f <$> row) <$> m in
  square n m' ∧ symmetric_below n m'.
Proof.
  intros Hf [Hlen Hrows] Hsym. cbv zeta. split.
  - split; [by rewrite length_fmap|]. rewrite Forall_fmap.
    eapply Forall_impl; [exact Hrows|]. intros r Hr. simpl. by rewrite length_fmap.
  - assert (He : ∀ a b, a < n → b < n →
              entry ((λ row : list Q, f <$> row) <$> m) a b = f (entry m a b)).
    { intros a b Ha Hb. unfold entry. rewrite list_lookup_fmap.
      destruct (square_lookup2 n m a b (conj Hlen Hrows) Ha Hb) as [v Hv].
      unfold lookup2 in Hv. destruct (m !! a) as [r|]; [|done]. simpl in *.
      rewrite list_lookup_fmap, Hv. done. }
    intros a b Ha Hb. rewrite !He by done. by apply Hf, Hsym.
Qed.

Lemma updatePheromones_spec this :
  let n := length (PACO3Opt.cities this) in
  square n (PACO3Opt.pheromoneMatrix this) →
  symmetric_below n (PACO3Opt.pheromoneMatrix this) →
  valid_population n (PACO3Opt.solutions this) →
  let this' := PACO3Opt.updatePheromones this in
  square n (PACO3Opt.pheromoneMatrix this') ∧
  symmetric_below n (PACO3Opt.pheromoneMatrix this').
Proof.
  intros n Hsq Hsym Hvalid. cbv zeta. unfold PACO3Opt.updatePheromones.
  cbn [PACO3Opt.pheromoneMatrix PACO3Opt.with_solutions].
  pose proof (evaporation_spec n (PACO3Opt.pheromoneMatrix this)
                (λ v, (v * (1 - PACO3Opt.rho))%Q)) as He. cbv zeta in He.
  destruct He as [Hsq' Hsym']; [by intros u v -> | done | done |].
  set (evaporated := (λ row : list Q, _) <$> _) in *. clearbody evaporated.
  assert (Helite : Forall (λ c, is_tour n (genes c))
            (take (5 `min` length (sortByDistance (PACO3Opt.solutions this)))
                  (sortByDistance (PACO3Opt.solutions this)))).
  { apply Forall_take. by apply sortByDistance_valid. }
  revert evaporated Hsq' Hsym'.
  induction Helite as [|c l Hc Hl IH]; intros m Hm Hs; simpl; [done|].
  pose proof (deposits_spec n (genes c) (PACO3Opt.Qdeposit / distance c)
                (seq 0 (length (genes c))) m Hc Hm Hs) as H. cbv zeta in H.
  destruct H as [H1 H2]. by apply IH.
Qed.

Lemma constructSolutionACO_inv this g c g' :
  PACO3Opt.constructSolutionACO this g = Some (c, g') →
  is_tour (length (PACO3Opt.cities this)) (genes c).
Proof.
  intros H. destruct (decide (PACO3Opt.cities this = [])) as [E | Hne].
  - exfalso. unfold PACO3Opt.constructSolutionACO in H. rewrite E in H. simpl in H.
    inv_M H.
  - destruct (constructSolutionACO_builds_a_tour_aux this g Hne)
      as (start & g1 & c0 & h' & _ & Hc & Ht & _).
    rewrite Hc in H. by injection H as -> _.
Qed.

Lemma PACO3Opt_improved_valid this l g constructed g' :
  mapRand (λ _ : nat, PACO3Opt.constructSolutionACO this) l g = Some (constructed, g') →
  valid_population (length (PACO3Opt.cities this)) (PACO3Opt.apply3Opt this <$> constructed).
Proof.
  intros Hmap. set (n := length (PACO3Opt.cities this)).
  assert (H : Forall2 (λ (_ : nat) c, is_tour n (genes c)) l constructed).
  { eapply mapRand_inv; [exact Hmap|].
    intros a h c h' _ Hc. exact (constructSolutionACO_inv this h c h' Hc). }
  assert (Hall : Forall (λ c, is_tour n (genes c)) constructed).
  { eapply Forall2_Forall_r; [exact H|]. apply Forall_forall. by intros a _ c Hc. }
  unfold valid_population. rewrite Forall_fmap.
  eapply Forall_impl; [exact Hall|]. intros c Hc. simpl.
  pose proof (apply3Opt_spec this c) as Hs. cbv zeta in Hs.
  destruct Hs as (Hp & _). unfold is_tour in *. by rewrite Hp.
Qed.

Lemma PACO3Opt_deposit_step this constructed :
  let n := length (PACO3Opt.cities this) in
  square n (PACO3Opt.pheromoneMatrix this) →
  symmetric_below n (PACO3Opt.pheromoneMatrix this) →
  valid_population n (PACO3Opt.apply3Opt this <$> constructed) →
  let this' :=
    PACO3Opt.updatePheromones
      (PACO3Opt.with_solutions this (PACO3Opt.pheromoneMatrix this)
                               (PACO3Opt.apply3Opt this <$> constructed)) in
  square n (PACO3Opt.pheromoneMatrix this') ∧
  symmetric_below n (PACO3Opt.pheromoneMatrix this').
Proof.
  intros n Hsq Hsym Hvalid.
  exact (updatePheromones_spec
           (PACO3Opt.with_solutions this (PACO3Opt.pheromoneMatrix this)
                                    (PACO3Opt.apply3Opt this <$> constructed))
           Hsq Hsym Hvalid).
Qed.

Lemma PACO3Opt_updateStats_fields elapsed this this' :
  PACO3Opt.updateStats elapsed this = Some this' →
  PACO3Opt.cities this' = PACO3Opt.cities this ∧
  PACO3Opt.pheromoneMatrix this' = PACO3Opt.pheromoneMatrix this.
Proof.
  unfold PACO3Opt.updateStats. destruct (pushStats _ _ _ _); [|done].
  by intros [= <-].
Qed.

Lemma PACO3Opt_initialize_inv this g this' g' :
  PACO3Opt.initialize this g = Some (this', g') →
  ∃ constructed g1,
    mapRand (λ _ : nat, PACO3Opt.constructSolutionACO this)
            (seq 0 (populationSize (PACO3Opt.params this))) g = Some (constructed, g1) ∧
    PACO3Opt.cities this' = PACO3Opt.cities this ∧
    PACO3Opt.pheromoneMatrix this' =
      PACO3Opt.pheromoneMatrix
        (PACO3Opt.updatePheromones
           (PACO3Opt.with_solutions this (PACO3Opt.pheromoneMatrix this)
                                    (PACO3Opt.apply3Opt this <$> constructed))).
Proof.
  unfold PACO3Opt.initialize. intros H.
  apply bind_Some in H as (constructed & g1 & Hmap & H).
  apply lift_Some in H as [H _].
  apply PACO3Opt_updateStats_fields in H as [H1 H2].
  exists constructed, g1. split; [done|]. by rewrite H1, H2.
Qed.

Lemma PACO3Opt_runGeneration_inv elapsed this g this' pop g' :
  PACO3Opt.runGeneration elapsed this g = Some (this', pop, g') →
  ∃ constructed g1,
    mapRand (λ _ : nat, PACO3Opt.constructSolutionACO this)
            (seq 0 (populationSize (PACO3Opt.params this))) g = Some (constructed, g1) ∧
    PACO3Opt.cities this' = PACO3Opt.cities this ∧
    PACO3Opt.pheromoneMatrix this' =
      PACO3Opt.pheromoneMatrix
        (PACO3Opt.updatePheromones
           (PACO3Opt.with_solutions this (PACO3Opt.pheromoneMatrix this)
                                    (PACO3Opt.apply3Opt this <$> constructed))).
Proof.
  unfold PACO3Opt.runGeneration. intros H.
  apply bind_Some in H as (constructed & g1 & Hmap & H).
  apply bind_Some in H as (t & g2 & Hu & H).
  apply lift_Some in Hu as [Hu _]. apply ret_Some in H as [H _].
  apply PACO3Opt_updateStats_fields in Hu as [H1 H2].
  exists constructed, g1. split; [done|].
  assert (Hthis : this' = fst (PACO3Opt.getPopulation t)) by by rewrite H.
  rewrite Hthis. unfold PACO3Opt.getPopulation, PACO3Opt.with_solutions.
  cbn [fst PACO3Opt.cities PACO3Opt.pheromoneMatrix]. by rewrite H1, H2.
Qed.

(** X23: the pheromone trails are undirected.  In every state that an ant
    colony reaches by [initialize] and any number of generations, the
    pheromone matrix is still n x n for the n cities and symmetric: the
    evaporation and the deposits of [updatePheromones] treat both directions
    of an edge alike. *)
Theorem PACO_pheromone_stays_symmetric sqrt cities params this :
  PACO_reachable sqrt cities params this →
  PACO3Opt.cities this = cities ∧
  square (length cities) (PACO3Opt.pheromoneMatrix this) ∧
  symmetric_below (length cities) (PACO3Opt.pheromoneMatrix this).
Proof.
  induction 1 as [g this g' Hinit | elapsed this g this' pop g' Hreach IH Hrun].
  - apply PACO3Opt_initialize_inv in Hinit as (constructed & g1 & Hmap & Hc & Hp).
    split; [done|]. rewrite Hp.
    apply PACO3Opt_improved_valid in Hmap.
    apply (PACO3Opt_deposit_step (PACO3Opt.new sqrt cities params) constructed);
      [| |exact Hmap].
    + simpl. split; [by rewrite length_replicate|].
      apply Forall_replicate. by rewrite length_replicate.
    + intros u v Hu Hv. simpl. unfold entry.
      rewrite !lookup_replicate_2 by done. simpl.
      by rewrite !lookup_replicate_2 by done.
  - destruct IH as (Hcities & Hsq & Hsym). subst cities.
    apply PACO3Opt_runGeneration_inv in Hrun as (constructed & g1 & Hmap & Hc & Hp).
    split; [done|]. rewrite Hp.
    apply PACO3Opt_improved_valid in Hmap.
    exact (PACO3Opt_deposit_step this constructed Hsq Hsym Hmap).
Qed.

Lemma PACO_pheromone_on_square4 :
  ∃ this g',
    PACO3Opt.initialize (PACO3Opt.new isqrt square4 params4) rng0 = Some (this, g') ∧
    PACO3Opt.cities this = square4 ∧
    square 4 (PACO3Opt.pheromoneMatrix this) ∧
    symmetric_below 4 (PACO3Opt.pheromoneMatrix this).
Proof.
  run_as (PACO3Opt.initialize (PACO3Opt.new isqrt square4 params4) rng0) this g'.
  assert (H0 : PACO3Opt.initialize (PACO3Opt.new isqrt square4 params4) rng0
               = Some (this, g')) by (vm_compute; reflexivity).
  exists this, g'. split; [exact H0|].
  exact (PACO_pheromone_stays_symmetric isqrt square4 params4 this
           (PACO_initialized isqrt square4 params4 rng0 this g' H0)).
Defined.

(** ** The bee colony: greedy phases and scouts *)

Lemma foldRand_seq_pointwise {B} (f : B → nat → M B) (I : B → B → Prop)
    (Same R : nat → B → B → Prop) :
  (∀ b, I b b) →
  (∀ b1 b2 b3, I b1 b2 → I b2 b3 → I b1 b3) →
  (∀ i b, Same i b b) →
  (∀ i b1 b2 b3, I b1 b2 → Same i b1 b2 → R i b2 b3 → R i b1 b3) →
  (∀ i b1 b2 b3, I b1 b2 → R i b1 b2 → Same i b2 b3 → R i b1 b3) →
  (∀ i b1 b2 b3, Same i b1 b2 → Same i b2 b3 → Same i b1 b3) →
  (∀ b k g b' g', f b k g = Some (b', g') →
     I b b' ∧ R k b b' ∧ ∀ i, i ≠ k → Same i b b') →
  ∀ m k b g b' g', foldRand f b (seq k m) g = Some (b', g') →
    I b b' ∧ ∀ i, if decide (k ≤ i < k + m) then R i b b' else Same i b b'.
Proof.
  intros HI HItrans Hrefl HSR HRS HSS Hstep.
  induction m as [|m IH]; intros k b g b' g' H; simpl in H.
  - apply ret_Some in H as [<- _]. split; [done|]. intros i.
    destruct (decide _); [lia | done].
  - apply bind_Some in H as (b1 & g1 & H1 & H).
    apply Hstep in H1 as (HI1 & HR & Hsame). apply IH in H as [HI2 H].
    split; [by eapply HItrans|]. intros i. specialize (H i).
    destruct (decide (i = k)) as [-> | Hne].
    + destruct (decide (S k ≤ k < S k + m)); [lia|].
      destruct (decide (k ≤ k < k + S m)); [|lia]. by eapply HRS.
    + specialize (Hsame i Hne).
      destruct (decide (S k ≤ i < S k + m)), (decide (k ≤ i < k + S m)); try lia.
      * by eapply HSR.
      * by eapply HSS.
Qed.

Lemma ABC_generateNeighborSolution_spec this source g c g' :
  ABCTSP.generateNeighborSolution this source g = Some (c, g') →
  genes c ≡ₚ genes source ∧ measured (ABCTSP.distanceMatrix this) c.
Proof.
  unfold ABCTSP.generateNeighborSolution. intros H. inv_M H.
  subst. split; [|done]. simpl. destruct (Qltb _ _).
  - inv_M Hc0. by eapply swap_at_perm.
  - inv_M Hc0. subst.
    set (s := a1 `min` a2). set (e := a1 `max` a2).
    assert (Hse : s ≤ e) by lia.
    rewrite reverse_Permutation.
    replace (s + (e - s + 1)) with (s + (e + 1 - s)) by lia.
    rewrite <- drop_drop, take_drop. by rewrite take_drop.
Qed.

Lemma ABC_generateNeighborSolution_total this source g :
  genes source ≠ [] →
  ∃ c g', ABCTSP.generateNeighborSolution this source g = Some (c, g').
Proof.
  intros Hne. unfold ABCTSP.generateNeighborSolution.
  assert (Hn : 0 < length (genes source)) by (destruct (genes source); simpl; [done | lia]).
  unfold bind at 1, Math_random at 1. cbn beta iota.
  set (g0 := λ k, g (S k)).
  destruct (randomIndex_total (length (genes source)) g0) as [[i g1] Hi].
  destruct (randomIndex_total (length (genes source)) g1) as [[j g2] Hj].
  pose proof (randomIndex_lt _ _ _ _ Hi Hn) as Hil.
  pose proof (randomIndex_lt _ _ _ _ Hj Hn) as Hjl.
  destruct (Qltb _ _).
  - destruct (swap_at_Some (genes source) i j Hil Hjl) as [gs' Hs].
    unfold bind at 1. unfold bind at 1. rewrite Hi. cbn beta iota.
    unfold bind at 1. rewrite Hj. cbn beta iota. rewrite Hs. by eexists _, _.
  - unfold bind at 1. unfold bind at 1. rewrite Hi. cbn beta iota.
    unfold bind at 1. rewrite Hj. by eexists _, _.
Qed.

Lemma ABC_greedyStep_spec this k g this' g' :
  ABCTSP.greedyStep this k g = Some (this', g') →
  ABC_static this this' ∧ ABC_greedy_step k this this' ∧
  ∀ i, i ≠ k → ABC_same i this this'.
Proof.
  unfold ABCTSP.greedyStep. intros H. inv_M H.
  match goal with Hs : ABCTSP.foodSources this !! k = Some ?s |- _ =>
    rename Hs into Hsrc; rename s into source end.
  match goal with Hn : ABCTSP.generateNeighborSolution _ _ _ = Some (?c, _) |- _ =>
    apply ABC_generateNeighborSolution_spec in Hn as [Hperm Hmeas];
    rename c into newSolution end.
  pose proof (lookup_lt_Some _ _ _ Hsrc) as Hk.
  destruct (Qltb (distance newSolution) (distance source)) eqn:Hlt; inv_M H; subst this'.
  - split; [|split].
    + unfold ABC_static. simpl. by rewrite !length_insert.
    + intros s t Hs Ht. rewrite Hsrc in Hs. injection Hs as <-.
      exists newSolution, 0. simpl. split; [by apply list_lookup_insert_eq|].
      split; [apply list_lookup_insert_eq; by eapply lookup_lt_Some|].
      right. repeat split; try done; try apply Hmeas. by apply Qltb_lt.
    + intros i Hi. unfold ABC_same. simpl. by rewrite !list_lookup_insert_ne.
  - split; [|split].
    + unfold ABC_static. simpl. by rewrite length_alter.
    + intros s t Hs Ht. rewrite Hsrc in Hs. injection Hs as <-.
      exists source, (S t). simpl. split; [done|].
      split; [by rewrite list_lookup_alter_eq, Ht|]. by left.
    + intros i Hi. unfold ABC_same. simpl. by rewrite list_lookup_alter_ne.
Qed.

Lemma ABC_static_trans b1 b2 b3 : ABC_static b1 b2 → ABC_static b2 b3 → ABC_static b1 b3.
Proof. unfold ABC_static. intros ? ?. destruct_and!. repeat split; congruence. Qed.

Lemma ABC_static_refl b : ABC_static b b.
Proof. by repeat split. Qed.

Lemma ABC_same_trans i b1 b2 b3 : ABC_same i b1 b2 → ABC_same i b2 b3 → ABC_same i b1 b3.
Proof. unfold ABC_same. intros [? ?] [? ?]. split; congruence. Qed.

(** The pointwise effect of a loop over the positions [k .. k+m-1] whose
    body acts on its own position only. *)
Lemma ABC_phase_pointwise (f : ABCTSP.t → nat → M ABCTSP.t)
    (R : nat → ABCTSP.t → ABCTSP.t → Prop) :
  (∀ i b1 b2 b3, ABC_static b1 b2 → ABC_same i b1 b2 → R i b2 b3 → R i b1 b3) →
  (∀ i b1 b2 b3, ABC_static b1 b2 → R i b1 b2 → ABC_same i b2 b3 → R i b1 b3) →
  (∀ b k g b' g', f b k g = Some (b', g') →
     ABC_static b b' ∧ R k b b' ∧ ∀ i, i ≠ k → ABC_same i b b') →
  ∀ m k b g b' g', foldRand f b (seq k m) g = Some (b', g') →
    ABC_static b b' ∧ ∀ i, if decide (k ≤ i < k + m) then R i b b' else ABC_same i b b'.
Proof.
  intros HSR HRS Hstep.
  apply (foldRand_seq_pointwise f ABC_static ABC_same R);
    first [ done | apply ABC_static_refl | apply ABC_static_trans | apply ABC_same_trans ].
Qed.

Lemma ABC_greedy_step_after_same i b1 b2 b3 :
  ABC_static b1 b2 → ABC_same i b1 b2 → ABC_greedy_step i b2 b3 → ABC_greedy_step i b1 b3.
Proof.
  intros Hst [H1 H2] HR source trial Hs Ht. rewrite <- H1 in Hs. rewrite <- H2 in Ht.
  destruct (HR source trial Hs Ht) as (s' & t' & ? & ? & Hg).
  exists s', t'. repeat split; try done.
  destruct Hst as (_ & _ & <- & _). done.
Qed.

Lemma ABC_greedy_step_before_same i b1 b2 b3 :
  ABC_static b1 b2 → ABC_greedy_step i b1 b2 → ABC_same i b2 b3 → ABC_greedy_step i b1 b3.
Proof.
  intros Hst HR [H1 H2] source trial Hs Ht.
  destruct (HR source trial Hs Ht) as (s' & t' & ? & ? & Hg).
  exists s', t'. rewrite H1, H2. done.
Qed.

(** X24: the employed bees are greedy.  With one trial counter per food
    source and non-empty tours, [employedBeePhase] always returns, and at
    every position it either keeps the source and adds one to its counter,
    or puts a rearrangement of it there that is strictly shorter, carries
    its true distance, and starts again at counter 0.  No source gets
    longer. *)
Theorem ABC_employedBeePhase_is_greedy this g :
  length (ABCTSP.trials this) = length (ABCTSP.foodSources this) →
  Forall (λ s, genes s ≠ []) (ABCTSP.foodSources this) →
  ∃ this' g',
    ABCTSP.employedBeePhase this g = Some (this', g') ∧
    ABC_static this this' ∧
    ∀ i source trial,
      ABCTSP.foodSources this !! i = Some source →
      ABCTSP.trials this !! i = Some trial →
      ∃ source' trial',
        ABCTSP.foodSources this' !! i = Some source' ∧
        ABCTSP.trials this' !! i = Some trial' ∧
        greedy_at (ABCTSP.distanceMatrix this) source trial source' trial'.
Proof.
  intros Hlen Hne. unfold ABCTSP.employedBeePhase.
  destruct (foldRand_total ABCTSP.greedyStep
              (λ s, Forall (λ c, genes c ≠ []) (ABCTSP.foodSources s) ∧
                    length (ABCTSP.foodSources s) = length (ABCTSP.foodSources this))
              (seq 0 (length (ABCTSP.foodSources this))) this g)
    as (this' & g' & Hrun & _); [|done|].
  - intros s k h [Hs Hl] Hk. apply elem_of_seq in Hk.
    destruct (lookup_lt_is_Some_2 (ABCTSP.foodSources s) k) as [source Hsrc]; [lia|].
    assert (Hg : genes source ≠ []).
    { apply (proj1 (Forall_forall _ _) Hs). by eapply list_elem_of_lookup_2. }
    destruct (ABC_generateNeighborSolution_total s source h Hg) as (c & h' & Hc).
    pose proof (ABC_generateNeighborSolution_spec _ _ _ _ _ Hc) as [Hp _].
    unfold ABCTSP.greedyStep. unfold bind at 1, lift. rewrite Hsrc. unfold ret at 1.
    unfold bind at 1. rewrite Hc.
    destruct (Qltb _ _); eexists _, _; (split; [done|]); simpl; [|done].
    rewrite length_insert. split; [|done].
    apply Forall_insert; [done|]. intros E. rewrite E in Hp.
    apply Permutation_nil_l in Hp. by apply Hg.
  - exists this', g'. split; [done|].
    pose proof (ABC_phase_pointwise ABCTSP.greedyStep ABC_greedy_step
                  ABC_greedy_step_after_same ABC_greedy_step_before_same
                  ABC_greedyStep_spec _ _ _ _ _ _ Hrun) as [Hst Hall].
    split; [done|]. intros i source trial Hs Ht. specialize (Hall i).
    pose proof (lookup_lt_Some _ _ _ Hs).
    destruct (decide _); [|lia]. by apply Hall.
Qed.

Lemma employed_bees_on_square4 :
  ∃ this g,
    ABCTSP.initialize (ABCTSP.new isqrt square4 params4) rng0 = Some (this, g) ∧
    ∃ this' g',
      ABCTSP.employedBeePhase this g = Some (this', g') ∧
      ABC_static this this' ∧
      ∀ i source trial,
        ABCTSP.foodSources this !! i = Some source →
        ABCTSP.trials this !! i = Some trial →
        ∃ source' trial',
          ABCTSP.foodSources this' !! i = Some source' ∧
          ABCTSP.trials this' !! i = Some trial' ∧
          greedy_at matrix4 source trial source' trial'.
Proof.
  run_as (ABCTSP.initialize (ABCTSP.new isqrt square4 params4) rng0) this g.
  exists this, g. split; [vm_compute; reflexivity|].
  apply (ABC_employedBeePhase_is_greedy this g).
  - reflexivity.
  - repeat constructor; discriminate.
Defined.

(** *** The onlooker bees and the scouts *)

Lemma ABC_improved_at_refl i this : ABC_improved_at i this this.
Proof.
  intros source Hs. exists source. repeat split; try done.
  - apply Qle_refl.
  - by left.
Qed.

Lemma ABC_improved_at_trans i b1 b2 b3 :
  ABC_static b1 b2 →
  ABC_improved_at i b1 b2 → ABC_improved_at i b2 b3 → ABC_improved_at i b1 b3.
Proof.
  intros Hst H12 H23 source Hs.
  destruct (H12 source Hs) as (s2 & Hs2 & Hp2 & Hd2 & Hm2).
  destruct (H23 s2 Hs2) as (s3 & Hs3 & Hp3 & Hd3 & Hm3).
  exists s3. split; [done|]. split; [by rewrite Hp3|].
  split; [by eapply Qle_trans|].
  destruct Hst as (_ & _ & Hdm & _). rewrite Hdm in Hm3.
  destruct Hm3 as [-> | Hm3]; [done | by right].
Qed.

Lemma ABC_greedyStep_improves this k g this' g' :
  length (ABCTSP.trials this) = length (ABCTSP.foodSources this) →
  ABCTSP.greedyStep this k g = Some (this', g') →
  ABC_static this this' ∧ ∀ i, ABC_improved_at i this this'.
Proof.
  intros Hlen H. apply ABC_greedyStep_spec in H as (Hst & Hk & Hother).
  split; [done|]. intros i source Hs.
  destruct (decide (i = k)) as [-> | Hne].
  - destruct (lookup_lt_is_Some_2 (ABCTSP.trials this) k) as [trial Ht].
    { rewrite Hlen. by eapply lookup_lt_Some. }
    destruct (Hk source trial Hs Ht) as (s' & t' & Hs' & _ & Hg).
    exists s'. split; [done|].
    destruct Hg as [[-> _] | (Hp & Hm & Hlt & _)].
    + repeat split; [done | apply Qle_refl | by left].
    + repeat split; [done | by apply Qlt_le_weak | by right].
  - destruct (Hother i Hne) as [H1 _]. exists source. rewrite H1.
    repeat split; [done | done | apply Qle_refl | by left].
Qed.

Lemma ABC_onlookerLoop_improves fuel probabilities : ∀ tcount i this g this' g',
  length (ABCTSP.trials this) = length (ABCTSP.foodSources this) →
  ABCTSP.onlookerLoop fuel probabilities tcount i this g = Some (this', g') →
  ABC_static this this' ∧ ∀ j, ABC_improved_at j this this'.
Proof.
  induction fuel as [|fuel IH]; intros tcount i this g this' g' Hlen H; simpl in H.
  - case_decide; [done|]. inv_M H. subst. split; [apply ABC_static_refl|].
    intros j. apply ABC_improved_at_refl.
  - case_decide; [|inv_M H; subst; split;
                   [apply ABC_static_refl | intros j; apply ABC_improved_at_refl]].
    inv_M H. destruct (Qltb _ _).
    + inv_M H.
      match goal with Hs : ABCTSP.greedyStep _ _ _ = Some _ |- _ =>
        apply ABC_greedyStep_improves in Hs as [Hst1 Himp1]; [|done] end.
      apply IH in H as [Hst2 Himp2].
      * split; [by eapply ABC_static_trans|]. intros j.
        by eapply ABC_improved_at_trans.
      * destruct Hst1 as (_ & _ & _ & _ & _ & _ & -> & ->). done.
    + by apply IH in H.
Qed.

(** X25: the onlooker bees never lengthen a food source.  Whenever
    [onlookerBeePhase] returns, the colony has as many sources as before and
    every position holds a rearrangement of its former source whose stored
    distance is not larger; a source that changed carries its true
    distance. *)
Theorem ABC_onlookerBeePhase_never_lengthens fuel this g this' g' :
  length (ABCTSP.trials this) = length (ABCTSP.foodSources this) →
  ABCTSP.onlookerBeePhase fuel this g = Some (this', g') →
  ABC_static this this' ∧ ∀ i, ABC_improved_at i this this'.
Proof. intros Hlen H. by eapply ABC_onlookerLoop_improves. Qed.

Lemma onlooker_bees_on_square4 :
  ∃ this g this' g',
    ABCTSP.initialize (ABCTSP.new isqrt square4 params4) rng0 = Some (this, g) ∧
    ABCTSP.onlookerBeePhase 100 this g = Some (this', g') ∧
    ABC_static this this' ∧ ∀ i, ABC_improved_at i this this'.
Proof.
  run_as (ABCTSP.initialize (ABCTSP.new isqrt square4 params4) rng0) this g.
  run_as (ABCTSP.onlookerBeePhase 100 this g) this' g'.
  exists this, g, this', g'. split; [vm_compute; reflexivity|].
  assert (H : ABCTSP.onlookerBeePhase 100 this g = Some (this', g'))
    by (vm_compute; reflexivity).
  split; [exact H|].
  apply (ABC_onlookerBeePhase_never_lengthens 100 this g this' g'); [reflexivity | exact H].
Defined.

Lemma createRandomTour_spec cityCount distanceMatrix g :
  ∃ c g', createRandomTour cityCount distanceMatrix g = Some (c, g') ∧
    is_tour cityCount (genes c) ∧ measured distanceMatrix c.
Proof.
  destruct (generateRandomChromosome_tour cityCount g) as (gs & g' & Hgs & Ht).
  exists (createChromosomeWithMatrix gs distanceMatrix), g'.
  unfold createRandomTour, bind. rewrite Hgs. done.
Qed.

Lemma createRandomTour_inv cityCount distanceMatrix g c g' :
  createRandomTour cityCount distanceMatrix g = Some (c, g') →
  is_tour cityCount (genes c) ∧ measured distanceMatrix c.
Proof.
  intros H. destruct (createRandomTour_spec cityCount distanceMatrix g)
    as (c0 & g0 & H0 & Ht & Hm).
  rewrite H0 in H. by injection H as -> _.
Qed.

Lemma ABC_scoutStep_spec this k g :
  ∃ this' g',
    ABCTSP.scoutStep this k g = Some (this', g') ∧
    ABC_static this this' ∧ ABC_scout_step k this this' ∧
    ∀ i, i ≠ k → ABC_same i this this'.
Proof.
  unfold ABCTSP.scoutStep.
  destruct (ABCTSP.trials this !! k) as [trial|] eqn:Htrial.
  - destruct (decide (ABCTSP.limit this ≤ trial)) as [Hle | Hgt].
    + destruct (createRandomTour_spec (length (ABCTSP.cities this))
                  (ABCTSP.distanceMatrix this) g) as (fresh & g' & Hf & Ht & Hm).
      eexists _, g'. unfold bind, ABCTSP.createRandomSolution. rewrite Hf.
      split; [done|]. split; [|split].
      * unfold ABC_static. simpl. by rewrite !length_insert.
      * intros source t Hs Ht'. rewrite Htrial in Ht'. injection Ht' as <-.
        destruct (decide _); [|done]. exists fresh. simpl.
        split; [apply list_lookup_insert_eq; by eapply lookup_lt_Some|].
        split; [apply list_lookup_insert_eq; by eapply lookup_lt_Some|]. done.
      * intros i Hi. unfold ABC_same. simpl. by rewrite !list_lookup_insert_ne.
    + exists this, g. split; [done|]. split; [apply ABC_static_refl|]. split; [|done].
      intros source t Hs Ht'. rewrite Htrial in Ht'. injection Ht' as <-.
      by destruct (decide _).
  - exists this, g. split; [done|]. split; [apply ABC_static_refl|]. split; [|done].
    intros source t Hs Ht'. by rewrite Htrial in Ht'.
Qed.

Lemma ABC_scout_step_after_same i b1 b2 b3 :
  ABC_static b1 b2 → ABC_same i b1 b2 → ABC_scout_step i b2 b3 → ABC_scout_step i b1 b3.
Proof.
  intros Hst [H1 H2] HR source trial Hs Ht. rewrite <- H1 in Hs. rewrite <- H2 in Ht.
  specialize (HR source trial Hs Ht).
  destruct Hst as (<- & _ & <- & <- & _). done.
Qed.

Lemma ABC_scout_step_before_same i b1 b2 b3 :
  ABC_static b1 b2 → ABC_scout_step i b1 b2 → ABC_same i b2 b3 → ABC_scout_step i b1 b3.
Proof.
  intros Hst HR [H1 H2] source trial Hs Ht. specialize (HR source trial Hs Ht).
  rewrite H1, H2. done.
Qed.

Lemma ABC_scoutBeePhase_spec this g :
  ∃ this' g',
    ABCTSP.scoutBeePhase this g = Some (this', g') ∧
    ABC_static this this' ∧
    ∀ i, ABC_scout_step i this this'.
Proof.
  unfold ABCTSP.scoutBeePhase.
  destruct (foldRand_total ABCTSP.scoutStep (λ _, True)
              (seq 0 (length (ABCTSP.foodSources this))) this g)
    as (this' & g' & Hrun & _); [|done|].
  { intros s k h _ _. destruct (ABC_scoutStep_spec s k h) as (s' & h' & Hs & _).
    by exists s', h'. }
  exists this', g'. split; [done|].
  assert (Hstep : ∀ b k h b' h', ABCTSP.scoutStep b k h = Some (b', h') →
            ABC_static b b' ∧ ABC_scout_step k b b' ∧ ∀ i, i ≠ k → ABC_same i b b').
  { intros b k h b' h' Hb.
    destruct (ABC_scoutStep_spec b k h) as (b0 & h0 & Hb0 & H).
    rewrite Hb0 in Hb. by injection Hb as <- _. }
  pose proof (ABC_phase_pointwise ABCTSP.scoutStep ABC_scout_step
                ABC_scout_step_after_same ABC_scout_step_before_same
                Hstep _ _ _ _ _ _ Hrun) as [Hst Hall].
  split; [done|]. intros i source trial Hs Ht. specialize (Hall i).
  pose proof (lookup_lt_Some _ _ _ Hs).
  destruct (decide (0 ≤ i < 0 + _)); [|lia]. by apply Hall.
Qed.

(** X26: the scouts replace exactly the exhausted sources.
    [scoutBeePhase] always returns; a food source whose trial counter has
    reached the limit is replaced by a random tour over all cities with its
    true distance and counter 0, and every other source and counter is left
    as it was. *)
Theorem ABC_scoutBeePhase_replaces_exhausted_sources this g :
  ∃ this' g',
    ABCTSP.scoutBeePhase this g = Some (this', g') ∧
    ABC_static this this' ∧
    ∀ i, ABC_scout_step i this this'.
Proof. apply ABC_scoutBeePhase_spec. Qed.

(** *** The invariant of the bee colony *)

Lemma ABC_static_ok this this' :
  ABC_static this this' →
  valid_population (length (ABCTSP.cities this)) (ABCTSP.foodSources this') →
  Forall (measured (ABCTSP.distanceMatrix this)) (ABCTSP.foodSources this') →
  length (ABCTSP.trials this) = length (ABCTSP.foodSources this) →
  ABC_colony_ok this'.
Proof.
  intros (Hc & _ & Hdm & _ & _ & _ & Hl1 & Hl2) Hv Hm Hlen.
  unfold ABC_colony_ok. rewrite Hc, Hdm, Hl1, Hl2. done.
Qed.

Lemma ABC_greedyStep_ok this k g this' g' :
  ABC_colony_ok this →
  ABCTSP.greedyStep this k g = Some (this', g') → ABC_colony_ok this'.
Proof.
  intros (Hv & Hm & Hlen) H.
  pose proof (ABC_greedyStep_spec _ _ _ _ _ H) as (Hst & _ & _).
  apply (ABC_static_ok this this' Hst); [| |done].
  - unfold ABCTSP.greedyStep in H. inv_M H.
    match goal with Hn : ABCTSP.generateNeighborSolution _ _ _ = Some _ |- _ =>
      apply ABC_generateNeighborSolution_spec in Hn as [Hperm _] end.
    destruct (Qltb _ _); inv_M H; subst this'; simpl; [|done].
    apply Forall_insert; [done|]. unfold is_tour. rewrite Hperm.
    apply (proj1 (Forall_forall _ _) Hv). by eapply list_elem_of_lookup_2.
  - unfold ABCTSP.greedyStep in H. inv_M H.
    match goal with Hn : ABCTSP.generateNeighborSolution _ _ _ = Some _ |- _ =>
      apply ABC_generateNeighborSolution_spec in Hn as [_ Hmeas] end.
    destruct (Qltb _ _); inv_M H; subst this'; simpl; [|done].
    by apply Forall_insert.
Qed.

Lemma ABC_employedBeePhase_ok this g this' g' :
  ABC_colony_ok this →
  ABCTSP.employedBeePhase this g = Some (this', g') → ABC_colony_ok this'.
Proof.
  intros Hok H. unfold ABCTSP.employedBeePhase in H.
  eapply (foldRand_inv _ ABC_colony_ok); [exact H| |done].
  intros s k h s' h' Hs _ Hstep. by eapply ABC_greedyStep_ok.
Qed.

Lemma ABC_onlookerLoop_ok fuel probabilities : ∀ tcount i this g this' g',
  ABC_colony_ok this →
  ABCTSP.onlookerLoop fuel probabilities tcount i this g = Some (this', g') →
  ABC_colony_ok this'.
Proof.
  induction fuel as [|fuel IH]; intros tcount i this g this' g' Hok H; simpl in H.
  - case_decide; [done|]. inv_M H. by subst.
  - case_decide; [|inv_M H; by subst].
    inv_M H. destruct (Qltb _ _).
    + inv_M H.
      match goal with Hs : ABCTSP.greedyStep _ _ _ = Some _ |- _ =>
        apply ABC_greedyStep_ok in Hs; [|done] end.
      by eapply IH.
    + by eapply IH.
Qed.

Lemma ABC_scoutBeePhase_ok this g this' g' :
  ABC_colony_ok this →
  ABCTSP.scoutBeePhase this g = Some (this', g') → ABC_colony_ok this'.
Proof.
  intros Hok H. unfold ABCTSP.scoutBeePhase in H.
  eapply (foldRand_inv _ ABC_colony_ok); [exact H| |done].
  intros s k h s' h' (Hv & Hm & Hlen) _ Hstep. unfold ABCTSP.scoutStep in Hstep.
  destruct (ABCTSP.trials s !! k); [|inv_M Hstep; by subst].
  case_decide; inv_M Hstep; subst; [|done].
  match goal with Hf : ABCTSP.createRandomSolution _ _ = Some _ |- _ =>
    apply createRandomTour_inv in Hf as [Ht Hmeas] end.
  unfold ABC_colony_ok. simpl. rewrite !length_insert.
  repeat split; [by apply Forall_insert | by apply Forall_insert | done].
Qed.

Lemma ABC_updateStats_ok elapsed this this' :
  ABC_colony_ok this →
  ABCTSP.updateStats elapsed this = Some this' →
  ABC_colony_ok this' ∧ Sorted le_distance (ABCTSP.foodSources this') ∧
  ABCTSP.cities this' = ABCTSP.cities this ∧
  ABCTSP.distanceMatrix this' = ABCTSP.distanceMatrix this.
Proof.
  intros (Hv & Hm & Hlen). unfold ABCTSP.updateStats.
  destruct (pushStats _ _ _ _); [|done]. intros [= <-].
  unfold ABC_colony_ok. simpl. rewrite sortByDistance_length.
  repeat split; try done.
  - by apply sortByDistance_valid.
  - by apply sortByDistance_Forall.
  - apply sortByDistance_sorted.
Qed.

Lemma ABC_initialize_ok sqrt cities params g this g' :
  ABCTSP.initialize (ABCTSP.new sqrt cities params) g = Some (this, g') →
  ABC_colony_ok this ∧ Sorted le_distance (ABCTSP.foodSources this) ∧
  ABCTSP.cities this = cities ∧
  ABCTSP.distanceMatrix this = buildDistanceMatrix sqrt cities.
Proof.
  unfold ABCTSP.initialize. intros H.
  apply bind_Some in H as (t & g1 & Hsrc & H). apply lift_Some in H as [H _].
  unfold ABCTSP.initialize_sources in Hsrc.
  apply bind_Some in Hsrc as (sources & g2 & Hmap & Hsrc).
  apply ret_Some in Hsrc as [<- _].
  assert (HF : Forall2 (λ (_ : nat) c, is_tour (length cities) (genes c) ∧
                                       measured (buildDistanceMatrix sqrt cities) c)
                 (seq 0 (populationSize params / 2)) sources).
  { eapply mapRand_inv; [exact Hmap|]. intros a h c h' _ Hc.
    exact (createRandomTour_inv _ _ _ _ _ Hc). }
  pose proof (Forall2_length _ _ _ HF) as Hlen. rewrite length_seq in Hlen.
  assert (Hall : Forall (λ c, is_tour (length cities) (genes c) ∧
                              measured (buildDistanceMatrix sqrt cities) c) sources).
  { eapply Forall2_Forall_r; [exact HF|]. apply Forall_forall. by intros a _ c Hc. }
  apply Forall_and in Hall as [Hv Hm].
  apply ABC_updateStats_ok in H as (Hok & Hs & Hc & Hd); [done|].
  unfold ABC_colony_ok. simpl. by rewrite length_replicate.
Qed.

Lemma ABC_runGeneration_ok fuel elapsed this g this' pop g' :
  ABC_colony_ok this →
  ABCTSP.runGeneration fuel elapsed this g = Some (this', pop, g') →
  ABC_colony_ok this' ∧ Sorted le_distance (ABCTSP.foodSources this') ∧
  ABCTSP.cities this' = ABCTSP.cities this ∧
  ABCTSP.distanceMatrix this' = ABCTSP.distanceMatrix this.
Proof.
  intros Hok H. unfold ABCTSP.runGeneration in H.
  apply bind_Some in H as (t1 & g1 & H1 & H).
  apply bind_Some in H as (t2 & g2 & H2 & H).
  apply bind_Some in H as (t3 & g3 & H3 & H).
  apply bind_Some in H as (t4 & g4 & H4 & H).
  apply lift_Some in H4 as [H4 _]. apply ret_Some in H as [H _].
  pose proof (ABC_employedBeePhase_ok _ _ _ _ Hok H1) as Hok1.
  pose proof (ABC_onlookerLoop_ok _ _ _ _ _ _ _ _ Hok1 H2) as Hok2.
  pose proof (ABC_scoutBeePhase_ok _ _ _ _ Hok2 H3) as Hok3.
  assert (Hst : ABCTSP.cities t3 = ABCTSP.cities this ∧
                ABCTSP.distanceMatrix t3 = ABCTSP.distanceMatrix this).
  { unfold ABCTSP.employedBeePhase in H1.
    assert (E1 : ABC_static this t1).
    { destruct (ABC_phase_pointwise ABCTSP.greedyStep ABC_greedy_step
                  ABC_greedy_step_after_same ABC_greedy_step_before_same
                  ABC_greedyStep_spec _ _ _ _ _ _ H1) as [E _]. done. }
    assert (E2 : ABC_static t1 t2).
    { destruct Hok1 as (_ & _ & Hl).
      by destruct (ABC_onlookerLoop_improves _ _ _ _ _ _ _ _ Hl H2). }
    assert (E3 : ABC_static t2 t3).
    { destruct (ABC_scoutBeePhase_spec t2 g2) as (t & h & Ht & E & _).
      rewrite Ht in H3. by injection H3 as <- _. }
    destruct (ABC_static_trans _ _ _ (ABC_static_trans _ _ _ E1 E2) E3)
      as (? & _ & ? & _). done. }
  destruct Hst as [Hc Hd].
  apply ABC_updateStats_ok in H4 as (Hok4 & Hs4 & Hc4 & Hd4).
  2: { destruct Hok3 as (Hv & Hm & Hl). by repeat split. }
  simpl in Hc4, Hd4.
  assert (Hthis : this' = fst (ABCTSP.getPopulation t4)) by by rewrite H.
  rewrite Hthis. unfold ABCTSP.getPopulation. cbn [fst].
  destruct Hok4 as (Hv & Hm & Hl).
  unfold ABC_colony_ok. simpl. rewrite sortByDistance_length.
  rewrite Hc4, Hd4, Hc, Hd in *.
  repeat split; try done.
  - by apply sortByDistance_valid.
  - by apply sortByDistance_Forall.
  - apply sortByDistance_sorted.
Qed.

(** X27: the bee colony stays well formed.  In every state reached by
    [initialize] and any number of generations, each food source is a tour
    over all cities whose stored distance is the true cyclic length of its
    genes, there is exactly one trial counter per source, and the sources
    are sorted by ascending distance. *)
Theorem ABC_food_sources_are_measured_tours sqrt cities params this :
  ABC_reachable sqrt cities params this →
  valid_population (length cities) (ABCTSP.foodSources this) ∧
  Forall (measured (buildDistanceMatrix sqrt cities)) (ABCTSP.foodSources this) ∧
  length (ABCTSP.trials this) = length (ABCTSP.foodSources this) ∧
  Sorted le_distance (ABCTSP.foodSources this).
Proof.
  intros H.
  assert (Hall : ABC_colony_ok this ∧ Sorted le_distance (ABCTSP.foodSources this) ∧
                 ABCTSP.cities this = cities ∧
                 ABCTSP.distanceMatrix this = buildDistanceMatrix sqrt cities).
  { induction H as [g this g' Hinit | fuel elapsed this g this' pop g' Hreach IH Hrun].
    - by eapply ABC_initialize_ok.
    - destruct IH as (Hok & _ & Hc & Hd).
      apply (ABC_runGeneration_ok _ _ _ _ _ _ _ Hok) in Hrun as (Hok' & Hs & Hc' & Hd').
      rewrite Hc' , Hd'. done. }
  destruct Hall as ((Hv & Hm & Hl) & Hs & Hc & Hd). rewrite Hc, Hd in *. done.
Qed.

Lemma ABC_food_sources_on_square4 :
  ∃ this g this' pop g',
    ABCTSP.initialize (ABCTSP.new isqrt square4 params4) rng0 = Some (this, g) ∧
    ABCTSP.runGeneration 100 1 this g = Some (this', pop, g') ∧
    valid_population 4 (ABCTSP.foodSources this') ∧
    Forall (measured matrix4) (ABCTSP.foodSources this') ∧
    length (ABCTSP.trials this') = length (ABCTSP.foodSources this') ∧
    Sorted le_distance (ABCTSP.foodSources this').
Proof.
  run_as (ABCTSP.initialize (ABCTSP.new isqrt square4 params4) rng0) this g.
  run_as (ABCTSP.runGeneration 100 1 this g) r g'.
  exists this, g, (fst r), (snd r), g'.
  assert (H0 : ABCTSP.initialize (ABCTSP.new isqrt square4 params4) rng0 = Some (this, g))
    by (vm_compute; reflexivity).
  assert (H1 : ABCTSP.runGeneration 100 1 this g = Some (fst r, snd r, g'))
    by (vm_compute; reflexivity).
  split; [exact H0|]. split; [exact H1|].
  exact (ABC_food_sources_are_measured_tours isqrt square4 params4 (fst r)
           (ABC_generation isqrt square4 params4 100 1 this g (fst r) (snd r) g'
              (ABC_initialized isqrt square4 params4 rng0 this g H0) H1)).
Defined.

(** ** The plain genetic algorithm: order crossover *)

Lemma rotate_nat_add_mod b i n : rotate_nat_add b i n = (b + i) `mod` n.
Proof.
  unfold rotate_nat_add. by rewrite <- Nat2Z.inj_add, <- Nat2Z.inj_mod, Nat2Z.id.
Qed.

Lemma rotate_perm {A} b (l : list A) : rotate b l ≡ₚ l.
Proof. unfold rotate. by rewrite Permutation_app_comm, take_drop. Qed.

Lemma rotate_fmap {A B} (f : A → B) b (l : list A) : rotate b (f <$> l) = f <$> rotate b l.
Proof. unfold rotate. by rewrite length_fmap, fmap_app, fmap_drop, fmap_take. Qed.

Lemma filter_not_in_length (l s : list nat) :
  NoDup l → NoDup s → (∀ x, x ∈ s → x ∈ l) →
  length (filter (λ x, x ∉ s) l) + length s = length l.
Proof.
  intros Hl Hs Hsub.
  assert (Hin : filter (λ x, x ∈ s) l ≡ₚ s).
  { apply NoDup_Permutation; [by apply NoDup_filter | done |].
    intros x. rewrite list_elem_of_filter. naive_solver. }
  rewrite <- (Permutation_length Hin), Nat.add_comm, <- length_app.
  apply Permutation_length, filter_app_complement.
Qed.

Lemma succ_mod_idemp x n : (x `mod` n + 1) `mod` n = (x + 1) `mod` n.
Proof.
  destruct n as [|n]; [done|]. by rewrite Nat.Div0.add_mod_idemp_l.
Qed.

Section OrderCrossover.

Variables (n b : nat) (p2 seg : list nat).
Hypothesis Hn : 0 < n.
Hypothesis Hlen2 : length p2 = n.
Hypothesis Hnd2 : NoDup p2.

(** The genes of the second parent in the order the loop reads them, the
    ones among the first [t] that the child takes, and the state of the
    child after reading [t] genes, seen from the first free slot. *)
Let rot2 : list nat := rotate b p2.
Let placed (t : nat) : list nat := filter (λ x, x ∉ seg) (take t rot2).
Let m : nat := length (placed n).
Let child_after (t : nat) : list Z :=
  (Z.of_nat <$> placed t) ++ replicate (m - length (placed t)) (-1)%Z ++ (Z.of_nat <$> seg).

Local Lemma ox_length_rot2 : length rot2 = n.
Proof. unfold rot2. by rewrite length_rotate. Qed.

Local Lemma ox_placed_all : placed n = filter (λ x, x ∉ seg) rot2.
Proof. unfold placed. by rewrite take_ge by (rewrite ox_length_rot2; lia). Qed.

Local Lemma ox_placed_le t : length (placed t) ≤ m.
Proof.
  unfold m. rewrite ox_placed_all. unfold placed.
  rewrite <- (take_drop t rot2) at 2. rewrite filter_app, length_app. lia.
Qed.

Local Lemma ox_placed_full t : length (placed t) = m → placed t = placed n.
Proof.
  unfold m. rewrite ox_placed_all. unfold placed. intros Hc.
  transitivity (filter (λ x, x ∉ seg) (take t rot2 ++ drop t rot2));
    [|by rewrite take_drop].
  rewrite filter_app.
  assert (E : filter (λ x, x ∉ seg) (drop t rot2) = []).
  { apply length_zero_iff_nil.
    assert (Hsum : length (filter (λ x, x ∉ seg) (take t rot2 ++ drop t rot2)) =
                   length (filter (λ x, x ∉ seg) rot2)) by by rewrite take_drop.
    rewrite filter_app, length_app in Hsum. lia. }
  by rewrite E, app_nil_r.
Qed.

Local Lemma ox_minus_one t child :
  rotate b child = child_after t → (-1)%Z ∈ child ↔ length (placed t) < m.
Proof.
  intros Hrot. rewrite <- (elem_of_rotate child b), Hrot. unfold child_after.
  rewrite !elem_of_app, !list_elem_of_fmap. split.
  - intros [(x & Hx & _) | [Hr%elem_of_replicate | (x & Hx & _)]]; lia.
  - intros Hlt. right. left. apply elem_of_replicate. split; [done | lia].
Qed.

Local Lemma ox_step t g :
  t < n → rot2 !! t = Some g →
  p2 !! ((b + t) `mod` n) = Some g ∧
  placed (S t) = (if decide (g ∈ seg) then placed t else placed t ++ [g]) ∧
  ∀ child, rotate b child = child_after t → Z.of_nat g ∈ child ↔ g ∈ seg.
Proof.
  intros Ht Hg. split; [|split].
  - unfold rot2 in Hg. rewrite lookup_rotate_r in Hg by lia.
    by rewrite rotate_nat_add_mod, Hlen2 in Hg.
  - unfold placed. rewrite (take_S_r _ _ _ Hg), filter_app.
    destruct (decide (g ∈ seg)).
    + rewrite (filter_cons_False _ g []) by (simpl; tauto).
      by rewrite filter_nil, app_nil_r.
    + by rewrite (filter_cons_True _ g []), filter_nil.
  - intros child Hrot.
    assert (Hnotplaced : g ∉ placed t).
    { unfold placed. rewrite list_elem_of_filter. intros [_ Hgt].
      apply list_elem_of_lookup in Hgt as [i Hi].
      apply lookup_take_Some in Hi as [Hi Hit].
      assert (Hndr : NoDup rot2) by (unfold rot2; by rewrite rotate_perm).
      pose proof (NoDup_lookup _ _ _ _ Hndr Hi Hg). lia. }
    rewrite <- (elem_of_rotate child b), Hrot. unfold child_after.
    rewrite !elem_of_app, !list_elem_of_fmap. split.
    + intros [(x & Hx & Hxp) | [Hr%elem_of_replicate | (x & Hx & Hxs)]].
      * apply Nat2Z.inj in Hx as <-. done.
      * lia.
      * by apply Nat2Z.inj in Hx as <-.
    + intros Hs. right. right. by exists g.
Qed.

Lemma fillFromParent2_spec : ∀ fuel t child,
  n ≤ t + fuel → t ≤ n → length child = n →
  rotate b child = child_after t →
  ∃ child',
    StandardGA.fillFromParent2 fuel n p2 child
      ((b + length (placed t)) `mod` n) ((b + t) `mod` n) = Some child' ∧
    length child' = n ∧
    rotate b child' =
      (Z.of_nat <$> filter (λ x, x ∉ seg) (rotate b p2)) ++ (Z.of_nat <$> seg).
Proof.
  assert (Hdone : ∀ fuel t child,
            rotate b child = child_after t → (-1)%Z ∉ child → length child = n →
            ∃ child',
              StandardGA.fillFromParent2 fuel n p2 child
                ((b + length (placed t)) `mod` n) ((b + t) `mod` n) = Some child' ∧
              length child' = n ∧
              rotate b child' =
                (Z.of_nat <$> filter (λ x, x ∉ seg) (rotate b p2)) ++ (Z.of_nat <$> seg)).
  { intros fuel t child Hrot Hno Hlenc. exists child. split; [|split; [done|]].
    - destruct fuel; simpl; by destruct (decide _).
    - assert (Hc : length (placed t) = m).
      { pose proof (ox_placed_le t). rewrite (ox_minus_one t child Hrot) in Hno. lia. }
      rewrite Hrot. unfold child_after. rewrite Hc, Nat.sub_diag. simpl.
      by rewrite (ox_placed_full t Hc), ox_placed_all. }
  induction fuel as [|fuel IH]; intros t child Hfuel Ht Hlenc Hrot.
  - apply Hdone; [done | | done]. rewrite (ox_minus_one t child Hrot).
    assert (t = n) by lia. subst t. unfold m. lia.
  - destruct (decide ((-1)%Z ∈ child)) as [Hin | Hno]; [|by apply Hdone].
    pose proof (proj1 (ox_minus_one t child Hrot) Hin) as Hlt.
    assert (Htn : t < n).
    { destruct (decide (t = n)) as [-> | ]; [|lia]. unfold m in Hlt. lia. }
    destruct (lookup_lt_is_Some_2 rot2 t) as [g Hg]; [rewrite ox_length_rot2; lia|].
    destruct (ox_step t g Htn Hg) as (Hg2 & Hplaced & Hmem).
    specialize (Hmem child Hrot).
    cbn [StandardGA.fillFromParent2]. destruct (decide ((-1)%Z ∈ child)); [|done].
    rewrite Hg2. cbn [mbind option_bind].
    destruct (decide (Z.of_nat g ∈ child)) as [Hgin | Hgout].
    + apply Hmem in Hgin. destruct (decide (g ∈ seg)); [|done].
      destruct (IH (S t) child) as (child' & Hrun & Hl' & Hr'); [lia | lia | done | |].
      * unfold child_after. rewrite Hplaced. exact Hrot.
      * exists child'. rewrite Hplaced in Hrun. rewrite succ_mod_idemp.
        replace (b + t + 1) with (b + S t) by lia. done.
    + assert (Hgseg : g ∉ seg) by (intros Hs; by apply Hgout, Hmem).
      destruct (decide (g ∈ seg)); [done|].
      pose proof (ox_placed_le t) as Hle.
      assert (Hmn : m ≤ n).
      { unfold m. rewrite ox_placed_all, <- ox_length_rot2. apply length_filter. }
      destruct (IH (S t) (<[(b + length (placed t)) `mod` n := Z.of_nat g]> child))
        as (child' & Hrun & Hl' & Hr'); [lia | lia | by rewrite length_insert | |].
      * unfold child_after. rewrite Hplaced, length_app. simpl.
        rewrite <- (rotate_nat_add_mod b (length (placed t)) n), <- Hlenc at 1.
        rewrite rotate_insert_l by lia. rewrite Hrot. unfold child_after.
        rewrite insert_app_r_alt by (rewrite length_fmap; lia).
        rewrite length_fmap, Nat.sub_diag.
        replace (m - length (placed t)) with (S (m - (length (placed t) + 1))) by lia.
        simpl. rewrite fmap_app. simpl. by rewrite <- (assoc (++)).
      * exists child'. rewrite Hplaced, length_app in Hrun. simpl in Hrun.
        rewrite !succ_mod_idemp.
        replace (b + t + 1) with (b + S t) by lia.
        replace (b + length (placed t) + 1) with (b + (length (placed t) + 1)) by lia.
        done.
Qed.

End OrderCrossover.

(** The first loop of the crossover copies the cities at the positions
    [start .. start+k-1] of the first parent into an array of [-1]. *)
Lemma copySegment_spec (p1 : list nat) n start : ∀ k,
  length p1 = n → start + k ≤ n →
  foldl (λ child i,
           ch ← child; g ← p1 !! i; Some (<[i := Z.of_nat g]> ch))
        (Some (replicate n (-1)%Z)) (seq start k)
  = Some (replicate start (-1)%Z ++ (Z.of_nat <$> take k (drop start p1)) ++
          replicate (n - start - k) (-1)%Z).
Proof.
  intros k Hlen. induction k as [|k IH]; intros Hk.
  - simpl. rewrite Nat.sub_0_r, <- replicate_add. do 2 f_equal. lia.
  - rewrite seq_S, foldl_snoc, IH by lia. cbn [mbind option_bind].
    destruct (lookup_lt_is_Some_2 p1 (start + k)) as [g Hg]; [lia|].
    rewrite Hg. cbn [mbind option_bind]. f_equal.
    rewrite insert_app_r_alt by (rewrite length_replicate; lia).
    rewrite length_replicate. replace (start + k - start) with k by lia.
    assert (Hlk : length (Z.of_nat <$> take k (drop start p1)) = k).
    { rewrite length_fmap, length_take, length_drop. lia. }
    rewrite insert_app_r_alt by lia. rewrite Hlk, Nat.sub_diag.
    replace (n - start - k) with (S (n - start - S k)) by lia. simpl.
    rewrite (take_S_r _ _ g) by (by rewrite lookup_drop).
    by rewrite fmap_app, <- (assoc (++)).
Qed.

Lemma rotate_child0 n start end_ (segZ : list Z) :
  start ≤ end_ → end_ < n → length segZ = end_ + 1 - start →
  rotate (end_ + 1)
    (replicate start (-1)%Z ++ segZ ++ replicate (n - start - (end_ + 1 - start)) (-1)%Z)
  = replicate (n - (end_ + 1 - start)) (-1)%Z ++ segZ.
Proof.
  intros Hse He Hseg. unfold rotate.
  rewrite !length_app, !length_replicate, Hseg.
  replace (start + (end_ + 1 - start + (n - start - (end_ + 1 - start)))) with n by lia.
  destruct (decide (end_ + 1 = n)) as [E | Hne].
  - rewrite E, Nat.Div0.mod_same. simpl.
    replace (n - start - (n - start)) with 0 by lia.
    replace (n - (n - start)) with start by lia. simpl. by rewrite !app_nil_r.
  - rewrite Nat.mod_small by lia. rewrite (assoc (++)).
    rewrite drop_app_length', take_app_length'
      by (rewrite length_app, length_replicate; lia).
    rewrite (assoc (++)), <- replicate_add. do 2 f_equal. lia.
Qed.

Lemma filter_not_in_perm (l s : list nat) :
  NoDup l → NoDup s → (∀ x, x ∈ s → x ∈ l) →
  filter (λ x, x ∉ s) l ++ s ≡ₚ l.
Proof.
  intros Hl Hs Hsub.
  assert (Hin : filter (λ x, x ∈ s) l ≡ₚ s).
  { apply NoDup_Permutation; [by apply NoDup_filter | done |].
    intros x. rewrite list_elem_of_filter. naive_solver. }
  rewrite Permutation_app_comm.
  etrans; [|apply (filter_app_complement (λ x, x ∈ s) l)].
  by apply Permutation_app_tail.
Qed.

Lemma StandardGA_crossover_spec n fuel this parent1 parent2 g :
  is_tour n (genes parent1) → is_tour n (genes parent2) → 0 < n → n ≤ fuel →
  ∃ point1 g1 point2 g2 child,
    randomIndex n g = Some (point1, g1) ∧ randomIndex n g1 = Some (point2, g2) ∧
    StandardGA.crossover fuel this parent1 parent2 g = Some (child, g2) ∧
    let start := point1 `min` point2 in
    let end_ := point1 `max` point2 in
    let segment := take (end_ + 1 - start) (drop start (genes parent1)) in
    rotate (end_ + 1) (genes child) =
      filter (λ x, x ∉ segment) (rotate (end_ + 1) (genes parent2)) ++ segment ∧
    (∀ i, start ≤ i ≤ end_ → genes child !! i = genes parent1 !! i) ∧
    is_tour n (genes child) ∧ measured (StandardGA.distanceMatrix this) child.
Proof.
  intros Ht1 Ht2 Hn Hfuel.
  pose proof (tour_length _ _ Ht1) as Hl1. pose proof (tour_length _ _ Ht2) as Hl2.
  destruct (randomIndex_total n g) as [[point1 g1] Hp1].
  destruct (randomIndex_total n g1) as [[point2 g2] Hp2].
  pose proof (randomIndex_lt _ _ _ _ Hp1 Hn) as Hlt1.
  pose proof (randomIndex_lt _ _ _ _ Hp2 Hn) as Hlt2.
  set (start := point1 `min` point2). set (end_ := point1 `max` point2).
  assert (Hse : start ≤ end_) by lia. assert (He : end_ < n) by lia.
  set (len := end_ + 1 - start).
  set (seg := take len (drop start (genes parent1))).
  assert (Hseglen : length seg = len).
  { subst seg. rewrite length_take, length_drop. lia. }
  assert (Hsegsub : seg `sublist_of` genes parent1).
  { subst seg. etrans; [apply sublist_take | apply sublist_drop]. }
  assert (Hsegnd : NoDup seg).
  { apply (sublist_NoDup seg (genes parent1)); [by eapply tour_NoDup | done]. }
  set (rot2 := rotate (end_ + 1) (genes parent2)).
  assert (Hrotnd : NoDup rot2).
  { subst rot2. rewrite rotate_perm. by eapply tour_NoDup. }
  assert (Hsub : ∀ x, x ∈ seg → x ∈ rot2).
  { intros x Hx. subst rot2. rewrite elem_of_rotate.
    apply (tour_elem n _ x Ht2). apply (tour_elem n _ x Ht1).
    by eapply elem_of_sublist. }
  pose proof (filter_not_in_length rot2 seg Hrotnd Hsegnd Hsub) as Hcount.
  assert (Hrotlen : length rot2 = n) by (subst rot2; by rewrite length_rotate).
  rewrite Hrotlen in Hcount.
  set (child0 := replicate start (-1)%Z ++ (Z.of_nat <$> seg) ++
                 replicate (n - start - len) (-1)%Z).
  assert (Hcopy := copySegment_spec (genes parent1) n start len Hl1 ltac:(lia)).
  fold seg child0 in Hcopy.
  destruct (fillFromParent2_spec n (end_ + 1) (genes parent2) seg Hn Hl2
              (tour_NoDup _ _ Ht2) fuel 0 child0) as (child' & Hfill & Hlen' & Hrot').
  { lia. }
  { lia. }
  { subst child0. rewrite !length_app, !length_replicate, length_fmap. lia. }
  { fold rot2. rewrite take_0, filter_nil, take_ge by lia. simpl. rewrite Nat.sub_0_r.
    subst child0 len. rewrite rotate_child0 by (rewrite ?length_fmap; done || lia).
    do 2 f_equal. lia. }
  fold rot2 in Hfill, Hrot'. rewrite take_0, filter_nil in Hfill. simpl in Hfill.
  rewrite !Nat.add_0_r in Hfill.
  set (child := createChromosomeWithMatrix (Z.to_nat <$> child')
                  (StandardGA.distanceMatrix this)).
  assert (Hgenes : rotate (end_ + 1) (genes child) = filter (λ x, x ∉ seg) rot2 ++ seg).
  { subst child. simpl. rewrite rotate_fmap, Hrot', <- fmap_app, <- list_fmap_compose.
    rewrite <- (list_fmap_id (filter _ rot2 ++ seg)) at 2.
    apply list_fmap_ext. intros i x _. simpl. apply Nat2Z.id. }
  exists point1, g1, point2, g2, child.
  split; [done|]. split; [done|]. split.
  { unfold StandardGA.crossover. rewrite Hl1. unfold bind at 1. rewrite Hp1.
    cbn beta iota. unfold bind at 1. rewrite Hp2. cbn beta iota.
    fold start end_. fold len. rewrite Hcopy. unfold bind at 1, lift at 1, ret at 1.
    cbn beta iota. unfold bind at 1, lift at 1. rewrite Hfill. done. }
  cbv zeta. fold start end_. fold len. fold seg. fold rot2.
  split; [exact Hgenes|]. split; [|split; [|done]].
  - intros i Hi.
    assert (Hlenc : length (genes child) = n).
    { subst child. simpl. by rewrite length_fmap. }
    rewrite <- (lookup_rotate_l (genes child) (end_ + 1) i) by lia.
    rewrite Hgenes, Hlenc.
    assert (Hidx : rotate_nat_sub (end_ + 1) i n = (n - len) + (i - start)).
    { unfold rotate_nat_sub. rewrite Z.mod_small by lia. lia. }
    rewrite Hidx, lookup_app_r by lia.
    replace (n - len + (i - start) - length (filter (λ x, x ∉ seg) rot2))
      with (i - start) by lia.
    subst seg. rewrite lookup_take_lt by lia. rewrite lookup_drop. f_equal. lia.
  - unfold is_tour. rewrite <- (rotate_perm (end_ + 1) (genes child)), Hgenes.
    rewrite (filter_not_in_perm rot2 seg Hrotnd Hsegnd Hsub).
    subst rot2. by rewrite rotate_perm.
Qed.

(** X28: [StandardGA.crossover] is the order crossover.  For two parents
    that are tours over [n >= 1] cities it always returns (the loop needs at
    most [n] passes).  With [start <= end_] the smaller and the larger of
    the two drawn cut points, the child keeps the cities of the first parent
    at the positions [start .. end_], and its other positions, read
    cyclically from [end_ + 1], hold the remaining cities in the order in
    which the second parent, read cyclically from [end_ + 1], has them.  The
    child is therefore a tour, and it carries its true distance. *)
Theorem StandardGA_crossover_is_order_crossover n fuel this parent1 parent2 g :
  is_tour n (genes parent1) → is_tour n (genes parent2) → 0 < n → n ≤ fuel →
  ∃ point1 g1 point2 g2 child,
    randomIndex n g = Some (point1, g1) ∧ randomIndex n g1 = Some (point2, g2) ∧
    StandardGA.crossover fuel this parent1 parent2 g = Some (child, g2) ∧
    let start := point1 `min` point2 in
    let end_ := point1 `max` point2 in
    let segment := take (end_ + 1 - start) (drop start (genes parent1)) in
    rotate (end_ + 1) (genes child) =
      filter (λ x, x ∉ segment) (rotate (end_ + 1) (genes parent2)) ++ segment ∧
    (∀ i, start ≤ i ≤ end_ → genes child !! i = genes parent1 !! i) ∧
    is_tour n (genes child) ∧ measured (StandardGA.distanceMatrix this) child.
Proof. apply StandardGA_crossover_spec. Qed.

Lemma order_crossover_on_square4 :
  ∃ point1 g1 point2 g2 child,
    randomIndex 4 rng0 = Some (point1, g1) ∧ randomIndex 4 g1 = Some (point2, g2) ∧
    StandardGA.crossover 4 (StandardGA.new isqrt square4 params4) tour0123 tour2031 rng0
      = Some (child, g2) ∧
    let start := point1 `min` point2 in
    let end_ := point1 `max` point2 in
    let segment := take (end_ + 1 - start) (drop start [0; 1; 2; 3]) in
    rotate (end_ + 1) (genes child) =
      filter (λ x, x ∉ segment) (rotate (end_ + 1) [2; 0; 3; 1]) ++ segment ∧
    (∀ i, start ≤ i ≤ end_ → genes child !! i = [0; 1; 2; 3] !! i) ∧
    is_tour 4 (genes child) ∧ measured matrix4 child.
Proof.
  apply (StandardGA_crossover_is_order_crossover 4 4
           (StandardGA.new isqrt square4 params4) tour0123 tour2031 rng0).
  - unfold is_tour. simpl. done.
  - apply tour2031_is_tour.
  - lia.
  - lia.
Defined.

(** ** The plain genetic algorithm: a generation *)

Lemma maxDistance_fold_ge (l : list Chromosome) : ∀ init,
  let r := foldl (λ m chr, if Qltb m (distance chr) then distance chr else m) init l in
  (init <= r)%Q ∧ ∀ c, c ∈ l → (distance c <= r)%Q.
Proof.
  induction l as [|x l IH]; intros init; simpl.
  - split; [apply Qle_refl|]. intros c Hc. by apply elem_of_nil in Hc.
  - pose proof (IH (if Qltb init (distance x) then distance x else init)) as H.
    cbv zeta in H. destruct H as [H1 H2].
    destruct (Qltb init (distance x)) eqn:E.
    + apply Qltb_lt in E. split; [lra|].
      intros c [-> | Hc]%elem_of_cons; [done | by apply H2].
    + apply Qltb_ge in E. split; [done|].
      intros c [-> | Hc]%elem_of_cons; [lra | by apply H2].
Qed.

Lemma maxDistanceOf_ge population c :
  c ∈ population → (distance c <= maxDistanceOf population)%Q.
Proof.
  intros Hc. unfold maxDistanceOf. destruct population as [|c0 l]; [by apply elem_of_nil in Hc|].
  pose proof (maxDistance_fold_ge (c0 :: l) (distance c0)) as H. cbv zeta in H.
  by apply H.
Qed.

(** The wheel of the plain algorithm stops at a member for every spin. *)
Lemma StandardGA_wheel_total population (u : Q) :
  population ≠ [] → (0 <= u < 1)%Q →
  let maxDistance := maxDistanceOf population in
  let fitnesses := (λ c, (maxDistance - distance c + 1)%Q) <$> population in
  ∃ c, spinWheel population fitnesses 0 (u * foldl Qplus 0%Q fitnesses) = Some c ∧
       c ∈ population.
Proof.
  intros Hne Hu maxDistance fitnesses.
  assert (Hpos : ∀ f, f ∈ fitnesses → (0 < f)%Q).
  { intros f Hf. apply list_elem_of_fmap in Hf as (c & -> & Hc).
    pose proof (maxDistanceOf_ge population c Hc). fold maxDistance in H. lra. }
  assert (Hnef : fitnesses ≠ []).
  { subst fitnesses. by destruct population. }
  pose proof (foldl_Qplus_pos fitnesses Hpos 0%Q ltac:(lra) Hnef) as Htotal.
  pose proof (spinWheel_first population fitnesses (u * foldl Qplus 0%Q fitnesses)
                (length population) 0 ltac:(lia)) as H.
  rewrite !drop_0 in H. change (cumulativeFitness fitnesses 0) with 0%Q in H.
  destruct (spinWheel _ _ _ _) as [c|] eqn:E.
  - exists c. split; [done|]. by eapply spinWheel_elem.
  - exfalso. assert (Hlen : length fitnesses = length population).
    { subst fitnesses. by rewrite length_fmap. }
    assert (Hl : 0 < length population) by (destruct population; simpl; [done | lia]).
    specialize (H (length population - 1) ltac:(lia) ltac:(lia) ltac:(lia)).
    replace (S (length population - 1)) with (length fitnesses) in H by lia.
    rewrite cumulativeFitness_all in H. nra.
Qed.

(** A loop that pushes one element per pass. *)
Lemma foldRand_push_total {A C} (f : list C → A → M (list C)) (P : C → Prop)
    (l : list A) :
  (∀ b a g, a ∈ l → ∃ c g', f b a g = Some (b ++ [c], g') ∧ P c) →
  ∀ b g, ∃ cs g',
    foldRand f b l g = Some (b ++ cs, g') ∧ length cs = length l ∧ Forall P cs.
Proof.
  induction l as [|a l IH]; intros Hstep b g.
  - exists [], g. simpl. by rewrite app_nil_r.
  - destruct (Hstep b a g ltac:(by left)) as (c & g1 & Hc & HP).
    destruct (IH (λ b a g Ha, Hstep b a g ltac:(by right)) (b ++ [c]) g1)
      as (cs & g' & Hrun & Hlen & Hall).
    exists (c :: cs), g'. simpl. unfold bind. rewrite Hc, Hrun.
    rewrite <- (assoc (++)). repeat split; [by rewrite Hlen | by constructor].
Qed.

Lemma StandardGA_selection_total this g :
  StandardGA.population this ≠ [] →
  ∃ selected g',
    StandardGA.selection this g = Some (selected, g') ∧
    length selected = populationSize (StandardGA.params this) ∧
    Forall (λ c, c ∈ StandardGA.population this) selected.
Proof.
  intros Hne. unfold StandardGA.selection.
  match goal with |- ∃ _ _, foldRand ?f [] ?l g = _ ∧ _ =>
    destruct (foldRand_push_total f (λ c, c ∈ StandardGA.population this) l) with
      (b := @nil Chromosome) (g := g) as (cs & g' & Hrun & Hlen & Hall) end.
  - intros b a h _. unfold bind, Math_random.
    destruct (StandardGA_wheel_total (StandardGA.population this) (u01 (h 0)) Hne
                (u01_range _)) as (c & Hc & Hin).
    cbv zeta in Hc. rewrite Hc. by eexists _, _.
  - exists cs, g'. rewrite length_seq in Hlen. done.
Qed.

Lemma StandardGA_mutation_spec n this chromosome g :
  is_tour n (genes chromosome) → 0 < n →
  ∃ c g',
    StandardGA.mutation this chromosome g = Some (c, g') ∧
    is_tour n (genes c) ∧ measured (StandardGA.distanceMatrix this) c.
Proof.
  intros Ht Hn. pose proof (tour_length _ _ Ht) as Hl.
  unfold StandardGA.mutation. unfold bind at 1, Math_random at 1. cbn beta iota.
  destruct (Qltb _ _).
  - set (g0 := λ k, g (S k)).
    destruct (randomIndex_total (length (genes chromosome)) g0) as [[i g1] Hi].
    destruct (randomIndex_total (length (genes chromosome)) g1) as [[j g2] Hj].
    pose proof (randomIndex_lt _ _ _ _ Hi ltac:(lia)) as Hil.
    pose proof (randomIndex_lt _ _ _ _ Hj ltac:(lia)) as Hjl.
    destruct (swap_at_Some (genes chromosome) i j Hil Hjl) as [gs' Hs].
    unfold bind at 1. unfold bind at 1. rewrite Hi. cbn beta iota.
    unfold bind at 1. rewrite Hj. cbn beta iota. rewrite Hs.
    eexists _, _. split; [done|]. split; [|done]. simpl.
    unfold is_tour. by rewrite (swap_at_perm _ _ _ _ Hs).
  - eexists _, _. split; [done|]. done.
Qed.

(** X29: a generation of the plain genetic algorithm.  From a non-empty
    population of tours over [n >= 1] cities, with a population size of at
    least one, [runGeneration] always returns.  The new population consists
    of tours again, sorted by ascending distance; it has [populationSize]
    members, or as many as there are elites when these are more; stored
    distances stay true when they were; the generation counter grows by one
    and one statistics record is appended. *)
Theorem StandardGA_runGeneration_keeps_a_population_of_tours n fuel elapsed this g :
  valid_population n (StandardGA.population this) →
  StandardGA.population this ≠ [] →
  0 < n → n ≤ fuel →
  1 ≤ populationSize (StandardGA.params this) →
  ∃ this' pop g',
    StandardGA.runGeneration fuel elapsed this g = Some (this', pop, g') ∧
    length (StandardGA.population this') =
      populationSize (StandardGA.params this) `max`
        (eliteCount (StandardGA.params this) `min` length (StandardGA.population this)) ∧
    valid_population n (StandardGA.population this') ∧
    (Forall (measured (StandardGA.distanceMatrix this)) (StandardGA.population this) →
     Forall (measured (StandardGA.distanceMatrix this)) (StandardGA.population this')) ∧
    Sorted le_distance (StandardGA.population this') ∧
    chromosomes pop = StandardGA.population this' ∧
    StandardGA.currentGeneration this' = S (StandardGA.currentGeneration this) ∧
    length (StandardGA.stats this') = S (length (StandardGA.stats this)) ∧
    StandardGA.cities this' = StandardGA.cities this ∧
    StandardGA.params this' = StandardGA.params this ∧
    StandardGA.distanceMatrix this' = StandardGA.distanceMatrix this.
Proof.
  intros Hvalid Hne Hn Hfuel Hsize.
  set (p := StandardGA.params this). set (dm := StandardGA.distanceMatrix this).
  set (sorted := sortByDistance (StandardGA.population this)).
  set (good := λ c : Chromosome,
         is_tour n (genes c) ∧
         (Forall (measured dm) (StandardGA.population this) → measured dm c)).
  assert (Hsorted_good : Forall good sorted).
  { apply Forall_forall. intros c Hc.
    apply (proj1 (sortByDistance_elem (StandardGA.population this) c)) in Hc. split.
    - unfold valid_population in Hvalid. rewrite Forall_forall in Hvalid. by apply Hvalid.
    - intros Hm. rewrite Forall_forall in Hm. by apply Hm. }
  set (this1 := {| StandardGA.cities := StandardGA.cities this;
                   StandardGA.params := p;
                   StandardGA.distanceMatrix := StandardGA.distanceMatrix this;
                   StandardGA.population := sorted;
                   StandardGA.currentGeneration := StandardGA.currentGeneration this;
                   StandardGA.stats := StandardGA.stats this |}).
  destruct (StandardGA_selection_total this1 g) as (selected & g1 & Hsel & Hsellen & Hselin).
  { by apply sortByDistance_nonempty. }
  change (length selected = populationSize p) in Hsellen.
  change (Forall (λ c, c ∈ sorted) selected) in Hselin.
  assert (Hsize' : 1 ≤ populationSize p) by done.
  set (elite := take (eliteCount p) sorted).
  assert (Helite_len : length elite = eliteCount p `min` length (StandardGA.population this)).
  { subst elite sorted. by rewrite length_take, sortByDistance_length. }
  (* the crossover loop *)
  set (crossoverStep := λ (newPopulation : list Chromosome) (_ : nat),
         let* i1 := randomIndex (length selected) in
         let* parent1 := lift (selected !! i1) in
         let* i2 := randomIndex (length selected) in
         let* parent2 := lift (selected !! i2) in
         let* offspring := StandardGA.crossover fuel this1 parent1 parent2 in
         ret (newPopulation ++ [offspring])).
  destruct (foldRand_push_total crossoverStep good
              (seq 0 (populationSize p - length elite))) with (b := elite) (g := g1)
    as (offspring & g2 & Hcross & Hofflen & Hoffgood).
  { intros b a h _. unfold crossoverStep.
    assert (Hsl : 0 < length selected) by lia.
    destruct (randomIndex_total (length selected) h) as [[i1 h1] Hi1].
    destruct (randomIndex_total (length selected) h1) as [[i2 h2] Hi2].
    destruct (lookup_lt_is_Some_2 selected i1) as [parent1 Hp1];
      [by eapply randomIndex_lt|].
    destruct (lookup_lt_is_Some_2 selected i2) as [parent2 Hp2];
      [by eapply randomIndex_lt|].
    assert (Ht : ∀ c, c ∈ selected → is_tour n (genes c)).
    { intros c Hc. apply (proj1 (Forall_forall _ _) Hselin) in Hc.
      by apply (proj1 (Forall_forall _ _) Hsorted_good) in Hc as [Hc _]. }
    destruct (StandardGA_crossover_spec n fuel this1 parent1 parent2 h2)
      as (_ & _ & _ & h3 & child & _ & _ & Hchild & _ & _ & Htour & Hmeas);
      [apply Ht; by eapply list_elem_of_lookup_2
      |apply Ht; by eapply list_elem_of_lookup_2 | done | done |].
    exists child, h3. split; [|by split].
    unfold bind at 1. rewrite Hi1. cbn beta iota. rewrite Hp1.
    unfold bind at 1, lift at 1, ret at 1. cbn beta iota.
    unfold bind at 1. rewrite Hi2. cbn beta iota. rewrite Hp2.
    unfold bind at 1, lift at 1, ret at 1. cbn beta iota.
    unfold bind at 1. rewrite Hchild. done. }
  rewrite length_seq in Hofflen.
  set (newPopulation := elite ++ offspring).
  assert (Hnew_len : length newPopulation =
            populationSize p `max` (eliteCount p `min` length (StandardGA.population this))).
  { subst newPopulation. rewrite length_app. lia. }
  assert (Hnew_good : Forall good newPopulation).
  { apply Forall_app. split; [by apply Forall_take | done]. }
  (* the mutation loop *)
  set (mutationStep := λ (newPopulation : list Chromosome) (i : nat),
         let* c := lift (newPopulation !! i) in
         let* c' := StandardGA.mutation this1 c in
         ret (<[i := c']> newPopulation)).
  destruct (foldRand_total mutationStep
              (λ l, length l = length newPopulation ∧ Forall good l)
              (seq (eliteCount p) (length newPopulation - eliteCount p)) newPopulation g2)
    as (mutated & g3 & Hmut & Hmutlen & Hmutgood); [|done|].
  { intros l i h [Hl Hg] Hi. apply elem_of_seq in Hi. unfold mutationStep.
    destruct (lookup_lt_is_Some_2 l i) as [c Hc]; [lia|].
    pose proof (proj1 (Forall_forall _ _) Hg c (list_elem_of_lookup_2 _ _ _ Hc)) as [Hct _].
    destruct (StandardGA_mutation_spec n this1 c h Hct Hn) as (c' & h' & Hc' & Ht' & Hm').
    exists (<[i := c']> l), h'. rewrite Hc. unfold bind at 1, lift at 1, ret at 1.
    cbn beta iota. unfold bind at 1. rewrite Hc'. split; [done|].
    rewrite length_insert. split; [done|]. apply Forall_insert; [done|]. by split. }
  (* the statistics *)
  assert (Hmutne : sortByDistance mutated ≠ []).
  { apply sortByDistance_nonempty. intros E. rewrite E in Hmutlen. simpl in Hmutlen.
    lia. }
  destruct (pushStats_nonempty _ (S (StandardGA.currentGeneration this1)) elapsed
              (StandardGA.stats this1) Hmutne) as [s Hs].
  eexists _, _, g3. split.
  { unfold StandardGA.runGeneration. fold p sorted this1 elite.
    unfold bind at 1. rewrite Hsel. cbn beta iota. fold crossoverStep.
    unfold bind at 1. rewrite Hcross. cbn beta iota. fold newPopulation mutationStep.
    unfold bind at 1. rewrite Hmut. cbn beta iota.
    unfold bind at 1, lift at 1, StandardGA.updateStats.
    cbn [StandardGA.population StandardGA.currentGeneration StandardGA.stats].
    rewrite Hs. reflexivity. }
  subst this1.
  cbn [StandardGA.getPopulation StandardGA.population StandardGA.currentGeneration
       StandardGA.stats StandardGA.cities StandardGA.params StandardGA.distanceMatrix
       chromosomes snapshotOf fst snd].
  rewrite !sortByDistance_length, Hmutlen, Hnew_len, length_app. simpl.
  repeat split; try done.
  - do 2 apply sortByDistance_valid. unfold valid_population.
    eapply Forall_impl; [exact Hmutgood|]. by intros c [Hc _].
  - intros Hm. do 2 apply sortByDistance_Forall.
    eapply Forall_impl; [exact Hmutgood|]. intros c [_ Hc]. by apply Hc.
  - apply sortByDistance_sorted.
  - lia.
Qed.

Lemma StandardGA_runGeneration_on_square4 :
  ∃ this g,
    StandardGA.initialize (StandardGA.new isqrt square4 params4) rng0 = Some (this, g) ∧
    ∃ this' pop g',
      StandardGA.runGeneration 4 1 this g = Some (this', pop, g') ∧
      length (StandardGA.population this') = 4 ∧
      valid_population 4 (StandardGA.population this') ∧
      (Forall (measured matrix4) (StandardGA.population this) →
       Forall (measured matrix4) (StandardGA.population this')) ∧
      Sorted le_distance (StandardGA.population this') ∧
      chromosomes pop = StandardGA.population this' ∧
      StandardGA.currentGeneration this' = 1 ∧
      length (StandardGA.stats this') = 2 ∧
      StandardGA.cities this' = square4 ∧
      StandardGA.params this' = params4 ∧
      StandardGA.distanceMatrix this' = matrix4.
Proof.
  run_as (StandardGA.initialize (StandardGA.new isqrt square4 params4) rng0) this g.
  exists this, g. split; [vm_compute; reflexivity|].
  apply (StandardGA_runGeneration_keeps_a_population_of_tours 4 4 1 this g).
  - unfold valid_population.
    let l := eval vm_compute in (StandardGA.population this) in
    change (StandardGA.population this) with l.
    repeat match goal with
           | |- Forall _ (_ :: _) => constructor
           | |- Forall _ [] => constructor
           end; unfold is_tour; apply (bool_decide_unpack _); vm_compute; reflexivity.
  - discriminate.
  - lia.
  - lia.
  - simpl. lia.
Defined.

(** ** Stepping the store *)

Lemma GAJGHO_getStats_generation now this stats :
  GAJGHO.getStats now this = Some stats → stat_generation stats = GAJGHO.generation this.
Proof.
  unfold GAJGHO.getStats, statsOf. intros H.
  destruct (best _); [|done]. destruct (worst _); [|done]. simpl in H.
  by injection H as <-.
Qed.

(** X30: the store's history has one record per generation.  After a
    successful [initializeAlgorithm] and [k] calls of [stepGeneration] the
    store is at generation [min k maxGenerations], and so is its algorithm;
    the history holds the records of the generations
    [0 .. currentGeneration] in this order, one each; and the population
    shown is the snapshot of the algorithm.  Steps beyond [maxGenerations]
    change nothing. *)
Theorem Store_history_has_one_record_per_generation sqrt store0 k store :
  Store_after sqrt store0 k store →
  Store.params store = Store.params store0 ∧
  Store.cities store = Store.cities store0 ∧
  Store.currentGeneration store = k `min` maxGenerations (Store.params store0) ∧
  stat_generation <$> Store.history store = seq 0 (S (Store.currentGeneration store)) ∧
  ∃ algorithm,
    Store.algorithm store = Some algorithm ∧
    GAJGHO.generation algorithm = Store.currentGeneration store ∧
    Store.currentPopulation store = Some (GAJGHO.getPopulation algorithm).
Proof.
  induction 1 as [now g store g' Hinit | k fuel now store g store' g' Hafter IH Hstep].
  - unfold Store.initializeAlgorithm in Hinit. case_decide; [inv_M Hinit; done|].
    apply bind_Some in Hinit as (algorithm & g1 & Halg & Hinit).
    apply bind_Some in Hinit as (stats & g2 & Hstats & Hinit).
    apply lift_Some in Hstats as [Hstats _]. apply ret_Some in Hinit as [Hinit _].
    injection Hinit as <-. simpl.
    destruct (GAJGHO_initialize_spec sqrt now
                (GAJGHO.new sqrt now (Store.cities store0) (Store.params store0)) g)
      as (a & h & Ha & Hg & _).
    rewrite Ha in Halg. injection Halg as <- _.
    apply GAJGHO_getStats_generation in Hstats. rewrite Hg in Hstats.
    rewrite Hstats. repeat split; try done. by exists a.
  - destruct IH as (Hp & Hc & Hgen & Hhist & algorithm & Halg & Hg & Hpop).
    unfold Store_stepGeneration in Hstep. rewrite Halg in Hstep.
    case_decide as Hlt.
    + apply bind_Some in Hstep as ([algorithm' population] & g1 & Hrun & Hstep).
      apply bind_Some in Hstep as (stats & g2 & Hstats & Hstep).
      apply lift_Some in Hstats as [Hstats _]. apply ret_Some in Hstep as [<- _].
      cbn [fst snd] in *.
      cbn [Store.params Store.cities Store.currentGeneration Store.history
           Store.algorithm Store.currentPopulation].
      apply GAJGHO_getStats_generation in Hstats.
      destruct (GAJGHO_runGeneration_inv _ _ _ _ _ _ Hrun)
        as (_ & _ & Hg' & _ & _ & _ & -> & _).
      rewrite Hstats, Hg', Hg. rewrite Hp in Hlt.
      split; [done|]. split; [done|]. split; [lia|]. split.
      * rewrite fmap_app, Hhist. cbn [fmap list_fmap]. rewrite Hstats, Hg', Hg.
        by rewrite (seq_S (S _)).
      * exists algorithm'. by rewrite Hg', Hg.
    + apply ret_Some in Hstep as [<- _]. rewrite Hp in Hlt.
      split; [done|]. split; [done|]. split; [lia|]. split; [done|].
      by exists algorithm.
Qed.

Lemma Store_history_on_square4 :
  ∃ store g store' g',
    Store.initializeAlgorithm isqrt 0 store_square4 rng0
      = Some (Store.Initialized store, g) ∧
    Store_stepGeneration 100 isqrt 7 store g = Some (store', g') ∧
    Store.params store' = params4 ∧
    Store.cities store' = square4 ∧
    Store.currentGeneration store' = 1 ∧
    stat_generation <$> Store.history store' = [0; 1] ∧
    ∃ algorithm,
      Store.algorithm store' = Some algorithm ∧
      GAJGHO.generation algorithm = Store.currentGeneration store' ∧
      Store.currentPopulation store' = Some (GAJGHO.getPopulation algorithm).
Proof.
  run_as (Store.initializeAlgorithm isqrt 0 store_square4 rng0) o g.
  pose (store := match o with Store.Initialized s => s | Store.Warned _ => store_square4 end).
  run_as (Store_stepGeneration 100 isqrt 7 store g) store' g'.
  assert (H0 : Store.initializeAlgorithm isqrt 0 store_square4 rng0
               = Some (Store.Initialized store, g)) by (vm_compute; reflexivity).
  assert (H1 : Store_stepGeneration 100 isqrt 7 store g = Some (store', g'))
    by (vm_compute; reflexivity).
  exists store, g, store', g'. split; [exact H0|]. split; [exact H1|].
  pose proof (Store_history_has_one_record_per_generation isqrt store_square4 1 store'
                (Store_after_step isqrt store_square4 0 100 7%Z store g store' g'
                   (Store_after_initialize isqrt store_square4 0%Z rng0 store g H0) H1))
    as (Hp & Hc & Hg & Hh & Ha).
  split; [exact Hp|]. split; [exact Hc|]. split; [exact Hg|].
  split; [rewrite Hh, Hg; reflexivity | exact Ha].
Defined.
